(** * SP_Catalog: the crawl-estimate-persist pipeline of [main.go]

    A shallow embedding of the pipeline functions of [src/main.go]
    ([parseExtSet], [detectMIME], [hashFile], [estimateFileCount],
    [scanAndPersist], [runScan]) and of its interface ([Update] and what
    it calls), together with the parts of Go's standard library they call
    ([strings], [unicode], [unicode/utf8], [path/filepath] on Unix,
    [crypto/sha256], [filepath.WalkDir], [database/sql] transactions).

    Conventions.
    - A Go [string] is a sequence of bytes: [list ascii] (written [gostring]);
      [str "lit"] turns a literal into one.  The functions of [strings]
      that read runes decode them from UTF-8 as the library does.
    - A Go [map[string]struct{}] is a [gset gostring]; an SQL table with a
      primary key is a [gmap] from the key to the remaining columns.
    - [int64] and [int] counters are [Z] with the wrap-around written out.
    - The file system, the MIME table and the failures of the database are
      inputs of the model: every function takes what it reads as an argument.
    - The case tables of [unicode], which depend on the Go release, are a
      parameter too (the class [Unicode.CaseTables]): what lower-cases a
      string, and every theorem about it, is stated for any tables. *)

From Stdlib Require Import ZArith Ascii String List Lia DecimalString.
From stdpp Require Import base tactics option list gmap strings.

Local Open Scope Z_scope.

(** ** Go strings *)

Abbreviation gostring := (list ascii).

Definition str (s : string) : gostring := list_ascii_of_string s.

(** ** [unicode/utf8] and [unicode] *)

Module Utf8.

Definition RuneError : Z := 0xFFFD.   (* the "error" Rune or "Unicode replacement character" *)
Definition RuneSelf : Z := 0x80.      (* characters below RuneSelf are represented as themselves *)
Definition MaxRune : Z := 0x10FFFF.   (* maximum valid Unicode code point *)

(** The valid runes: the code points without the surrogate halves. *)
Definition validRune (r : Z) : Prop := 0 <= r <= MaxRune /\ ~ (0xD800 <= r <= 0xDFFF).

(** A byte as a number, and [byte(r)]: the low eight bits. *)
Definition byte (c : ascii) : Z := Z.of_N (N_of_ascii c).

Definition chr (r : Z) : ascii := ascii_of_N (Z.to_N (r mod 256)).

Definition locb : Z := 0x80.
Definition hicb : Z := 0xBF.
Definition maskx : Z := 0x3F.
Definition mask2 : Z := 0x1F.
Definition mask3 : Z := 0x0F.
Definition mask4 : Z := 0x07.

(** The tables [first] and [acceptRanges] for a first byte that is not
  ASCII: the size of the sequence and the range of its second byte;
  [None] is the entry [xx] of an invalid first byte. *)
Definition first (s0 : Z) : option (nat * Z * Z) :=
if s0 <? 0xC2 then None                          (* 0x80-0xC1: xx *)
else if s0 <=? 0xDF then Some (2%nat, locb, hicb)  (* 0xC2-0xDF: s1 *)
else if s0 =? 0xE0 then Some (3%nat, 0xA0, hicb)   (* 0xE0: s2 *)
else if s0 <=? 0xEC then Some (3%nat, locb, hicb)  (* 0xE1-0xEC: s3 *)
else if s0 =? 0xED then Some (3%nat, locb, 0x9F)   (* 0xED: s4 *)
else if s0 <=? 0xEF then Some (3%nat, locb, hicb)  (* 0xEE-0xEF: s3 *)
else if s0 =? 0xF0 then Some (4%nat, 0x90, hicb)   (* 0xF0: s5 *)
else if s0 <=? 0xF3 then Some (4%nat, locb, hicb)  (* 0xF1-0xF3: s6 *)
else if s0 =? 0xF4 then Some (4%nat, locb, 0x8F)   (* 0xF4: s7 *)
else None.                                       (* 0xF5-0xFF: xx *)

(** [utf8.DecodeRuneInString]: the first rune of [s] and its width in
  bytes; [(RuneError, 1)] for an encoding that is not valid, also when a
  byte of the sequence is missing (the test [n < sz]), and
  [(RuneError, 0)] for the empty string.  The [range] loop over a string
  decodes in the same way. *)
Definition DecodeRuneInString (s : gostring) : Z * nat :=
match s with
| [] => (RuneError, 0%nat)
| c0 :: s =>
    let s0 := byte c0 in
    if s0 <? RuneSelf then (s0, 1%nat)
    else
      match first s0, s with
      | Some (sz, lo, hi), c1 :: s =>
          let s1 := byte c1 in
          if (s1 <? lo) || (hi <? s1) then (RuneError, 1%nat)
          else if (sz <=? 2)%nat then
            (Z.lor (Z.shiftl (Z.land s0 mask2) 6) (Z.land s1 maskx), 2%nat)
          else
            match s with
            | c2 :: s =>
                let s2 := byte c2 in
                if (s2 <? locb) || (hicb <? s2) then (RuneError, 1%nat)
                else if (sz <=? 3)%nat then
                  (Z.lor (Z.shiftl (Z.land s0 mask3) 12)
                     (Z.lor (Z.shiftl (Z.land s1 maskx) 6) (Z.land s2 maskx)), 3%nat)
                else
                  match s with
                  | c3 :: _ =>
                      let s3 := byte c3 in
                      if (s3 <? locb) || (hicb <? s3) then (RuneError, 1%nat)
                      else
                        (Z.lor (Z.shiftl (Z.land s0 mask4) 18)
                           (Z.lor (Z.shiftl (Z.land s1 maskx) 12)
                              (Z.lor (Z.shiftl (Z.land s2 maskx) 6) (Z.land s3 maskx))),
                         4%nat)
                  | [] => (RuneError, 1%nat)
                  end
            | [] => (RuneError, 1%nat)
            end
      | _, _ => (RuneError, 1%nat)
      end
end.

(** [utf8.RuneStart]: the byte is not a continuation byte. *)
Definition RuneStart (b : Z) : bool := negb (Z.land b 0xC0 =? 0x80).

(** The loop [for start--; start >= lim; start-- { if RuneStart(s[start])
  { break } }] of [DecodeLastRuneInString], on the bytes before the last
  one, nearest first: the number of bytes from [start] to the end, given
  that [d] bytes are passed; [fuel] is the distance to [lim], and a
  [start] below zero is set to zero. *)
Fixpoint lastStart (fuel : nat) (before : gostring) (d : nat) : nat :=
match before with
| [] => d
| c :: before' =>
    match fuel with
    | O => S d
    | S fuel' => if RuneStart (byte c) then S d else lastStart fuel' before' (S d)
    end
end.

(** [utf8.DecodeLastRuneInString]: the last rune of [s] and its width. *)
Definition DecodeLastRuneInString (s : gostring) : Z * nat :=
match rev s with
| [] => (RuneError, 0%nat)
| c :: before =>
    let r := byte c in
    if r <? RuneSelf then (r, 1%nat)
    else
      let d := lastStart 3 before 1 in
      let '(r, size) := DecodeRuneInString (drop (length s - d) s) in
      if decide (size = d) then (r, size) else (RuneError, 1%nat)
end.

(** [utf8.AppendRune] to the empty string: the encoding of a rune, that of
  [RuneError] for a rune out of range or a surrogate half. *)
Definition encode3 (r : Z) : gostring :=
[chr (Z.lor 0xE0 (Z.shiftr r 12));
 chr (Z.lor 0x80 (Z.land (Z.shiftr r 6) maskx));
 chr (Z.lor 0x80 (Z.land r maskx))].

Definition EncodeRune (r : Z) : gostring :=
if (0 <=? r) && (r <=? 0x7F) then [chr r]
else if (0 <=? r) && (r <=? 0x7FF) then
  [chr (Z.lor 0xC0 (Z.shiftr r 6)); chr (Z.lor 0x80 (Z.land r maskx))]
else if (r <? 0) || (MaxRune <? r) || ((0xD800 <=? r) && (r <=? 0xDFFF)) then
  encode3 RuneError
else if r <=? 0xFFFF then encode3 r
else
  [chr (Z.lor 0xF0 (Z.shiftr r 18));
   chr (Z.lor 0x80 (Z.land (Z.shiftr r 12) maskx));
   chr (Z.lor 0x80 (Z.land (Z.shiftr r 6) maskx));
   chr (Z.lor 0x80 (Z.land r maskx))].

End Utf8.

Module Unicode.

Definition MaxASCII : Z := 0x7F.
Definition MaxLatin1 : Z := 0xFF.

(** The case tables of [unicode] are those of the Unicode version of the Go
  release that builds the program; they are no part of the repository
  and are taken as they come: [to_LowerCase r] is
  [unicode.To(unicode.LowerCase, r)], the lookup of [r] in [CaseRanges],
  which [unicode.ToLower] makes for a rune above [MaxASCII]. *)
Class CaseTables := { to_LowerCase : Z -> Z }.

(** A part of the tables, for the examples: the capital letters of
  Latin-1 (U+00C0 to U+00DE without the multiplication sign U+00D7) and
  the Kelvin sign U+212A, whose lower case is the letter k. *)
Definition latin1Tables : CaseTables :=
{| to_LowerCase r :=
     if (0xC0 <=? r) && (r <=? 0xDE) && negb (r =? 0xD7) then r + 32
     else if r =? 0x212A then 0x6B
     else r |}.

(** [unicode.ToLower]. *)
Definition ToLower `{CaseTables} (r : Z) : Z :=
if r <=? MaxASCII then
  if (0x41 <=? r) && (r <=? 0x5A) then r + (0x61 - 0x41)   (* r += 'a' - 'A' *)
  else r
else to_LowerCase r.

(** The table [White_Space] above Latin-1 (the same since Unicode 6.3):
  U+1680, U+2000 to U+200A, U+2028, U+2029, U+202F, U+205F and U+3000. *)
Definition White_Space (r : Z) : bool :=
(r =? 0x1680) || ((0x2000 <=? r) && (r <=? 0x200A)) || (r =? 0x2028) || (r =? 0x2029)
|| (r =? 0x202F) || (r =? 0x205F) || (r =? 0x3000).

(** [unicode.IsSpace]: in Latin-1 the switch over ['\t', '\n', '\v', '\f',
  '\r', ' ', U+0085 (NEL), U+00A0 (NBSP)], above it the table. *)
Definition IsSpace (r : Z) : bool :=
if (0 <=? r) && (r <=? MaxLatin1) then
  (r =? 0x09) || (r =? 0x0A) || (r =? 0x0B) || (r =? 0x0C) || (r =? 0x0D) || (r =? 0x20)
  || (r =? 0x85) || (r =? 0xA0)
else White_Space r.

End Unicode.

(** ** [strings] *)

Module Strings.

(** The table [asciiSpace]: tab, newline, vertical tab, form feed, carriage
  return and space. *)
Definition isSpace (c : ascii) : bool :=
match c with
| "009" | "010" | "011" | "012" | "013" | " " => true
| _ => false
end%char.

Definition isUpper (c : ascii) : bool :=
let n := N_of_ascii c in ((65 <=? n) && (n <=? 90))%N.

(** [c += 'a' - 'A'] for an upper-case letter; other bytes are kept. *)
Definition lowerByte (c : ascii) : ascii :=
if isUpper c then ascii_of_N (N_of_ascii c + 32) else c.

(** The test [c >= utf8.RuneSelf] on every byte. *)
Definition isASCII (s : gostring) : bool := forallb (fun c => Utf8.byte c <? Utf8.RuneSelf) s.

(** [strings.Map(mapping, s)]: every rune of [s], as the [range] loop
  decodes it, is replaced by the encoding of its image, and dropped when
  the image is negative; a byte that is no valid UTF-8 counts as
  [RuneError] and is written as such.  (The library returns [s] itself
  when no rune changes, which are the same bytes.)  The loop ends since
  every rune of a string that is not empty has a width of 1 at least;
  [fuel] bounds the number of runes. *)
Fixpoint mapLoop (fuel : nat) (mapping : Z -> Z) (s : gostring) : gostring :=
match fuel, s with
| S fuel', _ :: _ =>
    let '(c, width) := Utf8.DecodeRuneInString s in
    let r := mapping c in
    (if 0 <=? r then Utf8.EncodeRune r else []) ++ mapLoop fuel' mapping (drop width s)
| _, _ => []
end.

Definition Map (mapping : Z -> Z) (s : gostring) : gostring := mapLoop (length s) mapping s.

(** [strings.ToLower]: byte by byte for a string of ASCII, and else
  [Map(unicode.ToLower, s)]. *)
Definition ToLower {tables : Unicode.CaseTables} (s : gostring) : gostring :=
if isASCII s then map lowerByte s      (* optimize for ASCII-only strings *)
else Map Unicode.ToLower s.

(** [strings.TrimLeftFunc(s, f)]: [s] from its first rune that does not
  satisfy [f]. *)
Fixpoint trimLeftLoop (fuel : nat) (f : Z -> bool) (s : gostring) : gostring :=
match fuel, s with
| S fuel', _ :: _ =>
    let '(r, size) := Utf8.DecodeRuneInString s in
    if f r then trimLeftLoop fuel' f (drop size s) else s
| _, _ => s
end.

Definition TrimLeftFunc (s : gostring) (f : Z -> bool) : gostring :=
trimLeftLoop (length s) f s.

(** [strings.TrimRightFunc(s, f)]: [s] up to its last rune that does not
  satisfy [f], the runes being decoded from the end.  (The library
  looks for the index of that rune and decodes forward there to find
  where it ends, which is where the rune decoded from the end ended.) *)
Fixpoint trimRightLoop (fuel : nat) (f : Z -> bool) (s : gostring) : gostring :=
match fuel, s with
| S fuel', _ :: _ =>
    let '(r, size) := Utf8.DecodeLastRuneInString s in
    if f r then trimRightLoop fuel' f (take (length s - size) s) else s
| _, _ => s
end.

Definition TrimRightFunc (s : gostring) (f : Z -> bool) : gostring :=
trimRightLoop (length s) f s.

(** [strings.TrimFunc]. *)
Definition TrimFunc (s : gostring) (f : Z -> bool) : gostring :=
TrimRightFunc (TrimLeftFunc s f) f.

(** The loops of the fast path of [strings.TrimSpace]: white space of
  ASCII is passed, up to the first byte that is none (a byte of ASCII or
  not) or to the end.  The second loop runs from the end: it is the
  first on the reversed string. *)
Fixpoint trimLeft (s : gostring) : gostring :=
match s with
| c :: s' => if isSpace c then trimLeft s' else s
| [] => []
end.

Definition trimRight (s : gostring) : gostring := rev (trimLeft (rev s)).

Definition startsASCII (s : gostring) : bool :=
match s with
| c :: _ => Utf8.byte c <? Utf8.RuneSelf
| [] => true
end.

(** [strings.TrimSpace]: leading and trailing white space removed, as
  defined by Unicode.  When the first loop runs into a byte that is not
  ASCII the rest goes to [TrimFunc(s[start:], unicode.IsSpace)], when
  the second does, to [TrimRightFunc(s[start:stop], unicode.IsSpace)]. *)
Definition TrimSpace (s : gostring) : gostring :=
let s := trimLeft s in                         (* s[start:] *)
if negb (startsASCII s) then TrimFunc s Unicode.IsSpace
else
  let r := trimLeft (rev s) in                 (* s[start:stop], reversed *)
  if negb (startsASCII r) then TrimRightFunc (rev r) Unicode.IsSpace
  else rev r.

(** [strings.HasPrefix]. *)
Fixpoint HasPrefix (s prefix : gostring) : bool :=
match prefix, s with
| [], _ => true
| p :: prefix', c :: s' => if decide (c = p) then HasPrefix s' prefix' else false
| _ :: _, [] => false
end.

(** [strings.Split(s, sep)] for a one-byte separator: the substrings
  between the separators, [n + 1] of them for [n] separators. *)
Fixpoint Split (s : gostring) (sep : ascii) : list gostring :=
match s with
| [] => [[]]
| c :: s' =>
    if decide (c = sep) then [] :: Split s' sep
    else match Split s' sep with
         | tok :: toks => (c :: tok) :: toks
         | [] => [[c]]
         end
end.

(** [strings.Join(elems, sep)]. *)
Fixpoint Join (elems : list gostring) (sep : gostring) : gostring :=
match elems with
| [] => []
| [e] => e
| e :: es => e ++ sep ++ Join es sep
end.

End Strings.

(** ** The extension filter *)

(** One iteration of the loop of [parseExtSet]. *)
Definition parseExtSet_step {tables : Unicode.CaseTables} (m : gset gostring) (e : gostring) : gset gostring :=
  let e := Strings.ToLower (Strings.TrimSpace e) in
  if decide (e = []) then m
  else
    let e := if Strings.HasPrefix e (str ".") then e else str "." ++ e in
    {[ e ]} ∪ m.

Definition parseExtSet {tables : Unicode.CaseTables} (s : gostring) : gset gostring :=
  let m : gset gostring := ∅ in
  if decide (s = []) then m
  else foldl parseExtSet_step m (Strings.Split s ","%char).

(** ** [path/filepath] on Unix *)

Module Filepath.

Definition Separator : ascii := "/"%char.

Definition IsPathSeparator (c : ascii) : bool := bool_decide (c = Separator).

(** The state of the loop of [filepath.Clean], element by element: [out]
    holds the elements written so far, last one first, and [dotdot] counts
    the elements at its bottom that [..] must not remove (a leading
    [../..] prefix).  [length out > dotdot] is the test [out.w > dotdot]. *)
Definition clean_step (rooted : bool) (st : list gostring * nat) (e : gostring)
  : list gostring * nat :=
  let '(out, dotdot) := st in
  if decide (e = []) then st                        (* empty path element *)
  else if decide (e = str ".") then st              (* . element *)
  else if decide (e = str "..") then                (* .. element *)
    if (dotdot <? length out)%nat then (tail out, dotdot)   (* can backtrack *)
    else if negb rooted then (e :: out, S (length out))     (* append .. *)
    else st
  else (e :: out, dotdot).                          (* real path element *)

(** [filepath.Clean]: the shortest path name equivalent to [path] by purely
    lexical processing. *)
Definition Clean (path : gostring) : gostring :=
  match path with
  | [] => str "."
  | c :: _ =>
      let rooted := IsPathSeparator c in
      let '(out, _) := foldl (clean_step rooted) ([], 0%nat) (Strings.Split path Separator) in
      if rooted then Separator :: Strings.Join (rev out) [Separator]
      else match out with
           | [] => str "."                          (* turn empty string into "." *)
           | _ => Strings.Join (rev out) [Separator]
           end
  end.

(** [for i >= 0 && !os.IsPathSeparator(path[i]) { i-- }] on the reversed
    path: what is left is [path[:i+1]], reversed. *)
Fixpoint skipElem (rpath : gostring) : gostring :=
  match rpath with
  | c :: r => if IsPathSeparator c then rpath else skipElem r
  | [] => []
  end.

(** [filepath.Dir]: all but the last element of [path], cleaned. *)
Definition Dir (path : gostring) : gostring := Clean (rev (skipElem (rev path))).

Fixpoint stripSeps (rpath : gostring) : gostring :=
  match rpath with
  | c :: r => if IsPathSeparator c then stripSeps r else rpath
  | [] => []
  end.

Fixpoint lastElem (rpath : gostring) : gostring :=
  match rpath with
  | c :: r => if IsPathSeparator c then [] else c :: lastElem r
  | [] => []
  end.

(** [filepath.Base]: the last element of [path]. *)
Definition Base (path : gostring) : gostring :=
  match path with
  | [] => str "."
  | _ =>
      match rev (lastElem (stripSeps (rev path))) with
      | [] => [Separator]                           (* it had only slashes *)
      | b => b
      end
  end.

(** The loop of [filepath.Ext] on the reversed path; [acc] is [path[i+1:]]. *)
Fixpoint ext_scan (rpath acc : gostring) : gostring :=
  match rpath with
  | c :: r =>
      if IsPathSeparator c then []
      else if decide (c = "."%char) then c :: acc
      else ext_scan r (c :: acc)
  | [] => []
  end.

(** [filepath.Ext]: the suffix beginning at the final dot in the final
    element of [path]; empty if there is no dot. *)
Definition Ext (path : gostring) : gostring := ext_scan (rev path) [].

(** [filepath.Join] of two elements. *)
Definition Join (a b : gostring) : gostring :=
  match a, b with
  | [], [] => []
  | [], _ => Clean b
  | _, _ => Clean (a ++ [Separator] ++ b)
  end.

End Filepath.

(** ** [crypto/sha256] *)

Module Sha256.

Definition w32 (x : Z) : Z := x mod 2 ^ 32.

Definition rotr (n x : Z) : Z :=
  w32 (Z.lor (Z.shiftr x n) (Z.shiftl x (32 - n))).

Definition Ch (x y z : Z) : Z :=
  Z.lxor (Z.land x y) (Z.land (w32 (Z.lnot x)) z).
Definition Maj (x y z : Z) : Z :=
  Z.lxor (Z.lxor (Z.land x y) (Z.land x z)) (Z.land y z).
Definition bsig0 (x : Z) : Z := Z.lxor (Z.lxor (rotr 2 x) (rotr 13 x)) (rotr 22 x).
Definition bsig1 (x : Z) : Z := Z.lxor (Z.lxor (rotr 6 x) (rotr 11 x)) (rotr 25 x).
Definition ssig0 (x : Z) : Z := Z.lxor (Z.lxor (rotr 7 x) (rotr 18 x)) (Z.shiftr x 3).
Definition ssig1 (x : Z) : Z := Z.lxor (Z.lxor (rotr 17 x) (rotr 19 x)) (Z.shiftr x 10).

(** The round constants, eight to a row. *)
Definition K : list Z :=
  concat
    [ [0x428a2f98; 0x71374491; 0xb5c0fbcf; 0xe9b5dba5; 0x3956c25b; 0x59f111f1; 0x923f82a4; 0xab1c5ed5];
      [0xd807aa98; 0x12835b01; 0x243185be; 0x550c7dc3; 0x72be5d74; 0x80deb1fe; 0x9bdc06a7; 0xc19bf174];
      [0xe49b69c1; 0xefbe4786; 0x0fc19dc6; 0x240ca1cc; 0x2de92c6f; 0x4a7484aa; 0x5cb0a9dc; 0x76f988da];
      [0x983e5152; 0xa831c66d; 0xb00327c8; 0xbf597fc7; 0xc6e00bf3; 0xd5a79147; 0x06ca6351; 0x14292967];
      [0x27b70a85; 0x2e1b2138; 0x4d2c6dfc; 0x53380d13; 0x650a7354; 0x766a0abb; 0x81c2c92e; 0x92722c85];
      [0xa2bfe8a1; 0xa81a664b; 0xc24b8b70; 0xc76c51a3; 0xd192e819; 0xd6990624; 0xf40e3585; 0x106aa070];
      [0x19a4c116; 0x1e376c08; 0x2748774c; 0x34b0bcb5; 0x391c0cb3; 0x4ed8aa4a; 0x5b9cca4f; 0x682e6ff3];
      [0x748f82ee; 0x78a5636f; 0x84c87814; 0x8cc70208; 0x90befffa; 0xa4506ceb; 0xbef9a3f7; 0xc67178f2] ].

(** The eight chaining words [h0 .. h7]. *)
Definition state : Type := Z * Z * Z * Z * Z * Z * Z * Z.

Definition init : state :=
  (0x6a09e667, 0xbb67ae85, 0x3c6ef372, 0xa54ff53a,
   0x510e527f, 0x9b05688c, 0x1f83d9ab, 0x5be0cd19).

(** The message: the data, the byte [0x80], zero bytes up to 56 modulo 64,
    and the length in bits as a 64-bit big-endian number. *)
Definition be_bytes (n : nat) (x : Z) : list Z :=
  map (fun i => Z.shiftr x (8 * Z.of_nat i) mod 256) (rev (seq 0 n)).

Definition pad (data : list Z) : list Z :=
  let len := Z.of_nat (length data) in
  data ++ [0x80] ++ repeat 0 (Z.to_nat ((55 - len) mod 64))
       ++ be_bytes 8 ((8 * len) mod 2 ^ 64).

Fixpoint be_words (bs : list Z) : list Z :=
  match bs with
  | b0 :: b1 :: b2 :: b3 :: r =>
      (Z.shiftl b0 24 + Z.shiftl b1 16 + Z.shiftl b2 8 + b3) :: be_words r
  | _ => []
  end.

(** The message schedule, last word first: [t] more words are added to [w]. *)
Fixpoint schedule (t : nat) (w : list Z) : list Z :=
  match t with
  | O => w
  | S t' =>
      let x := w32 (ssig1 (nth 1 w 0) + nth 6 w 0 + ssig0 (nth 14 w 0) + nth 15 w 0) in
      schedule t' (x :: w)
  end.

Definition round (s : state) (kw : Z * Z) : state :=
  let '(a, b, c, d, e, f, g, h) := s in
  let t1 := h + bsig1 e + Ch e f g + fst kw + snd kw in
  let t2 := bsig0 a + Maj a b c in
  (w32 (t1 + t2), a, b, c, w32 (d + t1), e, f, g).

Definition block (s : state) (ws : list Z) : state :=
  let w := rev (schedule 48 (rev ws)) in
  let '(a, b, c, d, e, f, g, h) := foldl round s (zip K w) in
  let '(h0, h1, h2, h3, h4, h5, h6, h7) := s in
  (w32 (h0 + a), w32 (h1 + b), w32 (h2 + c), w32 (h3 + d),
   w32 (h4 + e), w32 (h5 + f), w32 (h6 + g), w32 (h7 + h)).

Fixpoint blocks (n : nat) (s : state) (ws : list Z) : state :=
  match n with
  | O => s
  | S n' => blocks n' (block s (take 16 ws)) (drop 16 ws)
  end.

(** [sha256.Sum256]: the 32 bytes of the digest. *)
Definition Sum256 (data : list Byte.byte) : list Z :=
  let ws := be_words (pad (map (fun b => Z.of_N (Byte.to_N b)) data)) in
  let '(h0, h1, h2, h3, h4, h5, h6, h7) := blocks (length ws / 16) init ws in
  concat (map (be_bytes 4) [h0; h1; h2; h3; h4; h5; h6; h7]).

End Sha256.

(** [fmt.Sprintf("%x", b)] on a byte slice: two lower-case hexadecimal digits
    per byte. *)
Definition hexDigit (n : Z) : ascii :=
  nth (Z.to_nat n) (str "0123456789abcdef") "?"%char.

Definition hex (bs : list Z) : gostring :=
  concat (map (fun b => [hexDigit (b / 16); hexDigit (b mod 16)]) bs).

(** ** The world the pipeline runs in *)

(** 64-bit two's complement wrap-around ([int64], and [int] on the 64-bit
    platforms). *)
Definition wrap64 (z : Z) : Z := (z + 2 ^ 63) mod 2 ^ 64 - 2 ^ 63.
Definition incr64 (z : Z) : Z := wrap64 (z + 1).

(** [os.FileInfo], as far as the pipeline reads it: [Size()] and
    [ModTime().UTC().Format(time.RFC3339)]. *)
Record FileInfo := mkFileInfo { Size : Z; ModTime : gostring }.

(** The subtree under a path.  A directory lists its entries in the order of
    [os.ReadDir], each with its name and with what [d.Info()] returns for it
    ([None] when the call fails); [readErr] tells that [os.ReadDir] ended
    with an error, after the entries listed. *)
#[warnings="-register-all"]
Inductive Tree :=
| TFile
| TDir (readErr : bool) (entries : list (gostring * option FileInfo * Tree)).

(** What [os.Open(path)] and reading to the end deliver: the open fails, or
    the reads deliver [data] and then end of file ([readErr = false]) or an
    error ([readErr = true]). *)
Inductive OpenResult :=
| OpenErr
| Opened (data : list Byte.byte) (readErr : bool).

Definition Err := gostring.

Record World := mkWorld {
  os_Lstat : gostring -> option (FileInfo * Tree);
  os_Open : gostring -> OpenResult;
  mime_TypeByExtension : gostring -> gostring;
  (** [sql_fault k]: the error of the [k]-th call to the database, if it fails. *)
  sql_fault : nat -> option Err
}.

(** ** [filepath.WalkDir] *)

Record DirEntry := mkDirEntry { IsDir : bool; Info : option FileInfo }.

(** One call of the walk function: [fn(path, d, nil)], or [fn(path, d, err)]
    with a non-nil [err] (neither walk function of the pipeline looks at [d]
    then). *)
Inductive WalkCall :=
| WalkErr (path : gostring)
| WalkEntry (path : gostring) (d : DirEntry).

(** The calls [walkDir(path, d, fn)] makes while [fn] returns nil: the entry
    itself, a second call when [os.ReadDir] fails, then the entries read, each
    under [filepath.Join(path, name)]. *)
Fixpoint walkDir (path : gostring) (info : option FileInfo) (t : Tree) : list WalkCall :=
  match t with
  | TFile => [WalkEntry path (mkDirEntry false info)]
  | TDir readErr entries =>
      WalkEntry path (mkDirEntry true info)
      :: (if readErr then [WalkErr path] else [])
      ++ (fix walkEntries (es : list (gostring * option FileInfo * Tree)) : list WalkCall :=
            match es with
            | [] => []
            | (name, info1, t1) :: es' =>
                walkDir (Filepath.Join path name) info1 t1 ++ walkEntries es'
            end) entries
  end.

(** The calls of [filepath.WalkDir(root, fn)] while [fn] returns nil.  The
    walk functions of the pipeline return nil or a database error, never
    [SkipDir] or [SkipAll]; an error ends the walk, which the callers below
    model by not looking at the remaining calls. *)
Definition WalkDir (w : World) (root : gostring) : list WalkCall :=
  match os_Lstat w root with
  | None => [WalkErr root]
  | Some (info, t) => walkDir root (Some info) t
  end.

(** ** The content hasher and the MIME classifier *)

Definition hashFile (w : World) (path : gostring) : gostring :=
  match os_Open w path with
  | OpenErr => []
  | Opened data _ =>                    (* [_, _ = io.Copy(h, f)] *)
      hex (Sha256.Sum256 data)
  end.

Definition detectMIME (w : World) (ext : gostring) : gostring :=
  if decide (ext = str ".msg") then str "application/vnd.ms-outlook"
  else
    let mt := mime_TypeByExtension w ext in
    if decide (mt ≠ []) then mt else str "application/octet-stream".

(** ** The estimator *)

Definition estimate_fn {tables : Unicode.CaseTables} (extFilter : gset gostring) (count : Z) (c : WalkCall) : Z :=
  match c with
  | WalkErr _ => count                                  (* continue on errors *)
  | WalkEntry path d =>
      if IsDir d then count
      else
        let ext := Strings.ToLower (Filepath.Ext path) in
        if (0 <? size extFilter)%nat then
          if decide (ext ∈ extFilter) then incr64 count else count
        else incr64 count
  end.

Definition estimateFileCount {tables : Unicode.CaseTables} (w : World) (root : gostring) (extFilter : gset gostring) : Z :=
  foldl (estimate_fn extFilter) 0 (WalkDir w root).

(** ** The store *)

(** [folders(path PRIMARY KEY, parent_path, mtime_utc)]. *)
Record FolderRow := mkFolderRow { parent_path : gostring; folder_mtime_utc : gostring }.

(** [files(abs_path PRIMARY KEY, folder_path, name, ext, size, mtime_utc,
    mime, sha256)]; a NULL [sha256] is [None]. *)
Record FileRow := mkFileRow {
  folder_path : gostring;
  name : gostring;
  ext : gostring;
  size_bytes : Z;
  mtime_utc : gostring;
  mime : gostring;
  sha256 : option gostring
}.

Record Store := mkStore {
  folders : gmap gostring FolderRow;
  files : gmap gostring FileRow
}.

Definition emptyStore : Store := mkStore ∅ ∅.

(** [INSERT INTO folders ... ON CONFLICT(path) DO UPDATE SET
    mtime_utc=excluded.mtime_utc]. *)
Definition upsertFolder (p parent mtime : gostring) (s : Store) : Store :=
  let row :=
    match folders s !! p with
    | Some old => mkFolderRow (parent_path old) mtime
    | None => mkFolderRow parent mtime
    end in
  mkStore (<[p := row]> (folders s)) (files s).

(** [COALESCE(excluded.sha256, files.sha256)]. *)
Definition coalesce (a b : option gostring) : option gostring :=
  match a with
  | Some _ => a
  | None => b
  end.

(** [INSERT INTO files ... ON CONFLICT(abs_path) DO UPDATE SET
    size=excluded.size, mtime_utc=excluded.mtime_utc, mime=excluded.mime,
    sha256=COALESCE(excluded.sha256, files.sha256)]; [new] holds the values
    of the insert. *)
Definition upsertFile (p : gostring) (new : FileRow) (s : Store) : Store :=
  let row :=
    match files s !! p with
    | Some old =>
        mkFileRow (folder_path old) (name old) (ext old)
                  (size_bytes new) (mtime_utc new) (mime new)
                  (coalesce (sha256 new) (sha256 old))
    | None => new
    end in
  mkStore (folders s) (<[p := row]> (files s)).

(** ** The signals *)

(** [progressMsg], the fields the engine sets. *)
Record progressMsg := mkProgress {
  pm_files : Z;
  pm_folders : Z;
  pm_last : gostring;
  pm_estimatedTotal : Z
}.

Record doneMsg := mkDone { done_err : option Err }.

(** ** The engine *)

(** The variable [tx] of [scanAndPersist]: nil after a failed [db.Begin], a
    transaction with its uncommitted view of the store, or a transaction that
    was committed or rolled back. *)
Inductive TxVar :=
| TxNil
| TxOpen (view : Store)
| TxDone.

(** What the engine did, in order: the database calls that succeeded, the
    call that failed ([EvFail]) and the calls of [progress]. *)
Inductive SqlOp :=
| OpOpen | OpSchema | OpPragma | OpBegin | OpPrepare | OpExec | OpCommit | OpIndex.

Inductive Event :=
| EvFail (op : SqlOp) (e : Err)
| EvFolderUpsert (path parent mtime : gostring)
| EvFileUpsert (path : gostring) (row : FileRow)
| EvCommit
| EvBegin
| EvPrepareFolder
| EvPrepareFile
| EvRollback
| EvProgress (m : progressMsg).

Record St := mkSt {
  committed : Store;       (* the store as committed *)
  tx : TxVar;
  nfiles : Z;              (* [files] *)
  ndirs : Z;               (* [dirs] *)
  batch : Z;
  ncalls : nat;            (* database calls made so far *)
  trace : list Event
}.

Inductive Res (A : Type) :=
| Ok (a : A)
| Fail (e : Err).
Arguments Ok {A} a.
Arguments Fail {A} e.

(** Go code over the state that returns a value or an error. *)
Definition M (A : Type) : Type := St -> St * Res A.

Definition ret {A} (a : A) : M A := fun s => (s, Ok a).
Definition bind {A B} (m : M A) (k : A -> M B) : M B :=
  fun s => match m s with
           | (s', Ok a) => k a s'
           | (s', Fail e) => (s', Fail e)
           end.

Declare Scope go_scope.
Notation "x ← y ; z" := (bind y (fun x => z))
  (at level 20, y at level 100, z at level 200, only parsing) : go_scope.
Notation "y ;; z" := (bind y (fun _ => z))
  (at level 100, z at level 200, only parsing, right associativity) : go_scope.
Open Scope go_scope.

Definition get : M St := fun s => (s, Ok s).
Definition put (s : St) : M unit := fun _ => (s, Ok tt).
Definition emit (ev : Event) : M unit :=
  fun s => (mkSt (committed s) (tx s) (nfiles s) (ndirs s) (batch s) (ncalls s)
                 (trace s ++ [ev]), Ok tt).
Definition setTx (t : TxVar) : M unit :=
  fun s => (mkSt (committed s) t (nfiles s) (ndirs s) (batch s) (ncalls s) (trace s), Ok tt).
Definition setCommitted (c : Store) : M unit :=
  fun s => (mkSt c (tx s) (nfiles s) (ndirs s) (batch s) (ncalls s) (trace s), Ok tt).
Definition setBatch (b : Z) : M unit :=
  fun s => (mkSt (committed s) (tx s) (nfiles s) (ndirs s) b (ncalls s) (trace s), Ok tt).
Definition incFiles : M unit :=
  fun s => (mkSt (committed s) (tx s) (incr64 (nfiles s)) (ndirs s) (batch s) (ncalls s)
                 (trace s), Ok tt).
Definition incDirs : M unit :=
  fun s => (mkSt (committed s) (tx s) (nfiles s) (incr64 (ndirs s)) (batch s) (ncalls s)
                 (trace s), Ok tt).

Definition errTxDone : Err :=
  str "sql: transaction has already been committed or rolled back".

Section Engine.

Context {tables : Unicode.CaseTables}.

Variable w : World.

(** A call to the database: it fails when the world says so. *)
Definition sqlCall (op : SqlOp) : M unit :=
  fun s =>
    let s' tr := mkSt (committed s) (tx s) (nfiles s) (ndirs s) (batch s) (S (ncalls s)) tr in
    match sql_fault w (ncalls s) with
    | Some e => (s' (trace s ++ [EvFail op e]), Fail e)
    | None => (s' (trace s), Ok tt)
    end.

(** [_, _ = f()]: the error is dropped. *)
Definition ignoreErr (m : M unit) : M unit := fun s => (fst (m s), Ok tt).

(** [stmt.Exec] of a statement prepared on [tx]: a failed statement leaves
    the transaction's view as it was. *)
Definition stmtExec (ev : Event) (f : Store -> Store) : M unit :=
  s ← get;
  match tx s with
  | TxOpen view =>
      sqlCall OpExec ;;
      setTx (TxOpen (f view)) ;;
      emit ev
  | _ => fun s => (s, Fail errTxDone)
  end.

Definition folderStmtExec (p parent mtime : gostring) : M unit :=
  stmtExec (EvFolderUpsert p parent mtime) (upsertFolder p parent mtime).

Definition fileStmtExec (p : gostring) (row : FileRow) : M unit :=
  stmtExec (EvFileUpsert p row) (upsertFile p row).

(** [tx.Commit()]: the view becomes the store; when the commit fails the
    store keeps its content, and either way the transaction is done. *)
Definition txCommit : M unit :=
  s ← get;
  match tx s with
  | TxOpen view =>
      setTx TxDone ;;
      sqlCall OpCommit ;;
      setCommitted view ;;
      emit EvCommit
  | _ => fun s => (s, Fail errTxDone)
  end.

(** [tx, err = db.Begin()]: [tx] is nil when it fails. *)
Definition dbBegin : M unit :=
  setTx TxNil ;;
  sqlCall OpBegin ;;
  s ← get;
  setTx (TxOpen (committed s)) ;;
  emit EvBegin.

Definition txPrepare (ev : Event) : M unit :=
  sqlCall OpPrepare ;; emit ev.

Definition progress (files folders : Z) (last : gostring) (estimated : Z) : M unit :=
  emit (EvProgress (mkProgress files folders last estimated)).

Variable extFilter : gset gostring.
Variable hash : bool.
Variable estimatedTotal : Z.

(** [batch++; if batch >= 1000 { ... }], the same lines after the folder
    upsert and after the file upsert. *)
Definition batchTick (p : gostring) : M unit :=
  s ← get;
  let b := incr64 (batch s) in
  setBatch b ;;
  if 1000 <=? b then
    txCommit ;;
    s ← get;
    progress (nfiles s) (ndirs s) p estimatedTotal ;;
    dbBegin ;;
    txPrepare EvPrepareFolder ;;
    txPrepare EvPrepareFile ;;
    setBatch 0
  else ret tt.

(** The walk function of [scanAndPersist]. *)
Definition scan_fn (c : WalkCall) : M unit :=
  match c with
  | WalkErr _ => ret tt
  | WalkEntry p d =>
      match Info d with
      | None => ret tt
      | Some info =>
          if IsDir d then
            incDirs ;;
            let parent := Filepath.Dir p in
            let parent := if decide (parent = p) then [] else parent in
            let mtime := ModTime info in
            folderStmtExec p parent mtime ;;
            batchTick p
          else
            let ext := Strings.ToLower (Filepath.Ext p) in
            if (0 <? size extFilter)%nat && negb (bool_decide (ext ∈ extFilter))
            then ret tt
            else
              incFiles ;;
              let dir := Filepath.Dir p in
              let name := Filepath.Base p in
              let size := Size info in
              let mtime := ModTime info in
              let mimetype := detectMIME w ext in
              let sum :=
                if hash then
                  let s := hashFile w p in
                  if decide (s ≠ []) then Some s else None
                else None in
              fileStmtExec p (mkFileRow dir name ext size mtime mimetype sum) ;;
              batchTick p
      end
  end.

(** [filepath.WalkDir] with [scan_fn]: the first error ends the walk. *)
Fixpoint walk (cs : list WalkCall) : M unit :=
  match cs with
  | [] => ret tt
  | c :: cs' => scan_fn c ;; walk cs'
  end.

(** How a run of [scanAndPersist] ends: it returns [err], or the goroutine
    panics. *)
Inductive Outcome :=
| Returned (err : option Err)
| Panicked.

(** [scanAndPersist], from [sql.Open] to the walk. *)
Definition scanSetup : M unit :=
  sqlCall OpOpen ;;                   (* sql.Open *)
  sqlCall OpSchema ;;                 (* initSchema: CREATE TABLE IF NOT EXISTS *)
  sqlCall OpPragma ;;                 (* PRAGMA journal_mode=WAL ... *)
  dbBegin ;;
  txPrepare EvPrepareFolder ;;
  txPrepare EvPrepareFile.

(** After a successful walk: the last commit, the three indexes (errors
    ignored) and the final call of [progress]. *)
Definition scanFinish : M unit :=
  txCommit ;;
  ignoreErr (sqlCall OpIndex) ;;      (* idx_files_ext *)
  ignoreErr (sqlCall OpIndex) ;;      (* idx_files_folder *)
  ignoreErr (sqlCall OpIndex) ;;      (* idx_files_mtime *)
  s ← get;
  progress (nfiles s) (ndirs s) [] estimatedTotal.

Definition scanAndPersist (db0 : Store) (root : gostring) : St * Outcome :=
  let s0 := mkSt db0 TxNil 0 0 0 0%nat [] in
  match scanSetup s0 with
  | (s1, Fail e) => (s1, Returned (Some e))
  | (s1, Ok _) =>
      let root := Filepath.Clean root in
      match walk (WalkDir w root) s1 with
      | (s2, Fail errWalk) =>
          match tx s2 with
          | TxNil => (s2, Panicked)           (* [tx.Rollback()] on a nil [*sql.Tx] *)
          | TxOpen _ => (fst ((setTx TxDone ;; emit EvRollback) s2), Returned (Some errWalk))
          | TxDone => (s2, Returned (Some errWalk))   (* [_ = ErrTxDone] *)
          end
      | (s2, Ok _) =>
          match scanFinish s2 with
          | (s3, Fail e) => (s3, Returned (Some e))
          | (s3, Ok _) => (s3, Returned None)
          end
      end
  end.

End Engine.

(** The calls of [progress] in a trace, in order. *)
Definition progressOf (tr : list Event) : list progressMsg :=
  omap (fun ev => match ev with EvProgress m => Some m | _ => None end) tr.

(** What a run of the command of [runScan] leaves: the store, the progress
    signals and the terminal signal ([None] when the goroutine panicked). *)
Record Run := mkRun {
  run_store : Store;
  run_trace : list Event;
  run_progress : list progressMsg;
  run_done : option doneMsg
}.

Definition runScan {tables : Unicode.CaseTables} (w : World) (db0 : Store) (root : gostring)
    (extFilter : gset gostring) (hash : bool) : Run :=
  let estimatedTotal := estimateFileCount w root extFilter in
  let '(s, out) := scanAndPersist w extFilter hash estimatedTotal db0 root in
  mkRun (committed s) (trace s) (progressOf (trace s))
        (match out with
         | Returned err => Some (mkDone err)
         | Panicked => None
         end).

(** ** Definitions used to state the properties *)

(** The extension filter in the words of its contract: trim white space,
    lower-case, discard an empty token, prefix a dot if absent. *)
Definition normalizeExt {tables : Unicode.CaseTables} (tok : gostring) : option gostring :=
  let e := Strings.ToLower (Strings.TrimSpace tok) in
  match e with
  | [] => None
  | c :: _ => Some (if decide (c = "."%char) then e else "."%char :: e)
  end.

(** *** The syntax of the filter in the words of the spec

    "Trim whitespace per token, lowercase, discard empty tokens, prefix a
    leading [.] if absent", for the comma-separated tokens of the input.
    These definitions follow that sentence and not [parseExtSet]: they
    name no function of [strings] but [ToLower]. *)

(** White space: encodings of runes that are white space, one after the
    other. *)
Inductive whiteSpace : gostring -> Prop :=
| whiteSpace_nil : whiteSpace []
| whiteSpace_cons r s :
    Unicode.IsSpace r = true -> whiteSpace s -> whiteSpace (Utf8.EncodeRune r ++ s).

Definition beginsWithSpace (s : gostring) : Prop :=
  exists r t, Unicode.IsSpace r = true /\ s = Utf8.EncodeRune r ++ t.

Definition endsWithSpace (s : gostring) : Prop :=
  exists r t, Unicode.IsSpace r = true /\ s = t ++ Utf8.EncodeRune r.

(** [core] is [tok] trimmed: [tok] without the white space at its two
    ends, all of it. *)
Definition trimmedOf (tok core : gostring) : Prop :=
  exists l r, tok = l ++ core ++ r /\ whiteSpace l /\ whiteSpace r
              /\ ~ beginsWithSpace core /\ ~ endsWithSpace core.

(** [toks] are the comma-separated tokens of [s]. *)
Definition commaSeparated (s : gostring) (toks : list gostring) : Prop :=
  toks <> [] /\ Forall (fun tok => ","%char ∉ tok) toks /\ s = Strings.Join toks (str ",").

Definition withDot (e : gostring) : gostring :=
  if decide (head e = Some "."%char) then e else "."%char :: e.

(** [x] is the extension that the token [tok] stands for. *)
Definition extOfToken {tables : Unicode.CaseTables} (tok x : gostring) : Prop :=
  exists core, trimmedOf tok core
               /\ Strings.ToLower core <> []
               /\ x = withDot (Strings.ToLower core).

(** The set that the spec asks of [parseExtSet]. *)
Definition parseExtSet_spec {tables : Unicode.CaseTables} (s : gostring) (x : gostring) : Prop :=
  exists toks tok, commaSeparated s toks /\ tok ∈ toks /\ extOfToken tok x.

Definition isLowerHex (c : ascii) : bool :=
  bool_decide (c ∈ str "0123456789abcdef").

(** *** Traces *)

Definition isUpsert (ev : Event) : bool :=
  match ev with
  | EvFolderUpsert _ _ _ | EvFileUpsert _ _ => true
  | _ => false
  end.

Definition isFileUpsert (ev : Event) : bool :=
  match ev with EvFileUpsert _ _ => true | _ => false end.

Definition isFolderUpsert (ev : Event) : bool :=
  match ev with EvFolderUpsert _ _ _ => true | _ => false end.

Definition isCommit (ev : Event) : bool :=
  match ev with EvCommit => true | _ => false end.

Definition isFail (ev : Event) : bool :=
  match ev with EvFail _ _ => true | _ => false end.

(** The upserts of a trace, in order, and their number. *)
Definition upsertsOf (tr : list Event) : list Event := List.filter isUpsert tr.
Definition countUpserts (tr : list Event) : nat := length (upsertsOf tr).
Definition countFiles (tr : list Event) : nat := length (List.filter isFileUpsert tr).
Definition countFolders (tr : list Event) : nat := length (List.filter isFolderUpsert tr).

(** The effect of an upsert on a store; the other events have none. *)
Definition applyEvent (s : Store) (ev : Event) : Store :=
  match ev with
  | EvFolderUpsert p parent mtime => upsertFolder p parent mtime s
  | EvFileUpsert p row => upsertFile p row s
  | _ => s
  end.

Definition applyAll (s : Store) (tr : list Event) : Store := foldl applyEvent s tr.

(** The part of a trace that is committed: up to its last [EvCommit]. *)
Fixpoint committedPrefix (tr : list Event) : list Event :=
  match tr with
  | [] => []
  | ev :: tr' =>
      match committedPrefix tr' with
      | [] => if isCommit ev then [ev] else []
      | pre => ev :: pre
      end
  end.

(** The path an upsert is about. *)
Definition pathOf (ev : Event) : gostring :=
  match ev with
  | EvFolderUpsert p _ _ | EvFileUpsert p _ => p
  | _ => []
  end.

(** The batching rule in the words of the specification.  [ups] are the
    upserts still to come, [n] the number of upserts done, [files] and
    [dirs] the cumulative counts: each upsert is written, and after every
    1000th the transaction commits, a progress signal with the counts, the
    path just processed and the estimate is emitted, and a new transaction
    with its two statements is opened. *)
Fixpoint batched (est : Z) (n : nat) (files dirs : Z) (ups : list Event) : list Event :=
  match ups with
  | [] => []
  | u :: ups' =>
      let files' := if isFileUpsert u then files + 1 else files in
      let dirs' := if isFolderUpsert u then dirs + 1 else dirs in
      [u]
      ++ (if (S n mod 1000 =? 0)%nat
          then [EvCommit; EvProgress (mkProgress files' dirs' (pathOf u) est);
                EvBegin; EvPrepareFolder; EvPrepareFile]
          else [])
      ++ batched est (S n) files' dirs' ups'
  end.

(** *** The per-entry transform *)

(** What the engine upserts for one call of its walk function, in the words of
    the specification: nothing for an entry with a traversal error or whose
    metadata cannot be read; a folder record for a directory; for a file
    nothing when a non-empty filter lacks its extension, and else a file
    record with size, modification time and MIME type, and the hash when
    hashing is on and the hasher returned one. *)
Definition upsertOf {tables : Unicode.CaseTables} (w : World) (extFilter : gset gostring) (hash : bool)
    (c : WalkCall) : option Event :=
  match c with
  | WalkErr _ => None
  | WalkEntry p d =>
      match Info d with
      | None => None
      | Some info =>
          if IsDir d then
            Some (EvFolderUpsert p
                    (if decide (Filepath.Dir p = p) then [] else Filepath.Dir p)
                    (ModTime info))
          else
            let ext := Strings.ToLower (Filepath.Ext p) in
            if decide (extFilter ≠ ∅ ∧ ext ∉ extFilter) then None
            else
              Some (EvFileUpsert p
                      (mkFileRow (Filepath.Dir p) (Filepath.Base p) ext (Size info)
                         (ModTime info) (detectMIME w ext)
                         (if hash
                          then match hashFile w p with [] => None | h => Some h end
                          else None)))
      end
  end.

(** The extensions of the file records of a store. *)
Definition catalogedExts (s : Store) : gset gostring :=
  list_to_set (map (fun kv => ext (snd kv)) (map_to_list (files s))).

(** *** One call of the walk function, as a relation *)

Definition bumpFiles (ev : Event) (files : Z) : Z :=
  if isFileUpsert ev then incr64 files else files.
Definition bumpDirs (ev : Event) (dirs : Z) : Z :=
  if isFolderUpsert ev then incr64 dirs else dirs.

(** What one call of the walk function does to the state, case by case: the
    entry is skipped; or its upsert fails; or it succeeds within the batch;
    or it fills the batch, and then the commit, [db.Begin] or one of the two
    [tx.Prepare] fails, or all succeed. *)
Inductive ScanStep {tables : Unicode.CaseTables} (w : World) (extFilter : gset gostring) (hash : bool) (est : Z)
    (c : WalkCall) (s : St) : St -> Res unit -> Prop :=
| SS_skip :
    upsertOf w extFilter hash c = None ->
    ScanStep w extFilter hash est c s s (Ok tt)
| SS_exec_fail ev view e :
    upsertOf w extFilter hash c = Some ev ->
    tx s = TxOpen view ->
    sql_fault w (ncalls s) = Some e ->
    ScanStep w extFilter hash est c s
      (mkSt (committed s) (TxOpen view) (bumpFiles ev (nfiles s)) (bumpDirs ev (ndirs s))
            (batch s) (S (ncalls s)) (trace s ++ [EvFail OpExec e]))
      (Fail e)
| SS_upsert ev view :
    upsertOf w extFilter hash c = Some ev ->
    tx s = TxOpen view ->
    sql_fault w (ncalls s) = None ->
    batch s + 1 < 1000 ->
    ScanStep w extFilter hash est c s
      (mkSt (committed s) (TxOpen (applyEvent view ev))
            (bumpFiles ev (nfiles s)) (bumpDirs ev (ndirs s))
            (batch s + 1) (S (ncalls s)) (trace s ++ [ev]))
      (Ok tt)
| SS_commit_fail ev view e :
    upsertOf w extFilter hash c = Some ev ->
    tx s = TxOpen view ->
    sql_fault w (ncalls s) = None ->
    batch s + 1 = 1000 ->
    sql_fault w (1 + ncalls s) = Some e ->
    ScanStep w extFilter hash est c s
      (mkSt (committed s) TxDone (bumpFiles ev (nfiles s)) (bumpDirs ev (ndirs s))
            1000 (2 + ncalls s) (trace s ++ [ev; EvFail OpCommit e]))
      (Fail e)
| SS_begin_fail ev view e :
    upsertOf w extFilter hash c = Some ev ->
    tx s = TxOpen view ->
    sql_fault w (ncalls s) = None ->
    batch s + 1 = 1000 ->
    sql_fault w (1 + ncalls s) = None ->
    sql_fault w (2 + ncalls s) = Some e ->
    ScanStep w extFilter hash est c s
      (mkSt (applyEvent view ev) TxNil (bumpFiles ev (nfiles s)) (bumpDirs ev (ndirs s))
            1000 (3 + ncalls s)
            (trace s ++ [ev; EvCommit;
                         EvProgress (mkProgress (bumpFiles ev (nfiles s))
                                       (bumpDirs ev (ndirs s)) (pathOf ev) est);
                         EvFail OpBegin e]))
      (Fail e)
| SS_prepare_folder_fail ev view e :
    upsertOf w extFilter hash c = Some ev ->
    tx s = TxOpen view ->
    sql_fault w (ncalls s) = None ->
    batch s + 1 = 1000 ->
    sql_fault w (1 + ncalls s) = None ->
    sql_fault w (2 + ncalls s) = None ->
    sql_fault w (3 + ncalls s) = Some e ->
    ScanStep w extFilter hash est c s
      (mkSt (applyEvent view ev) (TxOpen (applyEvent view ev))
            (bumpFiles ev (nfiles s)) (bumpDirs ev (ndirs s))
            1000 (4 + ncalls s)
            (trace s ++ [ev; EvCommit;
                         EvProgress (mkProgress (bumpFiles ev (nfiles s))
                                       (bumpDirs ev (ndirs s)) (pathOf ev) est);
                         EvBegin; EvFail OpPrepare e]))
      (Fail e)
| SS_prepare_file_fail ev view e :
    upsertOf w extFilter hash c = Some ev ->
    tx s = TxOpen view ->
    sql_fault w (ncalls s) = None ->
    batch s + 1 = 1000 ->
    sql_fault w (1 + ncalls s) = None ->
    sql_fault w (2 + ncalls s) = None ->
    sql_fault w (3 + ncalls s) = None ->
    sql_fault w (4 + ncalls s) = Some e ->
    ScanStep w extFilter hash est c s
      (mkSt (applyEvent view ev) (TxOpen (applyEvent view ev))
            (bumpFiles ev (nfiles s)) (bumpDirs ev (ndirs s))
            1000 (5 + ncalls s)
            (trace s ++ [ev; EvCommit;
                         EvProgress (mkProgress (bumpFiles ev (nfiles s))
                                       (bumpDirs ev (ndirs s)) (pathOf ev) est);
                         EvBegin; EvPrepareFolder; EvFail OpPrepare e]))
      (Fail e)
| SS_batch ev view :
    upsertOf w extFilter hash c = Some ev ->
    tx s = TxOpen view ->
    sql_fault w (ncalls s) = None ->
    batch s + 1 = 1000 ->
    sql_fault w (1 + ncalls s) = None ->
    sql_fault w (2 + ncalls s) = None ->
    sql_fault w (3 + ncalls s) = None ->
    sql_fault w (4 + ncalls s) = None ->
    ScanStep w extFilter hash est c s
      (mkSt (applyEvent view ev) (TxOpen (applyEvent view ev))
            (bumpFiles ev (nfiles s)) (bumpDirs ev (ndirs s))
            0 (5 + ncalls s)
            (trace s ++ [ev; EvCommit;
                         EvProgress (mkProgress (bumpFiles ev (nfiles s))
                                       (bumpDirs ev (ndirs s)) (pathOf ev) est);
                         EvBegin; EvPrepareFolder; EvPrepareFile]))
      (Ok tt).

(** *** Invariants of the walk *)

Definition noFail (tr : list Event) : Prop := Forall (fun ev => isFail ev = false) tr.

(** Every progress signal of [tr] that names a path comes right after a
    positive multiple of 1000 upserts. *)
Definition progressAtBatches (tr : list Event) : Prop :=
  forall tr1 m tr2,
    tr = tr1 ++ EvProgress m :: tr2 ->
    pm_last m <> [] ->
    exists k : nat, (0 < k)%nat /\ countUpserts tr1 = (1000 * k)%nat.

(** The state between two calls of the walk function, [db0] being the store
    when the run began: a transaction is open and sees every upsert so far,
    the store holds those up to the last commit, [batch] counts the upserts
    since then, and the counters have been incremented once per upsert. *)
Record WalkInv (db0 : Store) (s : St) : Prop := mkWalkInv {
  wi_tx : tx s = TxOpen (applyAll db0 (trace s));
  wi_committed : committed s = applyAll db0 (committedPrefix (trace s));
  wi_batch : batch s = Z.of_nat (countUpserts (trace s)) mod 1000;
  wi_files : nfiles s = Nat.iter (countFiles (trace s)) incr64 0;
  wi_dirs : ndirs s = Nat.iter (countFolders (trace s)) incr64 0;
  wi_nofail : noFail (trace s);
  wi_progress : progressAtBatches (trace s)
}.

(** The variable [tx] after the call [op] failed. *)
Definition txAfterFail (op : SqlOp) (t : TxVar) : Prop :=
  match op with
  | OpExec | OpPrepare => exists view, t = TxOpen view
  | OpCommit => t = TxDone
  | OpBegin => t = TxNil
  | _ => False
  end.

(** The state when the walk function returned the error [e]. *)
Record FailInv (w : World) (db0 : Store) (e : Err) (s : St) : Prop := mkFailInv {
  fi_trace : exists tr op, trace s = tr ++ [EvFail op e] /\ noFail tr
                           /\ txAfterFail op (tx s);
  fi_committed : committed s = applyAll db0 (committedPrefix (trace s));
  fi_progress : progressAtBatches (trace s);
  fi_fault : exists k, sql_fault w k = Some e
}.

(** *** The ways a run ends *)

Definition isIndexFail (ev : Event) : bool :=
  match ev with EvFail OpIndex _ => true | _ => false end.

(** The state when the walk begins. *)
Definition walkStart (db0 : Store) : St :=
  mkSt db0 (TxOpen db0) 0 0 0 6 [EvBegin; EvPrepareFolder; EvPrepareFile].

(** [scanAndPersist] ends in one of four ways.  [s2] is the state when the
    walk ended, [I] and [J] are what is known then of a walk that succeeded
    and of one that failed. *)
Inductive RunEnd (w : World) (est : Z) (db0 : Store)
    (I : St -> Prop) (J : Err -> St -> Prop) : St -> Outcome -> Prop :=
| RE_setup s op e tr :
    (* a call before the walk failed *)
    trace s = tr ++ [EvFail op e] ->
    (exists k, tr = take k [EvBegin; EvPrepareFolder]) ->
    op ∈ [OpOpen; OpSchema; OpPragma; OpBegin; OpPrepare] ->
    committed s = db0 ->
    (exists k, sql_fault w k = Some e) ->
    RunEnd w est db0 I J s (Returned (Some e))
| RE_walk_panic s2 e :
    (* the walk failed and [tx] is nil *)
    FailInv w db0 e s2 -> J e s2 ->
    tx s2 = TxNil ->
    RunEnd w est db0 I J s2 Panicked
| RE_walk_rollback s2 e view :
    (* the walk failed and the open transaction is rolled back *)
    FailInv w db0 e s2 -> J e s2 ->
    tx s2 = TxOpen view ->
    RunEnd w est db0 I J
      (mkSt (committed s2) TxDone (nfiles s2) (ndirs s2) (batch s2) (ncalls s2)
            (trace s2 ++ [EvRollback]))
      (Returned (Some e))
| RE_walk_done s2 e :
    (* the walk failed in a commit *)
    FailInv w db0 e s2 -> J e s2 ->
    tx s2 = TxDone ->
    RunEnd w est db0 I J s2 (Returned (Some e))
| RE_commit s2 e :
    (* the last commit failed *)
    WalkInv db0 s2 -> I s2 ->
    sql_fault w (ncalls s2) = Some e ->
    RunEnd w est db0 I J
      (mkSt (committed s2) TxDone (nfiles s2) (ndirs s2) (batch s2) (S (ncalls s2))
            (trace s2 ++ [EvFail OpCommit e]))
      (Returned (Some e))
| RE_success s2 s idx :
    (* the run succeeded *)
    WalkInv db0 s2 -> I s2 ->
    sql_fault w (ncalls s2) = None ->
    Forall (fun ev => isIndexFail ev = true) idx ->
    trace s = trace s2 ++ [EvCommit] ++ idx
              ++ [EvProgress (mkProgress (nfiles s2) (ndirs s2) [] est)] ->
    committed s = applyAll db0 (trace s2) ->
    ((forall k, sql_fault w k = None) -> idx = []) ->
    RunEnd w est db0 I J s (Returned None).

(** The store has a record for the file [p] with a hash. *)
Definition hashed (p : gostring) (s : Store) : Prop :=
  exists row, files s !! p = Some row /\ sha256 row <> None.

Definition setupEvents : list Event := [EvBegin; EvPrepareFolder; EvPrepareFile].

(** *** Folder records *)

(** The parent recorded for the directory [p]: its lexical parent directory,
    and the empty string for the root [/] and for the current directory [.],
    the two paths that are their own directory. *)
Definition parentOf (p : gostring) : gostring :=
  if decide (p = str "/" \/ p = str ".") then [] else Filepath.Dir p.

Definition folderParentOK (ev : Event) : Prop :=
  match ev with
  | EvFolderUpsert p parent _ => parent = parentOf p
  | _ => True
  end.

Definition foldersOK (s : Store) : Prop :=
  forall p row, folders s !! p = Some row -> parent_path row = parentOf p.

(** *** What the two walks look at *)

(** What the estimator and the engine read of a call of their walk
    function: whether it reports a traversal error, whether the entry is a
    directory, whether its metadata can be read, and for a file its
    lower-cased extension. *)
Inductive CallKey :=
| KErr
| KDir (readable : bool)
| KFile (readable : bool) (ext : gostring).

Definition callKey {tables : Unicode.CaseTables} (c : WalkCall) : CallKey :=
  match c with
  | WalkErr _ => KErr
  | WalkEntry p d =>
      let readable := match Info d with Some _ => true | None => false end in
      if IsDir d then KDir readable
      else KFile readable (Strings.ToLower (Filepath.Ext p))
  end.

(** A file with the extension [e] passes the filter: the filter is empty or
    holds [e]. *)
Definition passes (extFilter : gset gostring) (e : gostring) : bool :=
  bool_decide (extFilter = ∅ \/ e ∈ extFilter).

(** The entries the estimator counts and those the engine counts. *)
Definition estCounts (extFilter : gset gostring) (k : CallKey) : bool :=
  match k with
  | KFile _ e => passes extFilter e
  | _ => false
  end.

Definition engCounts (extFilter : gset gostring) (k : CallKey) : bool :=
  match k with
  | KFile true e => passes extFilter e
  | _ => false
  end.

(** The lower-cased extensions of the files the walk of the engine reaches
    and whose metadata can be read. *)
Definition readableExts {tables : Unicode.CaseTables} (w : World) (root : gostring) : gset gostring :=
  list_to_set (omap (fun c => match callKey c with
                              | KFile true e => Some e
                              | _ => None
                              end) (WalkDir w (Filepath.Clean root))).

(** A name a directory can list: not empty, without separator, and neither
    [.] nor [..]. *)
Definition validName (n : gostring) : Prop :=
  n <> [] /\ (Filepath.Separator ∉ n) /\ n <> str "." /\ n <> str "..".

#[warnings="-register-all"]
Inductive wfTree : Tree -> Prop :=
| wf_file : wfTree TFile
| wf_dir readErr entries :
    Forall (fun e => validName (fst (fst e)) /\ wfTree (snd e)) entries ->
    wfTree (TDir readErr entries).

(** The root as given and the cleaned root name the same tree: [os.Lstat]
    answers the same for both, the names in the tree are names a directory
    can list, and a root that is not a directory has the same extension in
    both forms. *)
Definition sameTree (w : World) (root : gostring) : Prop :=
  os_Lstat w (Filepath.Clean root) = os_Lstat w root
  /\ forall info t,
       os_Lstat w root = Some (info, t) ->
       wfTree t
       /\ (t = TFile -> Filepath.Ext (Filepath.Clean root) = Filepath.Ext root).


(** Every file record has the lower-cased extension of its path. *)
Definition extsOK {tables : Unicode.CaseTables} (s : Store) : Prop :=
  forall p row, files s !! p = Some row ->
                ext row = Strings.ToLower (Filepath.Ext p).

Definition fileUpsertOK {tables : Unicode.CaseTables} (ev : Event) : Prop :=
  match ev with
  | EvFileUpsert p row => ext row = Strings.ToLower (Filepath.Ext p)
  | _ => True
  end.

(** *** Auxiliary definitions and the worlds of the examples *)

(** A world in which every file opens and every read fails after three bytes. *)
Definition world_read_error : World :=
  mkWorld (fun _ => None)
          (fun _ => Opened (list_byte_of_string "Hel") true)
          (fun _ => [])
          (fun _ => None).

(** A world with one PDF file under [/docs]. *)
Definition info1 : FileInfo := mkFileInfo 8 (str "2024-01-01T00:00:00Z").

Definition world_one_pdf : World :=
  mkWorld (fun p => if decide (Filepath.Clean p = str "/docs")
                    then Some (info1, TDir false [(str "a.pdf", Some info1, TFile)])
                    else None)
          (fun _ => OpenErr) (fun _ => []) (fun _ => None).

(** Strings that are not ASCII, for the examples: the no-break space
    U+00A0, the ideographic space U+3000 and the Kelvin sign U+212A in
    UTF-8, and a byte that is no UTF-8. *)
Definition nbsp : gostring := ["194"; "160"]%char.
Definition ideographicSpace : gostring := ["227"; "128"; "128"]%char.
Definition kelvin : gostring := ["226"; "132"; "170"]%char.
Definition badByte : gostring := ["255"]%char.

(** A world with one file under [/docs] whose extension is the Kelvin
    sign. *)
Definition world_kelvin : World :=
  mkWorld (fun p => if decide (Filepath.Clean p = str "/docs")
                    then Some (info1, TDir false [(str "a." ++ kelvin, Some info1, TFile)])
                    else None)
          (fun _ => OpenErr) (fun _ => []) (fun _ => None).


(** The number of progress signals sent by the walk. *)
Definition progressCount (tr : list Event) : Z := Z.of_nat (length (progressOf tr)).

(** The elements [Clean] keeps: not empty and without a separator. *)
Definition elemOK (e : gostring) : Prop := e <> [] /\ Filepath.Separator ∉ e.

(** The bytes of the elements of [l], one separator counted for each. *)
Fixpoint weight (l : list gostring) : nat :=
  match l with
  | [] => 0
  | e :: l' => S (length e) + weight l'
  end.

(** A directory [/data] with [n] files [f0], [f1], ...; [fault] tells which
    calls to the database fail. *)
Definition fileName (i : nat) : gostring :=
  str "f" ++ list_ascii_of_string (NilEmpty.string_of_uint (Nat.to_uint i)).

Definition flatDir (n : nat) : Tree :=
  TDir false (map (fun i => (fileName i, Some info1, TFile)) (seq 0 n)).

Definition world_flat (n : nat) (fault : nat -> option Err) : World :=
  mkWorld (fun p => if decide (Filepath.Clean p = str "/data")
                    then Some (info1, flatDir n) else None)
          (fun _ => OpenErr) (fun _ => []) fault.

Definition faultAt (k0 : nat) (e : Err) (k : nat) : option Err :=
  if (k =? k0)%nat then Some e else None.

(** An empty directory [/a]. *)
Definition world_dir_a : World :=
  mkWorld (fun p => if decide (Filepath.Clean p = str "/a")
                    then Some (info1, TDir false []) else None)
          (fun _ => OpenErr) (fun _ => []) (fun _ => None).

(** A current directory with one file; the empty path does not exist. *)
Definition world_cwd : World :=
  mkWorld (fun p => if decide (p = str ".")
                    then Some (info1, TDir false [(str "a.txt", Some info1, TFile)])
                    else None)
          (fun _ => OpenErr) (fun _ => []) (fun _ => None).

(** *** One key of a table *)

(** What the conflict clause of [fileStmt] makes of the row [old] and the
    values [new] of the insert, and the same for [folderStmt]. *)
Definition mergeFile (old new : FileRow) : FileRow :=
  mkFileRow (folder_path old) (name old) (ext old)
            (size_bytes new) (mtime_utc new) (mime new)
            (coalesce (sha256 new) (sha256 old)).

Definition mergeFolder (old new : FolderRow) : FolderRow :=
  mkFolderRow (parent_path old) (folder_mtime_utc new).

(** An upsert as seen from its key: the row is inserted, or merged into the
    one that is there. *)
Definition upsertRow {A} (merge : A -> A -> A) (o : option A) (new : A) : option A :=
  Some match o with Some old => merge old new | None => new end.

(** The rows a trace upserts under the key [p], in order. *)
Definition fileRowsAt (p : gostring) (tr : list Event) : list FileRow :=
  omap (fun ev => match ev with
                  | EvFileUpsert q row => if decide (q = p) then Some row else None
                  | _ => None
                  end) tr.

Definition folderRowsAt (p : gostring) (tr : list Event) : list FolderRow :=
  omap (fun ev => match ev with
                  | EvFolderUpsert q parent mtime =>
                      if decide (q = p) then Some (mkFolderRow parent mtime) else None
                  | _ => None
                  end) tr.

(** *** File records *)

(** An upsert of the trace is the one the engine makes for a call of the walk. *)
Definition fromWalk {tables : Unicode.CaseTables} (w : World) (root : gostring) (extFilter : gset gostring)
    (hash : bool) (ev : Event) : Prop :=
  isUpsert ev = true ->
  exists c, In c (WalkDir w (Filepath.Clean root))
            /\ upsertOf w extFilter hash c = Some ev.

(** The columns of the record of the file [p] that are computed from the
    path, its MIME type, and its hash when it has one: the digest of what
    [os.Open] and the reads deliver for [p]. *)
Definition fileRowOK {tables : Unicode.CaseTables} (w : World) (p : gostring) (row : FileRow) : Prop :=
  folder_path row = Filepath.Dir p
  /\ name row = Filepath.Base p
  /\ ext row = Strings.ToLower (Filepath.Ext p)
  /\ mime row = detectMIME w (ext row)
  /\ mime row <> []
  /\ forall h, sha256 row = Some h ->
       exists data readErr,
         os_Open w p = Opened data readErr /\ h = hex (Sha256.Sum256 data).

Definition filesOK {tables : Unicode.CaseTables} (w : World) (s : Store) : Prop :=
  forall p row, files s !! p = Some row -> fileRowOK w p row.

Definition fileEventOK {tables : Unicode.CaseTables} (w : World) (ev : Event) : Prop :=
  match ev with
  | EvFileUpsert p row => fileRowOK w p row
  | _ => True
  end.

(** The upsert carries no hash. *)
Definition noHash (ev : Event) : Prop :=
  match ev with
  | EvFileUpsert _ row => sha256 row = None
  | _ => True
  end.

(** The hash column of the record of [p], NULL also when there is no record. *)
Definition hashOf (s : Store) (p : gostring) : option gostring :=
  match files s !! p with
  | Some row => sha256 row
  | None => None
  end.

(** A world in which [os.Lstat] fails for every path. *)
Definition world_nothing (fault : nat -> option Err) : World :=
  mkWorld (fun _ => None) (fun _ => OpenErr) (fun _ => []) fault.

(** A store with one record of each kind. *)
Definition store_one : Store :=
  mkStore {[ str "/old" := mkFolderRow (str "/") (str "2020-01-01T00:00:00Z") ]}
          {[ str "/old/x.bin" :=
               mkFileRow (str "/old") (str "x.bin") (str ".bin") 3
                         (str "2020-01-01T00:00:00Z") (str "application/octet-stream")
                         (Some (str "abcd")) ]}.

(** The world [w] with a database that never fails. *)
Definition noFaults (w : World) : World :=
  mkWorld (os_Lstat w) (os_Open w) (mime_TypeByExtension w) (fun _ => None).

(** The walk of the engine reaches the file [p], can read its metadata, and
    the filter lets its extension through. *)
Definition reached {tables : Unicode.CaseTables} (w : World) (root : gostring) (extFilter : gset gostring)
    (p : gostring) : Prop :=
  exists d, In (WalkEntry p d) (WalkDir w (Filepath.Clean root))
            /\ IsDir d = false /\ Info d <> None
            /\ passes extFilter (Strings.ToLower (Filepath.Ext p)) = true.

(** The calls of a walk that are about a file. *)
Definition isFileCall (c : WalkCall) : bool :=
  match c with
  | WalkEntry _ d => negb (IsDir d)
  | WalkErr _ => false
  end.

(** *** Cleaned paths *)

(** The state of the loop of [filepath.Clean] between two elements: proper
    names on top of the [..] elements that could not be resolved, of which a
    rooted path has none. *)
Definition cleanShape (rooted : bool) (st : list gostring * nat) : Prop :=
  exists reals,
    fst st = reals ++ repeat (str "..") (snd st)
    /\ Forall validName reals
    /\ (rooted = true -> snd st = 0%nat).

(** The path a call of the walk function is about. *)
Definition callPath (c : WalkCall) : gostring :=
  match c with
  | WalkErr p => p
  | WalkEntry p _ => p
  end.

(** The path is in the form [filepath.Clean] gives. *)
Definition isClean (p : gostring) : Prop := Filepath.Clean p = p.

(** The paths an upsert records are clean; the parent of a folder may also
    be the empty string. *)
Definition pathsCleanEv (ev : Event) : Prop :=
  match ev with
  | EvFolderUpsert p parent _ => isClean p /\ (parent = [] \/ isClean parent)
  | EvFileUpsert p row => isClean p /\ isClean (folder_path row)
  | _ => True
  end.

Definition pathsClean (s : Store) : Prop :=
  (forall p row, folders s !! p = Some row ->
                 isClean p /\ (parent_path row = [] \/ isClean (parent_path row)))
  /\ (forall p row, files s !! p = Some row -> isClean p /\ isClean (folder_path row)).

(** *** Records and their parents *)

(** The metadata of every directory the walk of the engine reaches can be
    read. *)
Definition dirsReadable (w : World) (root : gostring) : Prop :=
  forall p d,
    In (WalkEntry p d) (WalkDir w (Filepath.Clean root)) ->
    IsDir d = true -> Info d <> None.

(** Every record but that of [root] points to a folder that has a record:
    a file by its folder path, a folder by its parent path. *)
Definition parentsOK (root : gostring) (s : Store) : Prop :=
  (forall p row, files s !! p = Some row ->
                 p = root \/ is_Some (folders s !! folder_path row))
  /\ (forall p row, folders s !! p = Some row ->
                    p = root \/ is_Some (folders s !! parent_path row)).

(** A directory [/r] with a file and a subdirectory that holds a file. *)
Definition tree_nested : Tree :=
  TDir false [(str "a.txt", Some info1, TFile);
              (str "sub", Some info1, TDir false [(str "b.pdf", Some info1, TFile)])].

Definition world_nested : World :=
  mkWorld (fun p => if decide (p = str "/r") then Some (info1, tree_nested) else None)
          (fun _ => Opened (list_byte_of_string "hello") false)
          (fun _ => [])
          (fun _ => None).

(** ** Slices and the helpers of the interface *)

(** The slice expression [s[:n]] on a string or on a slice no longer than
    its capacity: it panics ([None]) when [n] is out of range. *)
Definition sliceTo {A} (s : list A) (n : Z) : option (list A) :=
  if (0 <=? n) && (n <=? Z.of_nat (length s)) then Some (take (Z.to_nat n) s) else None.

(** The index expression [s[i]]. *)
Definition index {A} (s : list A) (i : Z) : option A :=
  if i <? 0 then None else s !! Z.to_nat i.

(** [len(s)] as an [int]. *)
Definition len {A} (s : list A) : Z := Z.of_nat (length s).

Definition addToRecentPaths (paths : list gostring) (newPath : gostring) (maxRecent : Z)
  : option (list gostring) :=
  if decide (newPath = []) then Some paths
  else
    (* Remove if already exists (to move to front) *)
    let filtered := filter (fun p => p <> newPath) paths in
    (* Add to front *)
    let result := newPath :: filtered in
    (* Limit to maxRecent *)
    if maxRecent <? len result then sliceTo result maxRecent else Some result.

Definition wrapText (text : gostring) (maxWidth : Z) : option gostring :=
  if len text <=? maxWidth then Some text
  else if 3 <? maxWidth then
    match sliceTo text (maxWidth - 3) with
    | Some t => Some (t ++ str "...")
    | None => None
    end
  else sliceTo text maxWidth.

(** [filepath.Join] of any number of elements: the elements from the first
    one that is not empty, joined and cleaned. *)
Fixpoint joinElems (elem : list gostring) : gostring :=
  match elem with
  | [] => []
  | e :: rest =>
      if decide (e = []) then joinElems rest
      else Filepath.Clean (Strings.Join elem [Filepath.Separator])
  end.

(** ** The host of the interface *)

(** [os.DirEntry] as the form and the browser read it. *)
Module Entry.
Record t := mk { Name : gostring; IsDir : bool }.
End Entry.

(** What the interface asks of the operating system: [os.Stat] (whether the
    file is a directory, [None] for an error), [os.ReadDir] (the entries, or
    an error), [os.UserHomeDir] (an error, or a path, which is never empty:
    its first byte and the rest) and whether [os.MkdirAll] succeeds. *)
Record Host := mkHost {
  os_Stat : gostring -> option bool;
  os_ReadDir : gostring -> Res (list Entry.t);
  os_UserHomeDir : option (ascii * gostring);
  os_MkdirAll : gostring -> bool
}.

(** The string [os.UserHomeDir] returns, empty with an error. *)
Definition homeDir (h : Host) : gostring :=
  match os_UserHomeDir h with
  | Some (c, rest) => c :: rest
  | None => []
  end.

(** [info, err := os.Stat(path); err == nil && info.IsDir()]. *)
Definition statIsDir (h : Host) (path : gostring) : bool :=
  match os_Stat h path with
  | Some true => true
  | _ => false
  end.

(** [_, err := os.Stat(path); err == nil]. *)
Definition statOK (h : Host) (path : gostring) : bool :=
  match os_Stat h path with
  | Some _ => true
  | None => false
  end.

(** The two loops of [getPathCompletions]: the directories that are not
    hidden, under [dir]; the second loop also asks for the prefix. *)
Definition completionsIn (dir : gostring) (entries : list Entry.t) : list gostring :=
  omap (fun entry =>
          if negb (Entry.IsDir entry) then None             (* Only directories *)
          else
            let name := Entry.Name entry in
            if Strings.HasPrefix name (str ".") then None   (* Skip hidden directories *)
            else Some (Filepath.Join dir name)) entries.

Definition completionsWith {tables : Unicode.CaseTables} (dir prefix : gostring) (entries : list Entry.t) : list gostring :=
  omap (fun entry =>
          if negb (Entry.IsDir entry) then None
          else
            let name := Entry.Name entry in
            if Strings.HasPrefix name (str ".") then None
            else if bool_decide (prefix = [])
                    || Strings.HasPrefix (Strings.ToLower name) (Strings.ToLower prefix)
                 then Some (Filepath.Join dir name)
                 else None) entries.

(** [getPathCompletions] for a path that is not empty. *)
Definition pathCompletions {tables : Unicode.CaseTables} (h : Host) (path : gostring) : list gostring :=
  let path := Strings.TrimSpace path in
  (* If the path exists as a directory, list its contents *)
  if statIsDir h path then
    match os_ReadDir h path with
    | Fail _ => []
    | Ok entries => completionsIn path entries
    end
  else
    (* Path doesn't exist - treat as partial path *)
    let dir := Filepath.Dir path in
    let prefix := Filepath.Base path in
    if negb (statOK h dir) then []
    else
      match os_ReadDir h dir with
      | Fail _ => []
      | Ok entries => completionsWith dir prefix entries
      end.

(** [getPathCompletions]; a nil slice is the empty list. *)
Definition getPathCompletions {tables : Unicode.CaseTables} (h : Host) (path : gostring) : list gostring :=
  match path with
  | [] =>
      match os_UserHomeDir h with
      | None => []
      | Some (c, rest) => pathCompletions h (c :: rest)
      end
  | _ => pathCompletions h path
  end.

(** [validatePath]: 0 unknown, 1 valid, 2 partial, 3 invalid. *)
Definition validatePath (h : Host) (path : gostring) : Z :=
  match path with
  | [] => 0
  | _ =>
      let path := Strings.TrimSpace path in
      if statIsDir h path then 1
      else if statOK h (Filepath.Dir path) then 2
      else 3
  end.

(** ** The model *)

Inductive appState := stateForm | stateBrowser | stateScanning | stateDone | stateHelp.

(** The types of bubbletea and bubbles the model is made of, and those of
    the values it does not look into. *)
Class TeaTypes := {
  textinput : Type;       (* textinput.Model *)
  spinner : Type;         (* spinner.Model *)
  KeyMsg : Type;          (* tea.KeyMsg *)
  TickMsg : Type;         (* spinner.TickMsg *)
  OtherMsg : Type;        (* any other message *)
  LibCmd : Type;          (* a command made by a component *)
  GoTime : Type;          (* time.Time *)
  float64 : Type
}.

Record WindowSizeMsg := mkWindowSizeMsg { Width : Z; Height : Z }.

Inductive Msg `{TeaTypes} :=
| MsgKey (k : KeyMsg)
| MsgWindowSize (ws : WindowSizeMsg)
| MsgTick (t : TickMsg)
| MsgEstimation (totalFiles : Z)
| MsgProgress (files folders : Z) (last : gostring) (estimatedTotal : Z) (progress : float64)
| MsgDone (err : option Err)
| MsgBrowserLoaded (entries : list Entry.t)
| MsgBrowserError (err : gostring)
| MsgOther (o : OtherMsg).

Inductive Cmd `{TeaTypes} :=
| CmdNil
| CmdQuit                                             (* tea.Quit *)
| CmdLib (c : LibCmd)
| CmdLoadBrowserEntries (currentPath : gostring)      (* m.loadBrowserEntries() *)
| CmdRunScan (root dbPath : gostring) (extFilter : gset gostring) (hash : bool)
| CmdBatch (c1 c2 : Cmd).                             (* tea.Batch *)

(** What the model asks of the components. *)
Class TeaOps `{TeaTypes} := {
  key_String : KeyMsg -> gostring;       (* msg.String() *)
  ti_Value : textinput -> gostring;
  ti_SetValue : gostring -> textinput -> textinput;
  ti_CursorEnd : textinput -> textinput;
  ti_Focus : textinput -> textinput;
  ti_Blur : textinput -> textinput;
  ti_Update : Msg -> textinput -> textinput * LibCmd;
  spin_Update : TickMsg -> spinner -> spinner * LibCmd;
  spin_Tick : spinner -> LibCmd;         (* m.spin.Tick *)
  time_Now : GoTime;
  (** [float64(files) / float64(estimatedTotal) * 100], at most 100 *)
  percent : Z -> Z -> float64
}.

Module Form.
Record t `{TeaTypes} := mk {
root : textinput;
outDir : textinput;
ext : textinput;
hashOn : bool;
focus : Z;                        (* 0=root, 1=outDir, 2=ext *)
err : gostring;
completions : list gostring;
completionIndex : Z;
showingCompletions : bool;
rootPathValid : Z;
outDirPathValid : Z;
recentPaths : list gostring
}.
Arguments mk {_}.
End Form.

Module Browser.
Record t := mk {
currentPath : gostring;
entries : list Entry.t;
selected : Z;
err : gostring
}.
End Browser.

Module Stats.
Record t `{TeaTypes} := mk {
files : Z;
folders : Z;
last : gostring;
estimatedTotal : Z;
progress : option float64         (* [None]: the zero value *)
}.
Arguments mk {_}.
End Stats.

Module Config.
Record t := mk {
RecentPaths : list gostring;
MaxRecent : Z;
LastRootPath : gostring;
LastOutputDir : gostring;
LastExtFilter : gostring;
LastHashSetting : bool
}.
End Config.

Module Model.
Record t `{TeaTypes} := mk {
state : appState;
form : Form.t;
browser : Browser.t;
previousState : appState;         (* help.previousState *)
spin : spinner;
start : option GoTime;            (* [None]: the zero value *)
stats : Stats.t;
dbPath : gostring;
err : option Err;
windowSize : WindowSizeMsg
}.
Arguments mk {_}.
End Model.

(** What a call of [Update] does besides returning: the directory it makes
    and the configuration file it writes. *)
Inductive Effect :=
| EffMkdirAll (path : gostring)
| EffWriteConfig (path : gostring) (config : Config.t).

Section Interface.

Context `{TeaOps} {tables : Unicode.CaseTables}.

(** The result of [Update]: the model, the command and the effects. *)
Record Step := mkStep { next : Model.t; cmd : Cmd; effects : list Effect }.

(** *** Assignments to the fields *)

Definition withState (s : appState) (m : Model.t) : Model.t :=
Model.mk s (Model.form m) (Model.browser m) (Model.previousState m) (Model.spin m)
         (Model.start m) (Model.stats m) (Model.dbPath m) (Model.err m) (Model.windowSize m).

Definition withForm (f : Form.t) (m : Model.t) : Model.t :=
Model.mk (Model.state m) f (Model.browser m) (Model.previousState m) (Model.spin m)
         (Model.start m) (Model.stats m) (Model.dbPath m) (Model.err m) (Model.windowSize m).

Definition withBrowser (b : Browser.t) (m : Model.t) : Model.t :=
Model.mk (Model.state m) (Model.form m) b (Model.previousState m) (Model.spin m)
         (Model.start m) (Model.stats m) (Model.dbPath m) (Model.err m) (Model.windowSize m).

Definition withPreviousState (s : appState) (m : Model.t) : Model.t :=
Model.mk (Model.state m) (Model.form m) (Model.browser m) s (Model.spin m)
         (Model.start m) (Model.stats m) (Model.dbPath m) (Model.err m) (Model.windowSize m).

Definition withSpin (s : spinner) (m : Model.t) : Model.t :=
Model.mk (Model.state m) (Model.form m) (Model.browser m) (Model.previousState m) s
         (Model.start m) (Model.stats m) (Model.dbPath m) (Model.err m) (Model.windowSize m).

Definition withStart (t : GoTime) (m : Model.t) : Model.t :=
Model.mk (Model.state m) (Model.form m) (Model.browser m) (Model.previousState m)
         (Model.spin m) (Some t) (Model.stats m) (Model.dbPath m) (Model.err m)
         (Model.windowSize m).

Definition withStats (s : Stats.t) (m : Model.t) : Model.t :=
Model.mk (Model.state m) (Model.form m) (Model.browser m) (Model.previousState m)
         (Model.spin m) (Model.start m) s (Model.dbPath m) (Model.err m)
         (Model.windowSize m).

Definition withDbPath (p : gostring) (m : Model.t) : Model.t :=
Model.mk (Model.state m) (Model.form m) (Model.browser m) (Model.previousState m)
         (Model.spin m) (Model.start m) (Model.stats m) p (Model.err m)
         (Model.windowSize m).

Definition withErr (e : option Err) (m : Model.t) : Model.t :=
Model.mk (Model.state m) (Model.form m) (Model.browser m) (Model.previousState m)
         (Model.spin m) (Model.start m) (Model.stats m) (Model.dbPath m) e
         (Model.windowSize m).

Definition withWindowSize (ws : WindowSizeMsg) (m : Model.t) : Model.t :=
Model.mk (Model.state m) (Model.form m) (Model.browser m) (Model.previousState m)
         (Model.spin m) (Model.start m) (Model.stats m) (Model.dbPath m) (Model.err m) ws.

Definition withRoot (x : textinput) (f : Form.t) : Form.t :=
Form.mk x (Form.outDir f) (Form.ext f) (Form.hashOn f) (Form.focus f) (Form.err f)
        (Form.completions f) (Form.completionIndex f) (Form.showingCompletions f)
        (Form.rootPathValid f) (Form.outDirPathValid f) (Form.recentPaths f).

Definition withOutDir (x : textinput) (f : Form.t) : Form.t :=
Form.mk (Form.root f) x (Form.ext f) (Form.hashOn f) (Form.focus f) (Form.err f)
        (Form.completions f) (Form.completionIndex f) (Form.showingCompletions f)
        (Form.rootPathValid f) (Form.outDirPathValid f) (Form.recentPaths f).

Definition withExt (x : textinput) (f : Form.t) : Form.t :=
Form.mk (Form.root f) (Form.outDir f) x (Form.hashOn f) (Form.focus f) (Form.err f)
        (Form.completions f) (Form.completionIndex f) (Form.showingCompletions f)
        (Form.rootPathValid f) (Form.outDirPathValid f) (Form.recentPaths f).

Definition withHashOn (b : bool) (f : Form.t) : Form.t :=
Form.mk (Form.root f) (Form.outDir f) (Form.ext f) b (Form.focus f) (Form.err f)
        (Form.completions f) (Form.completionIndex f) (Form.showingCompletions f)
        (Form.rootPathValid f) (Form.outDirPathValid f) (Form.recentPaths f).

Definition withFocus (n : Z) (f : Form.t) : Form.t :=
Form.mk (Form.root f) (Form.outDir f) (Form.ext f) (Form.hashOn f) n (Form.err f)
        (Form.completions f) (Form.completionIndex f) (Form.showingCompletions f)
        (Form.rootPathValid f) (Form.outDirPathValid f) (Form.recentPaths f).

Definition withFormErr (e : gostring) (f : Form.t) : Form.t :=
Form.mk (Form.root f) (Form.outDir f) (Form.ext f) (Form.hashOn f) (Form.focus f) e
        (Form.completions f) (Form.completionIndex f) (Form.showingCompletions f)
        (Form.rootPathValid f) (Form.outDirPathValid f) (Form.recentPaths f).

(** [completions], [completionIndex] and [showingCompletions]. *)
Definition withCompletions (cs : list gostring) (i : Z) (showing : bool) (f : Form.t)
: Form.t :=
Form.mk (Form.root f) (Form.outDir f) (Form.ext f) (Form.hashOn f) (Form.focus f)
        (Form.err f) cs i showing
        (Form.rootPathValid f) (Form.outDirPathValid f) (Form.recentPaths f).

Definition withRootPathValid (v : Z) (f : Form.t) : Form.t :=
Form.mk (Form.root f) (Form.outDir f) (Form.ext f) (Form.hashOn f) (Form.focus f)
        (Form.err f) (Form.completions f) (Form.completionIndex f)
        (Form.showingCompletions f) v (Form.outDirPathValid f) (Form.recentPaths f).

Definition withOutDirPathValid (v : Z) (f : Form.t) : Form.t :=
Form.mk (Form.root f) (Form.outDir f) (Form.ext f) (Form.hashOn f) (Form.focus f)
        (Form.err f) (Form.completions f) (Form.completionIndex f)
        (Form.showingCompletions f) (Form.rootPathValid f) v (Form.recentPaths f).

(** The zero value of [stats] and of [browserModel]. *)
Definition zeroStats : Stats.t := Stats.mk 0 0 [] 0 None.

(** *** The layout *)

Definition getWidth (m : Model.t) : Z :=
if 0 <? Width (Model.windowSize m) then Width (Model.windowSize m)
else 80.                              (* Default width *)

Definition getHeight (m : Model.t) : Z :=
if 0 <? Height (Model.windowSize m) then Height (Model.windowSize m)
else 24.                              (* Default height *)

Definition getProgressBarWidth (m : Model.t) : Z :=
let width := getWidth m in
if width <? 60 then 20
else if width <? 100 then 40
else 50.

Definition getTableWidth (m : Model.t) : Z :=
let width := getWidth m in
if width <? 70 then 50
else if width <? 100 then 70
else 90.

Definition getBrowserDisplayLines (m : Model.t) : Z :=
let height := getHeight m in
if height <? 20 then 8
else if height <? 30 then 15
else 20.

(** The path line of [viewBrowser]: [m.wrapText(m.browser.currentPath,
  m.getWidth() - 15)]. *)
Definition viewBrowser_wrappedPath (m : Model.t) : option gostring :=
let pathWidth := getWidth m - 15 in   (* Account for "Current: " prefix *)
wrapText (Browser.currentPath (Model.browser m)) pathWidth.

(** The entries [viewBrowser] lists: those from [start] to [end], the
  second excluded. *)
Definition viewBrowser_window (m : Model.t) : Z * Z :=
let b := Model.browser m in
let maxDisplay := getBrowserDisplayLines m in
let start :=
  if maxDisplay <=? Browser.selected b then Browser.selected b - maxDisplay + 1
  else 0 in
let end_ := start + maxDisplay in
let end_ := if len (Browser.entries b) <? end_ then len (Browser.entries b) else end_ in
(start, end_).

(** The loop [for i := start; i < end; i++ { entry := m.browser.entries[i]
  ... }]: the entries listed, or a panic. *)
Definition viewBrowser_listed (m : Model.t) : option (list Entry.t) :=
let '(start, end_) := viewBrowser_window m in
mapM (fun i => index (Browser.entries (Model.browser m)) (start + Z.of_nat i))
     (seq 0 (Z.to_nat (end_ - start))).

(** *** The form *)

Definition setFocus (m : Model.t) : Model.t :=
let f := Model.form m in
let f := withRoot (ti_Blur (Form.root f)) f in
let f := withOutDir (ti_Blur (Form.outDir f)) f in
let f := withExt (ti_Blur (Form.ext f)) f in
(* Clear completions when changing focus *)
let f := withCompletions [] (Form.completionIndex f) false f in
let f :=
  if Form.focus f =? 0 then withRoot (ti_Focus (Form.root f)) f
  else if Form.focus f =? 1 then withOutDir (ti_Focus (Form.outDir f)) f
  else if Form.focus f =? 2 then withExt (ti_Focus (Form.ext f)) f
  else f in
withForm f m.

(** [SetValue] and [CursorEnd] on the root field, or on the output field
  when the focus is not on the root. *)
Definition setFocused (v : gostring) (f : Form.t) : Form.t :=
if Form.focus f =? 0 then withRoot (ti_CursorEnd (ti_SetValue v (Form.root f))) f
else withOutDir (ti_CursorEnd (ti_SetValue v (Form.outDir f))) f.

Definition handleTabCompletion (h : Host) (m : Model.t) : Step :=
let f := Model.form m in
let currentPath :=
  if Form.focus f =? 0 then ti_Value (Form.root f) else ti_Value (Form.outDir f) in
(* Get path completions *)
let completions := getPathCompletions h currentPath in
match completions with
| [c0] =>
    (* If we got only one completion, auto-complete it immediately *)
    mkStep (withForm (setFocused c0 f) m) CmdNil []
| [] => mkStep m CmdNil []
| _ => mkStep (withForm (withCompletions completions 0 true f) m) CmdNil []
end.

Definition selectCompletion (m : Model.t) : option Step :=
let f := Model.form m in
if negb (Form.showingCompletions f) || (len (Form.completions f) =? 0)
then Some (mkStep m CmdNil [])
else
  match index (Form.completions f) (Form.completionIndex f) with
  | None => None
  | Some completion =>
      let f := setFocused completion f in
      let f := withCompletions [] (Form.completionIndex f) false f in
      Some (mkStep (withForm f m) CmdNil [])
  end.

Definition getBrowserStartPath (h : Host) (m : Model.t) : gostring :=
let currentRoot := Strings.TrimSpace (ti_Value (Form.root (Model.form m))) in
let fromRoot :=
  if bool_decide (currentRoot <> []) then
    (* If it's a valid directory, start there *)
    if statIsDir h currentRoot then Some currentRoot
    else
      (* If it's a file or partial path, start from its directory *)
      let dir := Filepath.Dir currentRoot in
      if bool_decide (dir <> str ".") && statOK h dir then Some dir else None
  else None in
match fromRoot with
| Some p => p
| None =>
    (* Try OneDrive directories *)
    match os_UserHomeDir h with
    | None => str "/"
    | Some (c, rest) =>
        let home := c :: rest in
        let onedrivePaths :=
          [ Filepath.Join home (str "OneDrive");
            Filepath.Join home (str "OneDrive - Personal");
            joinElems [home; str "Library"; str "CloudStorage"; str "OneDrive-Personal"];
            joinElems [home; str "Library"; str "CloudStorage"] ] in
        match List.find (statIsDir h) onedrivePaths with
        | Some path => path
        | None => home                (* Fallback to home directory *)
        end
    end
end.

(** The end of [updateForm]: the focused text input gets the message, and
  the path it holds is validated. *)
Definition updateInput (h : Host) (msg : Msg) (m : Model.t) : Step :=
let f := Model.form m in
if Form.focus f =? 0 then
  let '(x, c) := ti_Update msg (Form.root f) in
  let f := withRoot x f in
  let f := withRootPathValid (validatePath h (ti_Value (Form.root f))) f in
  mkStep (withForm f m) (CmdLib c) []
else if Form.focus f =? 1 then
  let '(x, c) := ti_Update msg (Form.outDir f) in
  let f := withOutDir x f in
  let f := withOutDirPathValid (validatePath h (ti_Value (Form.outDir f))) f in
  mkStep (withForm f m) (CmdLib c) []
else if Form.focus f =? 2 then
  let '(x, c) := ti_Update msg (Form.ext f) in
  mkStep (withForm (withExt x f) m) (CmdLib c) []
else mkStep m CmdNil [].

(** [getConfigPath] and [saveConfig]: the file written, if any. *)
Definition getConfigPath (h : Host) : gostring :=
match os_UserHomeDir h with
| None => []
| Some (c, rest) => Filepath.Join (c :: rest) (str ".spcatalog_config.json")
end.

Definition saveConfig (h : Host) (config : Config.t) : list Effect :=
let configPath := getConfigPath h in
if decide (configPath = []) then [] else [EffWriteConfig configPath config].

(** The case ["enter"] of [updateForm] when no completion is shown. *)
Definition submit (h : Host) (m : Model.t) : option Step :=
let f := Model.form m in
let root := Strings.TrimSpace (ti_Value (Form.root f)) in
if decide (root = []) then
  Some (mkStep (withForm (withFormErr (str "Root is required.") f) m) CmdNil [])
else if negb (statOK h root) then
  Some (mkStep (withForm (withFormErr (str "Root not accessible.") f) m) CmdNil [])
else
  let outDir := Strings.TrimSpace (ti_Value (Form.outDir f)) in
  let outDir :=
    if decide (outDir = []) then Filepath.Join (homeDir h) (str "spcatalog") else outDir in
  if negb (os_MkdirAll h outDir) then
    Some (mkStep (withForm (withFormErr (str "Failed to create output dir.") f) m) CmdNil
                 [EffMkdirAll outDir])
  else
    let dbPath := Filepath.Join outDir (str "catalog.db") in
    let extSet := parseExtSet (Strings.TrimSpace (ti_Value (Form.ext f))) in
    (* Save all preferences before starting scan *)
    match addToRecentPaths (Form.recentPaths f) root 9 with
    | None => None
    | Some recent =>
        let config :=
          Config.mk recent 9 root outDir (Strings.TrimSpace (ti_Value (Form.ext f)))
                    (Form.hashOn f) in
        let m := withDbPath dbPath m in
        let m := withState stateScanning m in
        let m := withStart time_Now m in
        Some (mkStep m
                (CmdBatch (CmdLib (spin_Tick (Model.spin m)))
                          (CmdRunScan root dbPath extSet (Form.hashOn f)))
                (EffMkdirAll outDir :: saveConfig h config))
    end.

(** [int(msg.String()[0] - '1')], a subtraction on bytes. *)
Definition digitIndex (key : gostring) : option Z :=
match key with
| c :: _ => Some ((Z.of_N (N_of_ascii c) - 49) mod 256)
| [] => None
end.

(** The case of the keys ["1"] to ["9"]: quick select recent path. *)
Definition selectRecent (h : Host) (key : gostring) (m : Model.t) : option Step :=
let f := Model.form m in
if 0 <? len (Form.recentPaths f) then
  match digitIndex key with
  | None => None
  | Some i =>
      if i <? len (Form.recentPaths f) then
        match index (Form.recentPaths f) i with
        | None => None
        | Some p =>
            let f := withRoot (ti_CursorEnd (ti_SetValue p (Form.root f))) f in
            let f := withRootPathValid (validatePath h p) f in
            Some (mkStep (withForm f m) CmdNil [])
        end
      else Some (mkStep m CmdNil [])
  end
else Some (mkStep m CmdNil []).

(** [x % n]: the remainder of Go, which panics when [n] is zero. *)
Definition goRem (x n : Z) : option Z :=
if n =? 0 then None else Some (Z.rem x n).

Definition keyIn (key : gostring) (keys : list gostring) : bool :=
bool_decide (key ∈ keys).

Definition updateForm (h : Host) (m : Model.t) (msg : Msg) : option Step :=
let f := Model.form m in
let showing := Form.showingCompletions f && (0 <? len (Form.completions f)) in
let moveFocus (d : Z) :=
  Some (updateInput h msg (setFocus (withForm (withFocus (Z.rem (Form.focus f + d) 3) f) m))) in
let moveCompletion (d : Z) :=
  match goRem (Form.completionIndex f + d) (len (Form.completions f)) with
  | None => None
  | Some i =>
      Some (mkStep (withForm (withCompletions (Form.completions f) i
                                (Form.showingCompletions f) f) m) CmdNil [])
  end in
match msg with
| MsgKey k =>
    let key := key_String k in
    if keyIn key [str "tab"] then
      (* Tab completion for path fields *)
      if (Form.focus f =? 0) || (Form.focus f =? 1) then Some (handleTabCompletion h m)
      else moveFocus 1                (* Otherwise, move to next field *)
    else if keyIn key [str "down"] then
      if showing then moveCompletion 1 else moveFocus 1
    else if keyIn key [str "shift+tab"; str "up"] then
      if showing then moveCompletion (len (Form.completions f) - 1) else moveFocus 2
    else if keyIn key [str " "] then
      (* toggle hash *)
      Some (updateInput h msg (withForm (withHashOn (negb (Form.hashOn f)) f) m))
    else if keyIn key [str "ctrl+b"] then
      (* open directory browser starting from current path context *)
      let startPath := getBrowserStartPath h m in
      let m := withState stateBrowser m in
      let m := withBrowser (Browser.mk startPath [] 0 []) m in
      Some (mkStep m (CmdLoadBrowserEntries startPath) [])
    else if keyIn key [str "enter"] then
      (* If showing completions, select the current completion *)
      if showing then selectCompletion m
      else submit h m                 (* Otherwise, submit *)
    else if keyIn key [str "esc"] then
      (* Clear completions if showing, otherwise quit *)
      if Form.showingCompletions f then
        Some (mkStep (withForm (withCompletions [] (Form.completionIndex f) false f) m)
                     CmdNil [])
      else Some (mkStep m CmdQuit [])
    else if keyIn key [str "q"; str "ctrl+c"] then Some (mkStep m CmdQuit [])
    else if keyIn key [str "?"; str "h"; str "F1"] then
      (* Show help *)
      Some (mkStep (withState stateHelp (withPreviousState (Model.state m) m)) CmdNil [])
    else if keyIn key [str "1"; str "2"; str "3"; str "4"; str "5"; str "6"; str "7";
                       str "8"; str "9"] then
      selectRecent h key m
    else Some (updateInput h msg m)
| MsgWindowSize ws => Some (updateInput h msg (withWindowSize ws m))
| _ => Some (updateInput h msg m)
end.

(** *** The browser *)

(** The command [loadBrowserEntries] when it is run: the message it returns. *)
Definition loadBrowserEntries (h : Host) (currentPath : gostring) : Msg :=
match os_ReadDir h currentPath with
| Fail e => MsgBrowserError e
| Ok entries =>
    (* Add parent directory entry if not at root *)
    let allEntries :=
      if bool_decide (currentPath <> str "/") && bool_decide (currentPath <> [])
      then [Entry.mk (str "..") true]   (* a fake ".." entry *)
      else [] in
    (* Filter to only show directories *)
    MsgBrowserLoaded (allEntries ++ List.filter Entry.IsDir entries)
end.

Definition withCurrentPath (p : gostring) (b : Browser.t) : Browser.t :=
Browser.mk p (Browser.entries b) (Browser.selected b) (Browser.err b).

Definition withSelected (i : Z) (b : Browser.t) : Browser.t :=
Browser.mk (Browser.currentPath b) (Browser.entries b) i (Browser.err b).

(** [m.form.root.SetValue(m.browser.currentPath); m.state = stateForm]. *)
Definition selectCurrent (m : Model.t) : Model.t :=
let f := Model.form m in
let f := withRoot (ti_SetValue (Browser.currentPath (Model.browser m)) (Form.root f)) f in
withState stateForm (withForm f m).

Definition updateBrowser (m : Model.t) (msg : Msg) : option Step :=
let b := Model.browser m in
match msg with
| MsgBrowserLoaded entries =>
    Some (mkStep (withBrowser (Browser.mk (Browser.currentPath b) entries 0 []) m) CmdNil [])
| MsgBrowserError e =>
    Some (mkStep (withBrowser (Browser.mk (Browser.currentPath b) (Browser.entries b)
                                          (Browser.selected b) e) m) CmdNil [])
| MsgWindowSize ws => Some (mkStep (withWindowSize ws m) CmdNil [])
| MsgKey k =>
    let key := key_String k in
    if keyIn key [str "q"; str "esc"] then
      (* return to form *)
      Some (mkStep (withState stateForm m) CmdNil [])
    else if keyIn key [str "?"; str "h"; str "F1"] then
      Some (mkStep (withState stateHelp (withPreviousState (Model.state m) m)) CmdNil [])
    else if keyIn key [str "up"; str "k"] then
      if 0 <? Browser.selected b
      then Some (mkStep (withBrowser (withSelected (Browser.selected b - 1) b) m) CmdNil [])
      else Some (mkStep m CmdNil [])
    else if keyIn key [str "down"; str "j"] then
      if Browser.selected b <? len (Browser.entries b) - 1
      then Some (mkStep (withBrowser (withSelected (Browser.selected b + 1) b) m) CmdNil [])
      else Some (mkStep m CmdNil [])
    else if keyIn key [str "enter"] then
      if 0 <? len (Browser.entries b) then
        match index (Browser.entries b) (Browser.selected b) with
        | None => None
        | Some entry =>
            if Entry.IsDir entry then
              let p :=
                if decide (Entry.Name entry = str "..")
                then Filepath.Dir (Browser.currentPath b)
                else Filepath.Join (Browser.currentPath b) (Entry.Name entry) in
              Some (mkStep (withBrowser (withCurrentPath p b) m)
                           (CmdLoadBrowserEntries p) [])
            else
              (* Select this directory and return to form *)
              Some (mkStep (selectCurrent m) CmdNil [])
        end
      else Some (mkStep m CmdNil [])
    else if keyIn key [str " "] then
      (* Select current directory and return to form *)
      Some (mkStep (selectCurrent m) CmdNil [])
    else Some (mkStep m CmdNil [])
| _ => Some (mkStep m CmdNil [])
end.

(** *** Help, the scan and the end *)

Definition updateHelp (m : Model.t) (msg : Msg) : Step :=
match msg with
| MsgWindowSize ws => mkStep (withWindowSize ws m) CmdNil []
| MsgKey _ =>
    (* Any key exits help and returns to previous state *)
    mkStep (withState (Model.previousState m) m) CmdNil []
| _ => mkStep m CmdNil []
end.

Definition updateScan (m : Model.t) (msg : Msg) : Step :=
let s := Model.stats m in
match msg with
| MsgTick t =>
    let '(sp, c) := spin_Update t (Model.spin m) in
    mkStep (withSpin sp m) (CmdLib c) []
| MsgEstimation totalFiles =>
    mkStep (withStats (Stats.mk (Stats.files s) (Stats.folders s) (Stats.last s)
                                totalFiles (Stats.progress s)) m) CmdNil []
| MsgProgress files folders last estimatedTotal _ =>
    (* Calculate progress percentage *)
    let progress :=
      if 0 <? estimatedTotal then Some (percent files estimatedTotal)
      else Stats.progress s in
    mkStep (withStats (Stats.mk files folders last estimatedTotal progress) m) CmdNil []
| MsgDone e => mkStep (withErr e (withState stateDone m)) CmdQuit []
| MsgWindowSize ws => mkStep (withWindowSize ws m) CmdNil []
| MsgKey k =>
    let key := key_String k in
    if keyIn key [str "q"; str "esc"; str "ctrl+c"] then
      (* just quit; WAL ensures db integrity *)
      mkStep m CmdQuit []
    else if keyIn key [str "?"; str "h"; str "F1"] then
      mkStep (withState stateHelp (withPreviousState (Model.state m) m)) CmdNil []
    else mkStep m CmdNil []
| _ => mkStep m CmdNil []
end.

Definition Update (h : Host) (m : Model.t) (msg : Msg) : option Step :=
match Model.state m with
| stateForm => updateForm h m msg
| stateBrowser => updateBrowser m msg
| stateScanning => Some (updateScan m msg)
| stateDone =>
    match msg with
    | MsgKey _ => Some (mkStep m CmdQuit [])
    | _ => Some (mkStep m CmdNil [])
    end
| stateHelp => Some (updateHelp m msg)
end.

(** The command of [runScan] when it is run in the world [w] on the store
  [db0] of the database: the one message it returns, if it returns. *)
Definition runScanMsg (w : World) (db0 : Store) (c : Cmd) : option Msg :=
match c with
| CmdRunScan root _ extFilter hash =>
    match run_done (runScan w db0 root extFilter hash) with
    | Some d => Some (MsgDone (done_err d))
    | None => None
    end
| _ => None
end.

(** The scan a command starts, if it starts one. *)
Definition scanOf (c : Cmd) : option (gostring * gostring * gset gostring * bool) :=
match c with
| CmdRunScan root dbPath extFilter hash
| CmdBatch _ (CmdRunScan root dbPath extFilter hash) => Some (root, dbPath, extFilter, hash)
| _ => None
end.

(** A session: the messages the program receives one after the other, each
  with the host as it is then.  [None] when a call of [Update] panics. *)
Fixpoint session (m : Model.t) (inputs : list (Host * Msg)) : option Model.t :=
match inputs with
| [] => Some m
| (h, msg) :: rest =>
    match Update h m msg with
    | Some s => session (next s) rest
    | None => None
    end
end.

(** The model [main] starts the program with: the three text inputs as
  made from the configuration, the saved hash setting and recent paths. *)
Definition initialModel (root outDir ext : textinput) (s : spinner) (config : Config.t)
: Model.t :=
Model.mk stateForm
         (Form.mk root outDir ext (Config.LastHashSetting config) 0 [] [] 0 false 0 0
                  (Config.RecentPaths config))
         (Browser.mk [] [] 0 []) stateForm s None zeroStats [] None (mkWindowSizeMsg 0 0).

(** *** What holds of the model between two messages *)

(** The indices are within their slices: the focus is on one of the three
  fields, the completion shown is one of the completions, and the entry
  selected in the browser is one of its entries (or the first, of none). *)
Definition formOK (f : Form.t) : Prop :=
0 <= Form.focus f < 3
/\ (Form.showingCompletions f = true ->
    0 <= Form.completionIndex f < len (Form.completions f)).

Definition browserOK (b : Browser.t) : Prop :=
0 <= Browser.selected b
/\ (Browser.selected b < len (Browser.entries b) \/ Browser.selected b = 0).

Definition indicesOK (m : Model.t) : Prop :=
formOK (Model.form m) /\ browserOK (Model.browser m).

(** The call of [Update] returned, and the indices of the new model are
  within their slices. *)
Definition stepOK (o : option Step) : Prop :=
match o with
| Some s => indicesOK (next s)
| None => False
end.

End Interface.

Arguments mkStep {_}.

(** *** The simplest components *)

(** A text input that is its value, a spinner without state, keys that are
    their names. *)
#[export] Instance plainTypes : TeaTypes :=
  {| textinput := gostring; spinner := unit; KeyMsg := gostring; TickMsg := unit;
     OtherMsg := unit; LibCmd := unit; GoTime := unit; float64 := Z * Z |}.

#[export] Instance plainOps : TeaOps :=
  {| key_String := fun k => k;
     ti_Value := fun x => x;
     ti_SetValue := fun v _ => v;
     ti_CursorEnd := fun x => x;
     ti_Focus := fun x => x;
     ti_Blur := fun x => x;
     ti_Update := fun _ x => (x, tt);
     spin_Update := fun _ s => (s, tt);
     spin_Tick := fun _ => tt;
     time_Now := tt;
     percent := fun a b => (a, b) |}.

(** A host with the directories [/home/u] and [/home/u/docs]. *)
Definition host_docs : Host :=
  mkHost (fun p => if decide (p = str "/home/u" \/ p = str "/home/u/docs" \/ p = str "/")
                   then Some true else None)
         (fun p => if decide (p = str "/home/u")
                   then Ok [Entry.mk (str "docs") true; Entry.mk (str ".cache") true;
                            Entry.mk (str "notes.txt") false]
                   else if decide (p = str "/home/u/docs") then Ok []
                   else Fail (str "no such file or directory"))
         (Some ("/"%char, str "home/u"))
         (fun _ => true).

(** A home directory with a directory whose name begins with a capital
    letter that is not ASCII. *)
Definition host_ecole : Host :=
  mkHost (fun p => if decide (p = str "/home/u") then Some true else None)
         (fun p => if decide (p = str "/home/u")
                   then Ok [Entry.mk (str "École") true; Entry.mk (str "ecole") true]
                   else Fail (str "no such file or directory"))
         (Some ("/"%char, str "home/u"))
         (fun _ => true).

Definition form0 : Form.t :=
  Form.mk (str "/home/u/docs") (str "/home/u/out") (str "pdf, .DOCX") false 0 [] [] 0 false
          0 0 [str "/a"; str "/home/u/docs"; str "/b"].

Definition model0 : Model.t :=
  Model.mk stateForm form0 (Browser.mk [] [] 0 []) stateForm tt None
           (Stats.mk 0 0 [] 0 None) [] None (mkWindowSizeMsg 0 0).

(** The form with the recent paths as [addToRecentPaths] leaves them. *)
Definition model_recent : Model.t :=
  withForm (Form.mk (str "") (str "/home/u/out") (str "") false 0 [] [] 0 false 0 0
                    [str "/home/u/docs"; str "/a"; str "/b"]) model0.

(** The browser on [/home/u], with the entry [docs] selected. *)
Definition model_browser : Model.t :=
  withState stateBrowser
    (withBrowser (Browser.mk (str "/home/u")
                             [Entry.mk (str "..") true; Entry.mk (str "docs") true] 1 [])
                 model0).

(** A model that no session reaches: it shows completions and its index is
    beyond them. *)
Definition model_broken : Model.t :=
  withForm (Form.mk (str "/x") (str "") (str "") false 0 [] [str "/x/y"] 5 true 0 0 []) model0.

(** * Properties *)

(** ** The library functions on examples *)

(** The inputs and results of the tests of [main_test.go] and of the tests
    of Go's [path/filepath]. *)

Section ConcreteStrings.

(** The examples are stated for a part of the case tables. *)
#[local] Existing Instance Unicode.latin1Tables.

Example parseExtSet_spaces :
let m := parseExtSet (str " .pdf , .docx , , TXT ") in
size m = 3%nat
/\ bool_decide (str ".pdf" ∈ m) && bool_decide (str ".docx" ∈ m)
   && bool_decide (str ".txt" ∈ m) = true.
Proof. vm_compute. split; reflexivity. Qed.

Example parseExtSet_empty_tokens :
elements (parseExtSet (str ",, ,")) = [] /\ elements (parseExtSet (str "pdf")) = [str ".pdf"].
Proof. vm_compute. split; reflexivity. Qed.

(** White space that is not ASCII is trimmed, and a letter that is not
  ASCII is lower-cased as the tables say. *)
Example parseExtSet_unicode :
elements (parseExtSet (nbsp ++ str "PDF" ++ ideographicSpace)) = [str ".pdf"]
/\ elements (parseExtSet (str "É")) = [str ".é"]
/\ elements (parseExtSet kelvin) = [str ".k"].
Proof. vm_compute. repeat split. Qed.

Example ToLower_tests :
Strings.ToLower (str "École.PDF") = str "école.pdf"
/\ Strings.ToLower (str "a." ++ kelvin) = str "a.k"
/\ Strings.ToLower (str "A" ++ badByte ++ str "B") = str "a" ++ ["239"; "191"; "189"]%char ++ str "b"
/\ Strings.ToLower (str "MiXed 123") = str "mixed 123".
Proof. vm_compute. repeat split. Qed.

Example TrimSpace_tests :
Strings.TrimSpace (str "  a b  ") = str "a b"
/\ Strings.TrimSpace (nbsp ++ str " a" ++ nbsp ++ str "b " ++ ideographicSpace)
   = str "a" ++ nbsp ++ str "b"
/\ Strings.TrimSpace (str " é ") = str "é"
/\ Strings.TrimSpace (str " " ++ badByte ++ str " ") = badByte
/\ Strings.TrimSpace (nbsp ++ ["160"]%char) = ["160"]%char
/\ Strings.TrimSpace (str " " ++ nbsp) = [].
Proof. vm_compute. repeat split. Qed.

Example DecodeRune_tests :
Utf8.DecodeRuneInString (str "é!") = (0xE9, 2%nat)
/\ Utf8.DecodeRuneInString kelvin = (0x212A, 3%nat)
/\ Utf8.DecodeRuneInString (str "😀") = (0x1F600, 4%nat)
/\ Utf8.DecodeRuneInString ["192"; "128"]%char = (Utf8.RuneError, 1%nat)
/\ Utf8.DecodeRuneInString ["237"; "160"; "128"]%char = (Utf8.RuneError, 1%nat)
/\ Utf8.DecodeRuneInString ["226"; "132"]%char = (Utf8.RuneError, 1%nat)
/\ Utf8.DecodeLastRuneInString (str "aé") = (0xE9, 2%nat)
/\ Utf8.DecodeLastRuneInString (str "a" ++ ["132"; "170"]%char) = (Utf8.RuneError, 1%nat)
/\ Utf8.EncodeRune 0x1F600 = str "😀"
/\ Utf8.EncodeRune 0xD800 = ["239"; "191"; "189"]%char.
Proof. vm_compute. repeat split. Qed.

End ConcreteStrings.

Example Clean_tests :
  map (fun s => Filepath.Clean (str s))
    [ "abc//def//ghi"; "abc/./def"; "/./abc/def"; "abc/def/ghi/../jkl";
      "abc/def/../ghi/../jkl"; "abc/def/.."; "abc/def/../.."; "/abc/def/../..";
      "abc/def/../../.."; "/abc/def/../../.."; "abc/def/../../../ghi/jkl/../../../mno";
      "/../abc"; "abc/./../def"; "abc/../../././../def"; ""; "///"; "abc/"; "../.." ]%string
  = map str
    [ "abc/def/ghi"; "abc/def"; "/abc/def"; "abc/def/jkl";
      "abc/jkl"; "abc"; "."; "/";
      ".."; "/"; "../../mno";
      "/abc"; "def"; "../../def"; "."; "/"; "abc"; "../.." ]%string.
Proof. vm_compute. reflexivity. Qed.

Example Dir_tests :
  map (fun s => Filepath.Dir (str s))
    [ ""; "."; "/."; "/"; "/foo"; "x/"; "abc"; "abc/def"; "a/b/.x"; "a/b/c."; "/tmp/x" ]%string
  = map str [ "."; "."; "/"; "/"; "/"; "x"; "."; "abc"; "a/b"; "a/b"; "/tmp" ]%string.
Proof. vm_compute. reflexivity. Qed.

Example Base_tests :
  map (fun s => Filepath.Base (str s))
    [ ""; "."; "/."; "/"; "////"; "x/"; "abc"; "abc/def"; "a/b/.x"; "a/b/c."; "a/b/c.x" ]%string
  = map str [ "."; "."; "."; "/"; "/"; "x"; "abc"; "def"; ".x"; "c."; "c.x" ]%string.
Proof. vm_compute. reflexivity. Qed.

Example Ext_tests :
  map (fun s => Filepath.Ext (str s))
    [ "path.go"; "path.pb.go"; "a.dir/b"; "a.dir/b.go"; "a.dir/"; "/a.d/b.tar.GZ" ]%string
  = map str [ ".go"; ".go"; ""; ".go"; ""; ".GZ" ]%string.
Proof. vm_compute. reflexivity. Qed.

Example Join_tests :
  map (fun ab => Filepath.Join (str (fst ab)) (str (snd ab)))
    [ ("a", "b"); ("a", ""); ("", "b"); ("/", "a"); ("/", ""); ("a/", "b"); ("a/", "");
      ("", ""); ("/a/", "b"); (".", "b") ]%string
  = map str [ "a/b"; "a"; "b"; "/a"; "/"; "a/b"; "a"; ""; "/a/b"; "b" ]%string.
Proof. vm_compute. reflexivity. Qed.

Example detectMIME_tests :
  let w := mkWorld (fun _ => None) (fun _ => OpenErr)
             (fun e => if decide (e = str ".pdf") then str "application/pdf" else [])
             (fun _ => None) in
  detectMIME w (str ".msg") = str "application/vnd.ms-outlook"
  /\ detectMIME w (str ".pdf") = str "application/pdf"
  /\ detectMIME w (str ".unknown") = str "application/octet-stream"
  /\ detectMIME w [] = str "application/octet-stream".
Proof. vm_compute. repeat split. Qed.

Example sha256_hello :
  hex (Sha256.Sum256 (list_byte_of_string "Hello, World!"))
  = str "dffd6021bb2bd5b0af676290809ec3a53191dd81c7f70a4b28688a362182986f".
Proof. vm_compute. reflexivity. Qed.

Example sha256_empty :
  hex (Sha256.Sum256 [])
  = str "e3b0c44298fc1c149afbf4c8996fb92427ae41e4649b934ca495991b7852b855".
Proof. vm_compute. reflexivity. Qed.

(** Two blocks: 56 bytes need a second block for the length. *)
Example sha256_two_blocks :
  hex (Sha256.Sum256
         (list_byte_of_string "abcdbcdecdefdefgefghfghighijhijkijkljklmklmnlmnomnopnopq"))
  = str "248d6a61d20638b8e5c026930c3e6039a33ce45964ff2167f6ecedd419db06c1".
Proof. vm_compute. reflexivity. Qed.

(** ** UTF-8 *)

Module Utf8Facts.
Import Utf8.

Lemma byte_range c : 0 <= byte c < 256.
Proof. destruct c as [[] [] [] [] [] [] [] []]; vm_compute; split; congruence. Qed.

Lemma chr_byte c : chr (byte c) = c.
Proof. destruct c as [[] [] [] [] [] [] [] []]; reflexivity. Qed.

Lemma byte_chr b : 0 <= b < 256 -> byte (chr b) = b.
Proof.
intros Hb. unfold byte, chr. rewrite Z.mod_small by lia.
rewrite N_ascii_embedding; [lia|]. lia.
Qed.

(** [a * 2^k | b] is [a * 2^k + b] when [b] has no bit above the [k]-th. *)
Lemma lor_add a b k :
0 <= k -> 0 <= b < 2 ^ k -> Z.lor (a * 2 ^ k) b = a * 2 ^ k + b.
Proof.
intros Hk Hb.
assert (Hland : Z.land (a * 2 ^ k) b = 0).
{ apply Z.bits_inj'. intros i Hi. rewrite Z.land_spec, Z.bits_0.
  destruct (Z.lt_ge_cases i k) as [Hlt|Hge].
  - rewrite Z.mul_pow2_bits_low by lia. reflexivity.
  - destruct (Z.eq_dec b 0) as [->|Hb0]; [rewrite Z.bits_0; apply andb_false_r|].
    rewrite (Z.bits_above_log2 b i); [apply andb_false_r|lia|].
    apply Z.log2_lt_pow2; [lia|].
    pose proof (Z.pow_le_mono_r 2 k i ltac:(lia) Hge). lia. }
rewrite <- Z.lxor_lor by exact Hland. symmetry. apply Z.add_nocarry_lxor. exact Hland.
Qed.

Lemma land_ones_mod a k : 0 <= k -> Z.land a (Z.ones k) = a mod 2 ^ k.
Proof. apply Z.land_ones. Qed.

(** The masks and shifts of the decoder and of the encoder, as arithmetic. *)
Lemma land_maskx a : Z.land a maskx = a mod 64.
Proof. exact (land_ones_mod a 6 ltac:(lia)). Qed.

Lemma land_mask2 a : Z.land a mask2 = a mod 32.
Proof. exact (land_ones_mod a 5 ltac:(lia)). Qed.

Lemma land_mask3 a : Z.land a mask3 = a mod 16.
Proof. exact (land_ones_mod a 4 ltac:(lia)). Qed.

Lemma land_mask4 a : Z.land a mask4 = a mod 8.
Proof. exact (land_ones_mod a 3 ltac:(lia)). Qed.

Lemma shiftl_lor a b k :
0 <= k -> 0 <= b < 2 ^ k -> Z.lor (Z.shiftl a k) b = a * 2 ^ k + b.
Proof. intros Hk Hb. rewrite Z.shiftl_mul_pow2 by exact Hk. apply lor_add; assumption. Qed.

Lemma const_lor c a b k :
0 <= k -> c = a * 2 ^ k -> 0 <= b < 2 ^ k -> Z.lor c b = c + b.
Proof. intros Hk -> Hb. apply lor_add; assumption. Qed.

Ltac zcase :=
match goal with
| |- context [Z.ltb ?a ?b] => destruct (Z.ltb_spec a b)
| |- context [Z.leb ?a ?b] => destruct (Z.leb_spec a b)
| |- context [Z.eqb ?a ?b] => destruct (Z.eqb_spec a b)
end; cbn [orb andb negb].

Ltac zcases := repeat zcase.

(** Comparisons that [lia] decides are replaced by their values. *)
Ltac zbool :=
repeat (match goal with
        | |- context [Z.ltb ?a ?b] =>
            first [rewrite (proj2 (Z.ltb_lt a b)) by lia | rewrite (proj2 (Z.ltb_ge a b)) by lia]
        | |- context [Z.leb ?a ?b] =>
            first [rewrite (proj2 (Z.leb_le a b)) by lia | rewrite (proj2 (Z.leb_gt a b)) by lia]
        | |- context [Z.eqb ?a ?b] =>
            first [rewrite (proj2 (Z.eqb_eq a b)) by lia | rewrite (proj2 (Z.eqb_neq a b)) by lia]
        end; cbn [orb andb negb]).

Lemma EncodeRune_1 r : 0 <= r <= 0x7F -> EncodeRune r = [chr r].
Proof. intros Hr. unfold EncodeRune. zbool. reflexivity. Qed.

Lemma EncodeRune_2 r :
0x80 <= r <= 0x7FF -> EncodeRune r = [chr (0xC0 + r / 64); chr (0x80 + r mod 64)].
Proof.
intros Hr. unfold EncodeRune. zbool.
rewrite land_maskx, (Z.shiftr_div_pow2 r 6) by lia.
rewrite (const_lor 0xC0 3 (r / 2 ^ 6) 6), (const_lor 0x80 1 (r mod 64) 7);
  try reflexivity; try lia.
- pose proof (Z.mod_pos_bound r 64). lia.
- change (2 ^ 6) with 64. split; [apply Z.div_pos; lia|].
  apply Z.div_lt_upper_bound; lia.
Qed.

Lemma encode3_arith r :
0 <= r <= 0xFFFF ->
encode3 r = [chr (0xE0 + r / 4096); chr (0x80 + (r / 64) mod 64); chr (0x80 + r mod 64)].
Proof.
intros Hr. unfold encode3.
rewrite !land_maskx, (Z.shiftr_div_pow2 r 6), (Z.shiftr_div_pow2 r 12) by lia.
change (2 ^ 6) with 64. change (2 ^ 12) with 4096.
rewrite (const_lor 0xE0 7 (r / 4096) 5), (const_lor 0x80 1 ((r / 64) mod 64) 7),
  (const_lor 0x80 1 (r mod 64) 7); try reflexivity; try lia.
- pose proof (Z.mod_pos_bound r 64). lia.
- pose proof (Z.mod_pos_bound (r / 64) 64). lia.
- split; [apply Z.div_pos; lia|]. apply Z.div_lt_upper_bound; lia.
Qed.

Lemma EncodeRune_3 r :
0x800 <= r <= 0xFFFF -> ~ (0xD800 <= r <= 0xDFFF) ->
EncodeRune r = [chr (0xE0 + r / 4096); chr (0x80 + (r / 64) mod 64); chr (0x80 + r mod 64)].
Proof.
intros Hr Hs. unfold EncodeRune, MaxRune. zbool. zcases; try lia; apply encode3_arith; lia.
Qed.

Lemma EncodeRune_4 r :
0x10000 <= r <= MaxRune ->
EncodeRune r = [chr (0xF0 + r / 262144); chr (0x80 + (r / 4096) mod 64);
                chr (0x80 + (r / 64) mod 64); chr (0x80 + r mod 64)].
Proof.
unfold MaxRune. intros Hr. unfold EncodeRune, MaxRune. zbool.
rewrite !land_maskx, (Z.shiftr_div_pow2 r 6), (Z.shiftr_div_pow2 r 12),
  (Z.shiftr_div_pow2 r 18) by lia.
change (2 ^ 6) with 64. change (2 ^ 12) with 4096. change (2 ^ 18) with 262144.
rewrite (const_lor 0xF0 15 (r / 262144) 4), (const_lor 0x80 1 ((r / 4096) mod 64) 7),
  (const_lor 0x80 1 ((r / 64) mod 64) 7), (const_lor 0x80 1 (r mod 64) 7);
  try reflexivity; try lia.
- pose proof (Z.mod_pos_bound r 64). lia.
- pose proof (Z.mod_pos_bound (r / 64) 64). lia.
- pose proof (Z.mod_pos_bound (r / 4096) 64). lia.
- split; [apply Z.div_pos; lia|]. apply Z.div_lt_upper_bound; lia.
Qed.

Lemma EncodeRune_invalid r : ~ validRune r -> EncodeRune r = EncodeRune RuneError.
Proof.
intros Hr. unfold validRune, MaxRune in Hr. unfold EncodeRune at 1. unfold MaxRune.
zcases; try lia; reflexivity.
Qed.

(** The rune of a valid sequence, as arithmetic. *)
Lemma rune2_arith s0 s1 :
Z.lor (Z.shiftl (Z.land s0 mask2) 6) (Z.land s1 maskx) = s0 mod 32 * 64 + s1 mod 64.
Proof.
rewrite land_mask2, land_maskx. rewrite shiftl_lor; [reflexivity|lia|].
apply (Z.mod_pos_bound s1 64). lia.
Qed.

Lemma rune3_arith s0 s1 s2 :
Z.lor (Z.shiftl (Z.land s0 mask3) 12) (Z.lor (Z.shiftl (Z.land s1 maskx) 6) (Z.land s2 maskx))
= s0 mod 16 * 4096 + s1 mod 64 * 64 + s2 mod 64.
Proof.
rewrite land_mask3, !land_maskx.
pose proof (Z.mod_pos_bound s1 64). pose proof (Z.mod_pos_bound s2 64).
rewrite (shiftl_lor (s1 mod 64) _ 6) by lia.
rewrite shiftl_lor by lia. lia.
Qed.

Lemma rune4_arith s0 s1 s2 s3 :
Z.lor (Z.shiftl (Z.land s0 mask4) 18)
  (Z.lor (Z.shiftl (Z.land s1 maskx) 12)
     (Z.lor (Z.shiftl (Z.land s2 maskx) 6) (Z.land s3 maskx)))
= s0 mod 8 * 262144 + s1 mod 64 * 4096 + s2 mod 64 * 64 + s3 mod 64.
Proof.
rewrite land_mask4, !land_maskx.
pose proof (Z.mod_pos_bound s1 64). pose proof (Z.mod_pos_bound s2 64).
pose proof (Z.mod_pos_bound s3 64).
rewrite (shiftl_lor (s2 mod 64) _ 6) by lia.
rewrite (shiftl_lor (s1 mod 64) _ 12) by lia.
rewrite shiftl_lor by lia. lia.
Qed.

(** What [DecodeRuneInString] returns for a string that is not empty is
  [(RuneError, 1)] or a valid rune, whose encoding the string begins
  with, and the length of that encoding. *)
Ltac zlia := Z.to_euclidean_division_equations; lia.

Lemma Decode_valid s r n :
DecodeRuneInString s = (r, n) -> s <> [] -> (r, n) <> (RuneError, 1%nat) ->
validRune r /\ n = length (EncodeRune r) /\ exists t, s = EncodeRune r ++ t.
Proof.
destruct s as [|c0 s]; [contradiction|]. intros Hd _ Hne. revert Hd.
unfold DecodeRuneInString. pose proof (byte_range c0) as H0.
pose proof (chr_byte c0) as Hc0. set (s0 := byte c0) in *. clearbody s0.
unfold RuneSelf. destruct (Z.ltb_spec s0 128) as [Hlt|Hge].
{ intros [= <- <-]. rewrite EncodeRune_1 by lia.
  split; [unfold validRune, MaxRune; zlia|]. split; [reflexivity|]. exists s.
  rewrite Hc0. reflexivity. }
unfold first, locb, hicb.
destruct s as [|c1 s]; [zcases; intros [= <- <-]; contradiction|].
pose proof (byte_range c1) as H1. pose proof (chr_byte c1) as Hc1.
set (s1 := byte c1) in *. clearbody s1.
destruct s as [|c2 s].
{ zcases; try (intros [= <- <-]; contradiction); try lia;
    intros [= <- <-]; rewrite rune2_arith;
    (split; [unfold validRune, MaxRune; zlia|]);
    rewrite EncodeRune_2 by zlia;
    (split; [reflexivity|]); exists []; cbn [app];
    rewrite <- Hc0, <- Hc1; repeat f_equal; zlia. }
pose proof (byte_range c2) as H2. pose proof (chr_byte c2) as Hc2.
set (s2 := byte c2) in *. clearbody s2.
destruct s as [|c3 s].
{ zcases; try (intros [= <- <-]; contradiction); try lia;
    intros [= <- <-]; rewrite ?rune2_arith, ?rune3_arith;
    (split; [unfold validRune, MaxRune; zlia|]);
    first [rewrite EncodeRune_2 by zlia | rewrite EncodeRune_3 by zlia];
    (split; [reflexivity|]); eexists; cbn [app];
    rewrite <- Hc0, <- Hc1, <- ?Hc2; repeat f_equal; zlia. }
pose proof (byte_range c3) as H3. pose proof (chr_byte c3) as Hc3.
set (s3 := byte c3) in *. clearbody s3.
zcases; try (intros [= <- <-]; contradiction); try lia;
  intros [= <- <-]; rewrite ?rune2_arith, ?rune3_arith, ?rune4_arith;
  (split; [unfold validRune, MaxRune; zlia|]);
  first [rewrite EncodeRune_2 by zlia | rewrite EncodeRune_3 by zlia
        | rewrite EncodeRune_4 by (unfold MaxRune; zlia)];
  (split; [reflexivity|]); eexists; cbn [app];
  rewrite <- Hc0, <- Hc1, <- ?Hc2, <- ?Hc3; repeat f_equal; zlia.
Qed.

Ltac zbool' :=
repeat (match goal with
        | |- context [Z.ltb ?a ?b] =>
            first [rewrite (proj2 (Z.ltb_lt a b)) by zlia | rewrite (proj2 (Z.ltb_ge a b)) by zlia]
        | |- context [Z.leb ?a ?b] =>
            first [rewrite (proj2 (Z.leb_le a b)) by zlia | rewrite (proj2 (Z.leb_gt a b)) by zlia]
        | |- context [Z.eqb ?a ?b] =>
            first [rewrite (proj2 (Z.eqb_eq a b)) by zlia | rewrite (proj2 (Z.eqb_neq a b)) by zlia]
        end; cbn [orb andb negb]).

(** A string that begins with the encoding of a valid rune decodes to it. *)
Lemma Decode_Encode r t :
validRune r -> DecodeRuneInString (EncodeRune r ++ t) = (r, length (EncodeRune r)).
Proof.
unfold validRune, MaxRune. intros [Hr Hs].
destruct (Z.le_gt_cases r 0x7F) as [H1|H1].
{ rewrite EncodeRune_1 by lia. cbn [app length]. unfold DecodeRuneInString, RuneSelf.
  rewrite byte_chr by lia. zbool. reflexivity. }
destruct (Z.le_gt_cases r 0x7FF) as [H2|H2].
{ rewrite EncodeRune_2 by lia. cbn [app length]. unfold DecodeRuneInString, RuneSelf.
  rewrite !byte_chr by zlia. unfold first, locb, hicb. zbool'. cbn [Nat.leb].
  rewrite rune2_arith. f_equal. zlia. }
destruct (Z.le_gt_cases r 0xFFFF) as [H3|H3].
{ rewrite EncodeRune_3 by lia. cbn [app length]. unfold DecodeRuneInString, RuneSelf.
  rewrite !byte_chr by zlia. unfold first, locb, hicb.
  assert (Hcases : r / 4096 = 0 \/ 1 <= r / 4096 <= 12 \/ r / 4096 = 13 \/ 14 <= r / 4096)
    by zlia.
  destruct Hcases as [Hc|[Hc|[Hc|Hc]]]; zbool'; cbn [Nat.leb];
    rewrite rune3_arith; f_equal; zlia. }
rewrite EncodeRune_4 by (unfold MaxRune; lia). cbn [app length].
unfold DecodeRuneInString, RuneSelf.
rewrite !byte_chr by zlia. unfold first, locb, hicb.
assert (Hcases : r / 262144 = 0 \/ 1 <= r / 262144 <= 3 \/ r / 262144 = 4) by zlia.
destruct Hcases as [Hc|[Hc|Hc]]; zbool'; cbn [Nat.leb];
  rewrite rune4_arith; f_equal; zlia.
Qed.

(** A continuation byte, and no other, is not the start of a rune. *)
Lemma RuneStart_byte c : RuneStart (byte c) = negb ((0x80 <=? byte c) && (byte c <=? 0xBF)).
Proof. destruct c as [[] [] [] [] [] [] [] []]; reflexivity. Qed.

Lemma RuneStart_chr b :
0 <= b < 256 -> RuneStart (byte (chr b)) = negb ((0x80 <=? b) && (b <=? 0xBF)).
Proof. intros Hb. rewrite RuneStart_byte, byte_chr by exact Hb. reflexivity. Qed.

Lemma lastStart_le fuel before d : (lastStart fuel before d <= d + length before)%nat.
Proof.
revert before d. induction fuel as [|fuel IH]; intros [|c before] d; cbn [lastStart length];
  try lia.
destruct (RuneStart (byte c)); [lia|]. specialize (IH before (S d)). lia.
Qed.

Lemma lastStart_pos fuel before d : (d <= lastStart fuel before d)%nat.
Proof.
revert before d. induction fuel as [|fuel IH]; intros [|c before] d; cbn [lastStart];
  try lia.
destruct (RuneStart (byte c)); [lia|]. specialize (IH before (S d)). lia.
Qed.

(** A string that ends with the encoding of a valid rune has it as its
  last rune. *)
Lemma DecodeLast_Encode r t :
validRune r -> DecodeLastRuneInString (t ++ EncodeRune r) = (r, length (EncodeRune r)).
Proof.
intros Hv. pose proof (Decode_Encode r [] Hv) as Hd. rewrite app_nil_r in Hd.
revert Hd. destruct Hv as [Hr Hs]. unfold MaxRune in Hr.
unfold DecodeLastRuneInString. rewrite rev_app_distr, length_app.
destruct (Z.le_gt_cases r 0x7F) as [H1|H1].
{ rewrite EncodeRune_1 by lia. intros _. cbn [rev app length]. unfold RuneSelf.
  rewrite byte_chr by lia. zbool. reflexivity. }
destruct (Z.le_gt_cases r 0x7FF) as [H2|H2].
{ rewrite EncodeRune_2 by lia. intros Hd. cbn [rev app length]. unfold RuneSelf.
  rewrite byte_chr by zlia. zbool'. cbn [lastStart].
  rewrite RuneStart_chr by zlia. zbool'.
  replace (length t + 2 - 2)%nat with (length t) by lia.
  rewrite drop_app_length, Hd. cbn [length]. rewrite decide_True by reflexivity.
  reflexivity. }
destruct (Z.le_gt_cases r 0xFFFF) as [H3|H3].
{ rewrite EncodeRune_3 by lia. intros Hd. cbn [rev app length]. unfold RuneSelf.
  rewrite byte_chr by zlia. zbool'. cbn [lastStart].
  rewrite !RuneStart_chr by zlia. zbool'.
  replace (length t + 3 - 3)%nat with (length t) by lia.
  rewrite drop_app_length, Hd. cbn [length]. rewrite decide_True by reflexivity.
  reflexivity. }
rewrite EncodeRune_4 by (unfold MaxRune; lia). intros Hd. cbn [rev app length].
unfold RuneSelf. rewrite byte_chr by zlia. zbool'. cbn [lastStart].
rewrite !RuneStart_chr by zlia. zbool'.
replace (length t + 4 - 4)%nat with (length t) by lia.
rewrite drop_app_length, Hd. cbn [length]. rewrite decide_True by reflexivity.
reflexivity.
Qed.

(** What [DecodeLastRuneInString] returns for a string that is not empty
  is [(RuneError, 1)] or a valid rune, whose encoding the string ends
  with, and the length of that encoding. *)
Lemma DecodeLast_valid s r n :
DecodeLastRuneInString s = (r, n) -> s <> [] -> (r, n) <> (RuneError, 1%nat) ->
validRune r /\ n = length (EncodeRune r) /\ exists t, s = t ++ EncodeRune r.
Proof.
unfold DecodeLastRuneInString. intros Hd Hs Hne.
destruct (rev s) as [|c before] eqn:Hrev.
{ apply (f_equal (@rev _)) in Hrev. rewrite rev_involutive in Hrev. contradiction. }
assert (Hsplit : s = rev before ++ [c]).
{ apply (f_equal (@rev _)) in Hrev. rewrite rev_involutive in Hrev. exact Hrev. }
revert Hd. unfold RuneSelf. pose proof (byte_range c) as Hc.
destruct (Z.ltb_spec (byte c) 128) as [Hlt|Hge].
{ intros [= <- <-]. rewrite EncodeRune_1 by lia. rewrite chr_byte.
  split; [unfold validRune, MaxRune; lia|]. split; [reflexivity|].
  exists (rev before). exact Hsplit. }
set (d := lastStart 3 before 1).
assert (Hd1 : (1 <= d <= length s)%nat).
{ split; [apply lastStart_pos|]. pose proof (lastStart_le 3 before 1) as Hle.
  rewrite Hsplit, length_app, length_rev. cbn [length]. fold d in Hle. lia. }
clearbody d.
destruct (DecodeRuneInString (drop (length s - d) s)) as [r' size] eqn:Hdec.
destruct (decide (size = d)) as [->|_]; [|intros [= <- <-]; contradiction].
intros [= <- <-].
assert (Hdrop : length (drop (length s - d) s) = d) by (rewrite length_drop; lia).
destruct (Decode_valid _ _ _ Hdec) as (Hv & Hn & t & Ht); [|exact Hne|].
{ intros E. rewrite E in Hdrop. cbn in Hdrop. lia. }
split; [exact Hv|]. split; [exact Hn|].
assert (t = []) as ->.
{ apply (f_equal (@length _)) in Ht. rewrite length_app, Hdrop in Ht.
  destruct t; [reflexivity|]. cbn [length] in Ht. lia. }
rewrite app_nil_r in Ht. exists (take (length s - d) s).
rewrite <- Ht. symmetry. apply take_drop.
Qed.

End Utf8Facts.

(** ** White space and trimming *)

Module TrimFacts.
Import Utf8 Unicode Strings Utf8Facts.

Lemma IsSpace_valid r : IsSpace r = true -> validRune r /\ r <> RuneError.
Proof.
unfold IsSpace, White_Space, MaxLatin1, validRune, MaxRune, RuneError.
zcases; intros Hs; try discriminate; lia.
Qed.

Lemma isSpace_IsSpace c : isSpace c = IsSpace (byte c) && (byte c <? RuneSelf).
Proof. destruct c as [[] [] [] [] [] [] [] []]; reflexivity. Qed.

Lemma EncodeRune_nonempty r : EncodeRune r <> [].
Proof.
unfold EncodeRune, encode3.
repeat match goal with |- context [if ?b then _ else _] => destruct b end; discriminate.
Qed.

(** The first byte of an encoding starts a rune, the others do not. *)
Lemma EncodeRune_shape r :
exists c cs, EncodeRune r = c :: cs /\ RuneStart (byte c) = true
             /\ Forall (fun c' => RuneStart (byte c') = false) cs.
Proof.
destruct (decide (validRune r)) as [Hv|Hv].
2:{ rewrite (EncodeRune_invalid r Hv). do 2 eexists. split; [reflexivity|].
    split; [reflexivity|]. repeat constructor. }
destruct Hv as [Hr Hs]. unfold MaxRune in Hr.
destruct (Z.le_gt_cases r 0x7F) as [H1|H1].
{ rewrite EncodeRune_1 by lia. do 2 eexists. split; [reflexivity|].
  rewrite RuneStart_chr by lia. zbool. split; [reflexivity|constructor]. }
destruct (Z.le_gt_cases r 0x7FF) as [H2|H2].
{ rewrite EncodeRune_2 by lia. do 2 eexists. split; [reflexivity|].
  rewrite RuneStart_chr by zlia. zbool'. split; [reflexivity|].
  repeat constructor; rewrite RuneStart_chr by zlia; zbool'; reflexivity. }
destruct (Z.le_gt_cases r 0xFFFF) as [H3|H3].
{ rewrite EncodeRune_3 by lia. do 2 eexists. split; [reflexivity|].
  rewrite RuneStart_chr by zlia. zbool'. split; [reflexivity|].
  repeat constructor; rewrite RuneStart_chr by zlia; zbool'; reflexivity. }
rewrite EncodeRune_4 by (unfold MaxRune; lia). do 2 eexists. split; [reflexivity|].
rewrite RuneStart_chr by zlia. zbool'. split; [reflexivity|].
repeat constructor; rewrite RuneStart_chr by zlia; zbool'; reflexivity.
Qed.

Lemma whiteSpace_app l1 l2 : whiteSpace l1 -> whiteSpace l2 -> whiteSpace (l1 ++ l2).
Proof.
induction 1 as [|r s Hr Hs IH]; intros H2; [exact H2|].
rewrite <- app_assoc. constructor; auto.
Qed.

Lemma whiteSpace_one r : IsSpace r = true -> whiteSpace (EncodeRune r).
Proof.
intros Hr. rewrite <- (app_nil_r (EncodeRune r)). constructor; [exact Hr|constructor].
Qed.

(** White space of ASCII is white space. *)
Lemma whiteSpace_ascii l : Forall (fun c => isSpace c = true) l -> whiteSpace l.
Proof.
induction 1 as [|c l Hc Hl IH]; [constructor|].
rewrite isSpace_IsSpace in Hc. apply andb_true_iff in Hc as [Hs Ha].
apply Z.ltb_lt in Ha. unfold RuneSelf in Ha. pose proof (byte_range c).
change (c :: l) with ([c] ++ l). rewrite <- (chr_byte c). rewrite <- EncodeRune_1 by lia.
constructor; assumption.
Qed.

(** What begins with white space has a white space as its first rune, and
  conversely. *)
Lemma beginsWithSpace_Decode s :
beginsWithSpace s <-> IsSpace (fst (DecodeRuneInString s)) = true.
Proof.
split.
- intros (r & t & Hr & ->). rewrite Decode_Encode by (apply IsSpace_valid, Hr). exact Hr.
- destruct (DecodeRuneInString s) as [r n] eqn:Hd. cbn [fst]. intros Hr.
  destruct (IsSpace_valid r Hr) as [_ Hne].
  destruct s as [|c s]; [cbn in Hd; injection Hd as <- <-; contradiction|].
  destruct (Decode_valid _ _ _ Hd) as (_ & _ & t & Ht); [discriminate|congruence|].
  exists r, t. split; assumption.
Qed.

Lemma endsWithSpace_DecodeLast s :
endsWithSpace s <-> IsSpace (fst (DecodeLastRuneInString s)) = true.
Proof.
split.
- intros (r & t & Hr & ->). rewrite DecodeLast_Encode by (apply IsSpace_valid, Hr). exact Hr.
- destruct (DecodeLastRuneInString s) as [r n] eqn:Hd. cbn [fst]. intros Hr.
  destruct (IsSpace_valid r Hr) as [_ Hne].
  destruct s as [|c s]; [cbn in Hd; injection Hd as <- <-; contradiction|].
  destruct (DecodeLast_valid _ _ _ Hd) as (_ & _ & t & Ht); [discriminate|congruence|].
  exists r, t. split; assumption.
Qed.

(** [TrimLeftFunc(s, unicode.IsSpace)] removes white space at the front, all
  of it, and nothing else. *)
Lemma trimLeftLoop_spec fuel s :
(length s <= fuel)%nat ->
exists l, s = l ++ trimLeftLoop fuel IsSpace s /\ whiteSpace l
          /\ ~ beginsWithSpace (trimLeftLoop fuel IsSpace s).
Proof.
revert s. induction fuel as [|fuel IH]; intros s Hlen.
- destruct s; [|cbn in Hlen; lia]. exists []. split; [reflexivity|].
  split; [constructor|]. intros (r & t & _ & E).
  symmetry in E. apply app_eq_nil in E as [E _]. exact (EncodeRune_nonempty r E).
- destruct s as [|c s].
  { exists []. split; [reflexivity|]. split; [constructor|]. intros (r & t & _ & E).
    symmetry in E. apply app_eq_nil in E as [E _]. exact (EncodeRune_nonempty r E). }
  cbn [trimLeftLoop]. destruct (DecodeRuneInString (c :: s)) as [r size] eqn:Hd.
  destruct (IsSpace r) eqn:Hr.
  + destruct (IsSpace_valid r Hr) as [_ Hne].
    destruct (Decode_valid _ _ _ Hd) as (_ & Hn & t & Ht); [discriminate|congruence|].
    rewrite Ht, Hn, drop_app_length.
    destruct (IH t) as (l & Hl & Hw & Hb).
    { apply (f_equal (@length _)) in Ht. rewrite length_app in Ht. cbn [length] in *.
      pose proof (EncodeRune_nonempty r). destruct (EncodeRune r); [contradiction|].
      cbn [length] in Ht. lia. }
    exists (EncodeRune r ++ l). split; [rewrite <- app_assoc, <- Hl; reflexivity|].
    split; [constructor; assumption|exact Hb].
  + exists []. split; [reflexivity|]. split; [constructor|].
    rewrite beginsWithSpace_Decode, Hd. cbn [fst]. congruence.
Qed.

Lemma TrimLeftFunc_spec s :
exists l, s = l ++ TrimLeftFunc s IsSpace /\ whiteSpace l
          /\ ~ beginsWithSpace (TrimLeftFunc s IsSpace).
Proof. apply trimLeftLoop_spec. reflexivity. Qed.

Lemma trimRightLoop_spec fuel s :
(length s <= fuel)%nat ->
exists r, s = trimRightLoop fuel IsSpace s ++ r /\ whiteSpace r
          /\ ~ endsWithSpace (trimRightLoop fuel IsSpace s).
Proof.
revert s. induction fuel as [|fuel IH]; intros s Hlen.
- destruct s; [|cbn in Hlen; lia]. exists []. split; [reflexivity|].
  split; [constructor|]. intros (r & t & _ & E).
  symmetry in E. apply app_eq_nil in E as [_ E]. exact (EncodeRune_nonempty r E).
- destruct s as [|c s].
  { exists []. split; [reflexivity|]. split; [constructor|]. intros (r & t & _ & E).
    symmetry in E. apply app_eq_nil in E as [_ E]. exact (EncodeRune_nonempty r E). }
  cbn [trimRightLoop]. destruct (DecodeLastRuneInString (c :: s)) as [r size] eqn:Hd.
  destruct (IsSpace r) eqn:Hr.
  + destruct (IsSpace_valid r Hr) as [_ Hne].
    destruct (DecodeLast_valid _ _ _ Hd) as (_ & Hn & t & Ht); [discriminate|congruence|].
    rewrite Ht, Hn, length_app, Nat.add_sub, take_app_length.
    destruct (IH t) as (r' & Hl & Hw & Hb).
    { apply (f_equal (@length _)) in Ht. rewrite length_app in Ht. cbn [length] in *.
      pose proof (EncodeRune_nonempty r). destruct (EncodeRune r); [contradiction|].
      cbn [length] in Ht. lia. }
    exists (r' ++ EncodeRune r). split; [rewrite app_assoc, <- Hl; reflexivity|].
    split; [apply whiteSpace_app; [assumption|apply whiteSpace_one, Hr]|exact Hb].
  + exists []. split; [rewrite app_nil_r; reflexivity|]. split; [constructor|].
    rewrite endsWithSpace_DecodeLast, Hd. cbn [fst]. congruence.
Qed.

Lemma TrimRightFunc_spec s :
exists r, s = TrimRightFunc s IsSpace ++ r /\ whiteSpace r
          /\ ~ endsWithSpace (TrimRightFunc s IsSpace).
Proof. apply trimRightLoop_spec. reflexivity. Qed.

Lemma not_begins_nil : ~ beginsWithSpace [].
Proof.
intros (r & t & _ & E). symmetry in E. apply app_eq_nil in E as [E _].
exact (EncodeRune_nonempty r E).
Qed.

Lemma not_ends_nil : ~ endsWithSpace [].
Proof.
intros (r & t & _ & E). symmetry in E. apply app_eq_nil in E as [_ E].
exact (EncodeRune_nonempty r E).
Qed.

Lemma begins_app a b : beginsWithSpace a -> beginsWithSpace (a ++ b).
Proof. intros (r & t & Hr & ->). exists r, (t ++ b). rewrite app_assoc. auto. Qed.

Lemma ends_app a b : endsWithSpace b -> endsWithSpace (a ++ b).
Proof. intros (r & t & Hr & ->). exists r, (a ++ t). rewrite app_assoc. auto. Qed.

(** A byte of ASCII that is no white space is no white space as a rune. *)
Lemma not_begins_ascii c s :
byte c < RuneSelf -> isSpace c = false -> ~ beginsWithSpace (c :: s).
Proof.
intros Ha Hc. rewrite beginsWithSpace_Decode. unfold DecodeRuneInString.
rewrite (proj2 (Z.ltb_lt _ _) Ha). cbn [fst].
rewrite isSpace_IsSpace, (proj2 (Z.ltb_lt _ _) Ha), andb_true_r in Hc. congruence.
Qed.

Lemma not_ends_ascii c s :
byte c < RuneSelf -> isSpace c = false -> ~ endsWithSpace (s ++ [c]).
Proof.
intros Ha Hc. rewrite endsWithSpace_DecodeLast. unfold DecodeLastRuneInString.
rewrite rev_app_distr. cbn [rev app].
rewrite (proj2 (Z.ltb_lt _ _) Ha). cbn [fst].
rewrite isSpace_IsSpace, (proj2 (Z.ltb_lt _ _) Ha), andb_true_r in Hc. congruence.
Qed.

(** The loop of the fast path. *)
Lemma trimLeft_spec s :
exists l, s = l ++ trimLeft s /\ Forall (fun c => isSpace c = true) l
          /\ forall c, head (trimLeft s) = Some c -> isSpace c = false.
Proof.
induction s as [|c s (l & Hs & Hl & Hh)]; simpl.
- exists []. repeat split; auto. intros c [=].
- destruct (isSpace c) eqn:Hc.
  + exists (c :: l). repeat split; auto. simpl. congruence.
  + exists []. repeat split; auto. simpl. intros c' [= <-]. exact Hc.
Qed.

Lemma startsASCII_cases s :
(forall c, head s = Some c -> isSpace c = false) ->
startsASCII s = true -> s = [] \/ exists c s', s = c :: s' /\ ~ beginsWithSpace s.
Proof.
intros Hh Ha. destruct s as [|c s]; [left; reflexivity|right].
exists c, s. split; [reflexivity|]. apply not_begins_ascii.
- cbn in Ha. apply Z.ltb_lt. exact Ha.
- apply Hh. reflexivity.
Qed.

(** [strings.TrimSpace] does what the spec calls trimming. *)
Lemma TrimSpace_spec tok : trimmedOf tok (TrimSpace tok).
Proof.
unfold TrimSpace.
destruct (trimLeft_spec tok) as (l0 & Htok & Hl0 & Hh0).
set (s1 := trimLeft tok) in *. clearbody s1.
apply whiteSpace_ascii in Hl0.
destruct (startsASCII s1) eqn:Ha1; cbn [negb].
2:{ (* the rest goes to TrimFunc *)
    unfold TrimFunc.
    destruct (TrimLeftFunc_spec s1) as (l1 & Hs1 & Hl1 & Hb).
    set (m := TrimLeftFunc s1 IsSpace) in *. clearbody m.
    destruct (TrimRightFunc_spec m) as (r1 & Hm & Hr1 & He).
    set (core := TrimRightFunc m IsSpace) in *. clearbody core.
    exists (l0 ++ l1), r1. split; [rewrite <- app_assoc, <- Hm, <- Hs1; exact Htok|].
    split; [apply whiteSpace_app; assumption|]. split; [exact Hr1|].
    split; [|exact He]. intros Hc. apply Hb. rewrite Hm. apply begins_app, Hc. }
destruct (trimLeft_spec (rev s1)) as (lr & Hrev & Hlr & Hhr).
set (r := trimLeft (rev s1)) in *. clearbody r.
assert (Hs1 : s1 = rev r ++ rev lr).
{ rewrite <- rev_app_distr, <- Hrev, rev_involutive. reflexivity. }
apply Forall_rev, whiteSpace_ascii in Hlr.
assert (Hbegin : forall core x, s1 = core ++ x -> ~ beginsWithSpace core).
{ intros core x E. destruct core as [|c core]; [apply not_begins_nil|].
  destruct (startsASCII_cases s1 Hh0 Ha1) as [->|(c' & s' & -> & _)]; [discriminate|].
  injection E as -> _. apply not_begins_ascii.
  - cbn in Ha1. apply Z.ltb_lt. exact Ha1.
  - apply Hh0. reflexivity. }
destruct (startsASCII r) eqn:Har; cbn [negb].
2:{ (* the second loop runs into a byte that is not ASCII *)
    destruct (TrimRightFunc_spec (rev r)) as (r2 & Hr & Hr2 & He).
    set (core := TrimRightFunc (rev r) IsSpace) in *. clearbody core.
    exists l0, (r2 ++ rev lr). split; [rewrite (app_assoc core), <- Hr, <- Hs1; exact Htok|].
    split; [exact Hl0|]. split; [apply whiteSpace_app; assumption|].
    split; [|exact He]. apply (Hbegin core (r2 ++ rev lr)).
    rewrite app_assoc, <- Hr. exact Hs1. }
exists l0, (rev lr). split; [rewrite <- Hs1; exact Htok|].
split; [exact Hl0|]. split; [exact Hlr|].
split; [apply (Hbegin (rev r) (rev lr) Hs1)|].
destruct r as [|c r]; [apply not_ends_nil|]. cbn [rev]. apply not_ends_ascii.
- cbn in Har. apply Z.ltb_lt. exact Har.
- apply Hhr. reflexivity.
Qed.

(** White space is made of whole runes: what follows the white space at
  the front of a string begins, whatever comes after it. *)
Lemma whiteSpace_head d :
whiteSpace d -> d <> [] -> exists c d', d = c :: d' /\ RuneStart (byte c) = true.
Proof.
intros [|r s Hr Hs] Hne; [contradiction|].
destruct (EncodeRune_shape r) as (c & cs & -> & Hc & _). exists c, (cs ++ s). auto.
Qed.

Lemma begins_split core r :
beginsWithSpace (core ++ r) -> ~ beginsWithSpace core -> whiteSpace r -> core = [].
Proof.
intros (rho & t & Hrho & E) Hb Hr.
destruct core as [|c core]; [reflexivity|exfalso].
apply app_eq_inv in E as [(k & Hc & Ht)|(k & He & Hk)].
{ apply Hb. exists rho, k. auto. }
destruct k as [|ck k].
{ apply Hb. exists rho, []. rewrite app_nil_r in *. auto. }
destruct (EncodeRune_shape rho) as (c0 & cs & Henc & _ & Hcs).
rewrite Henc in He. injection He as <- Hcs'.
destruct (whiteSpace_head r Hr) as (c' & r' & Hr' & Hstart).
{ rewrite Hk. discriminate. }
rewrite Hr' in Hk. injection Hk as <- _.
rewrite Hcs' in Hcs. apply Forall_app in Hcs as [_ Hcs]. inversion Hcs; subst. congruence.
Qed.

(** Trimming is determined: white space in front of a string that does
  not begin with white space is removed, and nothing more. *)
Lemma trimLeftLoop_unique fuel l y :
whiteSpace l -> ~ beginsWithSpace y -> (length (l ++ y) <= fuel)%nat ->
trimLeftLoop fuel IsSpace (l ++ y) = y.
Proof.
intros Hl Hy. revert fuel. induction Hl as [|r s Hr Hs IH]; intros fuel Hlen.
- cbn [app]. destruct fuel as [|fuel]; [reflexivity|]. destruct y as [|c y]; [reflexivity|].
  cbn [trimLeftLoop]. destruct (DecodeRuneInString (c :: y)) as [r n] eqn:Hd.
  rewrite beginsWithSpace_Decode, Hd in Hy. cbn [fst] in Hy.
  destruct (IsSpace r); [contradiction|reflexivity].
- pose proof (EncodeRune_nonempty r) as Hne.
  destruct fuel as [|fuel].
  { rewrite !length_app in Hlen. destruct (EncodeRune r); [contradiction|].
    cbn [length] in Hlen. lia. }
  rewrite <- app_assoc. destruct (EncodeRune r ++ s ++ y) as [|c z] eqn:E.
  { apply app_eq_nil in E as [E _]. contradiction. }
  cbn [trimLeftLoop]. rewrite <- E, Decode_Encode by (apply IsSpace_valid, Hr).
  rewrite Hr, drop_app_length. apply IH.
  rewrite <- app_assoc, !length_app in Hlen. rewrite length_app.
  destruct (EncodeRune r); [contradiction|]. cbn [length] in Hlen. lia.
Qed.

(** White space, from its end. *)
Lemma whiteSpace_snoc_inv d :
whiteSpace d -> d = [] \/ exists d' r, d = d' ++ EncodeRune r /\ whiteSpace d'
                                       /\ IsSpace r = true.
Proof.
induction 1 as [|r s Hr Hs IH]; [left; reflexivity|right].
destruct IH as [->|(d' & r' & -> & Hd' & Hr')].
- exists [], r. rewrite app_nil_r. split; [reflexivity|]. split; [constructor|exact Hr].
- exists (EncodeRune r ++ d'), r'. rewrite app_assoc. split; [reflexivity|].
  split; [constructor; assumption|exact Hr'].
Qed.

Lemma trimRightLoop_unique fuel x r :
whiteSpace r -> ~ endsWithSpace x -> (length (x ++ r) <= fuel)%nat ->
trimRightLoop fuel IsSpace (x ++ r) = x.
Proof.
intros Hr Hx. revert r Hr. induction fuel as [|fuel IH]; intros r Hr Hlen.
- destruct x, r; cbn in Hlen; try lia. reflexivity.
- destruct (whiteSpace_snoc_inv r Hr) as [->|(r' & rho & -> & Hr' & Hrho)].
  + rewrite app_nil_r. destruct x as [|c x]; [reflexivity|].
    cbn [trimRightLoop]. destruct (DecodeLastRuneInString (c :: x)) as [q n] eqn:Hd.
    rewrite endsWithSpace_DecodeLast, Hd in Hx. cbn [fst] in Hx.
    destruct (IsSpace q); [contradiction|reflexivity].
  + pose proof (EncodeRune_nonempty rho) as Hne.
    rewrite app_assoc. destruct ((x ++ r') ++ EncodeRune rho) as [|c z] eqn:E.
    { apply app_eq_nil in E as [_ E]. contradiction. }
    cbn [trimRightLoop]. rewrite <- E, DecodeLast_Encode by (apply IsSpace_valid, Hrho).
    rewrite Hrho, length_app, Nat.add_sub, take_app_length. apply IH; [exact Hr'|].
    rewrite app_assoc, (length_app (x ++ r')) in Hlen.
    destruct (EncodeRune rho); [contradiction|]. cbn [length] in Hlen. lia.
Qed.

(** So what the spec calls the trimmed token is one string, and it is what
  [TrimFunc(tok, unicode.IsSpace)] returns. *)
Lemma trimmedOf_TrimFunc tok core : trimmedOf tok core -> TrimFunc tok IsSpace = core.
Proof.
intros (l & r & -> & Hl & Hr & Hb & He). unfold TrimFunc, TrimLeftFunc, TrimRightFunc.
destruct core as [|c core].
- cbn [app]. rewrite <- (app_nil_r (l ++ r)).
  rewrite trimLeftLoop_unique;
    [reflexivity|apply whiteSpace_app; assumption|apply not_begins_nil|reflexivity].
- rewrite trimLeftLoop_unique; [|exact Hl| |reflexivity].
  + apply trimRightLoop_unique; [exact Hr|exact He|reflexivity].
  + intros Hbr. apply begins_split in Hbr; [discriminate|exact Hb|exact Hr].
Qed.

Lemma trimmedOf_unique tok core core' : trimmedOf tok core -> trimmedOf tok core' -> core = core'.
Proof.
intros H1 H2. apply trimmedOf_TrimFunc in H1, H2. congruence.
Qed.

Lemma trimmedOf_TrimSpace tok core : trimmedOf tok core <-> core = TrimSpace tok.
Proof.
split; [|intros ->; apply TrimSpace_spec].
intros H. exact (trimmedOf_unique _ _ _ H (TrimSpace_spec tok)).
Qed.

(** On a string of ASCII the fast paths are taken. *)
Lemma isASCII_Forall s : isASCII s = true <-> Forall (fun c => byte c < RuneSelf) s.
Proof.
unfold isASCII. rewrite forallb_forall, Forall_forall. split; intros H c Hc.
- apply Z.ltb_lt, H, list_elem_of_In, Hc.
- apply Z.ltb_lt, H, list_elem_of_In, Hc.
Qed.

Lemma TrimSpace_ascii s : isASCII s = true -> TrimSpace s = trimRight (trimLeft s).
Proof.
rewrite isASCII_Forall. intros Ha. unfold TrimSpace, trimRight.
destruct (trimLeft_spec s) as (l0 & Hs & _ & _).
set (s1 := trimLeft s) in *. clearbody s1.
assert (Ha1 : Forall (fun c => byte c < RuneSelf) s1).
{ rewrite Hs in Ha. apply Forall_app in Ha as [_ Ha]. exact Ha. }
assert (Hst : forall t, Forall (fun c => byte c < RuneSelf) t -> startsASCII t = true).
{ intros [|c t] Ht; [reflexivity|]. inversion Ht; subst. apply Z.ltb_lt. assumption. }
rewrite (Hst s1 Ha1). cbn [negb].
destruct (trimLeft_spec (rev s1)) as (lr & Hrev & _ & _).
rewrite Hst; [reflexivity|].
apply Forall_rev in Ha1. rewrite Hrev in Ha1. apply Forall_app in Ha1 as [_ Ha1]. exact Ha1.
Qed.

End TrimFacts.

(** ** Facts about the string functions *)

Module StringsFacts.
Import Utf8 Strings Utf8Facts TrimFacts.

Lemma lowerByte_not_upper c : isUpper (lowerByte c) = false.
Proof. destruct c as [[] [] [] [] [] [] [] []]; reflexivity. Qed.

Lemma lowerByte_space c : isSpace (lowerByte c) = isSpace c.
Proof. destruct c as [[] [] [] [] [] [] [] []]; reflexivity. Qed.

Lemma lowerByte_idem c : lowerByte (lowerByte c) = lowerByte c.
Proof. destruct c as [[] [] [] [] [] [] [] []]; reflexivity. Qed.

Lemma lowerByte_ascii c : (byte (lowerByte c) <? RuneSelf) = (byte c <? RuneSelf).
Proof. destruct c as [[] [] [] [] [] [] [] []]; reflexivity. Qed.

Lemma lower_not_upper s : Forall (fun c => isUpper c = false) (map lowerByte s).
Proof. induction s as [|c s IH]; constructor; auto using lowerByte_not_upper. Qed.

Lemma lower_idem s : map lowerByte (map lowerByte s) = map lowerByte s.
Proof. rewrite map_map. apply map_ext. intros c. apply lowerByte_idem. Qed.

Lemma isASCII_lower s : isASCII (map lowerByte s) = isASCII s.
Proof.
  unfold isASCII. induction s as [|c s IH]; [reflexivity|]. cbn [map forallb].
  rewrite lowerByte_ascii, IH. reflexivity.
Qed.

Lemma isASCII_app a b : isASCII (a ++ b) = isASCII a && isASCII b.
Proof. apply forallb_app. Qed.

Lemma isASCII_rev s : isASCII (rev s) = isASCII s.
Proof.
  induction s as [|c s IH]; [reflexivity|]. cbn [rev]. rewrite isASCII_app, IH.
  cbn [isASCII forallb]. rewrite andb_true_r. apply andb_comm.
Qed.

Lemma isASCII_trimLeft s : isASCII s = true -> isASCII (trimLeft s) = true.
Proof.
  intros H. destruct (trimLeft_spec s) as (l & Hs & _). rewrite Hs, isASCII_app in H.
  apply andb_true_iff in H. tauto.
Qed.

Lemma isASCII_trim s : isASCII s = true -> isASCII (trimRight (trimLeft s)) = true.
Proof.
  intros H. unfold trimRight. rewrite isASCII_rev. apply isASCII_trimLeft.
  rewrite isASCII_rev. apply isASCII_trimLeft, H.
Qed.

(** A rune of a string that is not empty has a width of one byte or more,
    within the string: the loops over the runes end, and the fuel given
    to them is enough. *)
Lemma Decode_size s r n :
  DecodeRuneInString s = (r, n) -> s <> [] -> (1 <= n <= length s)%nat.
Proof.
  intros Hd Hs. destruct (decide ((r, n) = (RuneError, 1%nat))) as [E|Hne].
  - injection E as -> ->. destruct s; [contradiction|]. cbn [length]. lia.
  - destruct (Decode_valid _ _ _ Hd Hs Hne) as (_ & -> & t & ->).
    pose proof (EncodeRune_nonempty r). rewrite length_app.
    destruct (EncodeRune r); [contradiction|]. cbn [length]. lia.
Qed.

Lemma mapLoop_fuel mapping fuel fuel' s :
  (length s <= fuel)%nat -> (length s <= fuel')%nat ->
  mapLoop fuel mapping s = mapLoop fuel' mapping s.
Proof.
  revert fuel' s. induction fuel as [|fuel IH]; intros fuel' s H1 H2.
  - destruct s; [|cbn in H1; lia]. destruct fuel'; reflexivity.
  - destruct s as [|c s]; [destruct fuel'; reflexivity|].
    destruct fuel' as [|fuel']; [cbn in H2; lia|]. cbn [mapLoop].
    destruct (DecodeRuneInString (c :: s)) as [r n] eqn:Hd.
    pose proof (Decode_size _ _ _ Hd ltac:(discriminate)) as Hn.
    f_equal. apply IH; rewrite length_drop; cbn [length] in *; lia.
Qed.

(** [Map] goes rune by rune. *)
Lemma Map_step mapping s r n :
  s <> [] -> DecodeRuneInString s = (r, n) ->
  Map mapping s
  = (if 0 <=? mapping r then EncodeRune (mapping r) else []) ++ Map mapping (drop n s).
Proof.
  intros Hs Hd. unfold Map. destruct s as [|c s]; [contradiction|].
  cbn [length mapLoop]. rewrite Hd. f_equal.
  pose proof (Decode_size _ _ _ Hd Hs) as Hn.
  apply mapLoop_fuel; rewrite ?length_drop; cbn [length] in *; lia.
Qed.

(** On a string of ASCII [strings.ToLower] works byte by byte. *)
Lemma ToLower_ascii {tables : Unicode.CaseTables} s : isASCII s = true -> ToLower s = map lowerByte s.
Proof. intros Hs. unfold ToLower. rewrite Hs. reflexivity. Qed.

Lemma ToLower_nil {tables : Unicode.CaseTables} : ToLower [] = [].
Proof. reflexivity. Qed.

Lemma last_rev {A} (l : list A) : last (rev l) = head l.
Proof. destruct l as [|a l]; simpl; [reflexivity|]. apply last_snoc. Qed.

Lemma last_map {A B} (f : A -> B) (l : list A) : last (map f l) = option_map f (last l).
Proof. exact (fmap_last f l). Qed.

Lemma HasPrefix_dot e :
  HasPrefix e (str ".") = bool_decide (head e = Some "."%char).
Proof.
  destruct e as [|c e]; simpl; [reflexivity|].
  destruct (decide (c = "."%char)) as [->|Hne]; simpl.
  - destruct e; reflexivity.
  - symmetry. apply bool_decide_eq_false. intros [= ?]. contradiction.
Qed.

(** [Split] cuts at every separator: joining the tokens gives the string
    back and no token holds a separator. *)
Lemma Split_nonempty s sep : Split s sep <> [].
Proof. induction s as [|c s IH]; simpl; [discriminate|].
  destruct (decide (c = sep)); [discriminate|]. destruct (Split s sep); discriminate. Qed.

Lemma Join_cons e es sep :
  es <> [] -> Join (e :: es) sep = e ++ sep ++ Join es sep.
Proof. destruct es; [contradiction|reflexivity]. Qed.

Lemma Join_cons_head c tok toks sep :
  Join ((c :: tok) :: toks) sep = c :: Join (tok :: toks) sep.
Proof. destruct toks; reflexivity. Qed.

Lemma Join_Split s sep : Join (Split s sep) [sep] = s.
Proof.
  induction s as [|c s IH]; simpl; [reflexivity|].
  destruct (decide (c = sep)) as [->|Hne].
  - rewrite Join_cons by apply Split_nonempty. simpl. congruence.
  - pose proof (Split_nonempty s sep) as Hn.
    destruct (Split s sep) as [|tok toks]; [contradiction|].
    rewrite Join_cons_head. congruence.
Qed.

Lemma Split_no_sep s sep : Forall (fun tok => sep ∉ tok) (Split s sep).
Proof.
  induction s as [|c s IH]; simpl.
  - constructor; [|constructor]. apply not_elem_of_nil.
  - destruct (decide (c = sep)) as [->|Hne].
    + constructor; [apply not_elem_of_nil|exact IH].
    + pose proof (Split_nonempty s sep) as Hn.
      destruct (Split s sep) as [|tok toks]; [contradiction|].
      inversion IH; subst. constructor; [|assumption].
      rewrite elem_of_cons. intros [?|?]; [congruence|contradiction].
Qed.

(** And the tokens are the only such cut. *)
Lemma Split_token tok rest sep :
  sep ∉ tok -> Split (tok ++ sep :: rest) sep = tok :: Split rest sep.
Proof.
  induction tok as [|c tok IH]; intros H; cbn [app Split].
  - rewrite decide_True by reflexivity. reflexivity.
  - rewrite not_elem_of_cons in H. destruct H as [Hc Htok].
    rewrite decide_False by congruence. rewrite IH by exact Htok. reflexivity.
Qed.

Lemma Split_one tok sep : sep ∉ tok -> Split tok sep = [tok].
Proof.
  induction tok as [|c tok IH]; intros H; [reflexivity|]. cbn [Split].
  rewrite not_elem_of_cons in H. destruct H as [Hc Htok].
  rewrite decide_False by congruence. rewrite IH by exact Htok. reflexivity.
Qed.

Lemma Split_Join_tokens toks sep :
  toks <> [] -> Forall (fun tok => sep ∉ tok) toks -> Split (Join toks [sep]) sep = toks.
Proof.
  induction toks as [|tok toks IH]; intros Hne Hall; [contradiction|].
  inversion Hall as [|? ? Htok Htoks]; subst.
  destruct toks as [|tok' toks]; [apply Split_one, Htok|].
  rewrite Join_cons by discriminate. cbn [app].
  rewrite Split_token by exact Htok. rewrite IH; [reflexivity|discriminate|exact Htoks].
Qed.

(** The tokens of an ASCII string are ASCII. *)
Lemma Split_ascii s sep : isASCII s = true -> Forall (fun tok => isASCII tok = true) (Split s sep).
Proof.
  induction s as [|c s IH]; intros H; cbn [Split].
  - repeat constructor.
  - cbn [isASCII forallb] in H. apply andb_true_iff in H as [Hc Hs]. specialize (IH Hs).
    destruct (decide (c = sep)); [constructor; [reflexivity|exact IH]|].
    pose proof (Split_nonempty s sep). destruct (Split s sep) as [|tok toks]; [contradiction|].
    inversion IH; subst. constructor; [|assumption].
    cbn [isASCII forallb]. rewrite Hc. assumption.
Qed.

End StringsFacts.

(** ** The extension filter *)

Lemma parseExtSet_step_normalizeExt {tables : Unicode.CaseTables} m tok :
  parseExtSet_step m tok = match normalizeExt tok with Some x => {[ x ]} ∪ m | None => m end.
Proof.
  unfold parseExtSet_step, normalizeExt.
  set (e := Strings.ToLower (Strings.TrimSpace tok)).
  destruct (decide (e = [])) as [->|Hne]; [reflexivity|].
  rewrite StringsFacts.HasPrefix_dot.
  destruct e as [|c e']; [contradiction|]. simpl.
  destruct (decide (c = "."%char)) as [->|Hc].
  - rewrite bool_decide_eq_true_2 by reflexivity. reflexivity.
  - rewrite bool_decide_eq_false_2 by (intros [= ?]; contradiction). reflexivity.
Qed.

Lemma parseExtSet_fold {tables : Unicode.CaseTables} (toks : list gostring) (m : gset gostring)
    (x : gostring) :
  x ∈ foldl parseExtSet_step m toks
  <-> x ∈ m \/ exists tok, tok ∈ toks /\ normalizeExt tok = Some x.
Proof.
  revert m. induction toks as [|tok toks IH]; intros m; simpl.
  - split; [auto|]. intros [?|(tok & Hin & _)]; [assumption|]. inversion Hin.
  - rewrite IH, parseExtSet_step_normalizeExt. split.
    + intros [Hx|(t & Ht & Hn)].
      * destruct (normalizeExt tok) as [y|] eqn:Hy; [|auto].
        apply elem_of_union in Hx as [Hx|Hx]; [|auto].
        apply elem_of_singleton in Hx as ->. right. exists tok. split; [left|assumption].
      * right. exists t. split; [right; assumption|assumption].
    + intros [Hx|(t & Ht & Hn)].
      * left. destruct (normalizeExt tok); [apply elem_of_union; auto|assumption].
      * apply elem_of_cons in Ht as [->|Ht].
        -- left. rewrite Hn. apply elem_of_union. left. apply elem_of_singleton. reflexivity.
        -- right. exists t. auto.
Qed.

(** The members of the set, token by token. *)
Lemma elem_of_parseExtSet_tokens {tables : Unicode.CaseTables} s x :
  x ∈ parseExtSet s
  <-> exists tok, tok ∈ Strings.Split s ","%char /\ normalizeExt tok = Some x.
Proof.
  unfold parseExtSet. destruct (decide (s = [])) as [->|Hs].
  - split; [intros Hx; exfalso; revert Hx; apply not_elem_of_empty|].
    intros (tok & Htok & Hx). cbn [Strings.Split] in Htok.
    apply list_elem_of_singleton in Htok. subst tok. discriminate Hx.
  - rewrite parseExtSet_fold. split.
    + intros [Hx|Hx]; [exfalso; revert Hx; apply not_elem_of_empty|exact Hx].
    + intros Hx. right. exact Hx.
Qed.

(** What a normalized extension looks like. *)
Lemma normalizeExt_withDot {tables : Unicode.CaseTables} tok x :
  normalizeExt tok = Some x
  <-> Strings.ToLower (Strings.TrimSpace tok) <> []
      /\ x = withDot (Strings.ToLower (Strings.TrimSpace tok)).
Proof.
  unfold normalizeExt, withDot.
  destruct (Strings.ToLower (Strings.TrimSpace tok)) as [|c e]; [split; [discriminate|tauto]|].
  cbn [head]. destruct (decide (c = "."%char)) as [->|Hc].
  - rewrite decide_True by reflexivity. split; [intros [= <-]; auto|intros [_ ->]; reflexivity].
  - rewrite decide_False by congruence.
    split; [intros [= <-]; auto|intros [_ ->]; reflexivity].
Qed.

Lemma withDot_head e : head (withDot e) = Some "."%char.
Proof. unfold withDot. destruct (decide _) as [Hd|_]; [exact Hd|reflexivity]. Qed.

Lemma normalizeExt_shape {tables : Unicode.CaseTables} tok x :
  normalizeExt tok = Some x -> head x = Some "."%char.
Proof. rewrite normalizeExt_withDot. intros [_ ->]. apply withDot_head. Qed.

(** The comma-separated tokens are those of [strings.Split]. *)
Lemma commaSeparated_Split s toks : commaSeparated s toks <-> toks = Strings.Split s ","%char.
Proof.
  unfold commaSeparated. split.
  - intros (Hne & Hall & ->). symmetry. apply (StringsFacts.Split_Join_tokens toks ","%char Hne Hall).
  - intros ->. split; [apply StringsFacts.Split_nonempty|].
    split; [apply StringsFacts.Split_no_sep|]. symmetry. apply StringsFacts.Join_Split.
Qed.

Lemma extOfToken_normalizeExt {tables : Unicode.CaseTables} tok x :
  extOfToken tok x <-> normalizeExt tok = Some x.
Proof.
  rewrite normalizeExt_withDot. unfold extOfToken. split.
  - intros (core & Hcore & Hne & ->). apply TrimFacts.trimmedOf_TrimSpace in Hcore. subst core.
    auto.
  - intros [Hne ->]. exists (Strings.TrimSpace tok).
    split; [apply TrimFacts.TrimSpace_spec|auto].
Qed.

(** C8. For every input string, the set [parseExtSet] returns is the set
    the spec asks for: its members are the extensions of the
    comma-separated tokens of the input, each token trimmed of the white
    space at its two ends (Unicode's white space, all of it and nothing
    else), lower-cased by [strings.ToLower], left out when nothing
    remains, and with a dot in front when it has none.  So every member
    begins with a dot, and for an input of ASCII no member holds an
    upper-case letter.  The empty input gives the empty set. *)
Theorem C8_parseExtSet_normalizes {tables : Unicode.CaseTables} :
  parseExtSet [] = ∅
  /\ forall s x,
       (x ∈ parseExtSet s <-> parseExtSet_spec s x)
       /\ (x ∈ parseExtSet s -> head x = Some "."%char)
       /\ (x ∈ parseExtSet s -> Strings.isASCII s = true ->
           Forall (fun c => Strings.isUpper c = false) x).
Proof.
  split; [reflexivity|]. intros s x.
  assert (Hiff : x ∈ parseExtSet s <-> parseExtSet_spec s x).
  { rewrite elem_of_parseExtSet_tokens. unfold parseExtSet_spec. split.
    - intros (tok & Htok & Hx). exists (Strings.Split s ","%char), tok.
      split; [apply commaSeparated_Split; reflexivity|]. split; [exact Htok|].
      apply extOfToken_normalizeExt, Hx.
    - intros (toks & tok & Hs & Htok & Hx). apply commaSeparated_Split in Hs. subst toks.
      exists tok. split; [exact Htok|]. apply extOfToken_normalizeExt, Hx. }
  split; [exact Hiff|]. split.
  - rewrite elem_of_parseExtSet_tokens. intros (tok & _ & Hx).
    exact (normalizeExt_shape _ _ Hx).
  - rewrite elem_of_parseExtSet_tokens. intros (tok & Htok & Hx) Hs.
    apply normalizeExt_withDot in Hx as [_ ->].
    pose proof (StringsFacts.Split_ascii s ","%char Hs) as Hall.
    rewrite Forall_forall in Hall. specialize (Hall tok Htok).
    rewrite TrimFacts.TrimSpace_ascii by exact Hall.
    rewrite StringsFacts.ToLower_ascii by (apply StringsFacts.isASCII_trim, Hall).
    unfold withDot. destruct (decide _); [apply StringsFacts.lower_not_upper|].
    constructor; [reflexivity|apply StringsFacts.lower_not_upper].
Qed.

(** ** The content hasher *)

Lemma hex_length bs : length (hex bs) = (2 * length bs)%nat.
Proof. unfold hex. induction bs as [|b bs IH]; simpl; [reflexivity|]. rewrite IH. lia. Qed.

Lemma hexDigit_lower n : 0 <= n < 16 -> isLowerHex (hexDigit n) = true.
Proof.
  intros H.
  assert (Hn : exists k, n = Z.of_nat k /\ (k < 16)%nat).
  { exists (Z.to_nat n). lia. }
  destruct Hn as (k & -> & Hk). unfold hexDigit. rewrite Nat2Z.id.
  do 16 (destruct k as [|k]; [reflexivity|]). lia.
Qed.

Lemma hex_lower bs :
  Forall (fun b => 0 <= b < 256) bs -> Forall (fun c => isLowerHex c = true) (hex bs).
Proof.
  unfold hex. induction 1 as [|b bs Hb _ IH]; simpl; [constructor|].
  constructor; [|constructor; [|exact IH]]; apply hexDigit_lower.
  - split; [apply Z.div_pos; lia|apply Z.div_lt_upper_bound; lia].
  - apply Z.mod_pos_bound. lia.
Qed.

Lemma be_bytes_length n x : length (Sha256.be_bytes n x) = n.
Proof. unfold Sha256.be_bytes. rewrite length_map, length_rev, length_seq. reflexivity. Qed.

Lemma be_bytes_range n x : Forall (fun b => 0 <= b < 256) (Sha256.be_bytes n x).
Proof.
  unfold Sha256.be_bytes. apply Forall_map, Forall_forall. intros i _.
  apply Z.mod_pos_bound. lia.
Qed.

(** A digest has 32 bytes, whatever the data. *)
Lemma Sum256_length data : length (Sha256.Sum256 data) = 32%nat.
Proof.
  unfold Sha256.Sum256.
  destruct (Sha256.blocks _ _ _) as [[[[[[[h0 h1] h2] h3] h4] h5] h6] h7].
  cbn [concat map]. rewrite !length_app, !be_bytes_length. reflexivity.
Qed.

Lemma Sum256_range data : Forall (fun b => 0 <= b < 256) (Sha256.Sum256 data).
Proof.
  unfold Sha256.Sum256.
  destruct (Sha256.blocks _ _ _) as [[[[[[[h0 h1] h2] h3] h4] h5] h6] h7].
  cbn [concat map]. repeat (apply Forall_app; split); try apply be_bytes_range. constructor.
Qed.

Lemma hex_Sum256_length data : length (hex (Sha256.Sum256 data)) = 64%nat.
Proof. rewrite hex_length, Sum256_length. reflexivity. Qed.

Lemma hex_Sum256_lower data : Forall (fun c => isLowerHex c = true) (hex (Sha256.Sum256 data)).
Proof. apply hex_lower, Sum256_range. Qed.

(** C2, as stated, fails: the file opens, reading it fails, and [hashFile]
    returns the digest of the three bytes read, not an empty result. *)
Lemma C2_counterexample :
  os_Open world_read_error (str "/data/report.pdf") = Opened (list_byte_of_string "Hel") true
  /\ hashFile world_read_error (str "/data/report.pdf")
     = str "b789c24dcdb68c4437b04c186bf239a7207e7573fb1b22a749fe1a7b8d96d292"
  /\ hashFile world_read_error (str "/data/report.pdf") <> [].
Proof. vm_compute. repeat split. discriminate. Qed.

(** C2 (amended).  [hashFile] returns the lower-case hexadecimal SHA-256
    digest of the bytes the reads delivered, whether they ended at the end of
    the file or in a read error; its result is empty exactly when the file
    cannot be opened.  It returns a string and nothing else: no error reaches
    the caller. *)
Theorem C2_hashFile_contract (w : World) (p : gostring) :
  (hashFile w p = [] <-> os_Open w p = OpenErr)
  /\ (forall data readErr, os_Open w p = Opened data readErr ->
        hashFile w p = hex (Sha256.Sum256 data))
  /\ Forall (fun c => isLowerHex c = true) (hashFile w p).
Proof.
  unfold hashFile. destruct (os_Open w p) as [|data e] eqn:Ho.
  - repeat split; auto; try discriminate. 
  - repeat split; try discriminate.
    + intros H. pose proof (hex_Sum256_length data) as Hl. rewrite H in Hl. discriminate.
    + intros d e' [= <- <-]. reflexivity.
    + apply hex_Sum256_lower.
Qed.

Lemma C2_hashFile_contract_witness :
  hashFile world_read_error (str "/data/report.pdf")
  = hex (Sha256.Sum256 (list_byte_of_string "Hel")).
Proof.
  apply (proj1 (proj2 (C2_hashFile_contract world_read_error (str "/data/report.pdf")))
           (list_byte_of_string "Hel") true).
  reflexivity.
Defined.

(** C9.  For every path [hashFile] returns the empty string or 64 lower-case
    hexadecimal characters; when the file opens and a read fails partway, the
    result is the 64-character digest of the bytes read so far, not the empty
    string. *)
Theorem C9_hashFile_shape (w : World) (p : gostring) :
  (hashFile w p = []
   \/ (length (hashFile w p) = 64%nat
       /\ Forall (fun c => isLowerHex c = true) (hashFile w p)))
  /\ (forall data, os_Open w p = Opened data true ->
        hashFile w p = hex (Sha256.Sum256 data)
        /\ length (hashFile w p) = 64%nat
        /\ hashFile w p <> []).
Proof.
  unfold hashFile. destruct (os_Open w p) as [|data e] eqn:Ho.
  - split; [left; reflexivity|]. intros d [=].
  - split.
    + right. split; [apply hex_Sum256_length|apply hex_Sum256_lower].
    + intros d [= <- _]. split; [reflexivity|]. split; [apply hex_Sum256_length|].
      intros H. pose proof (hex_Sum256_length data) as Hl. rewrite H in Hl. discriminate.
Qed.

Lemma C9_hashFile_shape_witness :
  hashFile world_read_error (str "/data/report.pdf")
  = hex (Sha256.Sum256 (list_byte_of_string "Hel"))
  /\ length (hashFile world_read_error (str "/data/report.pdf")) = 64%nat
  /\ hashFile world_read_error (str "/data/report.pdf") <> [].
Proof.
  apply (proj2 (C9_hashFile_shape world_read_error (str "/data/report.pdf"))
           (list_byte_of_string "Hel")).
  reflexivity.
Defined.

(** ** The engine, call by call *)

Lemma incr64_small z : -1 <= z < 2 ^ 63 - 1 -> incr64 z = z + 1.
Proof.
  intros H. unfold incr64, wrap64.
  rewrite Z.mod_small by lia. lia.
Qed.

Lemma St_eta s :
  s = mkSt (committed s) (tx s) (nfiles s) (ndirs s) (batch s) (ncalls s) (trace s).
Proof. destruct s; reflexivity. Qed.

(** The batch step after an upsert. *)
Lemma batchTick_cases w est p C view f d b n tr :
  0 <= b < 1000 ->
  let s := mkSt C (TxOpen view) f d b n tr in
  let m := EvProgress (mkProgress f d p est) in
  batchTick w est p s =
    if decide (b + 1 < 1000) then (mkSt C (TxOpen view) f d (b + 1) n tr, Ok tt)
    else
      match sql_fault w n with
      | Some e => (mkSt C TxDone f d (b + 1) (S n) (tr ++ [EvFail OpCommit e]), Fail e)
      | None =>
          match sql_fault w (S n) with
          | Some e => (mkSt view TxNil f d (b + 1) (S (S n))
                         (tr ++ [EvCommit; m; EvFail OpBegin e]), Fail e)
          | None =>
              match sql_fault w (S (S n)) with
              | Some e => (mkSt view (TxOpen view) f d (b + 1) (S (S (S n)))
                             (tr ++ [EvCommit; m; EvBegin; EvFail OpPrepare e]), Fail e)
              | None =>
                  match sql_fault w (S (S (S n))) with
                  | Some e => (mkSt view (TxOpen view) f d (b + 1) (S (S (S (S n))))
                                 (tr ++ [EvCommit; m; EvBegin; EvPrepareFolder;
                                         EvFail OpPrepare e]), Fail e)
                  | None => (mkSt view (TxOpen view) f d 0 (S (S (S (S n))))
                               (tr ++ [EvCommit; m; EvBegin; EvPrepareFolder;
                                       EvPrepareFile]), Ok tt)
                  end
              end
          end
      end.
Proof.
  intros Hb s m. subst s m.
  unfold batchTick, bind, get, setBatch. cbn [batch committed tx nfiles ndirs ncalls trace].
  rewrite incr64_small by lia.
  destruct (decide (b + 1 < 1000)) as [Hlt|Hge].
  - rewrite (proj2 (Z.leb_gt 1000 (b + 1))) by lia. reflexivity.
  - rewrite (proj2 (Z.leb_le 1000 (b + 1))) by lia.
    unfold txCommit, dbBegin, txPrepare, progress, bind, get, setTx, setCommitted, emit,
      sqlCall, setBatch.
    cbn [batch committed tx nfiles ndirs ncalls trace].
    destruct (sql_fault w n); [reflexivity|].
    cbn [batch committed tx nfiles ndirs ncalls trace].
    destruct (sql_fault w (S n)); [rewrite <- !app_assoc; reflexivity|].
    cbn [batch committed tx nfiles ndirs ncalls trace].
    destruct (sql_fault w (S (S n))); [rewrite <- !app_assoc; reflexivity|].
    cbn [batch committed tx nfiles ndirs ncalls trace].
    destruct (sql_fault w (S (S (S n))));
      cbn [batch committed tx nfiles ndirs ncalls trace];
      rewrite <- !app_assoc; reflexivity.
Qed.

(** An upsert followed by the batch step. *)
Lemma stmtExec_cases w ev g (k : M unit) C view f d b n tr :
  bind (stmtExec w ev g) (fun _ => k) (mkSt C (TxOpen view) f d b n tr) =
    match sql_fault w n with
    | Some e => (mkSt C (TxOpen view) f d b (S n) (tr ++ [EvFail OpExec e]), Fail e)
    | None => k (mkSt C (TxOpen (g view)) f d b (S n) (tr ++ [ev]))
    end.
Proof.
  unfold stmtExec, bind, get, sqlCall, setTx, emit.
  cbn [batch committed tx nfiles ndirs ncalls trace].
  destruct (sql_fault w n); reflexivity.
Qed.

Lemma filter_test (extFilter : gset gostring) (x : gostring) :
  (0 <? size extFilter)%nat && negb (bool_decide (x ∈ extFilter))
  = bool_decide (extFilter ≠ ∅ ∧ x ∉ extFilter).
Proof.
  destruct (decide (extFilter = ∅)) as [->|Hne].
  - rewrite size_empty. simpl. symmetry. apply bool_decide_eq_false. tauto.
  - assert (Hs : (0 <? size extFilter)%nat = true).
    { apply Nat.ltb_lt.
      assert (size extFilter ≠ 0%nat); [|lia].
      intros H%size_empty_inv. apply Hne. apply leibniz_equiv. exact H. }
    rewrite Hs. simpl.
    destruct (decide (x ∈ extFilter)) as [Hin|Hout].
    + rewrite (bool_decide_eq_true_2 _ Hin). simpl. symmetry. apply bool_decide_eq_false. tauto.
    + rewrite (bool_decide_eq_false_2 _ Hout). simpl. symmetry. apply bool_decide_eq_true. tauto.
Qed.

(** [scan_fn] takes one of the steps of [ScanStep]. *)
Lemma scan_fn_step {tables : Unicode.CaseTables} w extFilter hash est c s view :
  tx s = TxOpen view ->
  0 <= batch s < 1000 ->
  ScanStep w extFilter hash est c s
    (fst (scan_fn w extFilter hash est c s)) (snd (scan_fn w extFilter hash est c s)).
Proof.
  intros Htx Hb. destruct s as [C t f d b n tr]. cbn in Htx, Hb. subst t.
  destruct c as [p|p [isdir [info|]]]; cbn [scan_fn Info IsDir].
  1: { apply SS_skip. reflexivity. }
  2: { apply SS_skip. reflexivity. }
  assert (Hgen : forall ev g f' d',
    upsertOf w extFilter hash (WalkEntry p (mkDirEntry isdir (Some info))) = Some ev ->
    (forall v, g v = applyEvent v ev) ->
    f' = bumpFiles ev f -> d' = bumpDirs ev d -> pathOf ev = p ->
    let r := bind (stmtExec w ev g) (fun _ => batchTick w est p)
               (mkSt C (TxOpen view) f' d' b n tr) in
    ScanStep w extFilter hash est (WalkEntry p (mkDirEntry isdir (Some info)))
      (mkSt C (TxOpen view) f d b n tr) (fst r) (snd r)).
  { intros ev g f' d' Hev Hg -> -> Hp r. subst r. subst p.
    rewrite stmtExec_cases.
    destruct (sql_fault w n) as [e|] eqn:H0.
    { cbn [fst snd]. exact (SS_exec_fail w extFilter hash est _ (mkSt C (TxOpen view) f d b n tr) ev view e Hev eq_refl H0). }
    rewrite batchTick_cases by exact Hb. rewrite Hg.
    destruct (decide (b + 1 < 1000)) as [Hlt|Hge].
    { cbn [fst snd]. exact (SS_upsert w extFilter hash est _ (mkSt C (TxOpen view) f d b n tr) ev view Hev eq_refl H0 Hlt). }
    assert (Hb1 : b + 1 = 1000) by lia.
    destruct (sql_fault w (S n)) as [e|] eqn:H1.
    { cbn [fst snd]. rewrite <- app_assoc, Hb1. exact (SS_commit_fail w extFilter hash est _ (mkSt C (TxOpen view) f d b n tr) ev view e Hev eq_refl H0 Hb1 H1). }
    destruct (sql_fault w (S (S n))) as [e|] eqn:H2.
    { cbn [fst snd]. rewrite <- app_assoc, Hb1. exact (SS_begin_fail w extFilter hash est _ (mkSt C (TxOpen view) f d b n tr) ev view e Hev eq_refl H0 Hb1 H1 H2). }
    destruct (sql_fault w (S (S (S n)))) as [e|] eqn:H3.
    { cbn [fst snd]. rewrite <- app_assoc, Hb1. exact (SS_prepare_folder_fail w extFilter hash est _ (mkSt C (TxOpen view) f d b n tr) ev view e Hev eq_refl H0 Hb1 H1 H2 H3). }
    destruct (sql_fault w (S (S (S (S n))))) as [e|] eqn:H4.
    { cbn [fst snd]. rewrite <- app_assoc, Hb1. exact (SS_prepare_file_fail w extFilter hash est _ (mkSt C (TxOpen view) f d b n tr) ev view e Hev eq_refl H0 Hb1 H1 H2 H3 H4). }
    cbn [fst snd]. rewrite <- app_assoc. exact (SS_batch w extFilter hash est _ (mkSt C (TxOpen view) f d b n tr) ev view Hev eq_refl H0 Hb1 H1 H2 H3 H4). }
  destruct isdir.
  - (* a directory *)
    change (scan_fn w extFilter hash est (WalkEntry p (mkDirEntry true (Some info))))
      with (bind incDirs (fun _ =>
              bind (folderStmtExec w p
                      (if decide (Filepath.Dir p = p) then [] else Filepath.Dir p)
                      (ModTime info)) (fun _ => batchTick w est p))).
    unfold bind at 1. unfold incDirs. cbn [batch committed tx nfiles ndirs ncalls trace].
    unfold folderStmtExec.
    apply Hgen; reflexivity.
  - (* a file *)
    cbn [scan_fn Info IsDir].
    pose proof (filter_test extFilter (Strings.ToLower (Filepath.Ext p))) as Hf.
    set (ext := Strings.ToLower (Filepath.Ext p)) in *.
    assert (Hup : upsertOf w extFilter hash (WalkEntry p (mkDirEntry false (Some info)))
      = if decide (extFilter ≠ ∅ ∧ ext ∉ extFilter) then None
        else Some (EvFileUpsert p
                      (mkFileRow (Filepath.Dir p) (Filepath.Base p) ext (Size info)
                         (ModTime info) (detectMIME w ext)
                         (if hash
                          then match hashFile w p with [] => None | h => Some h end
                          else None)))) by reflexivity.
    destruct (decide (extFilter ≠ ∅ ∧ ext ∉ extFilter)) as [Hskip|Hkeep].
    + rewrite (bool_decide_eq_true_2 _ Hskip) in Hf. 
      change (Strings.ToLower (Filepath.Ext p)) with ext. rewrite Hf.
      apply SS_skip. exact Hup.
    + rewrite (bool_decide_eq_false_2 _ Hkeep) in Hf.
      change (Strings.ToLower (Filepath.Ext p)) with ext. rewrite Hf.
      unfold bind at 1. unfold incFiles. cbn [batch committed tx nfiles ndirs ncalls trace].
      unfold fileStmtExec.
      assert (Hsum : forall D : Decision (hashFile w p ≠ []),
                (if hash then if D then Some (hashFile w p) else None else None)
                = (if hash
                   then match hashFile w p with [] => None | h => Some h end
                   else None)).
      { intros D. destruct hash; [|reflexivity].
        destruct D as [Hn|Hn]; destruct (hashFile w p); try reflexivity; try contradiction.
        exfalso. apply Hn. discriminate. }
      rewrite !Hsum.
      apply Hgen; try reflexivity. exact Hup.
Qed.

(** ** Traces *)

Lemma app_cons_snoc {A} (l : list A) a b r : l ++ a :: b :: r = (l ++ [a]) ++ b :: r.
Proof. rewrite <- app_assoc. reflexivity. Qed.

(** [tr ++ [a; b; c]] as [((tr ++ [a]) ++ [b]) ++ [c]]. *)
Ltac snocs := repeat rewrite app_cons_snoc.

Lemma upsertsOf_snoc tr ev :
  upsertsOf (tr ++ [ev]) = upsertsOf tr ++ (if isUpsert ev then [ev] else []).
Proof. unfold upsertsOf. rewrite List.filter_app. simpl. destruct (isUpsert ev); reflexivity. Qed.

Lemma countUpserts_snoc tr ev :
  countUpserts (tr ++ [ev]) = (countUpserts tr + (if isUpsert ev then 1 else 0))%nat.
Proof.
  unfold countUpserts. rewrite upsertsOf_snoc, length_app. destruct (isUpsert ev); reflexivity.
Qed.

Lemma countFiles_snoc tr ev :
  countFiles (tr ++ [ev]) = (countFiles tr + (if isFileUpsert ev then 1 else 0))%nat.
Proof.
  unfold countFiles. rewrite List.filter_app, length_app. simpl.
  destruct (isFileUpsert ev); reflexivity.
Qed.

Lemma countFolders_snoc tr ev :
  countFolders (tr ++ [ev]) = (countFolders tr + (if isFolderUpsert ev then 1 else 0))%nat.
Proof.
  unfold countFolders. rewrite List.filter_app, length_app. simpl.
  destruct (isFolderUpsert ev); reflexivity.
Qed.

Lemma applyAll_snoc s tr ev : applyAll s (tr ++ [ev]) = applyEvent (applyAll s tr) ev.
Proof. unfold applyAll. rewrite foldl_app. reflexivity. Qed.

Lemma committedPrefix_snoc tr ev :
  committedPrefix (tr ++ [ev]) = if isCommit ev then tr ++ [ev] else committedPrefix tr.
Proof.
  induction tr as [|x tr IH]; simpl.
  - destruct (isCommit ev); reflexivity.
  - rewrite IH. destruct (isCommit ev).
    + destruct (tr ++ [ev]) eqn:E; [destruct tr; discriminate|reflexivity].
    + reflexivity.
Qed.

Lemma noFail_snoc tr ev : noFail tr -> isFail ev = false -> noFail (tr ++ [ev]).
Proof. intros H1 H2. apply Forall_app. split; [exact H1|]. constructor; [exact H2|constructor]. Qed.

Lemma progressAtBatches_snoc tr ev :
  progressAtBatches tr ->
  (forall m, ev = EvProgress m -> pm_last m <> [] ->
     exists k : nat, (0 < k)%nat /\ countUpserts tr = (1000 * k)%nat) ->
  progressAtBatches (tr ++ [ev]).
Proof.
  intros Htr Hev tr1 m tr2 Heq Hm.
  destruct tr2 as [|y tr2 _] using rev_ind; [|rename tr2 into tr2'; rename y into x].
  - apply (app_inj_tail tr tr1) in Heq as [-> ->]. eauto.
  - rewrite app_comm_cons, app_assoc in Heq.
    apply app_inj_tail in Heq as [-> _]. eapply Htr; eauto.
Qed.

Lemma progressAtBatches_nil : progressAtBatches [].
Proof. intros [|? ?] m tr2 H; discriminate. Qed.

(** What [upsertOf] returns is an upsert about the path of the call. *)
Lemma upsertOf_Some {tables : Unicode.CaseTables} w extFilter hash c ev :
  upsertOf w extFilter hash c = Some ev ->
  isUpsert ev = true /\ isFail ev = false /\ isCommit ev = false
  /\ isFileUpsert ev = negb (isFolderUpsert ev)
  /\ (forall m, ev <> EvProgress m)
  /\ exists d, c = WalkEntry (pathOf ev) d.
Proof.
  destruct c as [p|p [isdir [info|]]]; simpl; try discriminate.
  destruct isdir.
  - intros [= <-]. repeat split; try discriminate. eexists; reflexivity.
  - destruct (decide _); [discriminate|]. intros [= <-].
    repeat split; try discriminate. eexists; reflexivity.
Qed.

Lemma mod_succ_lt K : K mod 1000 + 1 < 1000 -> (K + 1) mod 1000 = K mod 1000 + 1.
Proof. intros H. Z.div_mod_to_equations. lia. Qed.

Lemma mod_succ_full (k : nat) :
  Z.of_nat k mod 1000 + 1 = 1000 ->
  Z.of_nat (k + 1) mod 1000 = 0
  /\ exists j : nat, (0 < j)%nat /\ (k + 1 = 1000 * j)%nat.
Proof.
  intros H. split.
  - rewrite Nat2Z.inj_add. Z.div_mod_to_equations. lia.
  - exists (Z.to_nat (Z.of_nat k / 1000 + 1)).
    pose proof (Z.div_pos (Z.of_nat k) 1000 ltac:(lia) ltac:(lia)).
    pose proof (Z.div_mod (Z.of_nat k) 1000 ltac:(lia)). lia.
Qed.

(** ** The invariant of the walk *)

Lemma iter_incr64_succ (k : nat) f :
  f = Nat.iter k incr64 0 -> incr64 f = Nat.iter (k + 1) incr64 0.
Proof. intros ->. rewrite Nat.add_1_r. reflexivity. Qed.

Lemma bumpFiles_count ev tr f :
  f = Nat.iter (countFiles tr) incr64 0 ->
  bumpFiles ev f = Nat.iter (countFiles (tr ++ [ev])) incr64 0.
Proof.
  intros H. rewrite countFiles_snoc. unfold bumpFiles. destruct (isFileUpsert ev).
  - apply iter_incr64_succ, H.
  - rewrite Nat.add_0_r. exact H.
Qed.

Lemma bumpDirs_count ev tr d :
  d = Nat.iter (countFolders tr) incr64 0 ->
  bumpDirs ev d = Nat.iter (countFolders (tr ++ [ev])) incr64 0.
Proof.
  intros H. rewrite countFolders_snoc. unfold bumpDirs. destruct (isFolderUpsert ev).
  - apply iter_incr64_succ, H.
  - rewrite Nat.add_0_r. exact H.
Qed.

Lemma countFiles_other tr ev : isFileUpsert ev = false -> countFiles (tr ++ [ev]) = countFiles tr.
Proof. intros H. rewrite countFiles_snoc, H. lia. Qed.
Lemma countFolders_other tr ev :
  isFolderUpsert ev = false -> countFolders (tr ++ [ev]) = countFolders tr.
Proof. intros H. rewrite countFolders_snoc, H. lia. Qed.
Lemma countUpserts_other tr ev : isUpsert ev = false -> countUpserts (tr ++ [ev]) = countUpserts tr.
Proof. intros H. rewrite countUpserts_snoc, H. lia. Qed.
Lemma countUpserts_upsert tr ev :
  isUpsert ev = true -> countUpserts (tr ++ [ev]) = (countUpserts tr + 1)%nat.
Proof. intros H. rewrite countUpserts_snoc, H. lia. Qed.
Lemma applyAll_other s tr ev : isUpsert ev = false -> applyAll s (tr ++ [ev]) = applyAll s tr.
Proof. intros H. rewrite applyAll_snoc. destruct ev; try discriminate; reflexivity. Qed.
Lemma committedPrefix_other tr ev :
  isCommit ev = false -> committedPrefix (tr ++ [ev]) = committedPrefix tr.
Proof. intros H. rewrite committedPrefix_snoc, H. reflexivity. Qed.
Lemma committedPrefix_commit tr : committedPrefix (tr ++ [EvCommit]) = tr ++ [EvCommit].
Proof. apply committedPrefix_snoc. Qed.
Lemma progressAtBatches_other tr ev :
  progressAtBatches tr -> (forall m, ev <> EvProgress m) -> progressAtBatches (tr ++ [ev]).
Proof. intros H Hev. apply progressAtBatches_snoc; [exact H|]. intros m ->. destruct (Hev m eq_refl). Qed.

Create Rewrite HintDb trace_db.
#[local] Hint Rewrite applyAll_other committedPrefix_other countUpserts_other
  countFiles_other countFolders_other committedPrefix_commit
  using (first [reflexivity | assumption]) : trace_db.

(** One call of the walk function keeps the invariant, or fails in a state
    that satisfies [FailInv]. *)
Lemma ScanStep_inv {tables : Unicode.CaseTables} w extFilter hash est db0 c s s' r :
  WalkInv db0 s ->
  ScanStep w extFilter hash est c s s' r ->
  match r with
  | Ok _ => WalkInv db0 s'
  | Fail e => FailInv w db0 e s'
  end.
Proof.
  intros [Htx Hc Hb Hf Hd Hnf Hp] Hstep.
  inversion Hstep as
    [ Hup | ev view e Hup Hv H0 | ev view Hup Hv H0 Hlt | ev view e Hup Hv H0 Hfull H1
    | ev view e Hup Hv H0 Hfull H1 H2 | ev view e Hup Hv H0 Hfull H1 H2 H3
    | ev view e Hup Hv H0 Hfull H1 H2 H3 H4 | ev view Hup Hv H0 Hfull H1 H2 H3 H4 ];
    subst; try (constructor; assumption);
    destruct (upsertOf_Some _ _ _ _ _ Hup) as (Hu & Hnfail & Hncommit & Hff & Hnprog & _);
    rewrite Htx in Hv; injection Hv as <-;
    pose proof (bumpFiles_count ev _ _ Hf) as Hf';
    pose proof (bumpDirs_count ev _ _ Hd) as Hd';
    pose proof (countUpserts_upsert (trace s) ev Hu) as Hcu;
    pose proof (noFail_snoc _ _ Hnf Hnfail) as Hnf';
    pose proof (progressAtBatches_other _ _ Hp Hnprog) as Hp'.
  - (* the upsert fails *)
    constructor; cbn [trace committed tx].
    + exists (trace s), OpExec. repeat split; [exact Hnf|]. eexists; reflexivity.
    + autorewrite with trace_db. exact Hc.
    + apply progressAtBatches_other; [exact Hp|discriminate].
    + eauto.
  - (* the upsert, within the batch *)
    constructor; cbn [trace committed tx nfiles ndirs batch]; try assumption.
    + rewrite applyAll_snoc. reflexivity.
    + autorewrite with trace_db. exact Hc.
    + rewrite Hcu, Nat2Z.inj_add. rewrite Hb in Hlt |- *. symmetry. apply mod_succ_lt, Hlt.
  - (* the commit fails *)
    constructor; cbn [trace committed tx]; snocs.
    + exists (trace s ++ [ev]), OpCommit. repeat split; assumption.
    + autorewrite with trace_db. exact Hc.
    + apply progressAtBatches_other; [exact Hp'|discriminate].
    + eauto.
  - (* [db.Begin] fails *)
    rewrite Hb in Hfull. destruct (mod_succ_full _ Hfull) as (_ & j & Hj & Hj').
    assert (Hp2 : progressAtBatches (((trace s ++ [ev]) ++ [EvCommit]) ++
              [EvProgress (mkProgress (bumpFiles ev (nfiles s))
                           (bumpDirs ev (ndirs s)) (pathOf ev) est)])).
    { apply progressAtBatches_snoc.
      - apply progressAtBatches_other; [exact Hp'|discriminate].
      - intros m _ _. exists j. autorewrite with trace_db. rewrite Hcu. auto. }
    constructor; cbn [trace committed tx]; snocs.
    + eexists _, OpBegin. repeat split.
      repeat apply noFail_snoc; auto.
    + autorewrite with trace_db. rewrite applyAll_snoc. reflexivity.
    + apply progressAtBatches_other; [exact Hp2|discriminate].
    + eauto.
  - (* preparing the folder statement fails *)
    rewrite Hb in Hfull. destruct (mod_succ_full _ Hfull) as (_ & j & Hj & Hj').
    assert (Hp2 : progressAtBatches (((trace s ++ [ev]) ++ [EvCommit]) ++
              [EvProgress (mkProgress (bumpFiles ev (nfiles s))
                           (bumpDirs ev (ndirs s)) (pathOf ev) est)])).
    { apply progressAtBatches_snoc.
      - apply progressAtBatches_other; [exact Hp'|discriminate].
      - intros m _ _. exists j. autorewrite with trace_db. rewrite Hcu. auto. }
    constructor; cbn [trace committed tx]; snocs.
    + eexists _, OpPrepare. repeat split; [|eexists; reflexivity].
      repeat apply noFail_snoc; auto.
    + autorewrite with trace_db. rewrite applyAll_snoc. reflexivity.
    + repeat (apply progressAtBatches_other; [|discriminate]). exact Hp2.
    + eauto.
  - (* preparing the file statement fails *)
    rewrite Hb in Hfull. destruct (mod_succ_full _ Hfull) as (_ & j & Hj & Hj').
    assert (Hp2 : progressAtBatches (((trace s ++ [ev]) ++ [EvCommit]) ++
              [EvProgress (mkProgress (bumpFiles ev (nfiles s))
                           (bumpDirs ev (ndirs s)) (pathOf ev) est)])).
    { apply progressAtBatches_snoc.
      - apply progressAtBatches_other; [exact Hp'|discriminate].
      - intros m _ _. exists j. autorewrite with trace_db. rewrite Hcu. auto. }
    constructor; cbn [trace committed tx]; snocs.
    + eexists _, OpPrepare. repeat split; [|eexists; reflexivity].
      repeat apply noFail_snoc; auto.
    + autorewrite with trace_db. rewrite applyAll_snoc. reflexivity.
    + repeat (apply progressAtBatches_other; [|discriminate]). exact Hp2.
    + eauto.
  - (* the batch is committed and a new one begins *)
    rewrite Hb in Hfull. destruct (mod_succ_full _ Hfull) as (Hz & j & Hj & Hj').
    assert (Hp2 : progressAtBatches (((trace s ++ [ev]) ++ [EvCommit]) ++
              [EvProgress (mkProgress (bumpFiles ev (nfiles s))
                           (bumpDirs ev (ndirs s)) (pathOf ev) est)])).
    { apply progressAtBatches_snoc.
      - apply progressAtBatches_other; [exact Hp'|discriminate].
      - intros m _ _. exists j. autorewrite with trace_db. rewrite Hcu. auto. }
    constructor; cbn [trace committed tx nfiles ndirs batch]; snocs.
    + autorewrite with trace_db. rewrite applyAll_snoc. reflexivity.
    + autorewrite with trace_db. rewrite applyAll_snoc. reflexivity.
    + autorewrite with trace_db. rewrite Hcu. symmetry. exact Hz.
    + autorewrite with trace_db. exact Hf'.
    + autorewrite with trace_db. exact Hd'.
    + repeat apply noFail_snoc; auto.
    + repeat (apply progressAtBatches_other; [|discriminate]). exact Hp2.
Qed.

(** ** The walk and the run *)

Lemma WalkInv_ready db0 s :
  WalkInv db0 s -> tx s = TxOpen (applyAll db0 (trace s)) /\ 0 <= batch s < 1000.
Proof.
  intros H. split; [apply H|]. rewrite (wi_batch _ _ H). apply Z.mod_pos_bound. lia.
Qed.

(** Induction over the walk: [I] is kept by every call that succeeds and
    leads to [J] in the call that fails. *)
Lemma walk_ind {tables : Unicode.CaseTables} w extFilter hash est db0
    (I : list WalkCall -> St -> Prop) (J : Err -> St -> Prop) :
  (forall c cs s s' r,
      WalkInv db0 s -> I (c :: cs) s ->
      ScanStep w extFilter hash est c s s' r ->
      match r with Ok _ => I cs s' | Fail e => J e s' end) ->
  forall cs s,
    WalkInv db0 s -> I cs s ->
    match walk w extFilter hash est cs s with
    | (s', Ok _) => WalkInv db0 s' /\ I [] s'
    | (s', Fail e) => FailInv w db0 e s' /\ J e s'
    end.
Proof.
  intros Hstep cs. induction cs as [|c cs IH]; intros s Hinv HI.
  - simpl. auto.
  - cbn [walk]. unfold bind.
    destruct (WalkInv_ready _ _ Hinv) as [Htx Hb].
    pose proof (scan_fn_step w extFilter hash est c s _ Htx Hb) as Hs.
    pose proof (ScanStep_inv _ _ _ _ db0 _ _ _ _ Hinv Hs) as Hinv'.
    pose proof (Hstep _ _ _ _ _ Hinv HI Hs) as HI'.
    destruct (scan_fn w extFilter hash est c s) as [s' [[]|e]]; cbn [fst snd] in *.
    + apply IH; assumption.
    + auto.
Qed.

Lemma WalkInv_start db0 : WalkInv db0 (walkStart db0).
Proof.
  constructor; try reflexivity.
  - repeat constructor.
  - intros tr1 m tr2 H. exfalso.
    destruct tr1 as [|? [|? [|? [|? ?]]]]; discriminate.
Qed.

(** The calls before the walk. *)
Lemma scanSetup_cases w db0 :
  let s0 := mkSt db0 TxNil 0 0 0 0%nat [] in
  (scanSetup w s0 = (walkStart db0, Ok tt))
  \/ exists s op e tr,
       scanSetup w s0 = (s, Fail e)
       /\ trace s = tr ++ [EvFail op e]
       /\ (exists k, tr = take k [EvBegin; EvPrepareFolder])
       /\ op ∈ [OpOpen; OpSchema; OpPragma; OpBegin; OpPrepare]
       /\ committed s = db0
       /\ (exists k, sql_fault w k = Some e).
Proof.
  intros s0. subst s0.
  unfold scanSetup, dbBegin, txPrepare, bind, sqlCall, setTx, get, emit.
  cbn [batch committed tx nfiles ndirs ncalls trace].
  destruct (sql_fault w 0) as [e|] eqn:Hk.
  { right. eexists _, OpOpen, e, []. repeat split; [exists 0%nat; reflexivity|set_solver|eauto]. }
  clear Hk.
  cbn [batch committed tx nfiles ndirs ncalls trace].
  destruct (sql_fault w 1) as [e|] eqn:Hk.
  { right. eexists _, OpSchema, e, []. repeat split; [exists 0%nat; reflexivity|set_solver|eauto]. }
  clear Hk.
  cbn [batch committed tx nfiles ndirs ncalls trace].
  destruct (sql_fault w 2) as [e|] eqn:Hk.
  { right. eexists _, OpPragma, e, []. repeat split; [exists 0%nat; reflexivity|set_solver|eauto]. }
  clear Hk.
  cbn [batch committed tx nfiles ndirs ncalls trace].
  destruct (sql_fault w 3) as [e|] eqn:Hk.
  { right. eexists _, OpBegin, e, []. repeat split; [exists 0%nat; reflexivity|set_solver|eauto]. }
  clear Hk.
  cbn [batch committed tx nfiles ndirs ncalls trace].
  destruct (sql_fault w 4) as [e|] eqn:Hk.
  { right. eexists _, OpPrepare, e, [EvBegin]. repeat split;
      [exists 1%nat; reflexivity|set_solver|eauto]. }
  clear Hk.
  cbn [batch committed tx nfiles ndirs ncalls trace].
  destruct (sql_fault w 5) as [e|] eqn:Hk.
  { right. eexists _, OpPrepare, e, [EvBegin; EvPrepareFolder]. repeat split;
      [exists 2%nat; reflexivity|set_solver|eauto]. }
  left. reflexivity.
Qed.

(** A call whose error is dropped. *)
Lemma ignoreErr_sqlCall w op s :
  ignoreErr (sqlCall w op) s
  = (mkSt (committed s) (tx s) (nfiles s) (ndirs s) (batch s) (S (ncalls s))
          (trace s ++ match sql_fault w (ncalls s) with
                      | Some e => [EvFail op e]
                      | None => []
                      end), Ok tt).
Proof.
  unfold ignoreErr, sqlCall. destruct (sql_fault w (ncalls s)); cbn [fst].
  - reflexivity.
  - rewrite app_nil_r. reflexivity.
Qed.

Lemma txCommit_cases w s view :
  tx s = TxOpen view ->
  txCommit w s =
    match sql_fault w (ncalls s) with
    | Some e => (mkSt (committed s) TxDone (nfiles s) (ndirs s) (batch s) (S (ncalls s))
                      (trace s ++ [EvFail OpCommit e]), Fail e)
    | None => (mkSt view TxDone (nfiles s) (ndirs s) (batch s) (S (ncalls s))
                    (trace s ++ [EvCommit]), Ok tt)
    end.
Proof.
  intros Htx. unfold txCommit, bind, get. rewrite Htx.
  unfold setTx, sqlCall, setCommitted, emit.
  cbn [batch committed tx nfiles ndirs ncalls trace].
  destruct (sql_fault w (ncalls s)); reflexivity.
Qed.

(** The calls after a walk that succeeded. *)
Lemma scanFinish_cases w est s view :
  tx s = TxOpen view ->
  match sql_fault w (ncalls s) with
  | Some e =>
      scanFinish w est s
      = (mkSt (committed s) TxDone (nfiles s) (ndirs s) (batch s) (S (ncalls s))
              (trace s ++ [EvFail OpCommit e]), Fail e)
  | None =>
      exists s' idx,
        scanFinish w est s = (s', Ok tt)
        /\ Forall (fun ev => isIndexFail ev = true) idx
        /\ trace s' = trace s ++ [EvCommit] ++ idx
                      ++ [EvProgress (mkProgress (nfiles s) (ndirs s) [] est)]
        /\ committed s' = view
        /\ ((forall k, sql_fault w k = None) -> idx = [])
  end.
Proof.
  intros Htx. unfold scanFinish, bind. rewrite (txCommit_cases w s view Htx).
  destruct (sql_fault w (ncalls s)) as [e|] eqn:H0; [reflexivity|].
  rewrite ignoreErr_sqlCall. cbn [batch committed tx nfiles ndirs ncalls trace].
  rewrite ignoreErr_sqlCall. cbn [batch committed tx nfiles ndirs ncalls trace].
  rewrite ignoreErr_sqlCall. cbn [batch committed tx nfiles ndirs ncalls trace].
  unfold get, progress, emit. cbn [batch committed tx nfiles ndirs ncalls trace].
  set (i1 := match sql_fault w (S (ncalls s)) with Some e => [EvFail OpIndex e] | None => [] end).
  set (i2 := match sql_fault w (S (S (ncalls s))) with Some e => [EvFail OpIndex e] | None => [] end).
  set (i3 := match sql_fault w (S (S (S (ncalls s)))) with Some e => [EvFail OpIndex e] | None => [] end).
  eexists _, (i1 ++ i2 ++ i3). split; [reflexivity|].
  cbn [batch committed tx nfiles ndirs ncalls trace]. repeat split.
  - subst i1 i2 i3. repeat (apply Forall_app; split);
      match goal with |- context [sql_fault w ?k] => destruct (sql_fault w k) end;
      repeat constructor.
  - rewrite <- !app_assoc. reflexivity.
  - intros Hno. subst i1 i2 i3. rewrite !Hno. reflexivity.
Qed.

(** How a run ends. *)
Lemma scanAndPersist_end {tables : Unicode.CaseTables} w extFilter hash est db0 root
    (I : list WalkCall -> St -> Prop) (J : Err -> St -> Prop) :
  (forall c cs s s' r,
      WalkInv db0 s -> I (c :: cs) s ->
      ScanStep w extFilter hash est c s s' r ->
      match r with Ok _ => I cs s' | Fail e => J e s' end) ->
  I (WalkDir w (Filepath.Clean root)) (walkStart db0) ->
  RunEnd w est db0 (I []) J
    (fst (scanAndPersist w extFilter hash est db0 root))
    (snd (scanAndPersist w extFilter hash est db0 root)).
Proof.
  intros Hstep Hstart. unfold scanAndPersist.
  destruct (scanSetup_cases w db0) as [Hs|(s & op & e & tr & Hs & Htr & Hk & Hop & Hc & Hfault)];
    cbv zeta in Hs; rewrite Hs.
  2: { cbn [fst snd]. eapply RE_setup; eauto. }
  pose proof (walk_ind w extFilter hash est db0 I J Hstep _ _ (WalkInv_start db0) Hstart) as Hw.
  destruct (walk w extFilter hash est (WalkDir w (Filepath.Clean root)) (walkStart db0))
    as [s2 [[]|e]].
  - destruct Hw as [Hinv HI].
    destruct (WalkInv_ready _ _ Hinv) as [Htx _].
    pose proof (scanFinish_cases w est s2 _ Htx) as Hf.
    destruct (sql_fault w (ncalls s2)) as [e|] eqn:H0.
    + rewrite Hf. cbn [fst snd]. exact (RE_commit w est db0 (I []) J s2 e Hinv HI H0).
    + destruct Hf as (s' & idx & -> & Hidx & Htr & Hc & Hno). cbn [fst snd].
      eapply RE_success; eauto.
  - destruct Hw as [Hinv HJ]. destruct (tx s2) as [|view|] eqn:Htx; cbn [fst snd].
    + exact (RE_walk_panic w est db0 (I []) J s2 e Hinv HJ Htx).
    + exact (RE_walk_rollback w est db0 (I []) J s2 e view Hinv HJ Htx).
    + exact (RE_walk_done w est db0 (I []) J s2 e Hinv HJ Htx).
Qed.

(** ** The run as a record *)

Lemma runScan_unfold {tables : Unicode.CaseTables} w db0 root extFilter hash :
  let est := estimateFileCount w root extFilter in
  let r := scanAndPersist w extFilter hash est db0 root in
  runScan w db0 root extFilter hash
  = mkRun (committed (fst r)) (trace (fst r)) (progressOf (trace (fst r)))
          (match snd r with Returned err => Some (mkDone err) | Panicked => None end).
Proof. intros est r. unfold runScan. fold est. fold r. destruct r; reflexivity. Qed.

Lemma noFail_not_In tr op e : noFail tr -> ~ In (EvFail op e) tr.
Proof.
  intros H Hin. unfold noFail in H. rewrite Forall_forall in H.
  apply list_elem_of_In in Hin. specialize (H _ Hin). discriminate.
Qed.

Lemma In_take_setup k op e : ~ In (EvFail op e) (take k [EvBegin; EvPrepareFolder]).
Proof. destruct k as [|[|[|k]]]; simpl; intuition discriminate. Qed.

Lemma In_snoc_fail tr op e op' e' :
  ~ In (EvFail op e) tr -> In (EvFail op e) (tr ++ [EvFail op' e']) -> op = op' /\ e = e'.
Proof.
  intros Hn Hin. apply in_app_or in Hin as [Hin|[Heq|[]]]; [contradiction|].
  injection Heq as <- <-. auto.
Qed.

(** ** Progress signals *)

Lemma progressOf_snoc tr ev :
  progressOf (tr ++ [ev])
  = progressOf tr ++ match ev with EvProgress m => [m] | _ => [] end.
Proof. unfold progressOf. rewrite omap_app. destruct ev; reflexivity. Qed.

Lemma progressOf_other tr ev :
  (forall m, ev <> EvProgress m) -> progressOf (tr ++ [ev]) = progressOf tr.
Proof.
  intros H. rewrite progressOf_snoc. destruct ev; try apply app_nil_r.
  destruct (H m eq_refl).
Qed.

Lemma progressOf_progress tr m : progressOf (tr ++ [EvProgress m]) = progressOf tr ++ [m].
Proof. apply progressOf_snoc. Qed.

Lemma progressOf_app tr1 tr2 : progressOf (tr1 ++ tr2) = progressOf tr1 ++ progressOf tr2.
Proof. apply omap_app. Qed.

Lemma progressOf_indexFails idx :
  Forall (fun ev => isIndexFail ev = true) idx -> progressOf idx = [].
Proof.
  induction 1 as [|ev idx Hev _ IH]; [reflexivity|].
  destruct ev; try discriminate. exact IH.
Qed.

Lemma countUpserts_app tr1 tr2 :
  countUpserts (tr1 ++ tr2) = (countUpserts tr1 + countUpserts tr2)%nat.
Proof. unfold countUpserts, upsertsOf. rewrite List.filter_app, length_app. reflexivity. Qed.

Lemma countUpserts_indexFails idx :
  Forall (fun ev => isIndexFail ev = true) idx -> countUpserts idx = 0%nat.
Proof.
  induction 1 as [|ev idx Hev _ IH]; [reflexivity|].
  destruct ev; try discriminate. exact IH.
Qed.

Lemma countFiles_app tr1 tr2 :
  countFiles (tr1 ++ tr2) = (countFiles tr1 + countFiles tr2)%nat.
Proof. unfold countFiles. rewrite List.filter_app, length_app. reflexivity. Qed.

Lemma countFolders_app tr1 tr2 :
  countFolders (tr1 ++ tr2) = (countFolders tr1 + countFolders tr2)%nat.
Proof. unfold countFolders. rewrite List.filter_app, length_app. reflexivity. Qed.

Lemma countFiles_indexFails idx :
  Forall (fun ev => isIndexFail ev = true) idx -> countFiles idx = 0%nat.
Proof.
  induction 1 as [|ev idx Hev _ IH]; [reflexivity|].
  destruct ev; try discriminate. exact IH.
Qed.

Lemma countFolders_indexFails idx :
  Forall (fun ev => isIndexFail ev = true) idx -> countFolders idx = 0%nat.
Proof.
  induction 1 as [|ev idx Hev _ IH]; [reflexivity|].
  destruct ev; try discriminate. exact IH.
Qed.

Lemma countFiles_le tr : (countFiles tr <= countUpserts tr)%nat.
Proof.
  unfold countFiles, countUpserts, upsertsOf.
  induction tr as [|ev tr IH]; simpl; [lia|]. destruct ev; simpl; lia.
Qed.

Lemma countFolders_le tr : (countFolders tr <= countUpserts tr)%nat.
Proof.
  unfold countFolders, countUpserts, upsertsOf.
  induction tr as [|ev tr IH]; simpl; [lia|]. destruct ev; simpl; lia.
Qed.

(** No wrap-around below [2 ^ 63] increments. *)
Lemma iter_incr64_small (k : nat) : Z.of_nat k < 2 ^ 63 -> Nat.iter k incr64 0 = Z.of_nat k.
Proof.
  induction k as [|k IH]; intros H; [reflexivity|].
  change (Nat.iter (S k) incr64 0) with (incr64 (Nat.iter k incr64 0)).
  rewrite IH by lia. rewrite incr64_small by lia. lia.
Qed.

Lemma div_succ_lt K : 0 <= K -> K mod 1000 + 1 < 1000 -> (K + 1) / 1000 = K / 1000.
Proof. intros H0 H. Z.div_mod_to_equations. lia. Qed.

Lemma div_succ_full K : 0 <= K -> K mod 1000 + 1 = 1000 -> (K + 1) / 1000 = K / 1000 + 1.
Proof. intros H0 H. Z.div_mod_to_equations. lia. Qed.

Lemma progressCount_other tr ev :
  (forall m, ev <> EvProgress m) -> progressCount (tr ++ [ev]) = progressCount tr.
Proof. intros H. unfold progressCount. rewrite progressOf_other by exact H. reflexivity. Qed.

Lemma progressCount_progress tr m :
  progressCount (tr ++ [EvProgress m]) = progressCount tr + 1.
Proof. unfold progressCount. rewrite progressOf_progress, length_app. simpl. lia. Qed.

(** The walk sends one progress signal per 1000 upserts. *)
Lemma progress_step {tables : Unicode.CaseTables} w extFilter hash est db0 c (cs : list WalkCall) s s' (r : Res unit) :
  WalkInv db0 s ->
  progressCount (trace s) = Z.of_nat (countUpserts (trace s)) / 1000 ->
  ScanStep w extFilter hash est c s s' r ->
  match r with
  | Ok _ => progressCount (trace s') = Z.of_nat (countUpserts (trace s')) / 1000
  | Fail _ => progressCount (trace s') <= Z.of_nat (countUpserts (trace s')) / 1000
  end.
Proof.
  intros Hinv HI Hstep. pose proof (wi_batch _ _ Hinv) as Hb.
  set (K := Z.of_nat (countUpserts (trace s))) in *.
  assert (HK : 0 <= K) by (subst K; lia).
  destruct Hstep as
    [ Hup | ev view e Hup Hv H0 | ev view Hup Hv H0 Hlt | ev view e Hup Hv H0 Hfull H1
    | ev view e Hup Hv H0 Hfull H1 H2 | ev view e Hup Hv H0 Hfull H1 H2 H3
    | ev view e Hup Hv H0 Hfull H1 H2 H3 H4 | ev view Hup Hv H0 Hfull H1 H2 H3 H4 ];
    try exact HI;
    destruct (upsertOf_Some _ _ _ _ _ Hup) as (Hu & Hnfail & Hncommit & Hff & Hnprog & _);
    cbn [trace]; snocs;
    rewrite ?progressCount_progress;
    rewrite ?progressCount_other by (first [assumption | discriminate]);
    rewrite ?progressCount_progress;
    rewrite ?progressCount_other by (first [assumption | discriminate]);
    rewrite ?countUpserts_other by reflexivity;
    rewrite ?(countUpserts_upsert _ _ Hu), ?Nat2Z.inj_add; fold K;
    try rewrite Hb in *; change (Z.of_nat 1) with 1.
  - lia.
  - rewrite div_succ_lt by assumption. exact HI.
  - rewrite div_succ_full by assumption. lia.
  - rewrite div_succ_full by assumption. lia.
  - rewrite div_succ_full by assumption. lia.
  - rewrite div_succ_full by assumption. lia.
  - rewrite div_succ_full by assumption. lia.
Qed.

Lemma progressAtBatches_app_quiet tr evs :
  progressAtBatches tr ->
  Forall (fun ev => forall m, ev = EvProgress m -> pm_last m = []) evs ->
  progressAtBatches (tr ++ evs).
Proof.
  intros Htr Hevs. revert tr Htr.
  induction Hevs as [|ev evs Hev _ IH]; intros tr Htr.
  - rewrite app_nil_r. exact Htr.
  - change (tr ++ ev :: evs) with (tr ++ [ev] ++ evs). rewrite (app_assoc tr [ev] evs). apply IH.
    apply progressAtBatches_snoc; [exact Htr|].
    intros m -> Hm. destruct Hm. apply (Hev m eq_refl).
Qed.

Lemma indexFails_quiet idx :
  Forall (fun ev => isIndexFail ev = true) idx ->
  Forall (fun ev => forall m, ev = EvProgress m -> pm_last m = []) idx.
Proof. intros H. eapply Forall_impl; [exact H|]. intros ev Hev m ->. discriminate. Qed.

Lemma progressCount_zero tr : progressCount tr <= 0 -> progressOf tr = [].
Proof. unfold progressCount. destruct (progressOf tr); simpl; [reflexivity|lia]. Qed.

(** C10.  A progress signal whose [last] is not empty is emitted only when
    the number of upserts made so far in the run is a positive multiple of
    1000.  So a run that makes fewer than 1000 upserts emits no intermediate
    progress signal: when it succeeds it emits the one final signal, whose
    [last] is the empty string, and else none. *)
Theorem C10_progress_only_at_batches {tables : Unicode.CaseTables} (w : World) (db0 : Store) (root : gostring)
    (extFilter : gset gostring) (hash : bool) :
  let r := runScan w db0 root extFilter hash in
  (forall tr1 m tr2,
      run_trace r = tr1 ++ EvProgress m :: tr2 ->
      pm_last m <> [] ->
      exists k : nat, (0 < k)%nat /\ countUpserts tr1 = (1000 * k)%nat)
  /\ ((countUpserts (run_trace r) < 1000)%nat ->
      run_progress r =
        match run_done r with
        | Some (mkDone None) =>
            [mkProgress (Z.of_nat (countFiles (run_trace r)))
                        (Z.of_nat (countFolders (run_trace r))) []
                        (estimateFileCount w root extFilter)]
        | _ => []
        end).
Proof.
  intros r. subst r. rewrite runScan_unfold. cbv zeta.
  cbn [run_done run_store run_trace run_progress].
  set (est := estimateFileCount w root extFilter).
  pose proof (scanAndPersist_end w extFilter hash est db0 root
                (fun _ s => progressCount (trace s) = Z.of_nat (countUpserts (trace s)) / 1000)
                (fun _ s => progressCount (trace s) <= Z.of_nat (countUpserts (trace s)) / 1000)
                (progress_step w extFilter hash est db0) eq_refl) as Hend.
  destruct (scanAndPersist w extFilter hash est db0 root) as [s out]. cbn [fst snd] in *.
  destruct Hend as
    [ s op' e' tr Htr [k ->] Hops Hc Hf | s2 e' Hinv HJ Htx | s2 e' view Hinv HJ Htx
    | s2 e' Hinv HJ Htx | s2 e' Hinv HI H0 | s2 s idx Hinv HI H0 Hidx Htr Hc Hno ].
  - (* before the walk *)
    split.
    + intros tr1 m tr2 Heq _. exfalso. rewrite Htr in Heq.
      assert (Hin : In (EvProgress m) (take k [EvBegin; EvPrepareFolder] ++ [EvFail op' e'])).
      { rewrite Heq. apply in_or_app. right. left. reflexivity. }
      destruct k as [|[|[|k]]]; simpl in Hin; intuition discriminate.
    + intros _. rewrite Htr. destruct k as [|[|[|k]]]; reflexivity.
  - (* nil transaction *)
    split; [apply (fi_progress _ _ _ _ Hinv)|].
    intros Hlt. apply progressCount_zero.
    rewrite (Z.div_small (Z.of_nat (countUpserts (trace s2))) 1000) in HJ by lia. exact HJ.
  - (* roll back *)
    cbn [trace]. split.
    + apply progressAtBatches_other; [apply (fi_progress _ _ _ _ Hinv)|discriminate].
    + rewrite countUpserts_other by reflexivity. intros Hlt.
      rewrite progressOf_other by discriminate. apply progressCount_zero.
      rewrite (Z.div_small (Z.of_nat (countUpserts (trace s2))) 1000) in HJ by lia. exact HJ.
  - (* failed commit in the walk *)
    split; [apply (fi_progress _ _ _ _ Hinv)|].
    intros Hlt. apply progressCount_zero.
    rewrite (Z.div_small (Z.of_nat (countUpserts (trace s2))) 1000) in HJ by lia. exact HJ.
  - (* failed last commit *)
    cbn [trace]. split.
    + apply progressAtBatches_other; [apply (wi_progress _ _ Hinv)|discriminate].
    + rewrite countUpserts_other by reflexivity. intros Hlt.
      rewrite progressOf_other by discriminate. apply progressCount_zero.
      rewrite (Z.div_small (Z.of_nat (countUpserts (trace s2))) 1000) in HI by lia. lia.
  - (* success *)
    rewrite Htr. split.
    + apply progressAtBatches_app_quiet; [apply (wi_progress _ _ Hinv)|].
      constructor; [discriminate|]. apply Forall_app. split; [apply indexFails_quiet, Hidx|].
      constructor; [|constructor]. intros m [= <-]. reflexivity.
    + rewrite !countUpserts_app, !countFiles_app, !countFolders_app, !progressOf_app.
      rewrite (countUpserts_indexFails idx), (countFiles_indexFails idx),
        (countFolders_indexFails idx), (progressOf_indexFails idx) by exact Hidx.
      cbn. rewrite !Nat.add_0_r. intros Hlt.
      rewrite (Z.div_small (Z.of_nat (countUpserts (trace s2))) 1000) in HI by lia.
      rewrite (progressCount_zero (trace s2)) by lia. cbn.
      pose proof (countFiles_le (trace s2)). pose proof (countFolders_le (trace s2)).
      rewrite (wi_files _ _ Hinv), (wi_dirs _ _ Hinv), !iter_incr64_small by lia.
      reflexivity.
Qed.

(** ** The batching rule *)

Lemma batched_app est ups ups' : forall n f d,
  batched est n f d (ups ++ ups')
  = batched est n f d ups
    ++ batched est (n + length ups) (f + Z.of_nat (countFiles ups))
         (d + Z.of_nat (countFolders ups)) ups'.
Proof.
  induction ups as [|u ups IH]; intros n f d.
  - simpl. rewrite Nat.add_0_r, !Z.add_0_r. reflexivity.
  - cbn [batched app]. rewrite IH.
    assert (Hn : (S n + length ups = n + length (u :: ups))%nat) by (cbn [length]; lia).
    assert (Hf : (if isFileUpsert u then f + 1 else f) + Z.of_nat (countFiles ups)
                 = f + Z.of_nat (countFiles (u :: ups))).
    { unfold countFiles. cbn [List.filter]. destruct (isFileUpsert u); cbn [length]; lia. }
    assert (Hd : (if isFolderUpsert u then d + 1 else d) + Z.of_nat (countFolders ups)
                 = d + Z.of_nat (countFolders (u :: ups))).
    { unfold countFolders. cbn [List.filter]. destruct (isFolderUpsert u); cbn [length]; lia. }
    rewrite Hn, Hf, Hd. rewrite <- !app_assoc. reflexivity.
Qed.

Lemma upsertsOf_other tr ev : isUpsert ev = false -> upsertsOf (tr ++ [ev]) = upsertsOf tr.
Proof. intros H. rewrite upsertsOf_snoc, H. apply app_nil_r. Qed.

Lemma upsertsOf_upsert tr ev : isUpsert ev = true -> upsertsOf (tr ++ [ev]) = upsertsOf tr ++ [ev].
Proof. intros H. rewrite upsertsOf_snoc, H. reflexivity. Qed.

Lemma countFiles_upsertsOf tr : countFiles (upsertsOf tr) = countFiles tr.
Proof.
  unfold countFiles, upsertsOf. induction tr as [|ev tr IH]; [reflexivity|].
  destruct ev; simpl; auto.
Qed.

Lemma countFolders_upsertsOf tr : countFolders (upsertsOf tr) = countFolders tr.
Proof.
  unfold countFolders, upsertsOf. induction tr as [|ev tr IH]; [reflexivity|].
  destruct ev; simpl; auto.
Qed.

Lemma applyAll_upsertsOf s tr : applyAll s (upsertsOf tr) = applyAll s tr.
Proof.
  unfold applyAll, upsertsOf. revert s. induction tr as [|ev tr IH]; intros s; [reflexivity|].
  destruct ev; simpl; auto.
Qed.

Lemma nat_mod_succ_lt (n : nat) :
  Z.of_nat n mod 1000 + 1 < 1000 -> (S n mod 1000 =? 0)%nat = false.
Proof.
  intros H. apply Nat.eqb_neq. intros H0.
  apply (f_equal Z.of_nat) in H0. rewrite Nat2Z.inj_mod in H0.
  replace (Z.of_nat (S n)) with (Z.of_nat n + 1) in H0 by lia.
  change (Z.of_nat 1000) with 1000 in H0.
  rewrite mod_succ_lt in H0 by exact H.
  pose proof (Z.mod_pos_bound (Z.of_nat n) 1000 ltac:(lia)). simpl in H0. lia.
Qed.

Lemma nat_mod_succ_full (n : nat) :
  Z.of_nat n mod 1000 + 1 = 1000 -> (S n mod 1000 =? 0)%nat = true.
Proof.
  intros H. apply Nat.eqb_eq. destruct (mod_succ_full n H) as (_ & j & _ & Hj).
  replace (S n) with (j * 1000)%nat by lia. apply Nat.Div0.mod_mul.
Qed.

(** Without storage failures the walk writes the trace of the batching rule. *)
Lemma batching_step {tables : Unicode.CaseTables} w extFilter hash est db0 c (cs : list WalkCall) s s' (r : Res unit) :
  (forall k, sql_fault w k = None) ->
  WalkInv db0 s ->
  (trace s = setupEvents ++ batched est 0 0 0 (upsertsOf (trace s))
   /\ Z.of_nat (countUpserts (trace s) + length (c :: cs)) < 2 ^ 63) ->
  ScanStep w extFilter hash est c s s' r ->
  match r with
  | Ok _ => trace s' = setupEvents ++ batched est 0 0 0 (upsertsOf (trace s'))
            /\ Z.of_nat (countUpserts (trace s') + length cs) < 2 ^ 63
  | Fail _ => False
  end.
Proof.
  intros Hno Hinv [Htr Hbound] Hstep. cbn [length] in Hbound.
  pose proof (wi_batch _ _ Hinv) as Hb.
  pose proof (countFiles_le (trace s)) as Hfl. pose proof (countFolders_le (trace s)) as Hdl.
  pose proof (wi_files _ _ Hinv) as Hf. rewrite iter_incr64_small in Hf by lia.
  pose proof (wi_dirs _ _ Hinv) as Hd. rewrite iter_incr64_small in Hd by lia.
  destruct Hstep as
    [ Hup | ev view e Hup Hv H0 | ev view Hup Hv H0 Hlt | ev view e Hup Hv H0 Hfull H1
    | ev view e Hup Hv H0 Hfull H1 H2 | ev view e Hup Hv H0 Hfull H1 H2 H3
    | ev view e Hup Hv H0 Hfull H1 H2 H3 H4 | ev view Hup Hv H0 Hfull H1 H2 H3 H4 ];
    try (rewrite Hno in *; discriminate).
  - split; [exact Htr|lia].
  - destruct (upsertOf_Some _ _ _ _ _ Hup) as (Hu & _).
    cbn [trace]. rewrite (countUpserts_upsert _ _ Hu), (upsertsOf_upsert _ _ Hu).
    split; [|lia].
    rewrite batched_app. cbn [batched].
    replace (0 + length (upsertsOf (trace s)))%nat with (countUpserts (trace s)) by reflexivity.
    rewrite Hb in Hlt. rewrite (nat_mod_succ_lt _ Hlt).
    rewrite Htr at 1. rewrite <- app_assoc. reflexivity.
  - destruct (upsertOf_Some _ _ _ _ _ Hup) as (Hu & _ & _ & Hff & _).
    cbn [trace]. snocs.
    rewrite !countUpserts_other by reflexivity. rewrite !upsertsOf_other by reflexivity.
    rewrite (countUpserts_upsert _ _ Hu), (upsertsOf_upsert _ _ Hu).
    split; [|lia].
    rewrite batched_app. cbn [batched].
    replace (0 + length (upsertsOf (trace s)))%nat with (countUpserts (trace s)) by reflexivity.
    rewrite Hb in Hfull. rewrite (nat_mod_succ_full _ Hfull).
    rewrite countFiles_upsertsOf, countFolders_upsertsOf.
    unfold bumpFiles, bumpDirs. rewrite Hf, Hd.
    rewrite !incr64_small by lia. cbn [Z.add].
    rewrite Htr at 1. rewrite <- !app_assoc. reflexivity.
Qed.

(** ** Failure of a storage call during the walk *)

(** What is committed, counted in upserts: a thousand for every progress
    signal of the walk.  The property goes from call to call of the walk
    function, whether the call succeeds or fails. *)
Lemma kept_step {tables : Unicode.CaseTables} w extFilter hash est db0 c (cs : list WalkCall)
    s s' (r : Res unit) :
  WalkInv db0 s ->
  progressCount (trace s) = Z.of_nat (countUpserts (trace s)) / 1000
  /\ upsertsOf (committedPrefix (trace s))
     = take (1000 * length (progressOf (trace s))) (upsertsOf (trace s)) ->
  ScanStep w extFilter hash est c s s' r ->
  match r with
  | Ok _ =>
      progressCount (trace s') = Z.of_nat (countUpserts (trace s')) / 1000
      /\ upsertsOf (committedPrefix (trace s'))
         = take (1000 * length (progressOf (trace s'))) (upsertsOf (trace s'))
  | Fail e =>
      upsertsOf (committedPrefix (trace s'))
      = take (1000 * length (progressOf (trace s'))) (upsertsOf (trace s'))
      /\ exists tr op,
           trace s' = tr ++ [EvFail op e]
           /\ (op = OpCommit ->
               progressCount (trace s') + 1 = Z.of_nat (countUpserts (trace s')) / 1000
               /\ Z.of_nat (countUpserts (trace s')) mod 1000 = 0)
           /\ (op <> OpCommit ->
               progressCount (trace s') = Z.of_nat (countUpserts (trace s')) / 1000)
  end.
Proof.
  intros Hinv [HP HQ] Hstep. pose proof (wi_batch _ _ Hinv) as Hb.
  unfold progressCount, countUpserts in *.
  set (U := upsertsOf (trace s)) in *. set (P := progressOf (trace s)) in *.
  assert (Hle : (1000 * length P <= length U)%nat) by (Z.div_mod_to_equations; lia).
  destruct Hstep as
    [ Hup | ev view e Hup Hv H0 | ev view Hup Hv H0 Hlt | ev view e Hup Hv H0 Hfull H1
    | ev view e Hup Hv H0 Hfull H1 H2 | ev view e Hup Hv H0 Hfull H1 H2 H3
    | ev view e Hup Hv H0 Hfull H1 H2 H3 H4 | ev view Hup Hv H0 Hfull H1 H2 H3 H4 ];
    [split; assumption| ..];
    destruct (upsertOf_Some _ _ _ _ _ Hup) as (Hu & Hnfail & Hncommit & Hff & Hnprog & _);
    assert (Hpe : match ev with EvProgress m => [m] | _ => [] end = @nil progressMsg)
      by (destruct ev; try reflexivity; destruct (Hnprog _ eq_refl));
    cbn [trace]; snocs;
    rewrite !committedPrefix_snoc, ?Hncommit; cbn [isCommit];
    rewrite !upsertsOf_snoc, ?Hu; cbn [isUpsert]; rewrite ?app_nil_r;
    rewrite !progressOf_snoc; rewrite ?(progressOf_other _ ev Hnprog);
    repeat match goal with
      | |- context [progressOf (?t ++ [ev])] => rewrite (progressOf_other t ev Hnprog)
      end;
    rewrite ?upsertsOf_snoc, ?Hu; cbn [isUpsert]; rewrite ?app_nil_r;
    fold U; fold P; rewrite ?Hpe, ?length_app; cbn [length]; rewrite ?Nat.add_0_r.
  all: try rewrite Hb in *.
  - (* the upsert fails *)
    split; [exact HQ|]. eexists _, OpExec. split; [reflexivity|].
    split; [discriminate|]. intros _. exact HP.
  - (* within the batch *)
    split; [|rewrite take_app_le by exact Hle; exact HQ].
    Z.div_mod_to_equations. lia.
  - (* the commit fails *)
    split; [rewrite take_app_le by exact Hle; exact HQ|].
    eexists _, OpCommit. split; [reflexivity|]. split; [|congruence]. intros _.
    Z.div_mod_to_equations. lia.
  - (* db.Begin fails *)
    split; [symmetry; apply take_ge; rewrite length_app; cbn [length];
            Z.div_mod_to_equations; lia|].
    eexists _, OpBegin. split; [reflexivity|]. split; [discriminate|]. intros _.
    Z.div_mod_to_equations. lia.
  - split; [symmetry; apply take_ge; rewrite length_app; cbn [length];
            Z.div_mod_to_equations; lia|].
    eexists _, OpPrepare. split; [reflexivity|]. split; [discriminate|]. intros _.
    Z.div_mod_to_equations. lia.
  - split; [symmetry; apply take_ge; rewrite length_app; cbn [length];
            Z.div_mod_to_equations; lia|].
    eexists _, OpPrepare. split; [reflexivity|]. split; [discriminate|]. intros _.
    Z.div_mod_to_equations. lia.
  - (* the batch is committed *)
    split; [Z.div_mod_to_equations; lia|].
    symmetry; apply take_ge; rewrite length_app; cbn [length]. Z.div_mod_to_equations; lia.
Qed.

Lemma fail_last tr tr' op op' (e e' : Err) :
  tr ++ [EvFail op e] = tr' ++ [EvFail op' e'] -> op = op' /\ e = e'.
Proof. intros E. apply app_inj_tail in E as [_ E]. injection E as <- <-. auto. Qed.

Lemma setup_prefix_fail k op (e : Err) :
  ~ setupEvents `prefix_of` take k [EvBegin; EvPrepareFolder] ++ [EvFail op e].
Proof.
  intros [rest E]. destruct k as [|[|[|k]]]; cbn in E; discriminate E.
Qed.

Lemma nat_div_1000 (a b : nat) : Z.of_nat a = Z.of_nat b / 1000 -> a = (b / 1000)%nat.
Proof. intros E. apply Nat2Z.inj. rewrite Nat2Z.inj_div. exact E. Qed.

Lemma nat_div_1000_succ (a b : nat) :
  Z.of_nat a + 1 = Z.of_nat b / 1000 -> Z.of_nat b mod 1000 = 0 ->
  S a = (b / 1000)%nat /\ (b mod 1000)%nat = 0%nat.
Proof.
  intros E1 E2. split; apply Nat2Z.inj.
  - rewrite Nat2Z.inj_succ, Nat2Z.inj_div. change (Z.of_nat 1000) with 1000. lia.
  - rewrite Nat2Z.inj_mod. exact E2.
Qed.

(** C7.  The storage calls of the walk are the [Exec] of an upsert and, when
    a batch is full, the [Commit], [db.Begin] and the two [tx.Prepare].
    When one of them, or the last [Commit], fails with [e]: the store
    holds the upserts of the batches committed before, a thousand for
    every progress signal sent, and no upsert of the current batch; the
    run ends with the one terminal signal [doneMsg{err: e}] and, after a
    failed [Exec] or [Prepare], with the rollback of the open
    transaction.  But when it is [db.Begin] that fails, the nil it
    returns is assigned to [tx], [tx.Rollback()] panics, and no terminal
    signal is sent. *)
Theorem C7_write_failure_atomic {tables : Unicode.CaseTables} (w : World) (db0 : Store)
    (root : gostring) (extFilter : gset gostring) (hash : bool) (op : SqlOp) (e : Err) :
  let r := runScan w db0 root extFilter hash in
  let upserts := upsertsOf (run_trace r) in
  let batches := length (run_progress r) in
  In (EvFail op e) (run_trace r) ->
  op ∈ [OpExec; OpCommit; OpBegin; OpPrepare] ->
  setupEvents `prefix_of` run_trace r ->
  run_store r = applyAll db0 (take (1000 * batches) upserts)
  /\ (op <> OpCommit -> batches = (length upserts / 1000)%nat)
  /\ (op = OpCommit ->
      batches = (length upserts / 1000)%nat
      \/ (S batches = (length upserts / 1000)%nat /\ (length upserts mod 1000)%nat = 0%nat))
  /\ (op <> OpBegin -> run_done r = Some (mkDone (Some e)))
  /\ (op = OpBegin -> run_done r = None)
  /\ (op = OpExec \/ op = OpPrepare -> last (run_trace r) = Some EvRollback).
Proof.
  intros r upserts batches. subst r upserts batches. rewrite runScan_unfold. cbv zeta.
  cbn [run_done run_store run_trace run_progress].
  set (est := estimateFileCount w root extFilter).
  pose proof (scanAndPersist_end w extFilter hash est db0 root
                (fun _ s =>
                   progressCount (trace s) = Z.of_nat (countUpserts (trace s)) / 1000
                   /\ upsertsOf (committedPrefix (trace s))
                      = take (1000 * length (progressOf (trace s))) (upsertsOf (trace s)))
                (fun e s =>
                   upsertsOf (committedPrefix (trace s))
                   = take (1000 * length (progressOf (trace s))) (upsertsOf (trace s))
                   /\ exists tr op,
                        trace s = tr ++ [EvFail op e]
                        /\ (op = OpCommit ->
                            progressCount (trace s) + 1
                            = Z.of_nat (countUpserts (trace s)) / 1000
                            /\ Z.of_nat (countUpserts (trace s)) mod 1000 = 0)
                        /\ (op <> OpCommit ->
                            progressCount (trace s)
                            = Z.of_nat (countUpserts (trace s)) / 1000))
                (kept_step w extFilter hash est db0)) as Hend.
  specialize (Hend (conj eq_refl eq_refl)).
  destruct (scanAndPersist w extFilter hash est db0 root) as [s out]. cbn [fst snd] in *.
  intros Hin Hop Hpre.
  assert (Hstore : forall tr, applyAll db0 (committedPrefix tr)
                              = applyAll db0 (upsertsOf (committedPrefix tr)))
    by (intros tr; symmetry; apply applyAll_upsertsOf).
  unfold progressCount, countUpserts in Hend.
  destruct Hend as
    [ s op' e' tr Htr [k ->] Hops Hc Hf | s2 e' Hinv HJ Htx | s2 e' view Hinv HJ Htx
    | s2 e' Hinv HJ Htx | s2 e' Hinv HI H0 | s2 s idx Hinv HI H0 Hidx Htr Hc Hno ].
  - (* before the walk *)
    exfalso. rewrite Htr in Hpre. exact (setup_prefix_fail _ _ _ Hpre).
  - (* db.Begin failed: tx is nil *)
    destruct Hinv as [(tr & op' & Htr & Hnf & Hta) Hc _ _].
    destruct HJ as (HQ & tr2 & op2 & Htr2 & _ & Hcount).
    rewrite Htr in Hin. apply In_snoc_fail in Hin as [Eo Ee]; [|apply noFail_not_In, Hnf]. subst op' e'.
    rewrite Htr in Htr2. apply fail_last in Htr2 as [Eo2 _]. subst op2.
    rewrite Htx in Hta.
    destruct op;
      try (simpl in Hta;
           first [discriminate Hta | contradiction | destruct Hta; congruence]).
    rewrite Hc, Hstore, HQ. split; [reflexivity|].
    split; [intros _; apply nat_div_1000, Hcount; discriminate|].
    split; [discriminate|]. split; [congruence|]. split; [reflexivity|].
    intros [?|?]; discriminate.
  - (* an open transaction: Exec or Prepare failed *)
    destruct Hinv as [(tr & op' & Htr & Hnf & Hta) Hc _ _].
    destruct HJ as (HQ & tr2 & op2 & Htr2 & _ & Hcount).
    cbn [trace committed] in *.
    assert (Hin' : In (EvFail op e) (trace s2)).
    { apply in_app_or in Hin as [?|[?|[]]]; [assumption|discriminate]. }
    rewrite Htr in Hin'. apply In_snoc_fail in Hin' as [Eo Ee]; [|apply noFail_not_In, Hnf]. subst op' e'.
    rewrite Htr in Htr2. apply fail_last in Htr2 as [Eo2 _]. subst op2.
    rewrite Htx in Hta.
    assert (Hne : op <> OpCommit /\ op <> OpBegin).
    { destruct op; simpl in Hta; try contradiction; try discriminate Hta; split; discriminate. }
    destruct Hne as [Hnc Hnb]. specialize (Hcount Hnc).
    rewrite upsertsOf_other, progressOf_other by (reflexivity || discriminate).
    rewrite Hc, Hstore, HQ. split; [reflexivity|].
    split; [intros _; apply nat_div_1000, Hcount|].
    split; [contradiction|]. split; [reflexivity|]. split; [contradiction|].
    intros _. apply last_snoc.
  - (* the commit of a full batch failed *)
    destruct Hinv as [(tr & op' & Htr & Hnf & Hta) Hc _ _].
    destruct HJ as (HQ & tr2 & op2 & Htr2 & Hcount & _).
    rewrite Htr in Hin. apply In_snoc_fail in Hin as [Eo Ee]; [|apply noFail_not_In, Hnf]. subst op' e'.
    rewrite Htr in Htr2. apply fail_last in Htr2 as [Eo2 _]. subst op2.
    rewrite Htx in Hta.
    assert (op = OpCommit) as ->.
    { destruct op; simpl in Hta; try contradiction; try reflexivity;
        first [discriminate Hta | destruct Hta as [? Hta]; discriminate Hta]. }
    specialize (Hcount eq_refl). destruct Hcount as [Hc1 Hc2].
    rewrite Hc, Hstore, HQ. split; [reflexivity|]. split; [contradiction|].
    split; [intros _; right; apply nat_div_1000_succ; assumption|].
    split; [reflexivity|]. split; [discriminate|]. intros [?|?]; discriminate.
  - (* the last commit failed *)
    cbn [trace committed] in *. destruct HI as [HP HQ].
    apply In_snoc_fail in Hin as [Eo Ee]; [|apply noFail_not_In, Hinv]. subst op e'.
    rewrite upsertsOf_other, progressOf_other by (reflexivity || discriminate).
    rewrite (wi_committed _ _ Hinv), Hstore, HQ. split; [reflexivity|].
    split; [contradiction|].
    split; [intros _; left; apply nat_div_1000, HP|].
    split; [reflexivity|]. split; [discriminate|]. intros [?|?]; discriminate.
  - (* success: only the making of an index can have failed *)
    exfalso. rewrite Htr in Hin.
    apply in_app_or in Hin as [Hin|Hin]; [eapply noFail_not_In; [apply Hinv|exact Hin]|].
    apply in_app_or in Hin as [[Heq|[]]|Hin]; [discriminate|].
    apply in_app_or in Hin as [Hin|[Heq|[]]]; [|discriminate].
    rewrite Forall_forall in Hidx. apply list_elem_of_In in Hin. specialize (Hidx _ Hin).
    repeat (apply elem_of_cons in Hop as [->|Hop]; [discriminate Hidx|]). inversion Hop.
Qed.

(** ** The store after a run *)

Lemma committedPrefix_indexFails idx :
  Forall (fun ev => isIndexFail ev = true) idx ->
  forall tr, committedPrefix (tr ++ idx) = committedPrefix tr.
Proof.
  induction 1 as [|ev idx Hev _ IH]; intros tr.
  - rewrite app_nil_r. reflexivity.
  - change (tr ++ ev :: idx) with (tr ++ [ev] ++ idx). rewrite app_assoc, IH.
    apply committedPrefix_other. destruct ev; simpl in Hev; try discriminate Hev; reflexivity.
Qed.

(** Whatever happens, the store holds the upserts up to the last commit. *)
Lemma run_store_committed {tables : Unicode.CaseTables} w db0 root extFilter hash :
  let r := runScan w db0 root extFilter hash in
  run_store r = applyAll db0 (committedPrefix (run_trace r)).
Proof.
  intros r. subst r. rewrite runScan_unfold. cbv zeta. cbn [run_store run_trace].
  set (est := estimateFileCount w root extFilter).
  pose proof (scanAndPersist_end w extFilter hash est db0 root
                (fun _ _ => True) (fun _ _ => True)) as Hend.
  assert (Hstep : forall c (cs : list WalkCall) s s' (r : Res unit),
             WalkInv db0 s -> True -> ScanStep w extFilter hash est c s s' r ->
             match r with Ok _ => True | Fail _ => True end)
    by (intros; destruct r; exact I).
  specialize (Hend Hstep I). clear Hstep.
  destruct (scanAndPersist w extFilter hash est db0 root) as [s out]. cbn [fst snd] in *.
  destruct Hend as
    [ s op' e' tr Htr [k ->] Hops Hc Hf | s2 e' Hinv _ Htx | s2 e' view Hinv _ Htx
    | s2 e' Hinv _ Htx | s2 e' Hinv _ H0 | s2 s idx Hinv _ H0 Hidx Htr Hc Hno ].
  - rewrite Htr, Hc. destruct k as [|[|[|k]]]; reflexivity.
  - apply (fi_committed _ _ _ _ Hinv).
  - cbn [committed trace]. rewrite committedPrefix_other by reflexivity.
    apply (fi_committed _ _ _ _ Hinv).
  - apply (fi_committed _ _ _ _ Hinv).
  - cbn [committed trace]. rewrite committedPrefix_other by reflexivity.
    apply (wi_committed _ _ Hinv).
  - rewrite Hc, Htr.
    rewrite !app_assoc. rewrite committedPrefix_other by reflexivity.
    rewrite committedPrefix_indexFails by exact Hidx. rewrite committedPrefix_commit.
    rewrite applyAll_other by reflexivity. reflexivity.
Qed.

(** ** The sticky hash *)

Lemma upsertFile_lookup p new s :
  files (upsertFile p new s) !! p =
    Some match files s !! p with
         | Some old =>
             mkFileRow (folder_path old) (name old) (ext old)
                       (size_bytes new) (mtime_utc new) (mime new)
                       (coalesce (sha256 new) (sha256 old))
         | None => new
         end.
Proof. unfold upsertFile. cbn [files]. apply lookup_insert_eq. Qed.

Lemma upsertFile_lookup_ne p q new s :
  p <> q -> files (upsertFile p new s) !! q = files s !! q.
Proof. intros H. unfold upsertFile. cbn [files]. apply lookup_insert_ne. exact H. Qed.

Lemma hashed_applyEvent p s ev : hashed p s -> hashed p (applyEvent s ev).
Proof.
  intros (row & Hrow & Hh). destruct ev as [ | |q new| | | | | | ]; try (exists row; auto; fail).
  simpl. destruct (decide (q = p)) as [->|Hne].
  - eexists. split; [apply upsertFile_lookup|]. rewrite Hrow. cbn [sha256].
    destruct (sha256 new); [discriminate|exact Hh].
  - exists row. split; [|exact Hh]. rewrite upsertFile_lookup_ne by exact Hne. exact Hrow.
Qed.

Lemma hashed_applyAll p tr : forall s, hashed p s -> hashed p (applyAll s tr).
Proof.
  induction tr as [|ev tr IH]; intros s H; [exact H|].
  apply (IH (applyEvent s ev)). apply hashed_applyEvent, H.
Qed.

(** C1.  The upsert of a file whose path is already in the store overwrites
    [size], [mtime_utc] and [mime] with the incoming values, and [sha256]
    only with a non-null incoming value: a null one keeps the recorded hash.
    A hash once recorded is never replaced by null, neither by any sequence
    of later upserts nor by a whole later run of the engine on that store. *)
Theorem C1_sticky_hash {tables : Unicode.CaseTables} (p : gostring) (new old : FileRow) (s : Store) :
  files s !! p = Some old ->
  (exists row,
      files (upsertFile p new s) !! p = Some row
      /\ size_bytes row = size_bytes new
      /\ mtime_utc row = mtime_utc new
      /\ mime row = mime new
      /\ sha256 row = match sha256 new with Some h => Some h | None => sha256 old end)
  /\ (sha256 old <> None ->
      (forall later : list Event, hashed p (applyAll (upsertFile p new s) later))
      /\ (forall w root extFilter hash,
             hashed p (run_store (runScan w s root extFilter hash)))).
Proof.
  intros Hold. split.
  - eexists. split; [apply upsertFile_lookup|]. rewrite Hold. cbn.
    repeat split. destruct (sha256 new); reflexivity.
  - intros Hh.
    assert (H0 : hashed p s) by (exists old; auto).
    split.
    + intros later. apply hashed_applyAll.
      apply (hashed_applyEvent p s (EvFileUpsert p new)), H0.
    + intros w root extFilter hash. rewrite run_store_committed.
      apply hashed_applyAll, H0.
Qed.

(** ** Facts about the paths *)

Module FilepathFacts.
Import Strings Filepath StringsFacts.

Lemma weight_app l1 l2 : weight (l1 ++ l2) = (weight l1 + weight l2)%nat.
Proof. induction l1 as [|e l1 IH]; simpl; lia. Qed.

Lemma weight_rev l : weight (rev l) = weight l.
Proof. induction l as [|e l IH]; simpl; [reflexivity|]. rewrite weight_app, IH. simpl. lia. Qed.

Lemma weight_tail l : (weight (tail l) <= weight l)%nat.
Proof. destruct l; simpl; lia. Qed.

Lemma Join_length l : l <> [] -> S (length (Strings.Join l [Separator])) = weight l.
Proof.
  induction l as [|e l IH]; [contradiction|]. intros _.
  destruct l as [|e' l].
  - simpl. lia.
  - rewrite Join_cons by discriminate. rewrite !length_app.
    cbn [weight length] in *. specialize (IH ltac:(discriminate)). lia.
Qed.

Lemma Split_weight s : weight (Split s Separator) = S (length s).
Proof.
  induction s as [|c s IH]; [reflexivity|]. cbn [Split].
  destruct (decide (c = Separator)).
  - cbn [weight length]. lia.
  - pose proof (Split_nonempty s Separator). destruct (Split s Separator) as [|tok toks]; [contradiction|].
    cbn [weight length] in *. lia.
Qed.

Lemma clean_step_weight rooted out dd e :
  (weight (fst (clean_step rooted (out, dd) e)) <= weight out + S (length e))%nat.
Proof.
  unfold clean_step.
  repeat (case_decide || case_match); cbn [fst weight];
    try pose proof (weight_tail out); lia.
Qed.

Lemma clean_fold_weight rooted elems : forall out dd,
  (weight (fst (foldl (clean_step rooted) (out, dd) elems)) <= weight out + weight elems)%nat.
Proof.
  induction elems as [|e elems IH]; intros out dd; cbn [foldl weight fst]; [lia|].
  pose proof (clean_step_weight rooted out dd e) as H.
  destruct (clean_step rooted (out, dd) e) as [out' dd']. cbn [fst] in H.
  specialize (IH out' dd'). lia.
Qed.

Lemma clean_step_OK rooted out dd e :
  Separator ∉ e -> Forall elemOK out -> Forall elemOK (fst (clean_step rooted (out, dd) e)).
Proof.
  intros He Hout. unfold clean_step.
  repeat (case_decide || case_match); cbn [fst]; auto.
  - destruct out; [constructor|]. inversion Hout; assumption.
  - constructor; [split; assumption|assumption].
  - constructor; [split; assumption|assumption].
Qed.

Lemma clean_fold_OK rooted elems : forall out dd,
  Forall (fun e => Separator ∉ e) elems -> Forall elemOK out ->
  Forall elemOK (fst (foldl (clean_step rooted) (out, dd) elems)).
Proof.
  induction elems as [|e elems IH]; intros out dd He Hout; cbn [foldl]; [exact Hout|].
  inversion He as [|? ? He1 He2]; subst.
  pose proof (clean_step_OK rooted out dd e He1 Hout) as H.
  destruct (clean_step rooted (out, dd) e) as [out' dd']. apply IH; assumption.
Qed.

(** A joined path does not end in a separator. *)
Lemma Join_last l c :
  Forall elemOK l -> last (Strings.Join l [Separator]) = Some c -> c <> Separator.
Proof.
  induction l as [|e l IH]; intros Hl Hc; [discriminate|].
  inversion Hl as [|? ? [He1 He2] Hl']; subst.
  destruct l as [|e' l].
  - cbn [Join] in Hc. intros ->. apply He2. apply last_Some_elem_of in Hc. exact Hc.
  - rewrite Join_cons in Hc by discriminate.
    rewrite app_assoc in Hc. 
    assert (Hne : Strings.Join (e' :: l) [Separator] <> []).
    { inversion Hl' as [|? ? [H1 _] _]; subst. destruct l; simpl.
      - exact H1.
      - destruct e'; [contradiction|discriminate]. }
    rewrite last_app in Hc. destruct (last (Strings.Join (e' :: l) [Separator])) as [c'|] eqn:E.
    + injection Hc as <-. apply IH; auto.
    + apply last_None in E. contradiction.
Qed.

(** [Clean] in terms of the elements it keeps. *)
Lemma Clean_cases s :
  s <> [] ->
  exists out,
    Forall elemOK out
    /\ ((Clean s = Separator :: Strings.Join (rev out) [Separator] /\ (weight out <= length s)%nat)
        \/ (out = [] /\ Clean s = str ".")
        \/ (out <> [] /\ Clean s = Strings.Join (rev out) [Separator]
            /\ (weight out <= S (length s))%nat)).
Proof.
  destruct s as [|c s]; [contradiction|]. intros _. unfold Clean.
  destruct (IsPathSeparator c) eqn:Hc.
  - (* rooted *)
    apply bool_decide_eq_true in Hc. subst c. cbn [Split].
    rewrite decide_True by reflexivity. cbn [foldl clean_step].
    rewrite decide_True by reflexivity.
    pose proof (clean_fold_weight true (Split s Separator) [] 0%nat) as Hw.
    pose proof (clean_fold_OK true (Split s Separator) [] 0%nat (Split_no_sep s Separator)
                  (List.Forall_nil _)) as Hok.
    destruct (foldl (clean_step true) ([], 0%nat) (Split s Separator)) as [out dd].
    cbn [fst] in *. exists out. split; [exact Hok|]. left. split; [reflexivity|].
    rewrite Split_weight in Hw. cbn [weight length] in *. lia.
  - (* not rooted *)
    pose proof (clean_fold_weight false (Split (c :: s) Separator) [] 0%nat) as Hw.
    pose proof (clean_fold_OK false (Split (c :: s) Separator) [] 0%nat
                  (Split_no_sep (c :: s) Separator) (List.Forall_nil _)) as Hok.
    destruct (foldl (clean_step false) ([], 0%nat) (Split (c :: s) Separator)) as [out dd].
    cbn [fst] in *. exists out. split; [exact Hok|]. right.
    destruct out as [|e out]; [left; auto|right].
    split; [discriminate|]. split; [reflexivity|].
    rewrite Split_weight in Hw. cbn [weight] in *. lia.
Qed.

Lemma Join_rev_nonempty out :
  Forall elemOK out -> out <> [] -> Strings.Join (rev out) [Separator] <> [].
Proof.
  intros Hok Hne H.
  assert (Hr : rev out <> []).
  { intros E. apply (f_equal (@rev _)) in E. rewrite rev_involutive in E. auto. }
  pose proof (Join_length (rev out) Hr) as Hl. rewrite H, weight_rev in Hl.
  destruct out as [|e out]; [contradiction|]. inversion Hok as [|? ? [He _] _]; subst.
  destruct e; [contradiction|]. cbn [weight length] in Hl. lia.
Qed.

Lemma Clean_nonempty s : Clean s <> [].
Proof.
  destruct s as [|c s]; [discriminate|].
  destruct (Clean_cases (c :: s) ltac:(discriminate))
    as (out & Hok & [[-> _]|[[_ ->]|(Hne & -> & _)]]); try discriminate.
  apply Join_rev_nonempty; assumption.
Qed.

(** [Clean] does not make a path longer. *)
Lemma Clean_length s : s <> [] -> (length (Clean s) <= length s)%nat.
Proof.
  intros Hs.
  destruct (Clean_cases s Hs) as (out & Hok & [[-> Hw]|[[_ ->]|(Hne & -> & Hw)]]).
  - destruct out as [|e out]; cbn [length]; [destruct s; [contradiction|simpl; lia]|].
    assert (Hr : rev (e :: out) <> []).
    { intros E. apply (f_equal (@rev _)) in E. rewrite rev_involutive in E. discriminate. }
    pose proof (Join_length _ Hr) as Hl. rewrite weight_rev in Hl. lia.
  - destruct s; [contradiction|simpl; lia].
  - assert (Hr : rev out <> []).
    { intros E. apply (f_equal (@rev _)) in E. rewrite rev_involutive in E. auto. }
    pose proof (Join_length _ Hr) as Hl. rewrite weight_rev in Hl. lia.
Qed.

(** The result of [Clean] ends in a separator only if it is the root. *)
Lemma Clean_last_sep s : last (Clean s) = Some Separator -> Clean s = [Separator].
Proof.
  destruct s as [|c s]; [discriminate|].
  destruct (Clean_cases (c :: s) ltac:(discriminate))
    as (out & Hok & [[-> _]|[[_ ->]|(Hne & -> & _)]]); intros Hl.
  - destruct out as [|e out]; [reflexivity|]. exfalso.
    assert (Hj : Strings.Join (rev (e :: out)) [Separator] <> [])
      by (apply Join_rev_nonempty; [assumption|discriminate]).
    change (Separator :: Strings.Join (rev (e :: out)) [Separator])
      with ([Separator] ++ Strings.Join (rev (e :: out)) [Separator]) in Hl.
    rewrite last_app in Hl.
    destruct (last (Strings.Join (rev (e :: out)) [Separator])) as [c'|] eqn:E.
    + injection Hl as ->. apply (Join_last _ _ (Forall_rev Hok) E). reflexivity.
    + apply last_None in E. contradiction.
  - discriminate.
  - exfalso. apply (Join_last _ _ (Forall_rev Hok) Hl). reflexivity.
Qed.

(** [skipElem] drops the last element: what remains is empty or ends in a
    separator. *)
Lemma skipElem_spec r :
  exists r1, r = r1 ++ skipElem r /\ (Separator ∉ r1)
             /\ (skipElem r = [] \/ head (skipElem r) = Some Separator).
Proof.
  induction r as [|c r (r1 & Hr & Hn & Hs)]; cbn [skipElem].
  - exists []. repeat split; [apply not_elem_of_nil|left; reflexivity].
  - destruct (IsPathSeparator c) eqn:Hc.
    + apply bool_decide_eq_true in Hc. subst c.
      exists []. repeat split; [apply not_elem_of_nil|right; reflexivity].
    + apply bool_decide_eq_false in Hc.
      exists (c :: r1). repeat split.
      * cbn [app]. congruence.
      * rewrite elem_of_cons. intros [?|?]; [congruence|contradiction].
      * exact Hs.
Qed.

Lemma dir_prefix p :
  exists rest, p = rev (skipElem (rev p)) ++ rest /\ (Separator ∉ rest)
               /\ (rev (skipElem (rev p)) = []
                   \/ last (rev (skipElem (rev p))) = Some Separator).
Proof.
  destruct (skipElem_spec (rev p)) as (r1 & Hr & Hn & Hs).
  exists (rev r1). repeat split.
  - rewrite <- rev_app_distr, <- Hr, rev_involutive. reflexivity.
  - intros Hin. apply Hn. apply list_elem_of_In, in_rev, list_elem_of_In. exact Hin.
  - destruct Hs as [->|Hs]; [left; reflexivity|right]. rewrite last_rev. exact Hs.
Qed.

(** The only paths that are their own directory: the root and the current
    directory. *)
Lemma Dir_fixpoint p : Dir p = p <-> p = str "/" \/ p = str ".".
Proof.
  split; [|intros [-> | ->]; reflexivity].
  unfold Dir. destruct (dir_prefix p) as (rest & Hp & Hrest & Hq).
  set (q := rev (skipElem (rev p))) in *. intros Hfix.
  destruct Hq as [Hq|Hq].
  - rewrite Hq in Hfix. right. symmetry. exact Hfix.
  - left. assert (Hqne : q <> []) by (intros E; rewrite E in Hq; discriminate).
    pose proof (Clean_length q Hqne) as Hlen.
    rewrite Hfix, Hp, length_app in Hlen.
    assert (rest = []) by (destruct rest; [reflexivity|cbn [length] in Hlen; lia]).
    subst rest. rewrite app_nil_r in Hp.
    rewrite <- Hp in Hq. rewrite <- Hfix in Hq at 1.
    fold q in Hq. apply Clean_last_sep in Hq. rewrite <- Hfix. fold q. exact Hq.
Qed.

End FilepathFacts.

(** ** The upserts of a run and the calls of the walk *)

Lemma omap_cons_Some {A B} (f : A -> option B) x y l :
  f x = Some y -> omap f (x :: l) = y :: omap f l.
Proof. intros H. cbn. rewrite H. reflexivity. Qed.

Lemma omap_cons_None {A B} (f : A -> option B) x l :
  f x = None -> omap f (x :: l) = omap f l.
Proof. intros H. cbn. rewrite H. reflexivity. Qed.

(** While the walk succeeds, the upserts made are those the calls ask for. *)
Lemma upserts_step {tables : Unicode.CaseTables} w extFilter hash est db0 (all : list Event) c (cs : list WalkCall)
    s s' (r : Res unit) :
  WalkInv db0 s ->
  upsertsOf (trace s) ++ omap (upsertOf w extFilter hash) (c :: cs) = all ->
  ScanStep w extFilter hash est c s s' r ->
  match r with
  | Ok _ => upsertsOf (trace s') ++ omap (upsertOf w extFilter hash) cs = all
  | Fail _ => True
  end.
Proof.
  intros _ HI Hstep.
  destruct Hstep as
    [ Hup | ev view e Hup Hv H0 | ev view Hup Hv H0 Hlt | ev view e Hup Hv H0 Hfull H1
    | ev view e Hup Hv H0 Hfull H1 H2 | ev view e Hup Hv H0 Hfull H1 H2 H3
    | ev view e Hup Hv H0 Hfull H1 H2 H3 H4 | ev view Hup Hv H0 Hfull H1 H2 H3 H4 ];
    try exact I;
    [ rewrite (omap_cons_None _ _ _ Hup) in HI; exact HI
    | rewrite (omap_cons_Some _ _ _ _ Hup) in HI ..];
    destruct (upsertOf_Some _ _ _ _ _ Hup) as (Hu & _);
    cbn [trace]; snocs; rewrite ?upsertsOf_other by reflexivity;
    rewrite (upsertsOf_upsert _ _ Hu), <- app_assoc; exact HI.
Qed.

(** In a run without storage failure the upserts of the trace are those of
    the calls of the walk, in order; the run succeeds and commits them all. *)
Lemma run_upserts {tables : Unicode.CaseTables} w db0 root extFilter hash :
  (forall k, sql_fault w k = None) ->
  let r := runScan w db0 root extFilter hash in
  let ups := omap (upsertOf w extFilter hash) (WalkDir w (Filepath.Clean root)) in
  upsertsOf (run_trace r) = ups
  /\ run_store r = applyAll db0 ups
  /\ run_done r = Some (mkDone None)
  /\ exists msgs,
       run_progress r
       = msgs ++ [mkProgress (Nat.iter (countFiles ups) incr64 0)
                             (Nat.iter (countFolders ups) incr64 0) []
                             (estimateFileCount w root extFilter)].
Proof.
  intros Hno r. subst r. rewrite runScan_unfold. cbv zeta.
  cbn [run_done run_store run_trace run_progress].
  set (est := estimateFileCount w root extFilter).
  set (ups := omap (upsertOf w extFilter hash) (WalkDir w (Filepath.Clean root))).
  pose proof (scanAndPersist_end w extFilter hash est db0 root
    (fun cs s => upsertsOf (trace s) ++ omap (upsertOf w extFilter hash) cs = ups)
    (fun _ _ => True) (upserts_step w extFilter hash est db0 ups) eq_refl) as Hend.
  destruct (scanAndPersist w extFilter hash est db0 root) as [s out]. cbn [fst snd] in *.
  destruct Hend as
    [ s op' e' tr Htr [k ->] Hops Hc [j Hf] | s2 e' Hinv _ Htx | s2 e' view Hinv _ Htx
    | s2 e' Hinv _ Htx | s2 e' Hinv HI H0 | s2 s idx Hinv HI H0 Hidx Htr Hc Hnoidx ];
    try (destruct (fi_fault _ _ _ _ Hinv) as [j Hf]);
    try (rewrite Hno in *; discriminate).
  cbn [omap] in HI. rewrite app_nil_r in HI.
  rewrite (Hnoidx Hno) in Htr. cbn [app] in Htr. rewrite Htr.
  change (trace s2 ++ [EvCommit; EvProgress (mkProgress (nfiles s2) (ndirs s2) [] est)])
    with (trace s2 ++ [EvCommit] ++ [EvProgress (mkProgress (nfiles s2) (ndirs s2) [] est)]).
  rewrite !app_assoc. rewrite !upsertsOf_other by reflexivity.
  rewrite progressOf_progress, Hc, <- applyAll_upsertsOf, HI.
  repeat split. exists (progressOf (trace s2 ++ [EvCommit])).
  rewrite (wi_files _ _ Hinv), (wi_dirs _ _ Hinv).
  rewrite <- countFiles_upsertsOf, <- countFolders_upsertsOf, HI. reflexivity.
Qed.

(** ** The parent of a folder *)

Lemma parentOf_Dir p :
  (if decide (Filepath.Dir p = p) then [] else Filepath.Dir p) = parentOf p.
Proof.
  unfold parentOf. pose proof (FilepathFacts.Dir_fixpoint p) as H.
  destruct (decide (Filepath.Dir p = p)) as [E|E];
    destruct (decide (p = str "/" \/ p = str ".")) as [E'|E']; tauto.
Qed.

Lemma parentOf_empty p : parentOf p = [] <-> p = str "/" \/ p = str ".".
Proof.
  unfold parentOf. destruct (decide (p = str "/" \/ p = str ".")) as [E|E]; [tauto|].
  split; [|tauto]. intros H. exfalso. unfold Filepath.Dir in H.
  apply (FilepathFacts.Clean_nonempty _ H).
Qed.

Lemma upsertOf_folderParentOK {tables : Unicode.CaseTables} w extFilter hash c ev :
  upsertOf w extFilter hash c = Some ev -> folderParentOK ev.
Proof.
  destruct c as [p|p [isdir [info|]]]; simpl; try discriminate.
  destruct isdir.
  - intros [= <-]. simpl. apply parentOf_Dir.
  - destruct (decide _); [discriminate|]. intros [= <-]. exact I.
Qed.

Lemma folderParent_step {tables : Unicode.CaseTables} w extFilter hash est db0 c (cs : list WalkCall) s s' (r : Res unit) :
  WalkInv db0 s ->
  Forall folderParentOK (trace s) ->
  ScanStep w extFilter hash est c s s' r ->
  match r with
  | Ok _ => Forall folderParentOK (trace s')
  | Fail _ => Forall folderParentOK (trace s')
  end.
Proof.
  intros _ HI Hstep.
  destruct Hstep as
    [ Hup | ev view e Hup Hv H0 | ev view Hup Hv H0 Hlt | ev view e Hup Hv H0 Hfull H1
    | ev view e Hup Hv H0 Hfull H1 H2 | ev view e Hup Hv H0 Hfull H1 H2 H3
    | ev view e Hup Hv H0 Hfull H1 H2 H3 H4 | ev view Hup Hv H0 Hfull H1 H2 H3 H4 ];
    try exact HI;
    pose proof (upsertOf_folderParentOK _ _ _ _ _ Hup) as Hev;
    cbn [trace]; apply Forall_app; (split; [exact HI|]);
    repeat (constructor; try exact Hev; try exact I).
Qed.

Lemma foldersOK_applyEvent s ev : foldersOK s -> folderParentOK ev -> foldersOK (applyEvent s ev).
Proof.
  intros Hs Hev. destruct ev as [ |p parent mtime| | | | | | | ]; try exact Hs.
  intros q row. simpl. unfold upsertFolder. cbn [folders].
  destruct (decide (p = q)) as [->|Hne].
  - rewrite lookup_insert_eq. intros [= <-].
    destruct (folders s !! q) as [old|] eqn:Hold; cbn [parent_path].
    + apply (Hs _ _ Hold).
    + exact Hev.
  - rewrite lookup_insert_ne by exact Hne. apply Hs.
Qed.

Lemma foldersOK_applyAll tr : forall s,
  foldersOK s -> Forall folderParentOK tr -> foldersOK (applyAll s tr).
Proof.
  induction tr as [|ev tr IH]; intros s Hs Htr; [exact Hs|].
  inversion Htr; subst. apply (IH (applyEvent s ev)); [|assumption].
  apply foldersOK_applyEvent; assumption.
Qed.

Lemma committedPrefix_sublist tr : forall ev, In ev (committedPrefix tr) -> In ev tr.
Proof.
  induction tr as [|x tr IH]; intros ev; cbn [committedPrefix]; [auto|].
  destruct (committedPrefix tr) as [|y pre].
  - destruct (isCommit x); [intros [->|[]]; left; reflexivity|intros []].
  - intros [->|H]; [left; reflexivity|right; apply IH; exact H].
Qed.

Lemma run_trace_folderParentOK {tables : Unicode.CaseTables} w db0 root extFilter hash :
  Forall folderParentOK (run_trace (runScan w db0 root extFilter hash)).
Proof.
  rewrite runScan_unfold. cbv zeta. cbn [run_trace].
  set (est := estimateFileCount w root extFilter).
  pose proof (scanAndPersist_end w extFilter hash est db0 root
    (fun _ s => Forall folderParentOK (trace s))
    (fun _ s => Forall folderParentOK (trace s))
    (folderParent_step w extFilter hash est db0)) as Hend.
  specialize (Hend ltac:(repeat constructor)).
  destruct (scanAndPersist w extFilter hash est db0 root) as [s out]. cbn [fst snd] in *.
  destruct Hend as
    [ s op' e' tr Htr [k ->] Hops Hc Hf | s2 e' Hinv HJ Htx | s2 e' view Hinv HJ Htx
    | s2 e' Hinv HJ Htx | s2 e' Hinv HI H0 | s2 s idx Hinv HI H0 Hidx Htr Hc Hno ];
    try exact HJ.
  - rewrite Htr. destruct k as [|[|[|k]]]; repeat constructor.
  - cbn [trace]. apply Forall_app. split; [exact HJ|repeat constructor].
  - cbn [trace]. apply Forall_app. split; [exact HI|repeat constructor].
  - rewrite Htr. apply Forall_app. split; [exact HI|].
    constructor; [exact I|]. apply Forall_app. split; [|repeat constructor].
    eapply Forall_impl; [exact Hidx|]. intros ev Hev. destruct ev; try discriminate. exact I.
Qed.

(** C3 (amended).  For every folder upsert of a run the recorded parent is the
    lexical parent directory of the path, [filepath.Dir], except for the two
    paths that are their own directory, the root [/] and the current
    directory [.], whose parent is recorded as the empty string; so the
    parent is empty exactly for these two.  The folder records of the store
    keep that form; and in a run without storage failure the crawl root
    itself is upserted with the parent so defined of its cleaned path: empty
    only when that is [/] or [.]. *)
Theorem C3_folder_parent {tables : Unicode.CaseTables} (w : World) (db0 : Store) (root : gostring)
    (extFilter : gset gostring) (hash : bool) :
  let r := runScan w db0 root extFilter hash in
  (forall p parent mtime,
      In (EvFolderUpsert p parent mtime) (run_trace r) ->
      parent = (if decide (p = str "/" \/ p = str ".") then [] else Filepath.Dir p)
      /\ (parent = [] <-> p = str "/" \/ p = str "."))
  /\ (foldersOK db0 -> foldersOK (run_store r))
  /\ (forall info readErr entries,
         (forall k, sql_fault w k = None) ->
         os_Lstat w (Filepath.Clean root) = Some (info, TDir readErr entries) ->
         In (EvFolderUpsert (Filepath.Clean root) (parentOf (Filepath.Clean root))
               (ModTime info))
            (run_trace r)).
Proof.
  intros r. pose proof (run_trace_folderParentOK w db0 root extFilter hash) as Hok.
  fold r in Hok. split; [|split].
  - intros p parent mtime Hin. rewrite Forall_forall in Hok.
    apply list_elem_of_In in Hin. specialize (Hok _ Hin). simpl in Hok. subst parent.
    split; [reflexivity|apply parentOf_empty].
  - intros H0. subst r. rewrite run_store_committed. apply foldersOK_applyAll; [exact H0|].
    rewrite Forall_forall in Hok |- *. intros ev Hev. apply Hok.
    apply list_elem_of_In. apply committedPrefix_sublist. apply list_elem_of_In. exact Hev.
  - intros info readErr entries Hno Hl.
    destruct (run_upserts w db0 root extFilter hash Hno) as (Hups & _). fold r in Hups.
    assert (Hin : In (EvFolderUpsert (Filepath.Clean root) (parentOf (Filepath.Clean root))
                        (ModTime info)) (upsertsOf (run_trace r))).
    { rewrite Hups. unfold WalkDir. rewrite Hl. cbn [walkDir].
      erewrite omap_cons_Some; [left; reflexivity|].
      cbn. rewrite parentOf_Dir. reflexivity. }
    unfold upsertsOf in Hin. apply List.filter_In in Hin. apply Hin.
Qed.

(** ** The batching rule on whole runs *)

(** Without storage failure the trace of a run is made of its upserts by the
    batching rule. *)
Lemma run_batched {tables : Unicode.CaseTables} (w : World) (db0 : Store) (root : gostring)
    (extFilter : gset gostring) (hash : bool) :
  (forall k, sql_fault w k = None) ->
  Z.of_nat (length (WalkDir w (Filepath.Clean root))) < 2 ^ 63 ->
  let r := runScan w db0 root extFilter hash in
  let est := estimateFileCount w root extFilter in
  let ups := upsertsOf (run_trace r) in
  run_trace r
  = setupEvents ++ batched est 0 0 0 ups
    ++ [EvCommit;
        EvProgress (mkProgress (Z.of_nat (countFiles ups)) (Z.of_nat (countFolders ups)) [] est)]
  /\ run_store r = applyAll db0 ups
  /\ run_done r = Some (mkDone None).
Proof.
  intros Hno Hlen r. subst r. rewrite runScan_unfold. cbv zeta.
  cbn [run_done run_store run_trace run_progress].
  set (est := estimateFileCount w root extFilter).
  pose proof (scanAndPersist_end w extFilter hash est db0 root
    (fun cs s => trace s = setupEvents ++ batched est 0 0 0 (upsertsOf (trace s))
                 /\ Z.of_nat (countUpserts (trace s) + length cs) < 2 ^ 63)
    (fun _ _ => False)) as Hend.
  assert (Hstep : forall c (cs : list WalkCall) s s' (r : Res unit),
    WalkInv db0 s ->
    trace s = setupEvents ++ batched est 0 0 0 (upsertsOf (trace s))
    /\ Z.of_nat (countUpserts (trace s) + length (c :: cs)) < 2 ^ 63 ->
    ScanStep w extFilter hash est c s s' r ->
    match r with
    | Ok _ => trace s' = setupEvents ++ batched est 0 0 0 (upsertsOf (trace s'))
              /\ Z.of_nat (countUpserts (trace s') + length cs) < 2 ^ 63
    | Fail _ => False
    end).
  { intros c cs s s' r. apply batching_step. exact Hno. }
  specialize (Hend Hstep (conj eq_refl Hlen)). clear Hstep.
  destruct (scanAndPersist w extFilter hash est db0 root) as [s out]. cbn [fst snd] in *.
  destruct Hend as
    [ s op' e' tr Htr [k ->] Hops Hc [j Hf] | s2 e' Hinv [] Htx | s2 e' view Hinv [] Htx
    | s2 e' Hinv [] Htx | s2 e' Hinv HI H0 | s2 s idx Hinv [HI Hb] H0 Hidx Htr Hc Hnoidx ].
  - rewrite Hno in Hf. discriminate.
  - rewrite Hno in H0. discriminate.
  - rewrite (Hnoidx Hno) in Htr. cbn [app] in Htr. rewrite Htr.
    change (trace s2 ++ [EvCommit; EvProgress (mkProgress (nfiles s2) (ndirs s2) [] est)])
      with (trace s2 ++ [EvCommit] ++ [EvProgress (mkProgress (nfiles s2) (ndirs s2) [] est)]).
    rewrite !app_assoc. rewrite !upsertsOf_other by reflexivity.
    rewrite countFiles_upsertsOf, countFolders_upsertsOf, applyAll_upsertsOf.
    pose proof (countFiles_le (trace s2)). pose proof (countFolders_le (trace s2)).
    rewrite (wi_files _ _ Hinv), (wi_dirs _ _ Hinv), !iter_incr64_small by lia.
    repeat split; [|exact Hc].
    rewrite HI at 1. rewrite <- !app_assoc. reflexivity.
Qed.

(** C4.  In a run without storage failure the engine does exactly what the
    batching rule says: counting folder and file upserts together, after
    every 1000th upsert the transaction commits, then a progress signal with
    the cumulative file and folder counts, the path just processed and the
    estimator's total is emitted, and a new transaction with its two prepared
    statements opens before the next upsert; nothing else happens between
    upserts.  After the walk the last transaction commits and the final
    signal is emitted, and the store holds every upsert. *)
Theorem C4_batching_rule {tables : Unicode.CaseTables} (w : World) (db0 : Store) (root : gostring)
    (extFilter : gset gostring) (hash : bool) :
  (forall k, sql_fault w k = None) ->
  Z.of_nat (length (WalkDir w (Filepath.Clean root))) < 2 ^ 63 ->
  let r := runScan w db0 root extFilter hash in
  let est := estimateFileCount w root extFilter in
  let ups := upsertsOf (run_trace r) in
  run_trace r
  = setupEvents ++ batched est 0 0 0 ups
    ++ [EvCommit;
        EvProgress (mkProgress (Z.of_nat (countFiles ups)) (Z.of_nat (countFolders ups)) [] est)]
  /\ ups = omap (upsertOf w extFilter hash) (WalkDir w (Filepath.Clean root))
  /\ run_store r = applyAll db0 ups
  /\ run_done r = Some (mkDone None).
Proof.
  intros Hno Hlen r est ups.
  destruct (run_batched w db0 root extFilter hash Hno Hlen) as (Htr & Hst & Hd).
  destruct (run_upserts w db0 root extFilter hash Hno) as (Hups & _).
  repeat split; assumption.
Qed.

(** ** The cataloged extensions *)

Lemma elem_of_catalogedExts s x :
  x ∈ catalogedExts s <-> exists p row, files s !! p = Some row /\ ext row = x.
Proof.
  unfold catalogedExts. rewrite elem_of_list_to_set, list_elem_of_In, in_map_iff. split.
  - intros ([p row] & Hx & Hin). exists p, row. split; [|exact Hx].
    apply elem_of_map_to_list. apply list_elem_of_In. exact Hin.
  - intros (p & row & Hl & Hx). exists (p, row). split; [exact Hx|].
    apply list_elem_of_In. apply elem_of_map_to_list. exact Hl.
Qed.

Lemma extsOK_applyEvent {tables : Unicode.CaseTables} s ev : extsOK s -> fileUpsertOK ev -> extsOK (applyEvent s ev).
Proof.
  intros Hs Hev. destruct ev as [ | |p new| | | | | | ]; try exact Hs.
  intros q row. cbn [applyEvent]. destruct (decide (p = q)) as [->|Hne].
  - rewrite upsertFile_lookup. intros [= <-].
    destruct (files s !! q) as [old|] eqn:Hold; cbn [ext].
    + apply (Hs _ _ Hold).
    + exact Hev.
  - rewrite upsertFile_lookup_ne by exact Hne. apply Hs.
Qed.

Lemma catalogedExts_applyEvent {tables : Unicode.CaseTables} s ev x :
  extsOK s -> fileUpsertOK ev ->
  (x ∈ catalogedExts (applyEvent s ev)
   <-> x ∈ catalogedExts s
       \/ exists p row, ev = EvFileUpsert p row /\ x = Strings.ToLower (Filepath.Ext p)).
Proof.
  intros Hs Hev. pose proof (extsOK_applyEvent s ev Hs Hev) as Hs'.
  rewrite !elem_of_catalogedExts.
  destruct ev as [ | |p new| | | | | | ];
    try (split; [intros H; left; exact H|intros [H|(? & ? & [=] & _)]; exact H]).
  cbn [applyEvent fileUpsertOK] in *. split.
  - intros (q & row & Hl & Hx). destruct (decide (p = q)) as [->|Hne].
    + right. exists q, new. split; [reflexivity|]. rewrite <- Hx. apply (Hs' _ _ Hl).
    + left. exists q, row. rewrite upsertFile_lookup_ne in Hl by exact Hne. auto.
  - intros [(q & row & Hl & Hx)|(p' & row & [= <- <-] & Hx)].
    + destruct (decide (p = q)) as [->|Hne].
      * eexists q, _. split; [apply upsertFile_lookup|].
        rewrite Hl. cbn [ext]. exact Hx.
      * exists q, row. rewrite upsertFile_lookup_ne by exact Hne. auto.
    + eexists p, _. split; [apply upsertFile_lookup|]. rewrite Hx.
      apply (Hs' p). apply upsertFile_lookup.
Qed.

Lemma catalogedExts_applyAll {tables : Unicode.CaseTables} tr x : forall s,
  extsOK s -> Forall fileUpsertOK tr ->
  (x ∈ catalogedExts (applyAll s tr)
   <-> x ∈ catalogedExts s
       \/ exists p row, In (EvFileUpsert p row) tr /\ x = Strings.ToLower (Filepath.Ext p)).
Proof.
  induction tr as [|ev tr IH]; intros s Hs Htr.
  - simpl. split; [auto|]. intros [H|(? & ? & [] & _)]. exact H.
  - inversion Htr as [|? ? Hev Htr']; subst.
    change (applyAll s (ev :: tr)) with (applyAll (applyEvent s ev) tr).
    rewrite IH by (try apply extsOK_applyEvent; assumption).
    rewrite catalogedExts_applyEvent by assumption. split.
    + intros [[H|(p & row & -> & Hx)]|(p & row & Hin & Hx)].
      * left. exact H.
      * right. exists p, row. split; [left; reflexivity|exact Hx].
      * right. exists p, row. split; [right; exact Hin|exact Hx].
    + intros [H|(p & row & [->|Hin] & Hx)].
      * left. left. exact H.
      * left. right. exists p, row. auto.
      * right. exists p, row. auto.
Qed.

Lemma catalogedExts_empty x : x ∉ catalogedExts emptyStore.
Proof.
  rewrite elem_of_catalogedExts. intros (p & row & H & _).
  cbn in H. rewrite lookup_empty in H. discriminate.
Qed.

Lemma passes_filter (extFilter : gset gostring) e :
  passes extFilter e = negb (bool_decide (extFilter ≠ ∅ ∧ e ∉ extFilter)).
Proof.
  unfold passes.
  destruct (decide (extFilter = ∅)) as [E|E]; destruct (decide (e ∈ extFilter)) as [E'|E'].
  all: repeat first [ rewrite bool_decide_eq_true_2 by tauto
                    | rewrite bool_decide_eq_false_2 by tauto ]; reflexivity.
Qed.

(** The upsert of a call, by what the walks look at. *)
Lemma upsertOf_key {tables : Unicode.CaseTables} w extFilter hash c :
  match upsertOf w extFilter hash c with
  | Some (EvFileUpsert p row) =>
      engCounts extFilter (callKey c) = true
      /\ callKey c = KFile true (Strings.ToLower (Filepath.Ext p))
      /\ ext row = Strings.ToLower (Filepath.Ext p)
  | Some ev => engCounts extFilter (callKey c) = false /\ isFileUpsert ev = false
  | None => engCounts extFilter (callKey c) = false
  end.
Proof.
  destruct c as [p|p [isdir [info|]]]; cbn [upsertOf callKey Info IsDir]; try reflexivity.
  - destruct isdir; [split; reflexivity|].
    cbn [engCounts]. rewrite passes_filter.
    destruct (decide (extFilter ≠ ∅ ∧ Strings.ToLower (Filepath.Ext p) ∉ extFilter)) as [E|E].
    + rewrite bool_decide_eq_true_2 by exact E. reflexivity.
    + rewrite bool_decide_eq_false_2 by exact E. repeat split.
  - destruct isdir; reflexivity.
Qed.

Lemma elem_of_readableExts {tables : Unicode.CaseTables} w root x :
  x ∈ readableExts w root
  <-> exists c, In c (WalkDir w (Filepath.Clean root)) /\ callKey c = KFile true x.
Proof.
  unfold readableExts. rewrite elem_of_list_to_set, list_elem_of_omap. split.
  - intros (c & Hin & Hc). exists c. split; [apply list_elem_of_In; exact Hin|].
    destruct (callKey c) as [|?|[] e]; try discriminate. congruence.
  - intros (c & Hin & Hc). exists c. split; [apply list_elem_of_In; exact Hin|].
    rewrite Hc. reflexivity.
Qed.

Lemma In_omap {A B} (f : A -> option B) l y :
  In y (omap f l) <-> exists x, In x l /\ f x = Some y.
Proof.
  rewrite <- list_elem_of_In, list_elem_of_omap.
  split; intros (x & H1 & H2); exists x; split; auto; apply list_elem_of_In; auto.
Qed.

Section Concrete1.

#[local] Existing Instance Unicode.latin1Tables.

(** C5, as stated, fails: with the filter [{.pdf, .zip}] and a tree that
  holds one PDF file, the only cataloged extension is [.pdf]; [.zip] is in
  the filter and is not cataloged. *)
Lemma C5_counterexample :
let F : gset gostring := {[ str ".pdf"; str ".zip" ]} in
let r := runScan world_one_pdf emptyStore (str "/docs") F false in
run_done r = Some (mkDone None)
/\ elements (catalogedExts (run_store r)) = [str ".pdf"]
/\ size F = 2%nat
/\ catalogedExts (run_store r) <> F.
Proof.
intros F r. split; [vm_compute; reflexivity|]. split; [vm_compute; reflexivity|].
split; [vm_compute; reflexivity|].
intros H. apply (f_equal size) in H. vm_compute in H. discriminate H.
Qed.

End Concrete1.

Lemma upsertOf_file_iff {tables : Unicode.CaseTables} w extFilter hash c x :
  (exists p row, upsertOf w extFilter hash c = Some (EvFileUpsert p row)
                 /\ x = Strings.ToLower (Filepath.Ext p))
  <-> callKey c = KFile true x /\ passes extFilter x = true.
Proof.
  split.
  - intros (p & row & Hup & ->). pose proof (upsertOf_key w extFilter hash c) as H.
    rewrite Hup in H. destruct H as (He & Hk & _). rewrite Hk in He. auto.
  - intros [Hk Hp].
    destruct c as [p|p [isdir [info|]]]; cbn [callKey Info IsDir] in Hk; try discriminate;
      destruct isdir; try discriminate.
    injection Hk as <-. cbn [upsertOf Info IsDir].
    rewrite passes_filter in Hp. apply negb_true_iff, bool_decide_eq_false in Hp.
    rewrite decide_False by exact Hp. eauto.
Qed.

Lemma upsertOf_fileUpsertOK {tables : Unicode.CaseTables} w extFilter hash cs :
  Forall fileUpsertOK (omap (upsertOf w extFilter hash) cs).
Proof.
  apply Forall_forall. intros ev Hev. apply list_elem_of_omap in Hev as (c & _ & Hup).
  pose proof (upsertOf_key w extFilter hash c) as H. rewrite Hup in H.
  destruct ev; try exact I. apply H.
Qed.

(** C5 (amended).  After a run without storage failure on an empty store, the
    set of cataloged extensions is the set of lower-cased extensions of the
    files that the walk reaches and whose metadata can be read, restricted to
    the filter when the filter is not empty: a subset of the filter, which
    holds an extension of the filter only if a file has it. *)
Theorem C5_filter_correct {tables : Unicode.CaseTables} (w : World) (root : gostring)
    (extFilter : gset gostring) (hash : bool) :
  (forall k, sql_fault w k = None) ->
  let r := runScan w emptyStore root extFilter hash in
  catalogedExts (run_store r)
  = if decide (extFilter = ∅) then readableExts w root
    else extFilter ∩ readableExts w root.
Proof.
  intros Hno r. subst r.
  destruct (run_upserts w emptyStore root extFilter hash Hno) as (_ & -> & _).
  apply set_eq. intros x.
  rewrite catalogedExts_applyAll;
    [|intros p row H; cbn in H; rewrite lookup_empty in H; discriminate
     |apply upsertOf_fileUpsertOK].
  assert (Hl : (exists p row,
                   In (EvFileUpsert p row)
                      (omap (upsertOf w extFilter hash) (WalkDir w (Filepath.Clean root)))
                   /\ x = Strings.ToLower (Filepath.Ext p))
               <-> x ∈ readableExts w root /\ passes extFilter x = true).
  { rewrite elem_of_readableExts. split.
    - intros (p & row & Hin & Hx). apply In_omap in Hin as (c & Hc & Hup).
      assert (Hk : callKey c = KFile true x /\ passes extFilter x = true)
        by (apply (upsertOf_file_iff w extFilter hash); eauto).
      destruct Hk. eauto.
    - intros [(c & Hc & Hk) Hp].
      destruct (proj2 (upsertOf_file_iff w extFilter hash c x) (conj Hk Hp))
        as (p & row & Hup & Hx).
      exists p, row. split; [|exact Hx]. apply In_omap. eauto. }
  rewrite Hl. unfold passes. rewrite bool_decide_eq_true.
  pose proof (catalogedExts_empty x) as Hemp.
  destruct (decide (extFilter = ∅)) as [E|E].
  - tauto.
  - rewrite elem_of_intersection. tauto.
Qed.

Section Concrete2.

#[local] Existing Instance Unicode.latin1Tables.

Lemma C5_filter_correct_witness :
let F : gset gostring := {[ str ".pdf"; str ".zip" ]} in
catalogedExts (run_store (runScan world_one_pdf emptyStore (str "/docs") F false))
= if decide (F = ∅) then readableExts world_one_pdf (str "/docs")
  else F ∩ readableExts world_one_pdf (str "/docs").
Proof.
intros F. apply (C5_filter_correct world_one_pdf (str "/docs") F false).
intros k. reflexivity.
Defined.

End Concrete2.

(** ** The extension of a joined path *)

Module JoinFacts.
Import Strings Filepath StringsFacts FilepathFacts.

Lemma Split_app a b : Split (a ++ Separator :: b) Separator = Split a Separator ++ Split b Separator.
Proof.
  induction a as [|c a IH]; cbn [app Split].
  - rewrite decide_True by reflexivity. reflexivity.
  - rewrite IH. destruct (decide (c = Separator)); [reflexivity|].
    pose proof (Split_nonempty a Separator). destruct (Split a Separator); [contradiction|reflexivity].
Qed.

Lemma Split_nosep n : Separator ∉ n -> Split n Separator = [n].
Proof.
  induction n as [|c n IH]; intros H; [reflexivity|]. cbn [Split].
  rewrite not_elem_of_cons in H. destruct H as [Hc Hn].
  rewrite decide_False by congruence. rewrite IH by exact Hn. reflexivity.
Qed.

Lemma Join_snoc l n s : l <> [] -> Strings.Join (l ++ [n]) s = Strings.Join l s ++ s ++ n.
Proof.
  induction l as [|e l IH]; [contradiction|]. intros _.
  destruct l as [|e' l]; [reflexivity|].
  change ((e :: e' :: l) ++ [n]) with (e :: ((e' :: l) ++ [n])).
  rewrite Join_cons by (cbn; discriminate). rewrite IH by discriminate.
  rewrite (Join_cons e (e' :: l)) by discriminate. rewrite <- !app_assoc. reflexivity.
Qed.

Lemma clean_step_real rooted out dd n :
  validName n -> clean_step rooted (out, dd) n = (n :: out, dd).
Proof.
  intros (H1 & _ & H2 & H3). unfold clean_step.
  rewrite !decide_False by assumption. reflexivity.
Qed.

(** Cleaning a path whose last element is a proper name keeps that name
    at the end, after a separator or alone. *)
Lemma Clean_last_elem x elems n :
  x <> [] -> validName n -> Split x Separator = elems ++ [n] ->
  exists pre, Clean x = pre ++ n /\ (pre = [] \/ last pre = Some Separator).
Proof.
  intros Hx Hn Hs. destruct x as [|c x]; [contradiction|]. unfold Clean. rewrite Hs.
  rewrite foldl_app. cbn [foldl].
  destruct (foldl (clean_step (IsPathSeparator c)) ([], 0%nat) elems) as [out dd].
  rewrite (clean_step_real _ _ _ _ Hn). cbn [rev].
  destruct (IsPathSeparator c).
  - destruct out as [|e out].
    + exists [Separator]. split; [reflexivity|right; reflexivity].
    + assert (Hr : rev (e :: out) <> []).
      { intros E. apply (f_equal (@rev _)) in E. rewrite rev_involutive in E. discriminate. }
      rewrite (Join_snoc _ _ _ Hr).
      exists (Separator :: Strings.Join (rev (e :: out)) [Separator] ++ [Separator]). split.
      * cbn [app]. rewrite <- app_assoc. reflexivity.
      * right. rewrite app_comm_cons. apply last_snoc.
  - destruct out as [|e out].
    + exists []. split; [reflexivity|left; reflexivity].
    + assert (Hr : rev (e :: out) <> []).
      { intros E. apply (f_equal (@rev _)) in E. rewrite rev_involutive in E. discriminate. }
      rewrite (Join_snoc _ _ _ Hr).
      exists (Strings.Join (rev (e :: out)) [Separator] ++ [Separator]). split.
      * rewrite <- app_assoc. reflexivity.
      * right. apply last_snoc.
Qed.

Lemma Join_last_elem a n :
  validName n ->
  exists pre, Filepath.Join a n = pre ++ n /\ (pre = [] \/ last pre = Some Separator).
Proof.
  intros Hn. pose proof Hn as (Hne & Hsep & _). unfold Filepath.Join.
  destruct a as [|c a].
  - destruct n as [|c n]; [contradiction|].
    apply (Clean_last_elem (c :: n) [] (c :: n)); [discriminate|exact Hn|].
    apply Split_nosep, Hsep.
  - apply (Clean_last_elem _ (Split (c :: a) Separator) n); [discriminate|exact Hn|].
    change ((c :: a) ++ [Separator] ++ n) with ((c :: a) ++ Separator :: n).
    rewrite Split_app, (Split_nosep n Hsep). reflexivity.
Qed.


End JoinFacts.

(** ** The estimator and the engine *)

(** Induction on trees, with the hypothesis for every entry of a directory. *)
Lemma Tree_ind_entries (P : Tree -> Prop) :
  P TFile ->
  (forall readErr entries, Forall (fun e => P (snd e)) entries -> P (TDir readErr entries)) ->
  forall t, P t.
Proof.
  intros Hf Hd. fix IH 1. intros [|readErr entries]; [exact Hf|].
  apply Hd. induction entries as [|[[n i] t] es IHes]; constructor; [apply IH|exact IHes].
Qed.



Lemma iter_incr64_shift (k : nat) z : Nat.iter k incr64 (incr64 z) = incr64 (Nat.iter k incr64 z).
Proof.
  induction k as [|k IH]; [reflexivity|].
  change (Nat.iter (S k) incr64 (incr64 z)) with (incr64 (Nat.iter k incr64 (incr64 z))).
  rewrite IH. reflexivity.
Qed.

Lemma estimate_fn_key {tables : Unicode.CaseTables} extFilter z c :
  estimate_fn extFilter z c = if estCounts extFilter (callKey c) then incr64 z else z.
Proof.
  destruct c as [p|p [isdir info]]; cbn [estimate_fn callKey IsDir]; [reflexivity|].
  destruct isdir; [reflexivity|]. cbn [estCounts]. unfold passes.
  destruct (decide (extFilter = ∅)) as [->|Hne].
  - rewrite size_empty. cbn. rewrite bool_decide_eq_true_2 by (left; reflexivity). reflexivity.
  - assert (Hs : (0 <? size extFilter)%nat = true).
    { apply Nat.ltb_lt. assert (size extFilter ≠ 0%nat); [|lia].
      intros H%size_empty_inv. apply Hne. apply leibniz_equiv. exact H. }
    rewrite Hs.
    destruct (decide (Strings.ToLower (Filepath.Ext p) ∈ extFilter)) as [Hin|Hout].
    + rewrite bool_decide_eq_true_2 by tauto. reflexivity.
    + rewrite bool_decide_eq_false_2 by tauto. reflexivity.
Qed.

(** The estimate: one increment for every file that passes the filter. *)
Lemma estimate_iter {tables : Unicode.CaseTables} extFilter cs : forall z,
  foldl (estimate_fn extFilter) z cs
  = Nat.iter (length (List.filter (estCounts extFilter) (map callKey cs))) incr64 z.
Proof.
  induction cs as [|c cs IH]; intros z; [reflexivity|].
  cbn [foldl map List.filter]. rewrite IH, estimate_fn_key.
  destruct (estCounts extFilter (callKey c)); [|reflexivity].
  cbn [length]. apply iter_incr64_shift.
Qed.




Section Concrete3.

#[local] Existing Instance Unicode.latin1Tables.



End Concrete3.

(** ** The properties on concrete runs *)

Section ConcreteRuns.

(** The examples are stated for a part of the tables; their inputs are
  ASCII, for which the tables are not looked at. *)
#[local] Existing Instance Unicode.latin1Tables.

Lemma C1_sticky_hash_witness :
let old := mkFileRow (str "/d") (str "a.txt") (str ".txt") 5 (str "2023-05-01T10:00:00Z")
             (str "text/plain") (Some (str "00ff")) in
let new := mkFileRow (str "/d") (str "a.txt") (str ".txt") 9 (str "2024-01-01T00:00:00Z")
             (str "application/octet-stream") None in
let s := mkStore ∅ {[ str "/d/a.txt" := old ]} in
exists row,
  files (upsertFile (str "/d/a.txt") new s) !! str "/d/a.txt" = Some row
  /\ size_bytes row = 9
  /\ mtime_utc row = str "2024-01-01T00:00:00Z"
  /\ mime row = str "application/octet-stream"
  /\ sha256 row = Some (str "00ff").
Proof.
intros old new s.
apply (proj1 (C1_sticky_hash (str "/d/a.txt") new old s (lookup_singleton_eq _ _))).
Defined.

(** C3, as stated, fails: the crawl root [/a] is not the root of the file
  system, and its parent is recorded as [/], not as the empty string. *)
Lemma C3_counterexample :
let r := runScan world_dir_a emptyStore (str "/a") ∅ false in
run_done r = Some (mkDone None)
/\ upsertsOf (run_trace r) = [EvFolderUpsert (str "/a") (str "/") (ModTime info1)]
/\ folders (run_store r) !! str "/a" = Some (mkFolderRow (str "/") (ModTime info1))
/\ str "/" <> [].
Proof. vm_compute. repeat split. discriminate. Qed.

Lemma C3_folder_parent_witness :
let r := runScan world_dir_a emptyStore (str "/a") ∅ false in
str "/" = (if decide (str "/a" = str "/" \/ str "/a" = str ".") then []
           else Filepath.Dir (str "/a"))
/\ (str "/" = [] <-> str "/a" = str "/" \/ str "/a" = str ".").
Proof.
intros r.
apply (proj1 (C3_folder_parent world_dir_a emptyStore (str "/a") ∅ false)
         (str "/a") (str "/") (ModTime info1)).
apply (nth_error_In _ 3). vm_compute. reflexivity.
Defined.

(** A run over 1000 files: the 1000th upsert, of [f998], ends the first
  batch. *)
Lemma C4_batching_rule_witness :
let w := world_flat 1000 (fun _ => None) in
let r := runScan w emptyStore (str "/data/") ∅ false in
let est := estimateFileCount w (str "/data/") ∅ in
let ups := upsertsOf (run_trace r) in
run_trace r
= setupEvents ++ batched est 0 0 0 ups
  ++ [EvCommit;
      EvProgress (mkProgress (Z.of_nat (countFiles ups)) (Z.of_nat (countFolders ups)) [] est)]
/\ ups = omap (upsertOf w ∅ false) (WalkDir w (Filepath.Clean (str "/data/")))
/\ run_store r = applyAll emptyStore ups
/\ run_done r = Some (mkDone None).
Proof.
intros w.
apply (C4_batching_rule w emptyStore (str "/data/") ∅ false).
- intros k. reflexivity.
- vm_compute. reflexivity.
Defined.

Example batching_1000_files :
let r := runScan (world_flat 1000 (fun _ => None)) emptyStore (str "/data/") ∅ false in
run_progress r = [mkProgress 999 1 (str "/data/f998") 1000; mkProgress 1000 1 [] 1000]
/\ nth_error (run_trace r) 1002 = nth_error (upsertsOf (run_trace r)) 999
/\ firstn 5 (skipn 1003 (run_trace r))
   = [EvCommit; EvProgress (mkProgress 999 1 (str "/data/f998") 1000);
      EvBegin; EvPrepareFolder; EvPrepareFile]
/\ size (files (run_store r)) = 1000%nat.
Proof. vm_compute. repeat split. Qed.


(** The empty root: [os.Lstat("")] fails, so the estimator counts nothing,
  while the engine cleans the root to [.] and walks the current directory.
  The two forms of the root do not name the same tree. *)
Example empty_root_disagrees :
let r := runScan world_cwd emptyStore [] ∅ false in
estimateFileCount world_cwd [] ∅ = 0
/\ run_progress r = [mkProgress 1 1 [] 0]
/\ ~ sameTree world_cwd [].
Proof.
split; [reflexivity|]. split; [vm_compute; reflexivity|].
intros [H _]. vm_compute in H. discriminate.
Qed.

Lemma C7_write_failure_atomic_witness :
let w := world_flat 1000 (faultAt 1007 (str "database is locked")) in
let r := runScan w emptyStore (str "/data/") ∅ false in
run_store r
= applyAll emptyStore (take (1000 * length (run_progress r)) (upsertsOf (run_trace r)))
/\ length (run_progress r) = 1%nat
/\ run_done r = None.
Proof.
intros w r.
pose proof (C7_write_failure_atomic w emptyStore (str "/data/") ∅ false OpBegin
              (str "database is locked")) as H.
cbv zeta in H. fold r in H.
destruct H as (Hstore & _ & _ & _ & Hdone & _).
- apply (nth_error_In _ 1005). vm_compute. reflexivity.
- set_solver.
- exists (drop 3 (run_trace r)). vm_compute. reflexivity.
- split; [exact Hstore|]. split; [vm_compute; reflexivity|]. apply Hdone. reflexivity.
Defined.

(** A failing [tx.Prepare] after the first batch was committed: the new
  transaction is rolled back and the error is the terminal signal. *)
Example prepare_failure_rolls_back :
let r := runScan (world_flat 1000 (faultAt 1008 (str "out of memory")))
                 emptyStore (str "/data/") ∅ false in
run_done r = Some (mkDone (Some (str "out of memory")))
/\ last (run_trace r) = Some EvRollback
/\ size (files (run_store r)) = 999%nat.
Proof. vm_compute. repeat split. Qed.

(** A failing [tx.Commit] of the first batch: the batch is not in the
  store. *)
Example commit_failure_loses_batch :
let r := runScan (world_flat 1000 (faultAt 1006 (str "disk full")))
                 emptyStore (str "/data/") ∅ false in
run_done r = Some (mkDone (Some (str "disk full")))
/\ run_progress r = []
/\ size (files (run_store r)) = 0%nat.
Proof. vm_compute. repeat split. Qed.

(** The upsert of [f999] fails after the first batch was committed: the 999
  files and the folder of that batch stay in the store. *)
Example write_failure_after_batch :
let r := runScan (world_flat 1000 (faultAt 1010 (str "disk full")))
                 emptyStore (str "/data/") ∅ false in
run_done r = Some (mkDone (Some (str "disk full")))
/\ size (files (run_store r)) = 999%nat
/\ size (folders (run_store r)) = 1%nat
/\ files (run_store r) !! str "/data/f999" = None.
Proof. vm_compute. repeat split. Qed.

(** When [db.Begin] fails after a batch was committed, [tx] is nil and the
  rollback dereferences it: no terminal signal is produced.  The committed
  batch is in the store. *)
Example begin_failure_panics :
let r := runScan (world_flat 1000 (faultAt 1007 (str "database is locked")))
                 emptyStore (str "/data/") ∅ false in
run_done r = None
/\ last (run_trace r) = Some (EvFail OpBegin (str "database is locked"))
/\ size (files (run_store r)) = 999%nat.
Proof. vm_compute. repeat split. Qed.

Lemma C8_parseExtSet_normalizes_witness :
parseExtSet_spec (str " PDF ,txt") (str ".pdf")
/\ head (str ".pdf") = Some "."%char
/\ Forall (fun c => Strings.isUpper c = false) (str ".pdf").
Proof.
pose proof (proj2 C8_parseExtSet_normalizes (str " PDF ,txt") (str ".pdf"))
  as (Hspec & Hdot & Hup).
assert (Hin : str ".pdf" ∈ parseExtSet (str " PDF ,txt")) by (vm_compute; reflexivity).
split; [apply Hspec, Hin|]. split; [apply Hdot, Hin|apply Hup; [exact Hin|reflexivity]].
Defined.

Lemma C10_progress_only_at_batches_witness :
let r := runScan (world_flat 1000 (fun _ => None)) emptyStore (str "/data/") ∅ false in
exists k : nat, (0 < k)%nat /\ countUpserts (firstn 1004 (run_trace r)) = (1000 * k)%nat.
Proof.
intros r.
apply (proj1 (C10_progress_only_at_batches (world_flat 1000 (fun _ => None)) emptyStore
                (str "/data/") ∅ false)
         (firstn 1004 (run_trace r)) (mkProgress 999 1 (str "/data/f998") 1000)
         (skipn 1005 (run_trace r))).
- vm_compute. reflexivity.
- discriminate.
Defined.

(** A run with fewer than 1000 upserts sends the final signal only. *)
Example small_run_progress :
run_progress (runScan world_one_pdf emptyStore (str "/docs") ∅ true)
= [mkProgress 1 1 [] 1].
Proof. vm_compute. reflexivity. Qed.

End ConcreteRuns.

(** ** The store across runs *)

(** ** A table seen from one key *)

Section UpsertRow.

Context {A : Type} (merge : A -> A -> A).
Hypothesis merge_assoc : forall a b c, merge (merge a b) c = merge a (merge b c).
Hypothesis merge_idem : forall a, merge a a = a.

Lemma foldl_merge l : forall a b, foldl merge (merge a b) l = merge a (foldl merge b l).
Proof.
  induction l as [|x l IH]; intros a b; cbn [foldl]; [reflexivity|].
  rewrite merge_assoc. apply IH.
Qed.

Lemma foldl_upsertRow_Some l : forall a,
  foldl (upsertRow merge) (Some a) l = Some (foldl merge a l).
Proof.
  induction l as [|x l IH]; intros a; cbn [foldl]; [reflexivity|].
  unfold upsertRow at 2. apply IH.
Qed.

Lemma foldl_upsertRow_cons o r l :
  foldl (upsertRow merge) o (r :: l)
  = Some (foldl merge (match o with Some a => merge a r | None => r end) l).
Proof. cbn [foldl]. unfold upsertRow at 2. apply foldl_upsertRow_Some. Qed.

Lemma foldl_upsertRow_twice o l :
  foldl (upsertRow merge) (foldl (upsertRow merge) o l) l = foldl (upsertRow merge) o l.
Proof.
  destruct l as [|r l]; [reflexivity|].
  rewrite (foldl_upsertRow_cons o), foldl_upsertRow_cons. f_equal.
  destruct o as [a|].
  - rewrite !foldl_merge, merge_assoc, merge_idem. reflexivity.
  - rewrite foldl_merge, merge_idem. reflexivity.
Qed.

End UpsertRow.

Lemma coalesce_assoc a b c : coalesce a (coalesce b c) = coalesce (coalesce a b) c.
Proof. destruct a; reflexivity. Qed.

Lemma mergeFile_assoc a b c : mergeFile (mergeFile a b) c = mergeFile a (mergeFile b c).
Proof. unfold mergeFile. cbn. rewrite coalesce_assoc. reflexivity. Qed.

Lemma mergeFile_idem a : mergeFile a a = a.
Proof. destruct a as [? ? ? ? ? ? [h|]]; reflexivity. Qed.

Lemma mergeFolder_assoc a b c : mergeFolder (mergeFolder a b) c = mergeFolder a (mergeFolder b c).
Proof. reflexivity. Qed.

Lemma mergeFolder_idem a : mergeFolder a a = a.
Proof. destruct a; reflexivity. Qed.

Lemma files_applyEvent s ev p :
  files (applyEvent s ev) !! p
  = match ev with
    | EvFileUpsert q row =>
        if decide (q = p) then upsertRow mergeFile (files s !! p) row else files s !! p
    | _ => files s !! p
    end.
Proof.
  destruct ev as [ | | q row | | | | | | ]; try reflexivity.
  cbn [applyEvent]. destruct (decide (q = p)) as [->|Hne].
  - rewrite upsertFile_lookup. reflexivity.
  - apply upsertFile_lookup_ne. exact Hne.
Qed.

Lemma folders_applyEvent s ev p :
  folders (applyEvent s ev) !! p
  = match ev with
    | EvFolderUpsert q parent mtime =>
        if decide (q = p)
        then upsertRow mergeFolder (folders s !! p) (mkFolderRow parent mtime)
        else folders s !! p
    | _ => folders s !! p
    end.
Proof.
  destruct ev as [ | q parent mtime | | | | | | | ]; try reflexivity.
  cbn [applyEvent]. unfold upsertFolder. cbn [folders].
  destruct (decide (q = p)) as [->|Hne].
  - rewrite lookup_insert_eq. unfold upsertRow. destruct (folders s !! p); reflexivity.
  - apply lookup_insert_ne. exact Hne.
Qed.

Lemma files_applyAll tr p : forall s,
  files (applyAll s tr) !! p = foldl (upsertRow mergeFile) (files s !! p) (fileRowsAt p tr).
Proof.
  induction tr as [|ev tr IH]; intros s; [reflexivity|].
  change (applyAll s (ev :: tr)) with (applyAll (applyEvent s ev) tr).
  rewrite IH, files_applyEvent. unfold fileRowsAt.
  destruct ev as [ | | q row | | | | | | ]; try reflexivity.
  cbn [omap list_omap]. destruct (decide (q = p)); reflexivity.
Qed.

Lemma folders_applyAll tr p : forall s,
  folders (applyAll s tr) !! p
  = foldl (upsertRow mergeFolder) (folders s !! p) (folderRowsAt p tr).
Proof.
  induction tr as [|ev tr IH]; intros s; [reflexivity|].
  change (applyAll s (ev :: tr)) with (applyAll (applyEvent s ev) tr).
  rewrite IH, folders_applyEvent. unfold folderRowsAt.
  destruct ev as [ | q parent mtime | | | | | | | ]; try reflexivity.
  cbn [omap list_omap]. destruct (decide (q = p)); reflexivity.
Qed.

Lemma Store_eq (a b : Store) : folders a = folders b -> files a = files b -> a = b.
Proof. destruct a, b. cbn. intros -> ->. reflexivity. Qed.

Lemma applyAll_app s tr1 tr2 : applyAll s (tr1 ++ tr2) = applyAll (applyAll s tr1) tr2.
Proof. apply foldl_app. Qed.

(** Going twice through the same upserts leaves what the first pass left. *)
Lemma applyAll_twice s tr : applyAll (applyAll s tr) tr = applyAll s tr.
Proof.
  apply Store_eq; apply map_eq; intros p.
  - rewrite (folders_applyAll tr p (applyAll s tr)), folders_applyAll.
    apply foldl_upsertRow_twice; [exact mergeFolder_assoc|exact mergeFolder_idem].
  - rewrite (files_applyAll tr p (applyAll s tr)), files_applyAll.
    apply foldl_upsertRow_twice; [exact mergeFile_assoc|exact mergeFile_idem].
Qed.

Lemma applyAll_resume s pre rest :
  applyAll (applyAll s pre) (pre ++ rest) = applyAll s (pre ++ rest).
Proof. rewrite !applyAll_app, applyAll_twice. reflexivity. Qed.

(** ** The upserts of a run and the walk *)

Lemma committedPrefix_prefix tr : exists rest, tr = committedPrefix tr ++ rest.
Proof.
  induction tr as [|ev tr [rest IH]]; [exists []; reflexivity|].
  cbn [committedPrefix]. destruct (committedPrefix tr) as [|x pre].
  - destruct (isCommit ev); [exists tr|exists (ev :: tr)]; reflexivity.
  - exists rest. cbn [app]. f_equal. exact IH.
Qed.

Lemma upsertsOf_app tr1 tr2 : upsertsOf (tr1 ++ tr2) = upsertsOf tr1 ++ upsertsOf tr2.
Proof. apply List.filter_app. Qed.

Lemma upserts_prefix_step {tables : Unicode.CaseTables} w extFilter hash est db0 (all : list Event) c (cs : list WalkCall)
    s s' (r : Res unit) :
  WalkInv db0 s ->
  upsertsOf (trace s) ++ omap (upsertOf w extFilter hash) (c :: cs) = all ->
  ScanStep w extFilter hash est c s s' r ->
  match r with
  | Ok _ => upsertsOf (trace s') ++ omap (upsertOf w extFilter hash) cs = all
  | Fail _ => exists rest, upsertsOf (trace s') ++ rest = all
  end.
Proof.
  intros _ HI Hstep.
  destruct Hstep as
    [ Hup | ev view e Hup Hv H0 | ev view Hup Hv H0 Hlt | ev view e Hup Hv H0 Hfull H1
    | ev view e Hup Hv H0 Hfull H1 H2 | ev view e Hup Hv H0 Hfull H1 H2 H3
    | ev view e Hup Hv H0 Hfull H1 H2 H3 H4 | ev view Hup Hv H0 Hfull H1 H2 H3 H4 ];
    try (rewrite (omap_cons_None _ _ _ Hup) in HI; exact HI);
    rewrite (omap_cons_Some _ _ _ _ Hup) in HI;
    destruct (upsertOf_Some _ _ _ _ _ Hup) as (Hu & _);
    cbn [trace]; rewrite upsertsOf_app; unfold upsertsOf at 2; cbn [List.filter isUpsert];
    rewrite ?Hu; rewrite ?app_nil_r;
    try (rewrite <- app_assoc; exact HI);
    try (eexists; rewrite <- app_assoc; exact HI).
  eexists. exact HI.
Qed.

(** Whatever happens to a run, the upserts it made are the first ones of
    those the engine makes for the calls of the walk. *)
Lemma run_upserts_prefix {tables : Unicode.CaseTables} w db0 root extFilter hash :
  exists rest,
    upsertsOf (run_trace (runScan w db0 root extFilter hash)) ++ rest
    = omap (upsertOf w extFilter hash) (WalkDir w (Filepath.Clean root)).
Proof.
  rewrite runScan_unfold. cbv zeta. cbn [run_trace].
  set (est := estimateFileCount w root extFilter).
  set (ups := omap (upsertOf w extFilter hash) (WalkDir w (Filepath.Clean root))).
  pose proof (scanAndPersist_end w extFilter hash est db0 root
    (fun cs s => upsertsOf (trace s) ++ omap (upsertOf w extFilter hash) cs = ups)
    (fun _ s => exists rest, upsertsOf (trace s) ++ rest = ups)
    (upserts_prefix_step w extFilter hash est db0 ups) eq_refl) as Hend.
  destruct (scanAndPersist w extFilter hash est db0 root) as [s out]. cbn [fst snd] in *.
  destruct Hend as
    [ s op' e' tr Htr [k ->] Hops Hc Hf | s2 e' Hinv HJ Htx | s2 e' view Hinv HJ Htx
    | s2 e' Hinv HJ Htx | s2 e' Hinv HI H0 | s2 s idx Hinv HI H0 Hidx Htr Hc Hno ];
    try exact HJ.
  - exists ups. rewrite Htr. destruct k as [|[|[|k]]]; reflexivity.
  - cbn [trace]. rewrite upsertsOf_other by reflexivity. exact HJ.
  - cbn [trace]. rewrite upsertsOf_other by reflexivity. eexists. exact HI.
  - exists []. rewrite Htr, !app_assoc, upsertsOf_other by reflexivity.
    rewrite upsertsOf_app, upsertsOf_other by reflexivity.
    cbn [omap] in HI. rewrite app_nil_r in HI. rewrite HI.
    assert (upsertsOf idx = []) as ->; [|rewrite !app_nil_r; reflexivity].
    clear -Hidx. induction Hidx as [|ev idx Hev _ IH]; [reflexivity|].
    unfold upsertsOf in *. cbn [List.filter]. destruct ev; try discriminate. exact IH.
Qed.

Lemma upsertOf_noFaults {tables : Unicode.CaseTables} w extFilter hash c :
  upsertOf (noFaults w) extFilter hash c = upsertOf w extFilter hash c.
Proof. reflexivity. Qed.

Lemma WalkDir_noFaults w root : WalkDir (noFaults w) root = WalkDir w root.
Proof. reflexivity. Qed.

Lemma run_fromWalk_step {tables : Unicode.CaseTables} w extFilter hash est db0 root c (cs : list WalkCall)
    s s' (r : Res unit) :
  WalkInv db0 s ->
  ((forall x, In x (c :: cs) -> In x (WalkDir w (Filepath.Clean root)))
   /\ Forall (fromWalk w root extFilter hash) (trace s)) ->
  ScanStep w extFilter hash est c s s' r ->
  match r with
  | Ok _ => (forall x, In x cs -> In x (WalkDir w (Filepath.Clean root)))
            /\ Forall (fromWalk w root extFilter hash) (trace s')
  | Fail _ => Forall (fromWalk w root extFilter hash) (trace s')
  end.
Proof.
  intros _ [Hin HI] Hstep.
  assert (forall x, In x cs -> In x (WalkDir w (Filepath.Clean root))) as Hin'
    by (intros x Hx; apply Hin; right; exact Hx).
  assert (forall ev, upsertOf w extFilter hash c = Some ev ->
                     fromWalk w root extFilter hash ev) as Hev.
  { intros ev Hup _. exists c. split; [apply Hin; left; reflexivity|exact Hup]. }
  destruct Hstep as
    [ Hup | ev view e Hup Hv H0 | ev view Hup Hv H0 Hlt | ev view e Hup Hv H0 Hfull H1
    | ev view e Hup Hv H0 Hfull H1 H2 | ev view e Hup Hv H0 Hfull H1 H2 H3
    | ev view e Hup Hv H0 Hfull H1 H2 H3 H4 | ev view Hup Hv H0 Hfull H1 H2 H3 H4 ];
    try (split; [exact Hin'|]); try exact HI;
    cbn [trace]; apply Forall_app; (split; [exact HI|]);
    repeat (constructor; try (apply Hev; exact Hup); try (intros Hf; discriminate Hf)).
Qed.

(** Every upsert of a run, failed or not, is the one the engine makes for
    some call of the walk. *)
Lemma run_trace_fromWalk {tables : Unicode.CaseTables} w db0 root extFilter hash :
  Forall (fromWalk w root extFilter hash) (run_trace (runScan w db0 root extFilter hash)).
Proof.
  rewrite runScan_unfold. cbv zeta. cbn [run_trace].
  set (est := estimateFileCount w root extFilter).
  pose proof (scanAndPersist_end w extFilter hash est db0 root
    (fun cs s => (forall x, In x cs -> In x (WalkDir w (Filepath.Clean root)))
                 /\ Forall (fromWalk w root extFilter hash) (trace s))
    (fun _ s => Forall (fromWalk w root extFilter hash) (trace s))
    (run_fromWalk_step w extFilter hash est db0 root)) as Hend.
  specialize (Hend ltac:(split; [auto|repeat constructor; intros Hf; discriminate Hf])).
  destruct (scanAndPersist w extFilter hash est db0 root) as [s out]. cbn [fst snd] in *.
  destruct Hend as
    [ s op' e' tr Htr [k ->] Hops Hc Hf | s2 e' Hinv HJ Htx | s2 e' view Hinv HJ Htx
    | s2 e' Hinv HJ Htx | s2 e' Hinv [_ HI] H0 | s2 s idx Hinv [_ HI] H0 Hidx Htr Hc Hno ];
    try exact HJ.
  - rewrite Htr. destruct k as [|[|[|k]]]; repeat constructor; intros Hf'; discriminate Hf'.
  - cbn [trace]. apply Forall_app. split; [exact HJ|].
    repeat constructor; intros Hf'; discriminate Hf'.
  - cbn [trace]. apply Forall_app. split; [exact HI|].
    repeat constructor; intros Hf'; discriminate Hf'.
  - rewrite Htr. apply Forall_app. split; [exact HI|].
    constructor; [intros Hf'; discriminate Hf'|]. apply Forall_app. split.
    + eapply Forall_impl; [exact Hidx|]. intros ev Hev Hu. destruct ev; discriminate.
    + repeat constructor; intros Hf'; discriminate Hf'.
Qed.

Lemma run_committed_fromWalk {tables : Unicode.CaseTables} w db0 root extFilter hash :
  Forall (fromWalk w root extFilter hash)
         (committedPrefix (run_trace (runScan w db0 root extFilter hash))).
Proof.
  apply List.Forall_forall. intros ev Hev.
  pose proof (run_trace_fromWalk w db0 root extFilter hash) as H.
  rewrite List.Forall_forall in H. apply H. apply committedPrefix_sublist. exact Hev.
Qed.

(** ** Runs and re-runs *)

(** A run that was cut short, by a failed storage call or by the panic after
    a failed [db.Begin], is completed by running again: the second run, when
    the database works, ends without error and leaves the store a single
    complete run would have left. *)
Theorem rerun_completes_partial_run {tables : Unicode.CaseTables} (w : World) (db0 : Store) (root : gostring)
    (extFilter : gset gostring) (hash : bool) :
  let r1 := runScan w db0 root extFilter hash in
  let r2 := runScan (noFaults w) (run_store r1) root extFilter hash in
  run_done r2 = Some (mkDone None)
  /\ run_store r2 = run_store (runScan (noFaults w) db0 root extFilter hash).
Proof.
  intros r1 r2.
  pose proof (run_upserts (noFaults w) (run_store r1) root extFilter hash (fun _ => eq_refl))
    as (_ & Hs2 & Hd2 & _).
  pose proof (run_upserts (noFaults w) db0 root extFilter hash (fun _ => eq_refl))
    as (_ & Hs & _ & _).
  cbv zeta in Hs2, Hd2, Hs. split; [exact Hd2|].
  subst r2. rewrite Hs2, Hs. clear Hs2 Hd2 Hs.
  change (omap (upsertOf (noFaults w) extFilter hash)
               (WalkDir (noFaults w) (Filepath.Clean root)))
    with (omap (upsertOf w extFilter hash) (WalkDir w (Filepath.Clean root))).
  subst r1. pose proof (run_store_committed w db0 root extFilter hash) as Hc.
  cbv zeta in Hc. rewrite Hc. clear Hc.
  destruct (run_upserts_prefix w db0 root extFilter hash) as [rest Hrest].
  destruct (committedPrefix_prefix (run_trace (runScan w db0 root extFilter hash)))
    as [rest' Hcp].
  assert (upsertsOf (run_trace (runScan w db0 root extFilter hash))
          = upsertsOf (committedPrefix (run_trace (runScan w db0 root extFilter hash)))
            ++ upsertsOf rest') as Hsplit
    by (rewrite <- upsertsOf_app, <- Hcp; reflexivity).
  rewrite Hsplit, <- app_assoc in Hrest. rewrite <- Hrest.
  rewrite <- (applyAll_upsertsOf db0 (committedPrefix _)).
  apply applyAll_resume.
Qed.

(** Running twice with the same settings on an unchanged tree: when the
    database works, the second run makes the same upserts, reports the same
    final counts and leaves every record of both tables as the first run
    left it. *)
Theorem run_idempotent {tables : Unicode.CaseTables} (w : World) (db0 : Store) (root : gostring)
    (extFilter : gset gostring) (hash : bool) :
  (forall k, sql_fault w k = None) ->
  let r1 := runScan w db0 root extFilter hash in
  let r2 := runScan w (run_store r1) root extFilter hash in
  run_store r2 = run_store r1
  /\ upsertsOf (run_trace r2) = upsertsOf (run_trace r1)
  /\ last (run_progress r2) = last (run_progress r1)
  /\ run_done r2 = Some (mkDone None).
Proof.
  intros Hno r1 r2.
  pose proof (run_upserts w (run_store r1) root extFilter hash Hno)
    as (Hu2 & Hs2 & Hd2 & msgs2 & Hp2).
  pose proof (run_upserts w db0 root extFilter hash Hno) as (Hu1 & Hs1 & _ & msgs1 & Hp1).
  cbv zeta in *. subst r2. rewrite Hs2, Hu2, Hp2, Hd2. subst r1.
  rewrite Hs1, Hu1, Hp1, applyAll_twice, !last_snoc. repeat split.
Qed.

(** ** What a run leaves of the records it finds *)

Lemma foldl_upsertRow_keeps {A} (merge : A -> A -> A) (P : A -> Prop) l : forall a,
  P a -> (forall x y, P x -> P (merge x y)) ->
  exists b, foldl (upsertRow merge) (Some a) l = Some b /\ P b.
Proof.
  induction l as [|x l IH]; intros a Ha Hm; [exists a; split; [reflexivity|exact Ha]|].
  cbn [foldl]. unfold upsertRow at 2. apply IH; [apply Hm; exact Ha|exact Hm].
Qed.

(** No run removes a record, whether it succeeds, fails or panics, and it
    leaves the columns that an upsert sets only on insert: the folder path,
    name and extension of a file, the parent of a folder. *)
Theorem run_keeps_records {tables : Unicode.CaseTables} (w : World) (db0 : Store) (root : gostring)
    (extFilter : gset gostring) (hash : bool) :
  let r := runScan w db0 root extFilter hash in
  (forall p old,
      files db0 !! p = Some old ->
      exists row, files (run_store r) !! p = Some row
                  /\ folder_path row = folder_path old
                  /\ name row = name old
                  /\ ext row = ext old)
  /\ (forall p old,
         folders db0 !! p = Some old ->
         exists row, folders (run_store r) !! p = Some row
                     /\ parent_path row = parent_path old).
Proof.
  intros r. subst r. pose proof (run_store_committed w db0 root extFilter hash) as Hc.
  cbv zeta in Hc. rewrite Hc. split; intros p old Hold.
  - rewrite files_applyAll, Hold.
    apply (foldl_upsertRow_keeps mergeFile
             (fun row => folder_path row = folder_path old
                         /\ name row = name old /\ ext row = ext old));
      [repeat split|].
    intros x y H. exact H.
  - rewrite folders_applyAll, Hold.
    apply (foldl_upsertRow_keeps mergeFolder (fun row => parent_path row = parent_path old));
      [reflexivity|].
    intros x y H. exact H.
Qed.

(** ** A run without hashing *)

Lemma upsertOf_noHash {tables : Unicode.CaseTables} w extFilter c ev :
  upsertOf w extFilter false c = Some ev -> noHash ev.
Proof.
  destruct c as [p|p d]; [discriminate|]. unfold upsertOf.
  destruct (Info d) as [info|]; [|discriminate].
  destruct (IsDir d); [intros [= <-]; exact I|].
  destruct (decide _); [discriminate|]. intros [= <-]. reflexivity.
Qed.

Lemma fromWalk_noHash {tables : Unicode.CaseTables} w root extFilter ev : fromWalk w root extFilter false ev -> noHash ev.
Proof.
  intros H. destruct ev as [ | | q row | | | | | | ]; try exact I.
  destruct (H eq_refl) as (c & _ & Hc). apply (upsertOf_noHash _ _ _ _ Hc).
Qed.

Lemma hashOf_applyEvent s ev p : noHash ev -> hashOf (applyEvent s ev) p = hashOf s p.
Proof.
  intros Hev. unfold hashOf. rewrite files_applyEvent.
  destruct ev as [ | | q row | | | | | | ]; try reflexivity.
  destruct (decide (q = p)); [|reflexivity]. cbn in Hev.
  unfold upsertRow. destruct (files s !! p) as [old|]; cbn; rewrite Hev; reflexivity.
Qed.

Lemma hashOf_applyAll tr p : forall s, Forall noHash tr -> hashOf (applyAll s tr) p = hashOf s p.
Proof.
  induction tr as [|ev tr IH]; intros s Htr; [reflexivity|].
  inversion Htr; subst.
  change (applyAll s (ev :: tr)) with (applyAll (applyEvent s ev) tr).
  rewrite IH by assumption. apply hashOf_applyEvent. assumption.
Qed.

(** A run with hashing off never touches the hash column: every record that
    was there keeps the hash it had, NULL included, and every record the run
    adds has none. *)
Theorem run_without_hashing {tables : Unicode.CaseTables} (w : World) (db0 : Store) (root : gostring)
    (extFilter : gset gostring) (p : gostring) :
  hashOf (run_store (runScan w db0 root extFilter false)) p = hashOf db0 p.
Proof.
  pose proof (run_store_committed w db0 root extFilter false) as Hc.
  cbv zeta in Hc. rewrite Hc. apply hashOf_applyAll.
  eapply Forall_impl; [apply run_committed_fromWalk|].
  intros ev. apply fromWalk_noHash.
Qed.

(** ** The columns of a file record *)

Lemma detectMIME_nonempty w e : detectMIME w e <> [].
Proof.
  unfold detectMIME. destruct (decide (e = str ".msg")); [discriminate|].
  destruct (decide (mime_TypeByExtension w e <> [])); [assumption|discriminate].
Qed.

Lemma upsertOf_fileEventOK {tables : Unicode.CaseTables} w extFilter hash c ev :
  upsertOf w extFilter hash c = Some ev -> fileEventOK w ev.
Proof.
  destruct c as [p|p d]; [discriminate|]. unfold upsertOf.
  destruct (Info d) as [info|]; [|discriminate].
  destruct (IsDir d); [intros [= <-]; exact I|].
  destruct (decide _); [discriminate|]. intros [= <-].
  cbn [fileEventOK]. unfold fileRowOK. cbn [folder_path name ext mime sha256].
  repeat split; [apply detectMIME_nonempty|].
  intros h Hh. destruct hash; [|discriminate].
  unfold hashFile in Hh. destruct (os_Open w p) as [|data readErr]; [discriminate|].
  exists data, readErr. split; [reflexivity|].
  destruct (hex (Sha256.Sum256 data)); [discriminate|]. injection Hh as <-. reflexivity.
Qed.

Lemma fromWalk_fileEventOK {tables : Unicode.CaseTables} w root extFilter hash ev :
  fromWalk w root extFilter hash ev -> fileEventOK w ev.
Proof.
  intros H. destruct ev as [ | | q row | | | | | | ]; try exact I.
  destruct (H eq_refl) as (c & _ & Hc). apply (upsertOf_fileEventOK _ _ _ _ _ Hc).
Qed.

Lemma fileRowOK_merge {tables : Unicode.CaseTables} w p old new :
  fileRowOK w p old -> fileRowOK w p new -> fileRowOK w p (mergeFile old new).
Proof.
  intros (Hd & Hn & He & Hm & Hm0 & Hh) (Hd' & Hn' & He' & Hm' & Hm0' & Hh').
  unfold fileRowOK, mergeFile. cbn [folder_path name ext mime sha256].
  repeat split; try assumption.
  - rewrite Hm', He', He. reflexivity.
  - intros h. destruct (sha256 new) as [h'|]; cbn [coalesce]; [apply Hh'|apply Hh].
Qed.

Lemma filesOK_applyEvent {tables : Unicode.CaseTables} w s ev : filesOK w s -> fileEventOK w ev -> filesOK w (applyEvent s ev).
Proof.
  intros Hs Hev p row. rewrite files_applyEvent.
  destruct ev as [ | | q new | | | | | | ]; try apply Hs.
  destruct (decide (q = p)) as [->|]; [|apply Hs].
  unfold upsertRow. intros [= <-]. destruct (files s !! p) as [old|] eqn:Hold; [|exact Hev].
  apply fileRowOK_merge; [apply (Hs _ _ Hold)|exact Hev].
Qed.

Lemma filesOK_applyAll {tables : Unicode.CaseTables} w tr : forall s,
  filesOK w s -> Forall (fileEventOK w) tr -> filesOK w (applyAll s tr).
Proof.
  induction tr as [|ev tr IH]; intros s Hs Htr; [exact Hs|].
  inversion Htr; subst. apply (IH (applyEvent s ev)); [|assumption].
  apply filesOK_applyEvent; assumption.
Qed.

Lemma fromWalk_reached {tables : Unicode.CaseTables} w root extFilter hash p row :
  fromWalk w root extFilter hash (EvFileUpsert p row) -> reached w root extFilter p.
Proof.
  intros H. destruct (H eq_refl) as (c & Hin & Hc).
  destruct c as [q|q d]; [discriminate|]. unfold upsertOf in Hc.
  destruct (Info d) as [info|] eqn:Hinfo; [|discriminate].
  destruct (IsDir d) eqn:Hdir; [discriminate|].
  destruct (decide _) as [|Hpass]; [discriminate|]. injection Hc as <- _.
  exists d. repeat split; [exact Hin|exact Hdir|congruence|].
  unfold passes. apply bool_decide_eq_true.
  destruct (decide (extFilter = ∅)); [left; assumption|].
  right. destruct (decide (Strings.ToLower (Filepath.Ext q) ∈ extFilter)); [assumption|].
  exfalso. apply Hpass. split; assumption.
Qed.

Lemma reached_applyAll {tables : Unicode.CaseTables} w root extFilter hash p tr : forall s,
  Forall (fromWalk w root extFilter hash) tr ->
  is_Some (files (applyAll s tr) !! p) ->
  is_Some (files s !! p) \/ reached w root extFilter p.
Proof.
  induction tr as [|ev tr IH]; intros s Htr Hp; [left; exact Hp|].
  inversion Htr as [|? ? Hev Htr']; subst.
  change (applyAll s (ev :: tr)) with (applyAll (applyEvent s ev) tr) in Hp.
  destruct (IH _ Htr' Hp) as [H|H]; [|right; exact H].
  rewrite files_applyEvent in H.
  destruct ev as [ | | q new | | | | | | ]; try (left; exact H).
  destruct (decide (q = p)) as [->|]; [|left; exact H].
  right. apply (fromWalk_reached _ _ _ _ _ _ Hev).
Qed.

(** The records of files after a run.  Each record a run writes has the
    directory, the last element and the lower-cased extension of its path,
    a MIME type that is never empty, and as its hash, when it has one, the
    digest of what could be read of the file; a store whose records are so
    stays so.  And a record that was not there before the run is about a
    file the walk reached, whose metadata could be read and whose extension
    the filter lets through. *)
Theorem run_file_records {tables : Unicode.CaseTables} (w : World) (db0 : Store) (root : gostring)
    (extFilter : gset gostring) (hash : bool) :
  let r := runScan w db0 root extFilter hash in
  (filesOK w db0 -> filesOK w (run_store r))
  /\ (forall p, is_Some (files (run_store r) !! p) ->
                is_Some (files db0 !! p) \/ reached w root extFilter p).
Proof.
  intros r. subst r. pose proof (run_store_committed w db0 root extFilter hash) as Hc.
  cbv zeta in Hc. rewrite Hc. split.
  - intros H0. apply filesOK_applyAll; [exact H0|].
    eapply Forall_impl; [apply run_committed_fromWalk|].
    intros ev. apply fromWalk_fileEventOK.
  - intros p. apply (reached_applyAll w root extFilter hash).
    apply run_committed_fromWalk.
Qed.

(** ** The edges of a run *)

Lemma scanSetup_fail w db0 (k : nat) e :
  (k < 6)%nat ->
  sql_fault w k = Some e ->
  (forall j, (j < k)%nat -> sql_fault w j = None) ->
  exists s, scanSetup w (mkSt db0 TxNil 0 0 0 0%nat []) = (s, Fail e)
            /\ committed s = db0
            /\ Forall (fun ev => ev = EvBegin \/ ev = EvPrepareFolder \/ isFail ev = true)
                      (trace s).
Proof.
  intros Hk He Hlt.
  unfold scanSetup, dbBegin, txPrepare, bind, sqlCall, setTx, emit, get.
  cbn [ncalls trace committed tx nfiles ndirs batch].
  destruct k as [|[|[|[|[|[|k]]]]]]; [..|lia];
    repeat (first [rewrite He | rewrite (Hlt 0%nat) by lia | rewrite (Hlt 1%nat) by lia
                  | rewrite (Hlt 2%nat) by lia | rewrite (Hlt 3%nat) by lia
                  | rewrite (Hlt 4%nat) by lia];
            cbn [ncalls trace committed tx nfiles ndirs batch app]);
    (eexists; split; [reflexivity|]; split; [reflexivity|]);
    cbn [trace app];
    repeat (apply List.Forall_cons;
            [first [left; reflexivity | right; left; reflexivity | right; right; reflexivity]|]);
    apply List.Forall_nil.
Qed.

(** When sql.Open, the schema, the pragmas, [db.Begin] or one of the two
    [tx.Prepare] fails, the run ends there with that error: nothing is
    walked, so the store is as it was, there is no upsert and no progress
    signal, and the transaction, if it was begun, is neither committed nor
    rolled back. *)
Theorem setup_failure_ends_run {tables : Unicode.CaseTables} (w : World) (db0 : Store) (root : gostring)
    (extFilter : gset gostring) (hash : bool) (k : nat) (e : Err) :
  (k < 6)%nat ->
  sql_fault w k = Some e ->
  (forall j, (j < k)%nat -> sql_fault w j = None) ->
  let r := runScan w db0 root extFilter hash in
  run_done r = Some (mkDone (Some e))
  /\ run_store r = db0
  /\ run_progress r = []
  /\ upsertsOf (run_trace r) = []
  /\ ~ In EvCommit (run_trace r)
  /\ ~ In EvRollback (run_trace r).
Proof.
  intros Hk He Hlt r. subst r. rewrite runScan_unfold. cbv zeta.
  cbn [run_done run_store run_trace run_progress].
  destruct (scanSetup_fail w db0 k e Hk He Hlt) as (s & Hs & Hc & Htr).
  unfold scanAndPersist. rewrite Hs. cbn [fst snd]. rewrite Hc.
  repeat split; try (intros Hin; rewrite List.Forall_forall in Htr;
                     destruct (Htr _ Hin) as [|[|]]; discriminate).
  - induction Htr as [|ev tr Hev _ IH]; [reflexivity|].
    destruct Hev as [->|[->|Hev]]; [exact IH|exact IH|].
    destruct ev; try discriminate. exact IH.
  - induction Htr as [|ev tr Hev _ IH]; [reflexivity|].
    unfold upsertsOf. cbn [List.filter].
    destruct Hev as [->|[->|Hev]]; [exact IH|exact IH|].
    destruct ev; try discriminate. exact IH.
Qed.

(** ** Folders and the filter *)

Lemma folderRowsAt_upsertOf {tables : Unicode.CaseTables} w extFilter hash extFilter' hash' p cs :
  folderRowsAt p (omap (upsertOf w extFilter hash) cs)
  = folderRowsAt p (omap (upsertOf w extFilter' hash') cs).
Proof.
  induction cs as [|c cs IH]; [reflexivity|].
  unfold folderRowsAt in *. cbn [omap list_omap].
  destruct c as [q|q d]; [exact IH|]. unfold upsertOf.
  destruct (Info d) as [info|]; [|exact IH].
  destruct (IsDir d).
  - cbn [omap list_omap]. destruct (decide (q = p)); [f_equal|]; exact IH.
  - destruct (decide _), (decide _); cbn [omap list_omap]; exact IH.
Qed.

(** The extension filter and the hashing flag are about files only: when the
    database works, two runs from the same store on the same tree leave the
    same folder records whatever their filters and flags. *)
Theorem folders_ignore_filter {tables : Unicode.CaseTables} (w : World) (db0 : Store) (root : gostring)
    (extFilter extFilter' : gset gostring) (hash hash' : bool) :
  (forall k, sql_fault w k = None) ->
  folders (run_store (runScan w db0 root extFilter hash))
  = folders (run_store (runScan w db0 root extFilter' hash')).
Proof.
  intros Hno.
  pose proof (run_upserts w db0 root extFilter hash Hno) as (_ & Hs & _).
  pose proof (run_upserts w db0 root extFilter' hash' Hno) as (_ & Hs' & _).
  cbv zeta in Hs, Hs'. rewrite Hs, Hs'. apply map_eq. intros p.
  rewrite !folders_applyAll. f_equal. apply folderRowsAt_upsertOf.
Qed.

(** ** The estimate *)

Lemma filter_length_le {A} (f g : A -> bool) l :
  (forall x, f x = true -> g x = true) ->
  (length (List.filter f l) <= length (List.filter g l))%nat.
Proof.
  intros Hfg. induction l as [|x l IH]; [reflexivity|]. cbn [List.filter].
  destruct (f x) eqn:Hf.
  - rewrite (Hfg _ Hf). cbn [length]. lia.
  - destruct (g x); cbn [length]; lia.
Qed.

Lemma estCounts_empty {tables : Unicode.CaseTables} c : estCounts ∅ (callKey c) = isFileCall c.
Proof.
  destruct c as [p|p d]; [reflexivity|]. cbn [callKey isFileCall].
  destruct (IsDir d); [reflexivity|]. cbn [estCounts negb]. unfold passes.
  apply bool_decide_eq_true. left. reflexivity.
Qed.

Lemma filter_map {A B} (f : A -> B) (g : B -> bool) l :
  List.filter g (map f l) = map f (List.filter (fun x => g (f x)) l).
Proof.
  induction l as [|x l IH]; [reflexivity|]. cbn [map List.filter].
  destruct (g (f x)); cbn [map]; rewrite IH; reflexivity.
Qed.

(** The estimate without a filter is the number of entries of the walk that
    are not directories, and a filter can only lower it (as long as the
    walk makes fewer than 2^63 calls, so that the counter does not wrap). *)
Theorem estimate_filter_lowers {tables : Unicode.CaseTables} (w : World) (root : gostring) (extFilter : gset gostring) :
  Z.of_nat (length (WalkDir w root)) < 2 ^ 63 ->
  estimateFileCount w root ∅ = Z.of_nat (length (List.filter isFileCall (WalkDir w root)))
  /\ 0 <= estimateFileCount w root extFilter <= estimateFileCount w root ∅.
Proof.
  intros Hlen. unfold estimateFileCount. rewrite !estimate_iter.
  pose proof (List.filter_length_le (estCounts ∅) (map callKey (WalkDir w root))) as H1.
  pose proof (List.filter_length_le (estCounts extFilter) (map callKey (WalkDir w root))) as H2.
  rewrite length_map in H1, H2.
  pose proof (filter_length_le (estCounts extFilter) (estCounts ∅)
                (map callKey (WalkDir w root))) as H3.
  rewrite !iter_incr64_small by lia. split.
  - rewrite filter_map, length_map. f_equal. f_equal.
    apply List.filter_ext. intros c. apply estCounts_empty.
  - split; [lia|]. apply Nat2Z.inj_le, H3.
    intros k Hk. destruct k as [| |r e]; try discriminate. cbn [estCounts] in *.
    unfold passes. apply bool_decide_eq_true. left. reflexivity.
Qed.

(** A root that [os.Lstat] cannot read is no error.  The estimate is 0; and
    when the database works the run ends without error, with the store as
    it was and with the single signal of zero files and zero folders. *)
Theorem unreadable_root_is_no_error {tables : Unicode.CaseTables} (w : World) (db0 : Store) (root : gostring)
    (extFilter : gset gostring) (hash : bool) :
  os_Lstat w root = None ->
  os_Lstat w (Filepath.Clean root) = None ->
  (forall k, sql_fault w k = None) ->
  let r := runScan w db0 root extFilter hash in
  estimateFileCount w root extFilter = 0
  /\ run_done r = Some (mkDone None)
  /\ run_store r = db0
  /\ run_progress r = [mkProgress 0 0 [] 0].
Proof.
  intros Hroot Hclean Hno r. subst r.
  assert (estimateFileCount w root extFilter = 0) as Hest.
  { unfold estimateFileCount, WalkDir. rewrite Hroot. reflexivity. }
  assert (WalkDir w (Filepath.Clean root) = [WalkErr (Filepath.Clean root)]) as Hwalk.
  { unfold WalkDir. rewrite Hclean. reflexivity. }
  pose proof (run_upserts w db0 root extFilter hash Hno) as (Hu & _).
  pose proof (run_batched w db0 root extFilter hash Hno) as Hb.
  cbv zeta in Hu, Hb. rewrite Hwalk in Hu, Hb. cbn [omap list_omap upsertOf] in Hu.
  specialize (Hb eq_refl). destruct Hb as (Htr & Hs & Hd).
  rewrite Hu in Htr, Hs. rewrite Hest in Htr.
  split; [exact Hest|]. split; [exact Hd|]. split; [exact Hs|].
  rewrite runScan_unfold in Htr |- *. cbv zeta in Htr |- *.
  cbn [run_trace run_progress] in Htr |- *. rewrite Htr. reflexivity.
Qed.

(** ** The number of progress signals *)

(** A run that ends without error has sent one progress signal for every
    full thousand of upserts and one more at the end; a run that fails or
    panics has sent at most one for every full thousand. *)
Theorem progress_signal_count {tables : Unicode.CaseTables} (w : World) (db0 : Store) (root : gostring)
    (extFilter : gset gostring) (hash : bool) :
  let r := runScan w db0 root extFilter hash in
  let batches := Z.of_nat (countUpserts (run_trace r)) / 1000 in
  match run_done r with
  | Some (mkDone None) => Z.of_nat (length (run_progress r)) = batches + 1
  | _ => Z.of_nat (length (run_progress r)) <= batches
  end.
Proof.
  rewrite runScan_unfold. cbv zeta. cbn [run_trace run_progress run_done].
  set (est := estimateFileCount w root extFilter).
  pose proof (scanAndPersist_end w extFilter hash est db0 root
                (fun _ s => progressCount (trace s) = Z.of_nat (countUpserts (trace s)) / 1000)
                (fun _ s => progressCount (trace s) <= Z.of_nat (countUpserts (trace s)) / 1000)
                (progress_step w extFilter hash est db0) eq_refl) as Hend.
  destruct (scanAndPersist w extFilter hash est db0 root) as [s out]. cbn [fst snd] in *.
  fold (progressCount (trace s)).
  destruct Hend as
    [ s op' e' tr Htr [k ->] Hops Hc Hf | s2 e' Hinv HJ Htx | s2 e' view Hinv HJ Htx
    | s2 e' Hinv HJ Htx | s2 e' Hinv HI H0 | s2 s idx Hinv HI H0 Hidx Htr Hc Hno ];
    try exact HJ.
  - rewrite Htr. destruct k as [|[|[|k]]]; vm_compute; intros Hgt; discriminate Hgt.
  - cbn [trace]. rewrite progressCount_other, countUpserts_other by (reflexivity || discriminate).
    exact HJ.
  - cbn [trace]. rewrite progressCount_other, countUpserts_other by (reflexivity || discriminate).
    lia.
  - rewrite Htr. unfold progressCount in *.
    rewrite !progressOf_app, !countUpserts_app.
    rewrite (countUpserts_indexFails idx Hidx), (progressOf_indexFails idx Hidx).
    change (progressOf [EvCommit]) with (@nil progressMsg).
    change (countUpserts [EvCommit]) with 0%nat.
    change (countUpserts [EvProgress (mkProgress (nfiles s2) (ndirs s2) [] est)]) with 0%nat.
    change (progressOf [EvProgress (mkProgress (nfiles s2) (ndirs s2) [] est)])
      with [mkProgress (nfiles s2) (ndirs s2) [] est].
    cbn [app]. rewrite length_app, !Nat.add_0_r. cbn [length]. lia.
Qed.

(** ** Cleaned paths *)

Module CleanFacts.
Import Strings Filepath StringsFacts FilepathFacts JoinFacts.

Lemma Split_Join l :
  l <> [] -> Forall (fun e => Separator ∉ e) l ->
  Split (Strings.Join l [Separator]) Separator = l.
Proof.
  induction l as [|e l IH]; [contradiction|]. intros _ Hl.
  inversion Hl as [|? ? He Hl']; subst.
  destruct l as [|e' l]; [apply Split_nosep; exact He|].
  rewrite Join_cons by discriminate. cbn [app].
  rewrite Split_app, (Split_nosep e He), IH; [reflexivity|discriminate|exact Hl'].
Qed.

Lemma clean_step_shape rooted st e :
  Separator ∉ e -> cleanShape rooted st -> cleanShape rooted (clean_step rooted st e).
Proof.
  destruct st as [out dd]. intros He (reals & Hout & Hr & Hd). cbn [fst snd] in *.
  unfold clean_step.
  destruct (decide (e = [])) as [|H1]; [exists reals; auto|].
  destruct (decide (e = str ".")) as [|H2]; [exists reals; auto|].
  destruct (decide (e = str "..")) as [->|H3].
  - destruct (dd <? length out)%nat eqn:Hlt.
    + apply Nat.ltb_lt in Hlt. subst out. rewrite length_app, repeat_length in Hlt.
      destruct reals as [|r reals]; [cbn in Hlt; lia|].
      exists reals. cbn [tail app fst snd]. split; [reflexivity|].
      split; [inversion Hr; assumption|exact Hd].
    + apply Nat.ltb_ge in Hlt. subst out. rewrite length_app, repeat_length in Hlt.
      destruct reals as [|r reals]; [|cbn in Hlt; lia]. cbn [app] in *.
      destruct rooted; cbn [negb].
      * exists []. auto.
      * exists []. cbn [fst snd app]. rewrite repeat_length.
        split; [reflexivity|]. split; [constructor|discriminate].
  - exists (e :: reals). cbn [fst snd]. subst out.
    split; [reflexivity|]. split; [|exact Hd].
    constructor; [|exact Hr]. repeat split; assumption.
Qed.

Lemma clean_fold_shape rooted elems : forall st,
  Forall (fun e => Separator ∉ e) elems ->
  cleanShape rooted st -> cleanShape rooted (foldl (clean_step rooted) st elems).
Proof.
  induction elems as [|e elems IH]; intros st Hel Hst; [exact Hst|].
  inversion Hel; subst. cbn [foldl]. apply IH; [assumption|].
  apply clean_step_shape; assumption.
Qed.

Lemma clean_fold_dots k : forall j,
  foldl (clean_step false) (repeat (str "..") j, j) (repeat (str "..") k)
  = (repeat (str "..") (k + j), (k + j)%nat).
Proof.
  induction k as [|k IH]; intros j; [reflexivity|].
  cbn [repeat foldl]. unfold clean_step at 2. cbn [negb].
  rewrite decide_False by discriminate. rewrite decide_False by discriminate.
  rewrite decide_True by reflexivity. rewrite repeat_length, Nat.ltb_irrefl.
  change (str ".." :: repeat (str "..") j) with (repeat (str "..") (S j)).
  rewrite IH. rewrite Nat.add_succ_r. reflexivity.
Qed.

Lemma clean_fold_reals rooted dd l : forall out,
  Forall validName l ->
  foldl (clean_step rooted) (out, dd) l = (rev l ++ out, dd).
Proof.
  induction l as [|e l IH]; intros out Hl; [reflexivity|].
  inversion Hl as [|? ? He Hl']; subst. cbn [foldl rev].
  rewrite (clean_step_real _ _ _ _ He), IH by exact Hl'.
  rewrite <- app_assoc. reflexivity.
Qed.

Lemma validName_nosep l : Forall validName l -> Forall (fun e => Separator ∉ e) l.
Proof. intros H. eapply Forall_impl; [exact H|]. intros e (_ & He & _). exact He. Qed.

Lemma dots_nosep k : Forall (fun e => Separator ∉ e) (repeat (str "..") k).
Proof.
  induction k as [|k IH]; constructor; [|exact IH].
  intros H. cbv [str list_ascii_of_string] in H. rewrite !elem_of_cons in H.
  destruct H as [H|[H|H]]; try discriminate. inversion H.
Qed.

(** [filepath.Clean] of a cleaned path is that path. *)
Lemma Clean_idem p : Clean (Clean p) = Clean p.
Proof.
  destruct p as [|c p]; [reflexivity|].
  unfold Clean at 2 3.
  pose proof (clean_fold_shape (IsPathSeparator c) (Split (c :: p) Separator) ([], 0%nat)
                (Split_no_sep _ _)) as Hshape.
  specialize (Hshape ltac:(exists []; repeat split; constructor)).
  destruct (foldl (clean_step (IsPathSeparator c)) ([], 0%nat) (Split (c :: p) Separator))
    as [out dd].
  destruct Hshape as (reals & Hout & Hr & Hd). cbn [fst snd] in *.
  destruct (IsPathSeparator c).
  - (* rooted *)
    rewrite (Hd eq_refl) in Hout. cbn [repeat] in Hout. rewrite app_nil_r in Hout. subst out.
    unfold Clean. unfold IsPathSeparator at 1. rewrite bool_decide_eq_true_2 by reflexivity.
    cbn [Split]. rewrite decide_True by reflexivity.
    destruct reals as [|r reals]; [reflexivity|].
    assert (rev (r :: reals) <> []) as Hne.
    { intros E. apply (f_equal (@rev _)) in E. rewrite rev_involutive in E. discriminate. }
    rewrite Split_Join; [|exact Hne|apply validName_nosep, Forall_rev, Hr].
    cbn [foldl]. unfold clean_step at 2. rewrite decide_True by reflexivity.
    rewrite clean_fold_reals by (apply Forall_rev, Hr).
    rewrite rev_involutive, app_nil_r. reflexivity.
  - (* not rooted *)
    destruct out as [|e out]; [reflexivity|].
    assert (rev (e :: out) = repeat (str "..") dd ++ rev reals) as Hrev.
    { rewrite Hout, rev_app_distr. f_equal. clear. induction dd as [|k IH]; [reflexivity|].
      cbn [repeat rev]. rewrite IH. clear. induction k as [|k IH]; [reflexivity|].
      cbn [repeat app]. f_equal. exact IH. }
    assert (Forall (fun e => Separator ∉ e) (rev (e :: out))) as Hns.
    { rewrite Hrev. apply Forall_app. split; [apply dots_nosep|].
      apply validName_nosep, Forall_rev, Hr. }
    assert (rev (e :: out) <> []) as Hne.
    { intros E. apply (f_equal (@rev _)) in E. rewrite rev_involutive in E. discriminate. }
    assert (exists c0 e0 rest, rev (e :: out) = (c0 :: e0) :: rest) as (c0 & e0 & rest & Hhd).
    { destruct (rev (e :: out)) as [|x rest] eqn:E; [contradiction|].
      destruct x as [|c0 e0]; [|eauto].
      exfalso. destruct dd as [|dd]; cbn [repeat app] in Hrev; [|discriminate].
      pose proof (Forall_rev Hr) as Hr'. rewrite <- Hrev in Hr'.
      inversion Hr' as [|? ? (Hx & _) _]. contradiction. }
    assert (IsPathSeparator c0 = false) as Hc0.
    { apply bool_decide_eq_false. intros ->. rewrite Hhd in Hns.
      inversion Hns as [|? ? Hx _]. apply Hx. left. }
    pose proof (Split_Join _ Hne Hns) as Hsplit.
    revert Hsplit. rewrite Hhd at 1 3. rewrite Join_cons_head. intros Hsplit.
    unfold Clean. rewrite Hc0, Hsplit, Hrev, foldl_app.
    pose proof (clean_fold_dots dd 0%nat) as Hdots. cbn [repeat] in Hdots.
    rewrite Nat.add_0_r in Hdots. rewrite Hdots.
    rewrite clean_fold_reals by (apply Forall_rev, Hr).
    rewrite rev_involutive, <- Hout. rewrite <- Hrev, Hhd, Join_cons_head. reflexivity.
Qed.

Lemma Join_clean a b : a <> [] -> isClean (Filepath.Join a b).
Proof.
  intros Ha. unfold isClean, Filepath.Join.
  destruct a as [|c a]; [contradiction|]. apply Clean_idem.
Qed.

Lemma Dir_clean p : isClean (Dir p).
Proof. apply Clean_idem. Qed.

Lemma isClean_nonempty p : isClean p -> p <> [].
Proof. intros H E. apply (Clean_nonempty p). rewrite H. exact E. Qed.

End CleanFacts.

Lemma walkDir_clean t : forall path info,
  isClean path -> Forall (fun c => isClean (callPath c)) (walkDir path info t).
Proof.
  induction t as [|readErr entries IH] using Tree_ind_entries; intros path info Hp.
  - repeat constructor. exact Hp.
  - cbn [walkDir]. constructor; [exact Hp|]. apply Forall_app. split.
    + destruct readErr; repeat constructor. exact Hp.
    + induction entries as [|[[n i] t] es IHes]; [constructor|].
      inversion IH as [|? ? IHt IH']; subst. cbn [snd] in IHt.
      apply Forall_app. split; [|apply IHes; exact IH'].
      apply IHt. apply CleanFacts.Join_clean, CleanFacts.isClean_nonempty, Hp.
Qed.

Lemma WalkDir_clean w root :
  Forall (fun c => isClean (callPath c)) (WalkDir w (Filepath.Clean root)).
Proof.
  unfold WalkDir. destruct (os_Lstat w (Filepath.Clean root)) as [[info t]|].
  - apply walkDir_clean, CleanFacts.Clean_idem.
  - repeat constructor. apply CleanFacts.Clean_idem.
Qed.

Lemma fromWalk_pathsClean {tables : Unicode.CaseTables} w root extFilter hash ev :
  fromWalk w root extFilter hash ev -> pathsCleanEv ev.
Proof.
  intros H.
  destruct ev as [ | p parent mtime | p row | | | | | | ]; try exact I;
    destruct (H eq_refl) as (c & Hin & Hc);
    pose proof (WalkDir_clean w root) as Hall; rewrite List.Forall_forall in Hall;
    specialize (Hall _ Hin);
    (destruct c as [q|q d]; [discriminate|]); unfold upsertOf in Hc;
    (destruct (Info d) as [info|]; [|discriminate]);
    destruct (IsDir d); try discriminate;
    try (destruct (decide (_ /\ _)); discriminate).
  - injection Hc as <- <- _. split; [exact Hall|].
    destruct (decide (Filepath.Dir q = q)); [left; reflexivity|right; apply CleanFacts.Dir_clean].
  - destruct (decide _); [discriminate|]. injection Hc as <- <-.
    split; [exact Hall|apply CleanFacts.Dir_clean].
Qed.

Lemma pathsClean_applyEvent s ev : pathsClean s -> pathsCleanEv ev -> pathsClean (applyEvent s ev).
Proof.
  intros [Hd Hf] Hev. split; intros p row.
  - rewrite folders_applyEvent. destruct ev as [ | q parent mtime | | | | | | | ]; try apply Hd.
    destruct (decide (q = p)) as [->|]; [|apply Hd].
    unfold upsertRow. intros [= <-]. destruct (folders s !! p) as [old|] eqn:Hold.
    + apply (Hd _ _ Hold).
    + exact Hev.
  - rewrite files_applyEvent. destruct ev as [ | | q new | | | | | | ]; try apply Hf.
    destruct (decide (q = p)) as [->|]; [|apply Hf].
    unfold upsertRow. intros [= <-]. destruct (files s !! p) as [old|] eqn:Hold.
    + apply (Hf _ _ Hold).
    + exact Hev.
Qed.

Lemma pathsClean_applyAll tr : forall s,
  pathsClean s -> Forall pathsCleanEv tr -> pathsClean (applyAll s tr).
Proof.
  induction tr as [|ev tr IH]; intros s Hs Htr; [exact Hs|].
  inversion Htr; subst. apply (IH (applyEvent s ev)); [|assumption].
  apply pathsClean_applyEvent; assumption.
Qed.

(** Every path a run records is a cleaned path: the paths of the folders
    and of the files, the folder of each file and, unless it is empty, the
    parent of each folder are as [filepath.Clean] returns them, without
    doubled or trailing separator and without [.] or resolvable [..]
    element; a store whose paths are clean stays so. *)
Theorem recorded_paths_clean {tables : Unicode.CaseTables} (w : World) (db0 : Store) (root : gostring)
    (extFilter : gset gostring) (hash : bool) :
  let r := runScan w db0 root extFilter hash in
  Forall pathsCleanEv (run_trace r)
  /\ (pathsClean db0 -> pathsClean (run_store r)).
Proof.
  intros r. subst r. split.
  - eapply Forall_impl; [apply run_trace_fromWalk|].
    intros ev. apply fromWalk_pathsClean.
  - intros H0. pose proof (run_store_committed w db0 root extFilter hash) as Hc.
    cbv zeta in Hc. rewrite Hc. apply pathsClean_applyAll; [exact H0|].
    eapply Forall_impl; [apply run_committed_fromWalk|].
    intros ev. apply fromWalk_pathsClean.
Qed.

(** The engine looks at its root only through [filepath.Clean]: started on
    the cleaned root it makes the same run. *)
Theorem scan_of_cleaned_root {tables : Unicode.CaseTables} (w : World) (extFilter : gset gostring) (hash : bool)
    (estimatedTotal : Z) (db0 : Store) (root : gostring) :
  scanAndPersist w extFilter hash estimatedTotal db0 (Filepath.Clean root)
  = scanAndPersist w extFilter hash estimatedTotal db0 root.
Proof. unfold scanAndPersist. rewrite CleanFacts.Clean_idem. reflexivity. Qed.

(** ** The extension filter as a set *)

Module ExtSetFacts.
Import Utf8 Strings StringsFacts TrimFacts.

Lemma Split_app_sep a b sep : Split (a ++ sep :: b) sep = Split a sep ++ Split b sep.
Proof.
  induction a as [|c a IH]; cbn [app Split].
  - rewrite decide_True by reflexivity. reflexivity.
  - rewrite IH. destruct (decide (c = sep)); [reflexivity|].
    pose proof (Split_nonempty a sep). destruct (Split a sep); [contradiction|reflexivity].
Qed.

(** Lower-casing a string of ASCII, which is done byte by byte, goes
    through the loops of [TrimSpace] and through [Split]. *)
Lemma trimLeft_lower s : trimLeft (map lowerByte s) = map lowerByte (trimLeft s).
Proof.
  induction s as [|c s IH]; [reflexivity|]. cbn [map trimLeft].
  rewrite lowerByte_space. destruct (isSpace c); [exact IH|reflexivity].
Qed.

Lemma trim_lower s :
  trimRight (trimLeft (map lowerByte s)) = map lowerByte (trimRight (trimLeft s)).
Proof.
  unfold trimRight. rewrite trimLeft_lower, <- map_rev, trimLeft_lower, map_rev. reflexivity.
Qed.

Lemma normalizeExt_lower {tables : Unicode.CaseTables} tok :
  isASCII tok = true -> normalizeExt (map lowerByte tok) = normalizeExt tok.
Proof.
  intros Ha. unfold normalizeExt.
  rewrite !TrimSpace_ascii by (rewrite ?isASCII_lower; exact Ha).
  rewrite trim_lower.
  rewrite !ToLower_ascii by (rewrite ?isASCII_lower; apply isASCII_trim, Ha).
  rewrite lower_idem. reflexivity.
Qed.

Lemma lowerByte_comma c : lowerByte c = ","%char <-> c = ","%char.
Proof.
  split; [|intros ->; reflexivity].
  destruct c as [[] [] [] [] [] [] [] []]; cbn; intros E; first [reflexivity|discriminate E].
Qed.

Lemma Split_lower s :
  Split (map lowerByte s) ","%char = map (map lowerByte) (Split s ","%char).
Proof.
  induction s as [|c s IH]; [reflexivity|]. cbn [map Split]. rewrite IH.
  destruct (decide (c = ","%char)) as [->|Hc].
  - rewrite decide_True by reflexivity. reflexivity.
  - rewrite decide_False by (rewrite lowerByte_comma; exact Hc).
    pose proof (Split_nonempty s ","%char).
    destruct (Split s ","%char); [contradiction|reflexivity].
Qed.

End ExtSetFacts.

(** The filter of a list written in two parts is the union of the filters
    of the parts, whatever the parts are (empty, or with empty tokens): so
    neither the order of the extensions nor a repetition matters. *)
Theorem parseExtSet_union {tables : Unicode.CaseTables} (a b : gostring) :
  parseExtSet (a ++ str "," ++ b) = parseExtSet a ∪ parseExtSet b
  /\ parseExtSet (a ++ str "," ++ b) = parseExtSet (b ++ str "," ++ a)
  /\ parseExtSet (a ++ str "," ++ a) = parseExtSet a.
Proof.
  assert (forall a b, parseExtSet (a ++ str "," ++ b) = parseExtSet a ∪ parseExtSet b) as H.
  { clear. intros a b. apply set_eq. intros x.
    rewrite elem_of_union, !elem_of_parseExtSet_tokens.
    change (a ++ str "," ++ b) with (a ++ ","%char :: b).
    rewrite ExtSetFacts.Split_app_sep. split.
    - intros (tok & Htok & Hx). apply elem_of_app in Htok. destruct Htok; eauto.
    - intros [(tok & Htok & Hx)|(tok & Htok & Hx)]; exists tok;
        (split; [apply elem_of_app; auto|exact Hx]). }
  split; [apply H|]. split.
  - rewrite !H. apply set_eq. intros x. rewrite !elem_of_union. tauto.
  - rewrite H. apply set_eq. intros x. rewrite elem_of_union. tauto.
Qed.

(** A filter written in ASCII does not depend on the case in which it is
    written: lower-cased first, it gives the same set. *)
Theorem parseExtSet_ignores_case {tables : Unicode.CaseTables} (s : gostring) :
  Strings.isASCII s = true ->
  parseExtSet (Strings.ToLower s) = parseExtSet s.
Proof.
  intros Hs. rewrite StringsFacts.ToLower_ascii by exact Hs.
  pose proof (StringsFacts.Split_ascii s ","%char Hs) as Hall. rewrite Forall_forall in Hall.
  apply set_eq. intros x. rewrite !elem_of_parseExtSet_tokens.
  rewrite ExtSetFacts.Split_lower. split.
  - intros (tok & Htok & Hx). apply list_elem_of_fmap in Htok.
    destruct Htok as (tok' & -> & Htok'). exists tok'. split; [exact Htok'|].
    rewrite <- ExtSetFacts.normalizeExt_lower by (apply Hall, Htok'). exact Hx.
  - intros (tok & Htok & Hx). exists (map Strings.lowerByte tok). split.
    + apply list_elem_of_fmap. exists tok. split; [reflexivity|exact Htok].
    + rewrite ExtSetFacts.normalizeExt_lower by (apply Hall, Htok). exact Hx.
Qed.

(** ** The helpers of the interface *)

Lemma sliceTo_Some {A} (s : list A) n :
  0 <= n <= len s -> sliceTo s n = Some (take (Z.to_nat n) s).
Proof.
  intros Hn. unfold sliceTo, len in *.
  rewrite (proj2 (Z.leb_le 0 n)), (proj2 (Z.leb_le n _)) by lia. reflexivity.
Qed.

Lemma sliceTo_None {A} (s : list A) n : n < 0 -> sliceTo s n = None.
Proof. intros Hn. unfold sliceTo. rewrite (proj2 (Z.leb_gt 0 n)) by lia. reflexivity. Qed.

Lemma len_take {A} (s : list A) n : 0 <= n <= len s -> len (take (Z.to_nat n) s) = n.
Proof. unfold len. intros Hn. rewrite length_take. lia. Qed.

Lemma index_Some {A} (s : list A) i : 0 <= i < len s -> is_Some (index s i).
Proof.
  unfold index, len. intros Hi. rewrite (proj2 (Z.ltb_ge i 0)) by lia.
  apply lookup_lt_is_Some. lia.
Qed.

(** ** The recent paths *)

Lemma addToRecentPaths_unfold paths newPath maxRecent :
  newPath <> [] -> 0 <= maxRecent ->
  addToRecentPaths paths newPath maxRecent
  = Some (take (Z.to_nat maxRecent) (newPath :: filter (fun p => p <> newPath) paths)).
Proof.
  intros Hp Hm. unfold addToRecentPaths. rewrite decide_False by exact Hp.
  destruct (maxRecent <? len _) eqn:Hlt.
  - apply Z.ltb_lt in Hlt. apply sliceTo_Some. lia.
  - apply Z.ltb_ge in Hlt. rewrite take_ge; [reflexivity|]. unfold len in Hlt. lia.
Qed.

Lemma addToRecentPaths_len paths newPath maxRecent l :
  newPath <> [] -> 0 <= maxRecent ->
  addToRecentPaths paths newPath maxRecent = Some l -> len l <= maxRecent.
Proof.
  intros Hp Hm. rewrite addToRecentPaths_unfold by assumption. intros [= <-].
  unfold len. rewrite length_take. lia.
Qed.

(** Adding a path to the recent paths, with room for at least one: the
    path comes first and nowhere else; what follows are earlier paths in
    the order they had; the list holds at most [maxRecent] paths; and a
    list without repetition stays so. *)
Theorem addToRecentPaths_front (paths : list gostring) (newPath : gostring) (maxRecent : Z) :
  newPath <> [] -> 0 < maxRecent ->
  exists rest,
    addToRecentPaths paths newPath maxRecent = Some (newPath :: rest)
    /\ (newPath ∉ rest)
    /\ rest `sublist_of` paths
    /\ len (newPath :: rest) <= maxRecent
    /\ (NoDup paths -> NoDup (newPath :: rest)).
Proof.
  intros Hp Hm. rewrite addToRecentPaths_unfold by (assumption || lia).
  destruct (Z.to_nat maxRecent) as [|k] eqn:Hk; [lia|]. cbn [take].
  set (filtered := filter (fun p => p <> newPath) paths).
  assert (take k filtered `sublist_of` filtered) as Hsub by apply sublist_take.
  assert (newPath ∉ filtered) as Hnot.
  { intros Hin. apply list_elem_of_filter in Hin. destruct Hin as [Hne _]. congruence. }
  exists (take k filtered). split; [reflexivity|]. split.
  { intros Hin. apply Hnot. eapply elem_of_sublist; eassumption. }
  split; [etransitivity; [exact Hsub|apply sublist_filter]|]. split.
  { unfold len. cbn [length]. rewrite length_take. lia. }
  intros Hnd. apply NoDup_cons. split.
  - intros Hin. apply Hnot. eapply elem_of_sublist; eassumption.
  - eapply sublist_NoDup; [|exact Hsub]. apply NoDup_filter, Hnd.
Qed.

(** The edges of [addToRecentPaths]: an empty path leaves the list as it
    is, however long; with no room the list is emptied; the slice
    expression panics exactly for a negative [maxRecent] and a path that is
    not empty; and adding the same path again changes nothing. *)
Theorem addToRecentPaths_edges (paths : list gostring) (newPath : gostring) (maxRecent : Z) :
  addToRecentPaths paths [] maxRecent = Some paths
  /\ (newPath <> [] -> addToRecentPaths paths newPath 0 = Some [])
  /\ (addToRecentPaths paths newPath maxRecent = None <-> newPath <> [] /\ maxRecent < 0)
  /\ (forall l, addToRecentPaths paths newPath maxRecent = Some l ->
                addToRecentPaths l newPath maxRecent = Some l).
Proof.
  split; [reflexivity|]. split.
  { intros Hp. rewrite addToRecentPaths_unfold by (assumption || lia). reflexivity. }
  split.
  { split.
    - intros Hnone. destruct (decide (newPath = [])) as [->|Hp]; [discriminate|].
      split; [exact Hp|]. destruct (Z.lt_ge_cases maxRecent 0) as [|Hge]; [assumption|].
      rewrite addToRecentPaths_unfold in Hnone by assumption. discriminate.
    - intros [Hp Hm]. unfold addToRecentPaths. rewrite decide_False by exact Hp.
      rewrite (proj2 (Z.ltb_lt maxRecent _)) by (unfold len; lia).
      apply sliceTo_None, Hm. }
  intros l Hl. destruct (decide (newPath = [])) as [->|Hp]; [reflexivity|].
  destruct (Z.lt_ge_cases maxRecent 0) as [Hm|Hm].
  { unfold addToRecentPaths in Hl. rewrite decide_False in Hl by exact Hp.
    rewrite (proj2 (Z.ltb_lt maxRecent _)) in Hl by (unfold len; lia).
    rewrite sliceTo_None in Hl by exact Hm. discriminate. }
  rewrite addToRecentPaths_unfold in Hl |- * by assumption. injection Hl as <-.
  f_equal. destruct (Z.to_nat maxRecent) as [|k]; [reflexivity|]. cbn [take].
  rewrite filter_cons, decide_False by (intros Hne; apply Hne; reflexivity).
  f_equal. set (filtered := filter (fun p => p <> newPath) paths).
  assert (filter (fun p => p <> newPath) (take k filtered) = take k filtered) as ->.
  { assert (Forall (fun p => p <> newPath) (take k filtered)) as Hall.
    { apply Forall_forall. intros x Hx.
      assert (x ∈ filtered) as Hin by (eapply elem_of_sublist; [exact Hx|apply sublist_take]).
      apply list_elem_of_filter in Hin. tauto. }
    induction Hall as [|x l Hx _ IH]; [reflexivity|].
    rewrite filter_cons, decide_True by exact Hx. f_equal. exact IH. }
  rewrite take_take. f_equal. lia.
Qed.

(** ** Wrapped text *)

Lemma wrapText_None text maxWidth : wrapText text maxWidth = None <-> maxWidth < 0.
Proof.
  unfold wrapText. destruct (len text <=? maxWidth) eqn:Hfit.
  - apply Z.leb_le in Hfit. split; [discriminate|]. unfold len in Hfit. lia.
  - apply Z.leb_gt in Hfit. destruct (3 <? maxWidth) eqn:H3.
    + apply Z.ltb_lt in H3. rewrite sliceTo_Some by lia. split; [discriminate|lia].
    + destruct (Z.lt_ge_cases maxWidth 0) as [Hneg|Hpos].
      * rewrite sliceTo_None by exact Hneg. tauto.
      * rewrite sliceTo_Some by lia. split; [discriminate|lia].
Qed.

Lemma wrapText_len text maxWidth r : wrapText text maxWidth = Some r -> len r <= maxWidth.
Proof.
  unfold wrapText. destruct (len text <=? maxWidth) eqn:Hfit.
  - apply Z.leb_le in Hfit. intros [= <-]. exact Hfit.
  - apply Z.leb_gt in Hfit. destruct (3 <? maxWidth) eqn:H3.
    + apply Z.ltb_lt in H3. rewrite sliceTo_Some by lia. intros [= <-].
      unfold len in *. rewrite length_app, length_take. cbn [length]. lia.
    + destruct (Z.lt_ge_cases maxWidth 0) as [Hneg|Hpos].
      * rewrite sliceTo_None by exact Hneg. discriminate.
      * rewrite sliceTo_Some by lia. intros [= <-]. rewrite len_take by lia. lia.
Qed.

(** [wrapText] with a width that is not negative returns the text, when it
    fits, or its first bytes, with three dots when there is room for
    them: never more than [maxWidth] bytes.  With a negative width the
    slice expression panics. *)
Theorem wrapText_fits (text : gostring) (maxWidth : Z) :
  (wrapText text maxWidth = None <-> maxWidth < 0)
  /\ forall r,
       wrapText text maxWidth = Some r ->
       len r <= maxWidth
       /\ (r = text
           \/ (maxWidth < len text /\ len r = maxWidth
               /\ exists pre, pre `prefix_of` text
                              /\ r = if 3 <? maxWidth then pre ++ str "..." else pre)).
Proof.
  unfold wrapText. destruct (len text <=? maxWidth) eqn:Hfit.
  - apply Z.leb_le in Hfit. split.
    + split; [discriminate|]. unfold len in Hfit. lia.
    + intros r [= <-]. split; [exact Hfit|left; reflexivity].
  - apply Z.leb_gt in Hfit. destruct (3 <? maxWidth) eqn:H3.
    + apply Z.ltb_lt in H3. rewrite sliceTo_Some by lia. split.
      * split; [discriminate|lia].
      * intros r [= <-].
        assert (len (take (Z.to_nat (maxWidth - 3)) text ++ str "...") = maxWidth) as Hlen.
        { unfold len in *. rewrite length_app, length_take.
          change (length (str "...")) with 3%nat. lia. }
        change ["."%char; "."%char; "."%char] with (str "...").
        split; [rewrite Hlen; lia|]. right. split; [exact Hfit|]. split; [exact Hlen|].
        exists (take (Z.to_nat (maxWidth - 3)) text). split; [apply prefix_take|reflexivity].
    + apply Z.ltb_ge in H3. destruct (Z.lt_ge_cases maxWidth 0) as [Hneg|Hpos].
      * rewrite sliceTo_None by exact Hneg. split; [tauto|discriminate].
      * rewrite sliceTo_Some by lia. split; [split; [discriminate|lia]|].
        intros r [= <-]. rewrite len_take by lia.
        split; [lia|]. right. split; [exact Hfit|]. split; [reflexivity|].
        exists (take (Z.to_nat maxWidth) text). split; [apply prefix_take|reflexivity].
Qed.

(** ** Completions and validation *)

Lemma elem_of_completionsIn dir entries c :
  c ∈ completionsIn dir entries ->
  exists name, Entry.mk name true ∈ entries
               /\ Strings.HasPrefix name (str ".") = false
               /\ c = Filepath.Join dir name.
Proof.
  unfold completionsIn. intros Hc. apply list_elem_of_omap in Hc.
  destruct Hc as ([name isdir] & Hin & Hsome). cbn [Entry.IsDir Entry.Name] in Hsome.
  destruct isdir; cbn [negb] in Hsome; [|discriminate].
  destruct (Strings.HasPrefix name (str ".")) eqn:Hhid; [discriminate|].
  injection Hsome as <-. exists name. auto.
Qed.

Lemma elem_of_completionsWith {tables : Unicode.CaseTables} dir prefix entries c :
  c ∈ completionsWith dir prefix entries ->
  exists name, Entry.mk name true ∈ entries
               /\ Strings.HasPrefix name (str ".") = false
               /\ (prefix = []
                   \/ Strings.HasPrefix (Strings.ToLower name) (Strings.ToLower prefix) = true)
               /\ c = Filepath.Join dir name.
Proof.
  unfold completionsWith. intros Hc. apply list_elem_of_omap in Hc.
  destruct Hc as ([name isdir] & Hin & Hsome). cbn [Entry.IsDir Entry.Name] in Hsome.
  destruct isdir; cbn [negb] in Hsome; [|discriminate].
  destruct (Strings.HasPrefix name (str ".")) eqn:Hhid; [discriminate|].
  destruct (bool_decide (prefix = []) || _) eqn:Hpre; [|discriminate].
  injection Hsome as <-. exists name. repeat split; try assumption.
  apply orb_true_iff in Hpre. destruct Hpre as [Hpre|Hpre]; [left|right; exact Hpre].
  apply bool_decide_eq_true in Hpre. exact Hpre.
Qed.

(** Every completion offered for a path is a directory that is not hidden,
    joined to the directory that lists it: the path itself when it is a
    directory, and else its parent, which must exist, and then the name
    begins with the last element of the path, whatever the case of the
    letters.  A path that [validatePath] finds invalid has no completion,
    and only the empty path has the status 0. *)
Theorem completions_are_directories {tables : Unicode.CaseTables} (h : Host) (path : gostring) :
  (forall c, c ∈ pathCompletions h path ->
     let p := Strings.TrimSpace path in
     exists dir entries name,
       os_ReadDir h dir = Ok entries
       /\ Entry.mk name true ∈ entries
       /\ Strings.HasPrefix name (str ".") = false
       /\ c = Filepath.Join dir name
       /\ statOK h dir = true
       /\ ((statIsDir h p = true /\ dir = p)
           \/ (statIsDir h p = false /\ dir = Filepath.Dir p
               /\ Strings.HasPrefix (Strings.ToLower name)
                                    (Strings.ToLower (Filepath.Base p)) = true)))
  /\ (validatePath h path = 3 -> getPathCompletions h path = [])
  /\ (validatePath h path = 0 <-> path = []).
Proof.
  split; [|split].
  - intros c Hc p. unfold pathCompletions in Hc. fold p in Hc.
    destruct (statIsDir h p) eqn:Hdir.
    + destruct (os_ReadDir h p) as [entries|e] eqn:Hrd; [|inversion Hc].
      destruct (elem_of_completionsIn _ _ _ Hc) as (name & Hin & Hhid & ->).
      exists p, entries, name. repeat split; try assumption.
      * unfold statIsDir in Hdir. unfold statOK. destruct (os_Stat h p); [reflexivity|discriminate].
      * left. split; reflexivity.
    + destruct (statOK h (Filepath.Dir p)) eqn:Hok; cbn [negb] in Hc; [|inversion Hc].
      destruct (os_ReadDir h (Filepath.Dir p)) as [entries|e] eqn:Hrd; [|inversion Hc].
      destruct (elem_of_completionsWith _ _ _ _ Hc) as (name & Hin & Hhid & Hpre & ->).
      exists (Filepath.Dir p), entries, name. repeat split; try assumption.
      right. repeat split. destruct Hpre as [Hpre|Hpre]; [|exact Hpre].
      exfalso. revert Hpre. unfold Filepath.Base. destruct p as [|c0 p0]; [discriminate|].
      destruct (rev _); discriminate.
  - unfold validatePath, getPathCompletions. destruct path as [|c0 path0]; [discriminate|].
    unfold pathCompletions. destruct (statIsDir h _); [discriminate|].
    destruct (statOK h _); [discriminate|]. reflexivity.
  - unfold validatePath. destruct path as [|c0 path0]; [tauto|].
    destruct (statIsDir h _); [split; discriminate|].
    destruct (statOK h _); split; discriminate.
Qed.

(** ** Joining two elements *)

Lemma joinElems_two a b : joinElems [a; b] = Filepath.Join a b.
Proof.
  unfold joinElems, Filepath.Join.
  destruct a as [|c a]; [|reflexivity]. rewrite decide_True by reflexivity.
  destruct b as [|c b]; [reflexivity|]. rewrite decide_False by discriminate. reflexivity.
Qed.

(** ** The interface *)

(** The tests of [msg.String()] against the literals of a [switch], on a
    key whose name is known. *)
Ltac switch_key :=
  repeat match goal with
         | |- context [keyIn ?key ?keys] =>
             let b := eval vm_compute in (keyIn key keys) in
             change (keyIn key keys) with b
         end;
  cbv iota.

Section InterfaceFacts.

Context `{TeaOps} {tables : Unicode.CaseTables}.

(** ** The indices *)

Lemma updateInput_form h msg m :
formOK (Model.form m) -> browserOK (Model.browser m) ->
indicesOK (next (updateInput h msg m)).
Proof.
intros Hf Hb. unfold updateInput.
destruct (Form.focus (Model.form m) =? 0).
{ destruct (ti_Update msg _) as [x c]. split; [exact Hf|exact Hb]. }
destruct (Form.focus (Model.form m) =? 1).
{ destruct (ti_Update msg _) as [x c]. split; [exact Hf|exact Hb]. }
destruct (Form.focus (Model.form m) =? 2).
{ destruct (ti_Update msg _) as [x c]. split; [exact Hf|exact Hb]. }
split; [exact Hf|exact Hb].
Qed.

Lemma setFocus_form m :
0 <= Form.focus (Model.form m) < 3 -> browserOK (Model.browser m) ->
formOK (Model.form (setFocus m)) /\ browserOK (Model.browser (setFocus m)).
Proof.
intros Hf Hb. unfold setFocus. cbn.
destruct (Form.focus (Model.form m) =? 0); [split; [split; [exact Hf|discriminate]|exact Hb]|].
destruct (Form.focus (Model.form m) =? 1); [split; [split; [exact Hf|discriminate]|exact Hb]|].
destruct (Form.focus (Model.form m) =? 2); split; (split; [exact Hf|discriminate]) || exact Hb.
Qed.

Lemma moveFocus_ok h msg m d :
indicesOK m -> 0 <= d ->
indicesOK (next (updateInput h msg
   (setFocus (withForm (withFocus (Z.rem (Form.focus (Model.form m) + d) 3)
                                  (Model.form m)) m)))).
Proof.
intros [[Hfoc Hshow] Hb] Hd.
pose proof (Z.rem_bound_pos (Form.focus (Model.form m) + d) 3 ltac:(lia) ltac:(lia)) as Hrem.
destruct (setFocus_form (withForm (withFocus (Z.rem (Form.focus (Model.form m) + d) 3)
                                             (Model.form m)) m)) as [Hform Hbrow];
  [cbn; lia|exact Hb|].
apply updateInput_form; assumption.
Qed.

Lemma handleTabCompletion_ok h m : indicesOK m -> indicesOK (next (handleTabCompletion h m)).
Proof.
intros [[Hfoc Hshow] Hb]. unfold handleTabCompletion.
destruct (getPathCompletions h _) as [|c0 [|c1 cs]]; cbn [next].
- split; [split|]; assumption.
- split; [|exact Hb]. unfold setFocused.
  destruct (Form.focus (Model.form m) =? 0); split; assumption.
- split; [|exact Hb]. split; [exact Hfoc|]. intros _. cbn. unfold len. cbn [length]. lia.
Qed.

Lemma moveCompletion_ok m d :
indicesOK m -> 0 <= d ->
Form.showingCompletions (Model.form m) && (0 <? len (Form.completions (Model.form m))) = true ->
stepOK match goRem (Form.completionIndex (Model.form m) + d)
                   (len (Form.completions (Model.form m))) with
       | None => None
       | Some i =>
           Some (mkStep (withForm (withCompletions (Form.completions (Model.form m)) i
                                     (Form.showingCompletions (Model.form m))
                                     (Model.form m)) m) CmdNil [])
       end.
Proof.
intros [[Hfoc Hshow] Hb] Hd Hs. apply andb_true_iff in Hs. destruct Hs as [Hs Hlen].
apply Z.ltb_lt in Hlen. specialize (Hshow Hs). unfold goRem.
rewrite (proj2 (Z.eqb_neq _ 0)) by lia. cbn [stepOK next].
split; [|exact Hb]. split; [exact Hfoc|]. intros _. cbn.
apply Z.rem_bound_pos; lia.
Qed.

Lemma selectCompletion_ok m : indicesOK m -> stepOK (selectCompletion m).
Proof.
intros Hm. pose proof Hm as [[Hfoc Hshow] Hb]. unfold selectCompletion.
destruct (Form.showingCompletions (Model.form m)) eqn:Hs; cbn [negb orb]; [|exact Hm].
destruct (len (Form.completions (Model.form m)) =? 0); [exact Hm|].
destruct (index_Some _ _ (Hshow eq_refl)) as [c Hc]. rewrite Hc. cbn [stepOK next].
split; [|exact Hb]. unfold setFocused.
destruct (Form.focus (Model.form m) =? 0); (split; [exact Hfoc|discriminate]).
Qed.

Lemma submit_ok h m : indicesOK m -> stepOK (submit h m).
Proof.
intros [[Hfoc Hshow] Hb]. unfold submit.
destruct (decide _); [split; [split|]; assumption|].
destruct (negb (statOK h _)); [split; [split|]; assumption|].
destruct (negb (os_MkdirAll h _)); [split; [split|]; assumption|].
rewrite addToRecentPaths_unfold by (assumption || lia).
split; [split|]; assumption.
Qed.

Lemma digit_keys key :
keyIn key [str "1"; str "2"; str "3"; str "4"; str "5"; str "6"; str "7"; str "8"; str "9"]
= true ->
exists i, digitIndex key = Some i /\ 0 <= i < 9
          /\ key = [ascii_of_N (Z.to_N (49 + i))].
Proof.
unfold keyIn. intros Hk. apply bool_decide_eq_true in Hk.
repeat (apply elem_of_cons in Hk; destruct Hk as [->|Hk];
        [solve [ exists 0; split; [reflexivity|split; [lia|reflexivity]]
               | exists 1; split; [reflexivity|split; [lia|reflexivity]]
               | exists 2; split; [reflexivity|split; [lia|reflexivity]]
               | exists 3; split; [reflexivity|split; [lia|reflexivity]]
               | exists 4; split; [reflexivity|split; [lia|reflexivity]]
               | exists 5; split; [reflexivity|split; [lia|reflexivity]]
               | exists 6; split; [reflexivity|split; [lia|reflexivity]]
               | exists 7; split; [reflexivity|split; [lia|reflexivity]]
               | exists 8; split; [reflexivity|split; [lia|reflexivity]] ]|]).
inversion Hk.
Qed.

Lemma selectRecent_ok h key m :
keyIn key [str "1"; str "2"; str "3"; str "4"; str "5"; str "6"; str "7"; str "8"; str "9"]
= true ->
indicesOK m -> stepOK (selectRecent h key m).
Proof.
intros Hk [[Hfoc Hshow] Hb]. destruct (digit_keys key Hk) as (i & Hi & Hrange & _).
unfold selectRecent. rewrite Hi.
destruct (0 <? len _); [|split; [split|]; assumption].
destruct (i <? len _) eqn:Hlt; [|split; [split|]; assumption].
apply Z.ltb_lt in Hlt.
destruct (index_Some (Form.recentPaths (Model.form m)) i ltac:(lia)) as [p Hp].
rewrite Hp. split; [split|]; assumption.
Qed.

Lemma updateForm_ok h m msg : indicesOK m -> stepOK (updateForm h m msg).
Proof.
intros Hm. pose proof Hm as [[Hfoc Hshow] Hb]. unfold updateForm.
destruct msg as [k|ws| | | | | | | ];
  try (apply updateInput_form; [split; [exact Hfoc|exact Hshow]|exact Hb]).
destruct (keyIn (key_String k) [str "tab"]).
{ destruct ((Form.focus (Model.form m) =? 0) || (Form.focus (Model.form m) =? 1)).
  - apply handleTabCompletion_ok, Hm.
  - apply moveFocus_ok; [exact Hm|lia]. }
destruct (keyIn (key_String k) [str "down"]).
{ destruct (Form.showingCompletions (Model.form m) && _) eqn:Hs.
  - apply moveCompletion_ok; [exact Hm|lia|exact Hs].
  - apply moveFocus_ok; [exact Hm|lia]. }
destruct (keyIn (key_String k) [str "shift+tab"; str "up"]).
{ destruct (Form.showingCompletions (Model.form m) && _) eqn:Hs.
  - apply moveCompletion_ok; [exact Hm| |exact Hs].
    apply andb_true_iff in Hs. destruct Hs as [_ Hs]. apply Z.ltb_lt in Hs. lia.
  - apply moveFocus_ok; [exact Hm|lia]. }
destruct (keyIn (key_String k) [str " "]).
{ apply updateInput_form; [split; [exact Hfoc|exact Hshow]|exact Hb]. }
destruct (keyIn (key_String k) [str "ctrl+b"]).
{ split; [split; assumption|]. split; cbn; [lia|right; reflexivity]. }
destruct (keyIn (key_String k) [str "enter"]).
{ destruct (Form.showingCompletions (Model.form m) && _).
  - apply selectCompletion_ok, Hm.
  - apply submit_ok, Hm. }
destruct (keyIn (key_String k) [str "esc"]).
{ destruct (Form.showingCompletions (Model.form m)).
  - split; [|exact Hb]. split; [exact Hfoc|discriminate].
  - exact Hm. }
destruct (keyIn (key_String k) [str "q"; str "ctrl+c"]); [exact Hm|].
destruct (keyIn (key_String k) [str "?"; str "h"; str "F1"]); [exact Hm|].
destruct (keyIn (key_String k) _) eqn:Hdigit.
{ apply selectRecent_ok; assumption. }
apply updateInput_form; [split; [exact Hfoc|exact Hshow]|exact Hb].
Qed.

Lemma updateBrowser_ok m msg : indicesOK m -> stepOK (updateBrowser m msg).
Proof.
intros Hm. pose proof Hm as [Hf [Hsel0 Hsel]]. unfold updateBrowser.
destruct msg as [k|ws| | | | |entries|e| ]; try exact Hm.
- destruct (keyIn (key_String k) [str "q"; str "esc"]); [exact Hm|].
  destruct (keyIn (key_String k) [str "?"; str "h"; str "F1"]); [exact Hm|].
  destruct (keyIn (key_String k) [str "up"; str "k"]).
  { destruct (0 <? _) eqn:Hpos; [|exact Hm]. apply Z.ltb_lt in Hpos.
    split; [exact Hf|]. split; cbn; lia. }
  destruct (keyIn (key_String k) [str "down"; str "j"]).
  { destruct (_ <? _) eqn:Hlt; [|exact Hm]. apply Z.ltb_lt in Hlt.
    split; [exact Hf|]. split; cbn; lia. }
  destruct (keyIn (key_String k) [str "enter"]).
  { destruct (0 <? _) eqn:Hpos; [|exact Hm]. apply Z.ltb_lt in Hpos.
    destruct (index_Some (Browser.entries (Model.browser m))
                         (Browser.selected (Model.browser m)) ltac:(lia)) as [entry He].
    rewrite He. destruct (Entry.IsDir entry).
    - split; [exact Hf|]. split; cbn; assumption.
    - split; [exact Hf|]. split; cbn; assumption. }
  destruct (keyIn (key_String k) [str " "]); [|exact Hm].
  split; [exact Hf|]. split; cbn; assumption.
- split; [exact Hf|]. split; cbn; [lia|right; reflexivity].
Qed.

Lemma Update_ok h m msg : indicesOK m -> stepOK (Update h m msg).
Proof.
intros Hm. unfold Update. destruct (Model.state m).
- apply updateForm_ok, Hm.
- apply updateBrowser_ok, Hm.
- unfold updateScan. destruct msg as [k| |t| | | | | | ]; try exact Hm.
  + destruct (keyIn _ _); [exact Hm|]. destruct (keyIn _ _); exact Hm.
  + destruct (spin_Update t _). exact Hm.
- destruct msg; exact Hm.
- unfold updateHelp. destruct msg; exact Hm.
Qed.

(** No sequence of messages makes [Update] panic: from the model [main]
  builds, and from any model whose indices are within their slices,
  every call returns, whatever the host answers, and leaves the focus on
  one of the three fields, the completion shown among the completions and
  the selection of the browser among its entries. *)
Theorem session_never_panics (m : Model.t) (inputs : list (Host * Msg)) :
indicesOK m ->
exists m', session m inputs = Some m' /\ indicesOK m'.
Proof.
revert m. induction inputs as [|[h msg] inputs IH]; intros m Hm.
- exists m. split; [reflexivity|exact Hm].
- cbn [session]. pose proof (Update_ok h m msg Hm) as Hs.
  destruct (Update h m msg) as [s|]; [|contradiction]. apply IH, Hs.
Qed.

Lemma initialModel_ok root outDir ext s config :
indicesOK (initialModel root outDir ext s config).
Proof. split; split; cbn; (lia || discriminate || (right; reflexivity)). Qed.

(** ** Help and the end *)

Lemma help_key m key :
key ∈ [str "?"; str "h"; str "F1"] ->
(forall h k, key_String k = key -> Model.state m = stateForm ->
   updateForm h m (MsgKey k)
   = Some (mkStep (withState stateHelp (withPreviousState (Model.state m) m)) CmdNil []))
/\ (forall k, key_String k = key ->
      updateBrowser m (MsgKey k)
      = Some (mkStep (withState stateHelp (withPreviousState (Model.state m) m)) CmdNil []))
/\ (forall k, key_String k = key ->
      updateScan m (MsgKey k)
      = mkStep (withState stateHelp (withPreviousState (Model.state m) m)) CmdNil []).
Proof.
intros Hkey. repeat (apply elem_of_cons in Hkey; destruct Hkey as [->|Hkey]);
  try (inversion Hkey; fail);
  (split; [|split]); intros; unfold updateForm, updateBrowser, updateScan;
  match goal with Hk : key_String _ = _ |- _ => rewrite Hk end;
  switch_key; reflexivity.
Qed.

(** Help is a round trip.  From the form, the browser or the scan, one of
  the help keys shows the help without a command, and any key then brings
  back the model as it was, with its state, form, browser and counts. *)
Theorem help_round_trip (h h' : Host) (m : Model.t) (k k' : KeyMsg) :
Model.state m <> stateDone -> Model.state m <> stateHelp ->
key_String k ∈ [str "?"; str "h"; str "F1"] ->
exists s1,
  Update h m (MsgKey k) = Some s1
  /\ Model.state (next s1) = stateHelp
  /\ cmd s1 = CmdNil /\ effects s1 = []
  /\ Update h' (next s1) (MsgKey k')
     = Some (mkStep (withPreviousState (Model.state m) m) CmdNil []).
Proof.
intros Hd Hh Hkey.
destruct (help_key m (key_String k) Hkey) as (Hform & Hbrowser & Hscan).
exists (mkStep (withState stateHelp (withPreviousState (Model.state m) m)) CmdNil []).
split; [|repeat split].
unfold Update. destruct (Model.state m) eqn:Hs; try contradiction.
- apply Hform; reflexivity.
- apply Hbrowser. reflexivity.
- f_equal. apply Hscan. reflexivity.
Qed.

(** The end of a scan.  The command of [runScan], when it returns, returns
  the one message [doneMsg] with the error of the run; in the scanning
  state that message puts the error into the model, moves to the final
  state and quits; when the database works the error is nil.  In the
  final state no message changes the model, and every key quits. *)
Theorem scan_result_reaches_model (h : Host) (m : Model.t) (w : World) (db0 : Store)
  (root dbPath : gostring) (extFilter : gset gostring) (hash : bool) :
Model.state m = stateScanning ->
let r := runScan w db0 root extFilter hash in
match runScanMsg w db0 (CmdRunScan root dbPath extFilter hash) with
| Some msg =>
    exists e, msg = MsgDone e /\ run_done r = Some (mkDone e)
              /\ Update h m msg
                 = Some (mkStep (withErr e (withState stateDone m)) CmdQuit [])
| None => run_done r = None
end
/\ ((forall k, sql_fault w k = None) ->
    runScanMsg w db0 (CmdRunScan root dbPath extFilter hash) = Some (MsgDone None))
/\ (forall e h' msg,
      exists c, Update h' (withErr e (withState stateDone m)) msg
                = Some (mkStep (withErr e (withState stateDone m)) c [])
                /\ (c = CmdQuit \/ c = CmdNil)
                /\ (forall k, msg = MsgKey k -> c = CmdQuit)).
Proof.
intros Hs r. split; [|split].
- unfold runScanMsg. fold r. destruct (run_done r) as [[e]|]; [|reflexivity].
  exists e. repeat split. unfold Update. rewrite Hs. reflexivity.
- intros Hno. unfold runScanMsg.
  pose proof (run_upserts w db0 root extFilter hash Hno) as (_ & _ & Hd & _).
  cbv zeta in Hd. rewrite Hd. reflexivity.
- intros e h' msg. unfold Update. cbn [Model.state withErr withState].
  destruct msg; eexists; (split; [reflexivity|]); split; auto; intros; discriminate.
Qed.

(** ** The start of a scan *)

Lemma scanOf_updateInput h msg m : scanOf (cmd (updateInput h msg m)) = None.
Proof.
unfold updateInput.
destruct (_ =? 0); [destruct (ti_Update msg _); reflexivity|].
destruct (_ =? 1); [destruct (ti_Update msg _); reflexivity|].
destruct (_ =? 2); [destruct (ti_Update msg _); reflexivity|reflexivity].
Qed.

Lemma keyIn_singleton key a : keyIn key [a] = true -> key = a.
Proof.
unfold keyIn. intros Hk. apply bool_decide_eq_true in Hk.
apply list_elem_of_singleton in Hk. exact Hk.
Qed.

(** A command that starts a scan comes from the case ["enter"] of the form. *)
Lemma Update_scan_is_submit h m msg s root dbPath extFilter hash :
Update h m msg = Some s ->
scanOf (cmd s) = Some (root, dbPath, extFilter, hash) ->
Model.state m = stateForm
/\ (exists k, msg = MsgKey k /\ key_String k = str "enter")
/\ submit h m = Some s.
Proof.
intros Hup Hscan. unfold Update in Hup.
destruct (Model.state m) eqn:Hstate.
- (* the form *)
  split; [reflexivity|]. unfold updateForm in Hup.
  assert (forall m', Some (updateInput h msg m') = Some s -> False) as Hin.
  { intros m' [= <-]. rewrite scanOf_updateInput in Hscan. discriminate. }
  destruct msg as [k|ws| | | | | | | ]; try (exfalso; eapply Hin; exact Hup).
  destruct (keyIn (key_String k) [str "tab"]).
  { destruct (_ || _); [|exfalso; eapply Hin; exact Hup].
    injection Hup as <-. unfold handleTabCompletion in Hscan.
    destruct (getPathCompletions h _) as [|c0 [|c1 cs]]; discriminate. }
  destruct (keyIn (key_String k) [str "down"]).
  { destruct (_ && _); [|exfalso; eapply Hin; exact Hup].
    destruct (goRem _ _); [|discriminate]. injection Hup as <-. discriminate. }
  destruct (keyIn (key_String k) [str "shift+tab"; str "up"]).
  { destruct (_ && _); [|exfalso; eapply Hin; exact Hup].
    destruct (goRem _ _); [|discriminate]. injection Hup as <-. discriminate. }
  destruct (keyIn (key_String k) [str " "]); [exfalso; eapply Hin; exact Hup|].
  destruct (keyIn (key_String k) [str "ctrl+b"]); [injection Hup as <-; discriminate|].
  destruct (keyIn (key_String k) [str "enter"]) eqn:Henter.
  { split; [exists k; split; [reflexivity|apply keyIn_singleton, Henter]|].
    destruct (_ && _); [|exact Hup].
    exfalso. unfold selectCompletion in Hup.
    destruct (_ || _); [injection Hup as <-; discriminate|].
    destruct (index _ _); [|discriminate]. injection Hup as <-. discriminate. }
  exfalso.
  destruct (keyIn (key_String k) [str "esc"]).
  { destruct (Form.showingCompletions _); injection Hup as <-; discriminate. }
  destruct (keyIn (key_String k) [str "q"; str "ctrl+c"]); [injection Hup as <-; discriminate|].
  destruct (keyIn (key_String k) [str "?"; str "h"; str "F1"]);
    [injection Hup as <-; discriminate|].
  destruct (keyIn (key_String k)
              [str "1"; str "2"; str "3"; str "4"; str "5"; str "6"; str "7"; str "8";
               str "9"]).
  { unfold selectRecent in Hup.
    destruct (0 <? len (Form.recentPaths (Model.form m)));
      [|injection Hup as <-; discriminate].
    destruct (digitIndex _) as [i|]; [|discriminate].
    destruct (i <? len (Form.recentPaths (Model.form m)));
      [|injection Hup as <-; discriminate].
    destruct (index _ _); [|discriminate]. injection Hup as <-. discriminate. }
  eapply Hin. exact Hup.
- (* the browser *)
  exfalso. unfold updateBrowser in Hup.
  destruct msg as [k|ws| | | | |entries|e| ]; try (injection Hup as <-; discriminate).
  repeat (destruct (keyIn (key_String k) _); [try (injection Hup as <-; discriminate)|]);
    try (injection Hup as <-; discriminate).
  + destruct (0 <? _); injection Hup as <-; discriminate.
  + destruct (_ <? _); injection Hup as <-; discriminate.
  + destruct (0 <? _); [|injection Hup as <-; discriminate].
    destruct (index _ _) as [entry|]; [|discriminate].
    destruct (Entry.IsDir entry); injection Hup as <-; discriminate.
- exfalso. injection Hup as <-. unfold updateScan in Hscan.
  destruct msg as [k| |t| | | | | | ]; try discriminate.
  + repeat (destruct (keyIn _ _); [discriminate|]). discriminate.
  + destruct (spin_Update t _). discriminate.
- exfalso. destruct msg; injection Hup as <-; discriminate.
- exfalso. injection Hup as <-. unfold updateHelp in Hscan. destruct msg; discriminate.
Qed.

(** What [submit] did when it started a scan. *)
Lemma submit_scan h m s root dbPath extFilter hash :
submit h m = Some s ->
scanOf (cmd s) = Some (root, dbPath, extFilter, hash) ->
let f := Model.form m in
let outText := Strings.TrimSpace (ti_Value (Form.outDir f)) in
let outDir :=
  if decide (outText = []) then Filepath.Join (homeDir h) (str "spcatalog") else outText in
root = Strings.TrimSpace (ti_Value (Form.root f))
/\ root <> []
/\ statOK h root = true
/\ os_MkdirAll h outDir = true
/\ dbPath = Filepath.Join outDir (str "catalog.db")
/\ extFilter = parseExtSet (Strings.TrimSpace (ti_Value (Form.ext f)))
/\ hash = Form.hashOn f
/\ next s = withStart time_Now (withState stateScanning (withDbPath dbPath m))
/\ exists recent,
     addToRecentPaths (Form.recentPaths f) root 9 = Some recent
     /\ effects s
        = EffMkdirAll outDir
          :: saveConfig h (Config.mk recent 9 root outDir
                             (Strings.TrimSpace (ti_Value (Form.ext f))) hash).
Proof.
intros Hup Hscan f outText outDir. unfold submit in Hup. cbv zeta in Hup.
fold f in Hup. fold outText in Hup. fold outDir in Hup.
destruct (decide (Strings.TrimSpace (ti_Value (Form.root f)) = [])) as [|Hroot];
  [injection Hup as <-; discriminate|].
destruct (statOK h _) eqn:Hstat; cbn [negb] in Hup; [|injection Hup as <-; discriminate].
destruct (os_MkdirAll h outDir) eqn:Hmk; cbn [negb] in Hup;
  [|injection Hup as <-; discriminate].
destruct (addToRecentPaths _ _ _) as [recent|] eqn:Hrecent; [|discriminate].
injection Hup as <-. cbn [cmd scanOf] in Hscan. injection Hscan as <- <- <- <-.
repeat split; try assumption. exists recent. split; [exact Hrecent|reflexivity].
Qed.

(** A scan starts in one way only: by Enter in the form, with no
  completion shown, on a root that is not empty once trimmed and that
  [os.Stat] accepts, after the output directory was made.  The scan gets
  that root, the database [catalog.db] of the output directory, the hash
  setting of the form and the filter parsed from the extension field,
  whose members all begin with a dot; the model goes to the scanning
  state and remembers the database. *)
Theorem scan_starts_from_valid_form (h : Host) (m : Model.t) (msg : Msg) (s : Step)
  (root dbPath : gostring) (extFilter : gset gostring) (hash : bool) :
Update h m msg = Some s ->
scanOf (cmd s) = Some (root, dbPath, extFilter, hash) ->
Model.state m = stateForm
/\ (exists k, msg = MsgKey k /\ key_String k = str "enter")
/\ root = Strings.TrimSpace (ti_Value (Form.root (Model.form m)))
/\ root <> []
/\ statOK h root = true
/\ extFilter = parseExtSet (Strings.TrimSpace (ti_Value (Form.ext (Model.form m))))
/\ (forall x, x ∈ extFilter -> head x = Some "."%char)
/\ hash = Form.hashOn (Model.form m)
/\ Model.state (next s) = stateScanning
/\ Model.dbPath (next s) = dbPath
/\ exists outDir,
     dbPath = Filepath.Join outDir (str "catalog.db")
     /\ os_MkdirAll h outDir = true
     /\ In (EffMkdirAll outDir) (effects s).
Proof.
intros Hup Hscan.
destruct (Update_scan_is_submit _ _ _ _ _ _ _ _ Hup Hscan) as (Hstate & Hkey & Hsub).
destruct (submit_scan _ _ _ _ _ _ _ Hsub Hscan)
  as (Hroot & Hne & Hstat & Hmk & Hdb & Hext & Hhash & Hnext & recent & _ & Heff).
split; [exact Hstate|]. split; [exact Hkey|]. split; [exact Hroot|].
split; [exact Hne|]. split; [exact Hstat|]. split; [exact Hext|]. split.
{ intros x Hx. rewrite Hext in Hx. apply elem_of_parseExtSet_tokens in Hx.
  destruct Hx as (tok & _ & Hx). apply (normalizeExt_shape _ _ Hx). }
split; [exact Hhash|]. rewrite Hnext. split; [reflexivity|]. split; [reflexivity|].
eexists. split; [exact Hdb|]. split; [exact Hmk|]. rewrite Heff. left. reflexivity.
Qed.

(** What is saved when a scan starts.  The output directory is made, and
  when the home directory is known the configuration file in it is
  written, with the root as last root and first of at most nine recent
  paths, the output directory, the extension field and the hash setting
  of the scan; when [os.UserHomeDir] fails nothing is written. *)
Theorem scan_start_saves_config (h : Host) (m : Model.t) (msg : Msg) (s : Step)
  (root dbPath : gostring) (extFilter : gset gostring) (hash : bool) :
Update h m msg = Some s ->
scanOf (cmd s) = Some (root, dbPath, extFilter, hash) ->
exists outDir recent,
  let config :=
    Config.mk recent 9 root outDir
              (Strings.TrimSpace (ti_Value (Form.ext (Model.form m)))) hash in
  dbPath = Filepath.Join outDir (str "catalog.db")
  /\ head recent = Some root
  /\ len recent <= 9
  /\ addToRecentPaths (Form.recentPaths (Model.form m)) root 9 = Some recent
  /\ match os_UserHomeDir h with
     | Some (c, rest) =>
         effects s
         = [EffMkdirAll outDir;
            EffWriteConfig (Filepath.Join (c :: rest) (str ".spcatalog_config.json")) config]
     | None => effects s = [EffMkdirAll outDir]
     end.
Proof.
intros Hup Hscan.
destruct (Update_scan_is_submit _ _ _ _ _ _ _ _ Hup Hscan) as (_ & _ & Hsub).
destruct (submit_scan _ _ _ _ _ _ _ Hsub Hscan)
  as (_ & Hne & _ & _ & Hdb & _ & _ & _ & recent & Hrecent & Heff).
eexists. exists recent. cbv zeta. split; [exact Hdb|].
assert (0 <= 9)%Z as Hnine by lia.
pose proof Hrecent as Hshape. rewrite (addToRecentPaths_unfold _ _ 9 Hne Hnine) in Hshape.
split; [injection Hshape as <-; reflexivity|].
split; [apply (addToRecentPaths_len _ _ 9 _ Hne Hnine Hrecent)|].
split; [exact Hrecent|].
rewrite Heff. unfold saveConfig, getConfigPath.
destruct (os_UserHomeDir h) as [[c rest]|]; [|reflexivity].
destruct (decide (Filepath.Join (c :: rest) (str ".spcatalog_config.json") = [])) as [E|_];
  [|reflexivity].
exfalso. revert E. apply FilepathFacts.Clean_nonempty.
Qed.

End InterfaceFacts.

(** ** The directory of a joined path *)

Module DirFacts.
Import Strings Filepath StringsFacts FilepathFacts JoinFacts CleanFacts.

Lemma skipElem_nosep r : Separator ∉ r -> skipElem r = [].
Proof.
  induction r as [|c r IH]; intros Hr; [reflexivity|]. cbn [skipElem].
  rewrite not_elem_of_cons in Hr. destruct Hr as [Hc Hr].
  unfold IsPathSeparator. rewrite bool_decide_eq_false_2 by congruence. apply IH, Hr.
Qed.

Lemma skipElem_app r1 r2 :
  Separator ∉ r1 -> skipElem (r1 ++ Separator :: r2) = Separator :: r2.
Proof.
  induction r1 as [|c r1 IH]; intros Hr; cbn [app skipElem].
  - unfold IsPathSeparator. rewrite bool_decide_eq_true_2 by reflexivity. reflexivity.
  - rewrite not_elem_of_cons in Hr. destruct Hr as [Hc Hr].
    unfold IsPathSeparator. rewrite bool_decide_eq_false_2 by congruence. apply IH, Hr.
Qed.

Lemma not_elem_of_rev (c : ascii) n : c ∉ n -> c ∉ rev n.
Proof. intros Hn Hin. apply Hn. apply list_elem_of_In, in_rev, list_elem_of_In, Hin. Qed.

Lemma Dir_snoc a n : Separator ∉ n -> Dir (a ++ Separator :: n) = Clean (a ++ [Separator]).
Proof.
  intros Hn. unfold Dir. rewrite rev_app_distr. cbn [rev]. rewrite <- app_assoc. cbn [app].
  rewrite skipElem_app by (apply not_elem_of_rev, Hn).
  cbn [rev]. rewrite rev_involutive. reflexivity.
Qed.

Lemma Dir_nosep n : Separator ∉ n -> Dir n = str ".".
Proof.
  intros Hn. unfold Dir. rewrite skipElem_nosep by (apply not_elem_of_rev, Hn). reflexivity.
Qed.

Lemma Clean_trailing_sep p : p <> [] -> Clean (p ++ [Separator]) = Clean p.
Proof.
  destruct p as [|c p]; [contradiction|]. intros _. unfold Clean. cbn [app].
  change (c :: p ++ [Separator]) with ((c :: p) ++ Separator :: []).
  rewrite Split_app, foldl_app.
  change (Split [] Separator) with [@nil ascii]. cbn [foldl].
  destruct (foldl (clean_step (IsPathSeparator c)) ([], 0%nat) (Split (c :: p) Separator))
    as [out dd].
  unfold clean_step. rewrite decide_True by reflexivity. reflexivity.
Qed.

(** The directory of a proper name joined to a cleaned path is that path. *)
Lemma Dir_Join p n : isClean p -> validName n -> Dir (Filepath.Join p n) = p.
Proof.
  intros Hp0 Hn. pose proof (isClean_nonempty p Hp0) as Hne.
  pose proof Hn as (_ & Hsep & _).
  unfold isClean in Hp0. pose proof Hp0 as Hp. unfold Filepath.Join.
  destruct p as [|c p']; [contradiction|].
  change ((c :: p') ++ [Separator] ++ n) with ((c :: p') ++ Separator :: n).
  unfold Clean in Hp. unfold Clean at 1. cbn [app].
  change (c :: p' ++ Separator :: n) with ((c :: p') ++ Separator :: n).
  rewrite Split_app, (Split_nosep n Hsep), foldl_app. cbn [foldl].
  pose proof (clean_fold_OK (IsPathSeparator c) (Split (c :: p') Separator) [] 0%nat
                (Split_no_sep _ _) (List.Forall_nil _)) as Hok.
  destruct (foldl (clean_step (IsPathSeparator c)) ([], 0%nat) (Split (c :: p') Separator))
    as [out dd]. cbn [fst] in Hok.
  rewrite (clean_step_real _ _ _ _ Hn). cbn [rev].
  destruct out as [|e out].
  - cbn [rev app Strings.Join] in *. destruct (IsPathSeparator c).
    + rewrite <- Hp. apply (Dir_snoc [] n Hsep).
    + rewrite <- Hp. apply Dir_nosep, Hsep.
  - assert (rev (e :: out) <> []) as Hr.
    { intros E. apply (f_equal (@rev _)) in E. rewrite rev_involutive in E. discriminate. }
    rewrite (Join_snoc _ _ _ Hr). cbn [app].
    destruct (IsPathSeparator c).
    + rewrite app_comm_cons, Hp, Dir_snoc by exact Hsep.
      rewrite Clean_trailing_sep by discriminate. exact Hp0.
    + rewrite Hp, Dir_snoc by exact Hsep.
      rewrite Clean_trailing_sep by discriminate. exact Hp0.
Qed.

End DirFacts.

Lemma Join_not_root p n :
  validName n -> Filepath.Join p n <> str "/" /\ Filepath.Join p n <> [].
Proof.
  intros Hn. pose proof Hn as (Hne & Hsep & _).
  destruct (JoinFacts.Join_last_elem p n Hn) as (pre & Hj & _). rewrite Hj. split.
  - intros E. destruct n as [|c n] using rev_ind; [contradiction|].
    rewrite app_assoc in E. change (str "/") with ([] ++ ["/"%char]) in E.
    apply app_inj_tail in E. destruct E as [_ ->].
    apply Hsep. apply elem_of_app. right. left.
  - destruct pre; destruct n; try discriminate. contradiction.
Qed.

(** ** The form, the browser and the views *)

Section ViewFacts.

Context `{TeaOps} {tables : Unicode.CaseTables}.

(** ** The recent paths and their keys *)

(** The recent paths the form saves are within reach of the digit keys:
  the list made by [addToRecentPaths] with the limit 9 holds at most nine
  paths, and in the form the key of the digit [i + 1] puts the path of
  index [i] into the root field and validates it. *)
Theorem recent_paths_selectable (h : Host) (m : Model.t) (paths : list gostring)
  (newPath : gostring) (i : nat) (p : gostring) (k : KeyMsg) :
Model.state m = stateForm ->
newPath <> [] ->
addToRecentPaths paths newPath 9 = Some (Form.recentPaths (Model.form m)) ->
Form.recentPaths (Model.form m) !! i = Some p ->
key_String k = [ascii_of_nat (49 + i)] ->
(i < 9)%nat
/\ Update h m (MsgKey k)
   = Some (mkStep (withForm (withRootPathValid (validatePath h p)
                               (withRoot (ti_CursorEnd (ti_SetValue p (Form.root (Model.form m))))
                                         (Model.form m))) m)
                  CmdNil []).
Proof.
intros Hstate Hnew Hadd Hp Hkey.
pose proof (addToRecentPaths_len paths newPath 9 _ Hnew ltac:(lia) Hadd) as Hlen.
pose proof (lookup_lt_Some _ _ _ Hp) as Hi.
assert (i < 9)%nat as Hi9 by (unfold len in Hlen; lia).
split; [exact Hi9|].
unfold Update. rewrite Hstate. unfold updateForm. rewrite Hkey.
assert ((0 <? len (Form.recentPaths (Model.form m))) = true) as Hpos
  by (apply Z.ltb_lt; unfold len; lia).
assert (forall j : Z, j = Z.of_nat i ->
          ((j <? len (Form.recentPaths (Model.form m))) = true)
          /\ index (Form.recentPaths (Model.form m)) j = Some p) as Hidx.
{ intros j ->. split; [apply Z.ltb_lt; unfold len; lia|].
  unfold index. rewrite (proj2 (Z.ltb_ge _ 0)) by lia. rewrite Nat2Z.id. exact Hp. }
do 9 (destruct i as [|i];
      [ switch_key; unfold selectRecent; rewrite Hpos;
        match goal with
        | |- context [digitIndex ?key] =>
            let d := eval vm_compute in (digitIndex key) in
            change (digitIndex key) with d
        end;
        cbv iota;
        match goal with
        | |- context [?j <? len _] => destruct (Hidx j eq_refl) as [-> ->]
        end;
        reflexivity
      | ]).
lia.
Qed.

(** ** The browser *)

(** What the browser loads.  The entries are directories only, the first
  being [..] unless the path is the root or empty; and a failure of
  [os.ReadDir] is reported with its error.  In the browser the loaded
  entries are listed with the first one selected. *)
Theorem browser_lists_directories (h : Host) (m : Model.t) (path : gostring) :
Model.state m = stateBrowser ->
match os_ReadDir h path with
| Ok read =>
    exists entries,
      loadBrowserEntries h path = MsgBrowserLoaded entries
      /\ Forall (fun e => Entry.IsDir e = true) entries
      /\ (forall e, e ∈ read -> Entry.IsDir e = true -> e ∈ entries)
      /\ (path <> str "/" -> path <> [] ->
          head entries = Some (Entry.mk (str "..") true))
      /\ Update h m (loadBrowserEntries h path)
         = Some (mkStep (withBrowser (Browser.mk (Browser.currentPath (Model.browser m))
                                                 entries 0 []) m) CmdNil [])
| Fail e =>
    loadBrowserEntries h path = MsgBrowserError e
    /\ exists s, Update h m (loadBrowserEntries h path) = Some s
                 /\ Browser.err (Model.browser (next s)) = e
                 /\ Browser.entries (Model.browser (next s))
                    = Browser.entries (Model.browser m)
end.
Proof.
intros Hstate. unfold loadBrowserEntries, Update. rewrite Hstate.
destruct (os_ReadDir h path) as [read|e].
- eexists. split; [reflexivity|]. split; [|split; [|split; [|reflexivity]]].
  + apply Forall_app. split.
    * destruct (_ && _); repeat constructor.
    * apply List.Forall_forall. intros x Hx. apply List.filter_In in Hx. tauto.
  + intros e He Hdir. apply elem_of_app. right.
    apply list_elem_of_In, List.filter_In. split; [apply list_elem_of_In, He|exact Hdir].
  + intros H1 H2. rewrite !bool_decide_eq_true_2 by assumption. reflexivity.
- split; [reflexivity|]. eexists. split; [reflexivity|]. split; reflexivity.
Qed.

(** Going into a directory and back.  In the browser, on a cleaned path,
  Enter on a directory entry asks for the entries of the path joined
  with its name; when they are loaded, [..] is the entry selected, and
  Enter leads back to the path the browser came from. *)
Theorem browser_round_trip (h1 h2 h3 : Host) (m : Model.t) (name : gostring)
  (read : list Entry.t) (k : KeyMsg) :
let b := Model.browser m in
let sub := Filepath.Join (Browser.currentPath b) name in
Model.state m = stateBrowser ->
isClean (Browser.currentPath b) ->
validName name ->
index (Browser.entries b) (Browser.selected b) = Some (Entry.mk name true) ->
key_String k = str "enter" ->
os_ReadDir h2 sub = Ok read ->
exists s1 s2 s3,
  Update h1 m (MsgKey k) = Some s1
  /\ cmd s1 = CmdLoadBrowserEntries sub
  /\ Browser.currentPath (Model.browser (next s1)) = sub
  /\ Update h2 (next s1) (loadBrowserEntries h2 sub) = Some s2
  /\ index (Browser.entries (Model.browser (next s2)))
           (Browser.selected (Model.browser (next s2)))
     = Some (Entry.mk (str "..") true)
  /\ Update h3 (next s2) (MsgKey k) = Some s3
  /\ cmd s3 = CmdLoadBrowserEntries (Browser.currentPath b)
  /\ Browser.currentPath (Model.browser (next s3)) = Browser.currentPath b
  /\ Model.state (next s3) = stateBrowser.
Proof.
intros b sub Hstate Hclean Hname Hidx Hkey Hread.
pose proof Hname as (_ & _ & _ & Hdd).
destruct (Join_not_root (Browser.currentPath b) name Hname) as [Hnr Hne].
assert ((0 <? len (Browser.entries b)) = true) as Hpos.
{ apply Z.ltb_lt. unfold index in Hidx. destruct (_ <? 0); [discriminate|].
  apply lookup_lt_Some in Hidx. unfold len. lia. }
do 3 eexists. split.
{ unfold Update. rewrite Hstate. unfold updateBrowser. rewrite Hkey. switch_key.
  fold b. rewrite Hpos, Hidx. cbn [Entry.IsDir Entry.Name].
  rewrite decide_False by exact Hdd. reflexivity. }
cbn [cmd next]. split; [reflexivity|]. split; [reflexivity|]. split.
{ unfold Update. cbn [Model.state withBrowser]. rewrite Hstate.
  unfold loadBrowserEntries. fold sub. rewrite Hread. reflexivity. }
cbn [next Model.browser withBrowser Browser.entries Browser.selected].
fold sub. rewrite !bool_decide_eq_true_2 by assumption. cbn [andb app].
split; [reflexivity|]. split.
{ unfold Update. cbn [Model.state withBrowser]. rewrite Hstate.
  unfold updateBrowser. rewrite Hkey. switch_key.
  cbn [Model.browser withBrowser Browser.entries Browser.selected Browser.currentPath
       withCurrentPath].
  assert ((0 <? len (Entry.mk (str "..") true :: List.filter Entry.IsDir read)) = true) as ->
    by (apply Z.ltb_lt; unfold len; cbn [length]; lia).
  change (index (Entry.mk (str "..") true :: List.filter Entry.IsDir read) 0)
    with (Some (Entry.mk (str "..") true)).
  cbn [Entry.IsDir Entry.Name]. rewrite decide_True by reflexivity. reflexivity. }
cbn [cmd next Model.browser Model.state withBrowser withCurrentPath Browser.currentPath].
fold b sub. unfold sub. rewrite (DirFacts.Dir_Join _ _ Hclean Hname).
repeat split. exact Hstate.
Qed.

(** ** The views *)

(** The path line of the browser view.  In a window of 15 columns or more,
  or of unknown size, the current path is shown in at most the width
  less 15 bytes; in a window of 1 to 14 columns the slice expression of
  [wrapText] gets a negative bound and panics. *)
Theorem viewBrowser_path_fits (m : Model.t) :
(viewBrowser_wrappedPath m = None <-> 0 < Width (Model.windowSize m) < 15)
/\ forall r, viewBrowser_wrappedPath m = Some r -> len r <= getWidth m - 15.
Proof.
unfold viewBrowser_wrappedPath. split.
- rewrite wrapText_None. unfold getWidth. destruct (0 <? _) eqn:Hw.
  + apply Z.ltb_lt in Hw. lia.
  + apply Z.ltb_ge in Hw. lia.
- intros r Hr. apply (wrapText_len _ _ _ Hr).
Qed.

Lemma getBrowserDisplayLines_pos m : 8 <= getBrowserDisplayLines m <= 20.
Proof.
unfold getBrowserDisplayLines. destruct (_ <? 20); [lia|]. destruct (_ <? 30); lia.
Qed.

(** The list of the browser view.  With the selection among the entries,
  the loop lists entries that exist, no more than the display lines of the
  window, and the selected entry is one of them. *)
Theorem viewBrowser_shows_selection (m : Model.t) :
let b := Model.browser m in
browserOK b -> 0 < len (Browser.entries b) ->
let start := fst (viewBrowser_window m) in
let end_ := snd (viewBrowser_window m) in
0 <= start <= Browser.selected b
/\ Browser.selected b < end_ <= len (Browser.entries b)
/\ end_ - start <= getBrowserDisplayLines m
/\ exists l, viewBrowser_listed m = Some l
             /\ len l = end_ - start
             /\ l !! Z.to_nat (Browser.selected b - start)
                = index (Browser.entries b) (Browser.selected b).
Proof.
intros b [Hsel0 Hsel] Hlen start end_.
pose proof (getBrowserDisplayLines_pos m) as Hd.
assert (Browser.selected b < len (Browser.entries b)) as Hlt by lia.
assert (0 <= start <= Browser.selected b
        /\ Browser.selected b < end_ <= len (Browser.entries b)
        /\ end_ - start <= getBrowserDisplayLines m) as Hwin.
{ subst start end_. unfold viewBrowser_window. fold b. cbn [fst snd].
  destruct (getBrowserDisplayLines m <=? Browser.selected b) eqn:Hs;
    [apply Z.leb_le in Hs|apply Z.leb_gt in Hs];
    destruct (len (Browser.entries b) <? _) eqn:He;
    try apply Z.ltb_lt in He; try apply Z.ltb_ge in He; lia. }
destruct Hwin as (H1 & H2 & H3). split; [exact H1|]. split; [exact H2|]. split; [exact H3|].
unfold viewBrowser_listed.
destruct (viewBrowser_window m) as [s e] eqn:Hw. cbn [fst snd] in *. subst start end_.
fold b.
assert (is_Some (mapM (fun i : nat => index (Browser.entries b) (s + Z.of_nat i))
                      (seq 0 (Z.to_nat (e - s))))) as [l Hl].
{ apply mapM_is_Some, Forall_seq. intros j Hj. apply index_Some. lia. }
exists l. split; [exact Hl|]. split.
- apply length_mapM in Hl. rewrite length_seq in Hl. unfold len. lia.
- apply mapM_Some in Hl.
  assert (seq 0 (Z.to_nat (e - s)) !! Z.to_nat (Browser.selected b - s)
          = Some (Z.to_nat (Browser.selected b - s))) as Hseq
    by (apply lookup_seq; lia).
  destruct (Forall2_lookup_l _ _ _ _ _ Hl Hseq) as (y & Hy & Hxy).
  rewrite Hy, <- Hxy. f_equal. lia.
Qed.

(** The widths and heights of the layout.  The width and the height are
  positive, with 80 and 24 for a window of unknown size; the progress bar
  fits a window of 20 columns or more, the table one of 50 or more, and
  the lines of the browser one of 8 lines or more. *)
Theorem layout_fits (m : Model.t) :
0 < getWidth m /\ 0 < getHeight m
/\ (Width (Model.windowSize m) <= 0 -> getWidth m = 80)
/\ (Height (Model.windowSize m) <= 0 -> getHeight m = 24)
/\ (20 <= getWidth m -> getProgressBarWidth m <= getWidth m)
/\ (50 <= getWidth m -> getTableWidth m <= getWidth m)
/\ (8 <= getHeight m -> getBrowserDisplayLines m <= getHeight m)
/\ getProgressBarWidth m < getTableWidth m.
Proof.
unfold getProgressBarWidth, getTableWidth, getBrowserDisplayLines, getWidth, getHeight.
destruct (0 <? Width _) eqn:Hw; [apply Z.ltb_lt in Hw|apply Z.ltb_ge in Hw];
  destruct (0 <? Height _) eqn:Hh; [apply Z.ltb_lt in Hh|apply Z.ltb_ge in Hh| |];
  try apply Z.ltb_lt in Hh; try apply Z.ltb_ge in Hh;
  repeat match goal with
         | |- context [?a <? ?b] =>
             let E := fresh "E" in
             destruct (a <? b) eqn:E; [apply Z.ltb_lt in E|apply Z.ltb_ge in E]
         end; lia.
Qed.

End ViewFacts.

(** ** Records and their parents *)

Lemma walkDir_TDir path info readErr entries :
  walkDir path info (TDir readErr entries)
  = WalkEntry path (mkDirEntry true info)
    :: (if readErr then [WalkErr path] else [])
    ++ concat (map (fun e => walkDir (Filepath.Join path (fst (fst e))) (snd (fst e)) (snd e))
                   entries).
Proof.
  cbn [walkDir]. f_equal. f_equal.
  induction entries as [|[[n i] t] es IH]; [reflexivity|].
  cbn [map concat fst snd]. f_equal. exact IH.
Qed.

Lemma Join_not_dot p n : validName n -> Filepath.Join p n <> str ".".
Proof.
  intros Hn. pose proof Hn as (Hne & _ & Hdot & _).
  destruct (JoinFacts.Join_last_elem p n Hn) as (pre & Hj & Hpre). rewrite Hj.
  intros E. destruct pre as [|c pre]; [cbn in E; contradiction|].
  destruct n as [|c' n]; [contradiction|].
  apply (f_equal (@length _)) in E. rewrite length_app in E. cbn in E. lia.
Qed.

(** Every entry of a walk but the first has its directory among the
    entries, as a directory. *)
Lemma walkDir_parents t : forall path info,
  wfTree t -> isClean path ->
  forall q d,
    In (WalkEntry q d) (walkDir path info t) ->
    q = path
    \/ (Filepath.Dir q <> q
        /\ exists d', In (WalkEntry (Filepath.Dir q) d') (walkDir path info t)
                      /\ IsDir d' = true).
Proof.
  induction t as [|readErr entries IH] using Tree_ind_entries;
    intros path info Hwf Hclean q d Hin.
  - destruct Hin as [[= <- _]|[]]. left. reflexivity.
  - rewrite walkDir_TDir in Hin |- *. destruct Hin as [[= <- _]|Hin]; [left; reflexivity|].
    right. apply in_app_or in Hin. destruct Hin as [Hin|Hin].
    { destruct readErr; [destruct Hin as [Hin|[]]; discriminate|destruct Hin]. }
    apply in_concat in Hin. destruct Hin as (l & Hl & Hin).
    apply in_map_iff in Hl. destruct Hl as ([[n i] t] & <- & He). cbn [fst snd] in Hin.
    inversion Hwf as [|? ? Hes]; subst.
    rewrite List.Forall_forall in Hes, IH.
    destruct (Hes _ He) as [Hn Hwt]. cbn [fst snd] in Hn, Hwt.
    specialize (IH _ He). cbn [snd] in IH.
    assert (isClean (Filepath.Join path n)) as Hc
      by (apply CleanFacts.Join_clean, CleanFacts.isClean_nonempty, Hclean).
    destruct (IH (Filepath.Join path n) i Hwt Hc q d Hin) as [->|(Hne & d' & Hd' & Hdir)].
    + rewrite (DirFacts.Dir_Join _ _ Hclean Hn). split.
      * intros E.
        assert (Filepath.Dir (Filepath.Join path n) = Filepath.Join path n) as E'
          by (rewrite (DirFacts.Dir_Join _ _ Hclean Hn); exact E).
        apply FilepathFacts.Dir_fixpoint in E'. clear E. destruct E' as [E|E].
        -- apply (proj1 (Join_not_root path n Hn)), E.
        -- apply (Join_not_dot path n Hn), E.
      * exists (mkDirEntry true info). split; [left; reflexivity|reflexivity].
    + split; [exact Hne|]. exists d'. split; [|exact Hdir].
      right. apply in_or_app. right. apply in_concat.
      exists (walkDir (Filepath.Join path n) i t). split; [|exact Hd'].
      apply in_map_iff. exists (n, i, t). split; [reflexivity|exact He].
Qed.

Lemma folders_applyAll_In q parent mtime tr : forall s,
  In (EvFolderUpsert q parent mtime) tr -> is_Some (folders (applyAll s tr) !! q).
Proof.
  induction tr as [|ev tr IH] using rev_ind; intros s Hin; [destruct Hin|].
  rewrite applyAll_snoc. apply in_app_or in Hin. destruct Hin as [Hin|[->|[]]].
  - specialize (IH s Hin). rewrite folders_applyEvent.
    destruct ev as [ | q' parent' mtime' | | | | | | | ]; try exact IH.
    destruct (decide (q' = q)); [eexists; reflexivity|exact IH].
  - rewrite folders_applyEvent, decide_True by reflexivity. eexists. reflexivity.
Qed.

Lemma folders_applyAll_from q tr : forall s,
  is_Some (folders (applyAll s tr) !! q) ->
  is_Some (folders s !! q) \/ exists parent mtime, In (EvFolderUpsert q parent mtime) tr.
Proof.
  induction tr as [|ev tr IH]; intros s Hq; [left; exact Hq|].
  change (applyAll s (ev :: tr)) with (applyAll (applyEvent s ev) tr) in Hq.
  destruct (IH _ Hq) as [Hs|(parent & mtime & Hin)].
  - rewrite folders_applyEvent in Hs.
    destruct ev as [ | q' parent' mtime' | | | | | | | ]; try (left; exact Hs).
    destruct (decide (q' = q)) as [->|]; [|left; exact Hs].
    right. exists parent', mtime'. left. reflexivity.
  - right. exists parent, mtime. right. exact Hin.
Qed.

(** The records of a tree point to records.  After a run on an empty
    store, when the database works, the names of the tree are proper names
    and the metadata of its directories can be read, the folder of every
    file record and the parent of every folder record is a folder with a
    record, the record of the root apart. *)
Theorem records_have_parents {tables : Unicode.CaseTables} (w : World) (root : gostring) (extFilter : gset gostring)
    (hash : bool) (info : FileInfo) (t : Tree) :
  (forall k, sql_fault w k = None) ->
  os_Lstat w (Filepath.Clean root) = Some (info, t) ->
  wfTree t ->
  dirsReadable w root ->
  parentsOK (Filepath.Clean root) (run_store (runScan w emptyStore root extFilter hash)).
Proof.
  intros Hno Hstat Hwf Hread.
  pose proof (run_upserts w emptyStore root extFilter hash Hno) as (_ & Hs & _).
  cbv zeta in Hs. rewrite Hs. clear Hs.
  set (walk := WalkDir w (Filepath.Clean root)).
  set (ups := omap (upsertOf w extFilter hash) walk).
  assert (Hwalk : walk = walkDir (Filepath.Clean root) (Some info) t).
  { unfold walk, WalkDir. rewrite Hstat. reflexivity. }
  assert (Hparent : forall q d,
             In (WalkEntry q d) walk -> q <> Filepath.Clean root ->
             Filepath.Dir q <> q /\ is_Some (folders (applyAll emptyStore ups) !! Filepath.Dir q)).
  { intros q d Hin Hq. rewrite Hwalk in Hin.
    destruct (walkDir_parents t _ _ Hwf (CleanFacts.Clean_idem root) q d Hin)
      as [->|(Hne & d' & Hd' & Hdir)]; [contradiction|].
    split; [exact Hne|]. rewrite <- Hwalk in Hd'.
    destruct (Info d') as [i'|] eqn:Hi'; [|exfalso; apply (Hread _ _ Hd' Hdir), Hi'].
    eapply folders_applyAll_In. unfold ups. apply In_omap.
    exists (WalkEntry (Filepath.Dir q) d'). split; [exact Hd'|].
    unfold upsertOf. rewrite Hi', Hdir. reflexivity. }
  assert (Hfrom : Forall (fromWalk w root extFilter hash) ups).
  { apply List.Forall_forall. intros ev Hev _. apply In_omap in Hev.
    destruct Hev as (c & Hc & Hup). exists c. split; [exact Hc|exact Hup]. }
  split.
  - intros p row Hrow.
    destruct (decide (p = Filepath.Clean root)) as [|Hp]; [left; assumption|right].
    assert (filesOK w (applyAll emptyStore ups)) as Hok.
    { apply filesOK_applyAll; [intros ? ? Hz; cbn in Hz; rewrite lookup_empty in Hz; discriminate|].
      eapply Forall_impl; [exact Hfrom|]. intros ev. apply fromWalk_fileEventOK. }
    destruct (Hok _ _ Hrow) as (Hfp & _). rewrite Hfp.
    destruct (reached_applyAll w root extFilter hash p ups emptyStore Hfrom)
      as [Hz|(d & Hd & _)]; [rewrite Hrow; eexists; reflexivity| |].
    { cbn in Hz. rewrite lookup_empty in Hz. destruct Hz; discriminate. }
    apply (Hparent p d Hd Hp).
  - intros p row Hrow.
    destruct (decide (p = Filepath.Clean root)) as [|Hp]; [left; assumption|right].
    assert (foldersOK (applyAll emptyStore ups)) as Hok.
    { apply foldersOK_applyAll; [intros ? ? Hz; cbn in Hz; rewrite lookup_empty in Hz; discriminate|].
      apply List.Forall_forall. intros ev Hev. apply In_omap in Hev.
      destruct Hev as (c & _ & Hup). apply (upsertOf_folderParentOK _ _ _ _ _ Hup). }
    rewrite (Hok _ _ Hrow).
    destruct (folders_applyAll_from p ups emptyStore) as [Hz|(parent & mtime & Hin)];
      [rewrite Hrow; eexists; reflexivity| |].
    { cbn in Hz. rewrite lookup_empty in Hz. destruct Hz; discriminate. }
    apply In_omap in Hin. destruct Hin as (c & Hc & Hup).
    destruct (upsertOf_Some _ _ _ _ _ Hup) as (_ & _ & _ & _ & _ & d & ->). cbn [pathOf] in Hc.
    destruct (Hparent p d Hc Hp) as [Hne Hsome].
    unfold parentOf. rewrite decide_False; [exact Hsome|].
    intros E. apply Hne. apply FilepathFacts.Dir_fixpoint. exact E.
Qed.

(** ** The further properties on concrete runs *)

Ltac valid_name :=
  repeat split; try discriminate;
  let Hs := fresh "Hs" in
  intros Hs; cbv [str list_ascii_of_string Filepath.Separator] in Hs;
  repeat (apply elem_of_cons in Hs as [Hs|Hs]; [discriminate Hs|]); inversion Hs.

Ltac empty_store :=
  let Hz := fresh "Hz" in
  intros ? ? Hz; cbn in Hz; rewrite lookup_empty in Hz; discriminate Hz.

Section FurtherConcreteRuns.

#[local] Existing Instance Unicode.latin1Tables.

Lemma run_idempotent_witness :
let r1 := runScan world_nested emptyStore (str "/r") ∅ true in
let r2 := runScan world_nested (run_store r1) (str "/r") ∅ true in
run_store r2 = run_store r1
/\ upsertsOf (run_trace r2) = upsertsOf (run_trace r1)
/\ last (run_progress r2) = last (run_progress r1)
/\ run_done r2 = Some (mkDone None).
Proof.
apply (run_idempotent world_nested emptyStore (str "/r") ∅ true).
intros k. reflexivity.
Defined.

(** A run that fails at its fourth upsert leaves nothing of it (the batch
  is rolled back); the run that follows it catalogs the three files and
  the folder. *)
Example rerun_after_failure :
let w := world_flat 3 (faultAt 9 (str "disk full")) in
let r1 := runScan w emptyStore (str "/data") ∅ false in
let r2 := runScan (noFaults w) (run_store r1) (str "/data") ∅ false in
run_done r1 = Some (mkDone (Some (str "disk full")))
/\ size (files (run_store r1)) = 0%nat
/\ run_done r2 = Some (mkDone None)
/\ size (files (run_store r2)) = 3%nat
/\ size (folders (run_store r2)) = 1%nat.
Proof. vm_compute. repeat split. Qed.

Lemma run_keeps_records_witness :
exists row,
  files (run_store (runScan world_nested store_one (str "/r") ∅ true)) !! str "/old/x.bin"
  = Some row
  /\ folder_path row = str "/old"
  /\ name row = str "x.bin"
  /\ ext row = str ".bin".
Proof.
apply (proj1 (run_keeps_records world_nested store_one (str "/r") ∅ true)
         (str "/old/x.bin") _ (lookup_singleton_eq _ _)).
Defined.

Lemma run_file_records_witness :
filesOK world_nested (run_store (runScan world_nested emptyStore (str "/r") ∅ true)).
Proof.
apply (proj1 (run_file_records world_nested emptyStore (str "/r") ∅ true)).
empty_store.
Defined.

(** The records of the two files of the nested tree, with their hashes. *)
Example nested_file_records :
let s := run_store (runScan world_nested emptyStore (str "/r") ∅ true) in
files s !! str "/r/sub/b.pdf"
= Some (mkFileRow (str "/r/sub") (str "b.pdf") (str ".pdf") 8 (str "2024-01-01T00:00:00Z")
          (str "application/octet-stream")
          (Some (str "2cf24dba5fb0a30e26e83b2ac5b9e29e1b161e5c1fa7425e73043362938b9824")))
/\ option_map folder_path (files s !! str "/r/a.txt") = Some (str "/r")
/\ option_map parent_path (folders s !! str "/r/sub") = Some (str "/r")
/\ option_map parent_path (folders s !! str "/r") = Some (str "/").
Proof. vm_compute. repeat split. Qed.

Lemma setup_failure_ends_run_witness :
let r := runScan (world_flat 3 (faultAt 4 (str "database is locked")))
                 store_one (str "/data") ∅ false in
run_done r = Some (mkDone (Some (str "database is locked")))
/\ run_store r = store_one
/\ run_progress r = []
/\ upsertsOf (run_trace r) = []
/\ ~ In EvCommit (run_trace r)
/\ ~ In EvRollback (run_trace r).
Proof.
apply (setup_failure_ends_run (world_flat 3 (faultAt 4 (str "database is locked")))
         store_one (str "/data") ∅ false 4 (str "database is locked")).
- lia.
- reflexivity.
- intros j Hj. destruct j as [|[|[|[|j]]]]; try reflexivity. lia.
Defined.

Lemma folders_ignore_filter_witness :
folders (run_store (runScan world_nested emptyStore (str "/r") ∅ false))
= folders (run_store (runScan world_nested emptyStore (str "/r") {[ str ".pdf" ]} true)).
Proof.
apply (folders_ignore_filter world_nested emptyStore (str "/r") ∅ {[ str ".pdf" ]} false true).
intros k. reflexivity.
Defined.

Lemma estimate_filter_lowers_witness :
estimateFileCount world_nested (str "/r") ∅
= Z.of_nat (length (List.filter isFileCall (WalkDir world_nested (str "/r"))))
/\ 0 <= estimateFileCount world_nested (str "/r") {[ str ".pdf" ]}
     <= estimateFileCount world_nested (str "/r") ∅.
Proof.
apply (estimate_filter_lowers world_nested (str "/r") {[ str ".pdf" ]}).
vm_compute. reflexivity.
Defined.

Example estimate_nested :
estimateFileCount world_nested (str "/r") ∅ = 2
/\ estimateFileCount world_nested (str "/r") {[ str ".pdf" ]} = 1.
Proof. vm_compute. split; reflexivity. Qed.

Lemma unreadable_root_is_no_error_witness :
let r := runScan (world_nothing (fun _ => None)) store_one (str "/missing") ∅ true in
estimateFileCount (world_nothing (fun _ => None)) (str "/missing") ∅ = 0
/\ run_done r = Some (mkDone None)
/\ run_store r = store_one
/\ run_progress r = [mkProgress 0 0 [] 0].
Proof.
apply (unreadable_root_is_no_error (world_nothing (fun _ => None)) store_one
         (str "/missing") ∅ true); reflexivity.
Defined.

Lemma recorded_paths_clean_witness :
pathsClean (run_store (runScan world_nested emptyStore (str "/r") ∅ false)).
Proof.
apply (proj2 (recorded_paths_clean world_nested emptyStore (str "/r") ∅ false)).
split; empty_store.
Defined.

Lemma records_have_parents_witness :
parentsOK (Filepath.Clean (str "/r"))
          (run_store (runScan world_nested emptyStore (str "/r") ∅ true)).
Proof.
apply (records_have_parents world_nested (str "/r") ∅ true info1 tree_nested).
- intros k. reflexivity.
- reflexivity.
- unfold tree_nested.
  repeat (first [ apply wf_file | apply wf_dir | apply List.Forall_nil
                | apply List.Forall_cons | split ]; cbn [fst snd]);
    valid_name.
- intros p d Hin. vm_compute in Hin.
  repeat (destruct Hin as [Hin|Hin]; [injection Hin as <- <-; intros _; discriminate|]).
  destruct Hin.
Defined.

(** ** The helpers *)

Lemma parseExtSet_ignores_case_witness :
parseExtSet (Strings.ToLower (str "PDF, .Docx")) = parseExtSet (str "PDF, .Docx").
Proof. apply parseExtSet_ignores_case. reflexivity. Defined.

(** A file whose extension is the Kelvin sign is cataloged under [.k],
  with the filter [.k] too. *)
Example kelvin_file_cataloged :
let r := runScan world_kelvin emptyStore (str "/docs") {[ str ".k" ]} false in
run_done r = Some (mkDone None)
/\ elements (catalogedExts (run_store r)) = [str ".k"]
/\ estimateFileCount world_kelvin (str "/docs") {[ str ".k" ]} = 1.
Proof. vm_compute. repeat split. Qed.

Lemma addToRecentPaths_front_witness :
exists rest,
  addToRecentPaths [str "/a"; str "/b"; str "/c"] (str "/b") 2 = Some (str "/b" :: rest)
  /\ (str "/b" ∉ rest)
  /\ rest `sublist_of` [str "/a"; str "/b"; str "/c"]
  /\ len (str "/b" :: rest) <= 2
  /\ (NoDup [str "/a"; str "/b"; str "/c"] -> NoDup (str "/b" :: rest)).
Proof.
apply (addToRecentPaths_front [str "/a"; str "/b"; str "/c"] (str "/b") 2);
  [discriminate|lia].
Defined.

Lemma addToRecentPaths_edges_witness :
addToRecentPaths [str "/b"; str "/a"] (str "/b") 2 = Some [str "/b"; str "/a"].
Proof.
apply (proj2 (proj2 (proj2 (addToRecentPaths_edges [str "/a"; str "/b"; str "/c"]
                              (str "/b") 2)))).
vm_compute. reflexivity.
Defined.

Example addToRecentPaths_panics :
addToRecentPaths [str "/a"] (str "/b") (-1) = None
/\ addToRecentPaths [str "/a"; str "/b"] [] 1 = Some [str "/a"; str "/b"].
Proof. vm_compute. split; reflexivity. Qed.

Lemma wrapText_fits_witness :
len (str "/home/u...") <= 10
/\ (str "/home/u..." = str "/home/user/documents"
    \/ (10 < len (str "/home/user/documents") /\ len (str "/home/u...") = 10
        /\ exists pre, pre `prefix_of` str "/home/user/documents"
                       /\ str "/home/u..." = if 3 <? 10 then pre ++ str "..." else pre)).
Proof.
apply (proj2 (wrapText_fits (str "/home/user/documents") 10) (str "/home/u...")).
vm_compute. reflexivity.
Defined.

Lemma completions_are_directories_witness :
let p := Strings.TrimSpace (str "/home/u/D") in
exists dir entries name,
  os_ReadDir host_docs dir = Ok entries
  /\ Entry.mk name true ∈ entries
  /\ Strings.HasPrefix name (str ".") = false
  /\ str "/home/u/docs" = Filepath.Join dir name
  /\ statOK host_docs dir = true
  /\ ((statIsDir host_docs p = true /\ dir = p)
      \/ (statIsDir host_docs p = false /\ dir = Filepath.Dir p
          /\ Strings.HasPrefix (Strings.ToLower name)
                               (Strings.ToLower (Filepath.Base p)) = true)).
Proof.
apply (proj1 (completions_are_directories host_docs (str "/home/u/D")) (str "/home/u/docs")).
apply list_elem_of_In. vm_compute. left. reflexivity.
Defined.

(** A prefix that is not ASCII: the case is ignored as the tables say. *)
Example completions_with_accent :
getPathCompletions host_ecole (str "/home/u/é") = [str "/home/u/École"]
/\ getPathCompletions host_ecole (str "/home/u/E") = [str "/home/u/ecole"]
/\ getPathCompletions host_ecole (nbsp ++ str "/home/u/ec" ++ nbsp) = [str "/home/u/ecole"].
Proof. vm_compute. repeat split. Qed.

Example completions_of_home :
getPathCompletions host_docs [] = [str "/home/u/docs"]
/\ getPathCompletions host_docs (str "/home/u/x") = []
/\ validatePath host_docs (str "/home/u/x") = 2
/\ validatePath host_docs (str "/nowhere/x") = 3.
Proof. vm_compute. repeat split. Qed.

(** ** The interface *)

Lemma session_never_panics_witness :
exists m',
  session model0
    [(host_docs, MsgKey (str "tab")); (host_docs, MsgKey (str "down"));
     (host_docs, MsgKey (str "3")); (host_docs, MsgKey (str "ctrl+b"));
     (host_docs, loadBrowserEntries host_docs (str "/b")); (host_docs, MsgKey (str "enter"));
     (host_docs, MsgKey (str "esc")); (host_docs, MsgKey (str "enter"));
     (host_docs, MsgDone None); (host_docs, MsgKey (str "x"))]
  = Some m'
  /\ indicesOK m'.
Proof.
apply (session_never_panics model0).
repeat split; cbn; (lia || discriminate || (right; reflexivity)).
Defined.

(** Outside of what a session reaches [Update] can panic: Enter on a
  completion index beyond the completions. *)
Example Update_panics_outside :
Update host_docs model_broken (MsgKey (str "enter")) = None
/\ ~ indicesOK model_broken.
Proof.
split; [vm_compute; reflexivity|].
intros [[_ Hshow] _]. specialize (Hshow eq_refl). destruct Hshow as [_ Hlt].
vm_compute in Hlt. discriminate Hlt.
Qed.

Lemma help_round_trip_witness :
exists s1,
  Update host_docs model0 (MsgKey (str "?")) = Some s1
  /\ Model.state (next s1) = stateHelp
  /\ cmd s1 = CmdNil /\ effects s1 = []
  /\ Update host_docs (next s1) (MsgKey (str "x"))
     = Some (mkStep (withPreviousState (Model.state model0) model0) CmdNil []).
Proof.
apply (help_round_trip host_docs host_docs model0 (str "?") (str "x"));
  [discriminate|discriminate|].
apply list_elem_of_In. left. reflexivity.
Defined.

Lemma scan_result_reaches_model_witness :
runScanMsg world_nested emptyStore
  (CmdRunScan (str "/r") (str "/out/catalog.db") ∅ true) = Some (MsgDone None).
Proof.
apply (proj1 (proj2 (scan_result_reaches_model host_docs (withState stateScanning model0)
                       world_nested emptyStore (str "/r") (str "/out/catalog.db") ∅ true
                       eq_refl))).
intros k. reflexivity.
Defined.

Lemma scan_starts_from_valid_form_witness :
exists s root dbPath extFilter hash,
  Update host_docs model0 (MsgKey (str "enter")) = Some s
  /\ scanOf (cmd s) = Some (root, dbPath, extFilter, hash)
  /\ root = str "/home/u/docs"
  /\ statOK host_docs root = true
  /\ (forall x, x ∈ extFilter -> head x = Some "."%char)
  /\ Model.state (next s) = stateScanning.
Proof.
do 5 eexists. split; [reflexivity|]. split; [reflexivity|].
pose proof (scan_starts_from_valid_form host_docs model0 (MsgKey (str "enter")) _ _ _ _ _
              eq_refl eq_refl) as (_ & _ & Hroot & _ & Hstat & _ & Hdot & _ & Hstate & _).
split; [reflexivity|]. split; [exact Hstat|]. split; [exact Hdot|exact Hstate].
Defined.

Lemma scan_start_saves_config_witness :
exists s outDir recent,
  Update host_docs model0 (MsgKey (str "enter")) = Some s
  /\ head recent = Some (str "/home/u/docs")
  /\ len recent <= 9
  /\ effects s
     = [EffMkdirAll outDir;
        EffWriteConfig (str "/home/u/.spcatalog_config.json")
          (Config.mk recent 9 (str "/home/u/docs") outDir (str "pdf, .DOCX") false)].
Proof.
pose proof (scan_start_saves_config host_docs model0 (MsgKey (str "enter")) _ _ _ _ _
              eq_refl eq_refl) as (outDir & recent & _ & Hhead & Hlen & _ & Heff).
eexists. exists outDir, recent. split; [reflexivity|]. split; [exact Hhead|].
split; [exact Hlen|exact Heff].
Defined.

(** Enter in the form of the example: the scan of [/home/u/docs] into
  [/home/u/out/catalog.db] with the filter of [pdf, .DOCX]. *)
Example enter_starts_scan :
option_map (fun s => (scanOf (cmd s), Model.state (next s)))
           (Update host_docs model0 (MsgKey (str "enter")))
= Some (Some (str "/home/u/docs", str "/home/u/out/catalog.db",
              parseExtSet (str ".pdf,.docx"), false),
        stateScanning).
Proof. vm_compute. reflexivity. Qed.

Lemma recent_paths_selectable_witness :
(1 < 9)%nat
/\ Update host_docs model_recent (MsgKey (str "2"))
   = Some (mkStep (withForm (withRootPathValid (validatePath host_docs (str "/a"))
                               (withRoot (ti_CursorEnd
                                            (ti_SetValue (str "/a")
                                               (Form.root (Model.form model_recent))))
                                         (Model.form model_recent))) model_recent)
                  CmdNil []).
Proof.
apply (recent_paths_selectable host_docs model_recent
         [str "/a"; str "/home/u/docs"; str "/b"] (str "/home/u/docs") 1 (str "/a") (str "2"));
  try reflexivity.
discriminate.
Defined.

Lemma browser_lists_directories_witness :
exists entries,
  loadBrowserEntries host_docs (str "/home/u") = MsgBrowserLoaded entries
  /\ Forall (fun e => Entry.IsDir e = true) entries
  /\ (forall e, e ∈ [Entry.mk (str "docs") true; Entry.mk (str ".cache") true;
                     Entry.mk (str "notes.txt") false] ->
                Entry.IsDir e = true -> e ∈ entries)
  /\ (str "/home/u" <> str "/" -> str "/home/u" <> [] ->
      head entries = Some (Entry.mk (str "..") true))
  /\ Update host_docs model_browser (loadBrowserEntries host_docs (str "/home/u"))
     = Some (mkStep (withBrowser
                       (Browser.mk (Browser.currentPath (Model.browser model_browser))
                                   entries 0 []) model_browser) CmdNil []).
Proof.
apply (browser_lists_directories host_docs model_browser (str "/home/u") eq_refl).
Defined.

Lemma browser_round_trip_witness :
exists s1 s2 s3,
  Update host_docs model_browser (MsgKey (str "enter")) = Some s1
  /\ cmd s1 = CmdLoadBrowserEntries (Filepath.Join (str "/home/u") (str "docs"))
  /\ Browser.currentPath (Model.browser (next s1))
     = Filepath.Join (str "/home/u") (str "docs")
  /\ Update host_docs (next s1)
       (loadBrowserEntries host_docs (Filepath.Join (str "/home/u") (str "docs"))) = Some s2
  /\ index (Browser.entries (Model.browser (next s2)))
           (Browser.selected (Model.browser (next s2)))
     = Some (Entry.mk (str "..") true)
  /\ Update host_docs (next s2) (MsgKey (str "enter")) = Some s3
  /\ cmd s3 = CmdLoadBrowserEntries (str "/home/u")
  /\ Browser.currentPath (Model.browser (next s3)) = str "/home/u"
  /\ Model.state (next s3) = stateBrowser.
Proof.
apply (browser_round_trip host_docs host_docs host_docs model_browser (str "docs") []
         (str "enter")); try reflexivity.
valid_name.
Defined.

Lemma viewBrowser_path_fits_witness :
viewBrowser_wrappedPath (withWindowSize (mkWindowSizeMsg 10 24) model_browser) = None.
Proof.
apply (proj2 (proj1 (viewBrowser_path_fits
                       (withWindowSize (mkWindowSizeMsg 10 24) model_browser)))).
cbn. lia.
Defined.

Example viewBrowser_paths :
viewBrowser_wrappedPath (withWindowSize (mkWindowSizeMsg 20 24) model_browser)
= Some (str "/h...")
/\ viewBrowser_wrappedPath model_browser = Some (str "/home/u").
Proof. vm_compute. split; reflexivity. Qed.

Lemma viewBrowser_shows_selection_witness :
let b := Model.browser model_browser in
let start := fst (viewBrowser_window model_browser) in
let end_ := snd (viewBrowser_window model_browser) in
0 <= start <= Browser.selected b
/\ Browser.selected b < end_ <= len (Browser.entries b)
/\ end_ - start <= getBrowserDisplayLines model_browser
/\ exists l, viewBrowser_listed model_browser = Some l
             /\ len l = end_ - start
             /\ l !! Z.to_nat (Browser.selected b - start)
                = index (Browser.entries b) (Browser.selected b).
Proof.
apply (viewBrowser_shows_selection model_browser).
- split; cbn; [lia|left; reflexivity].
- reflexivity.
Defined.

Lemma layout_fits_witness :
getProgressBarWidth model0 <= getWidth model0 /\ getTableWidth model0 <= getWidth model0.
Proof.
pose proof (layout_fits model0) as (_ & _ & _ & _ & Hbar & Htable & _).
split; [apply Hbar|apply Htable]; vm_compute; discriminate.
Defined.

End FurtherConcreteRuns.
